(** * Gentzen: formula lexer, parser, rule engine and bounded proof search

    A shallow embedding of [utilities/formulaLexer.js],
    [utilities/formulaParser.js], [utilities/formulaAST.js],
    [utilities/formulaUtils.js] and [gentzen.js], of the scenario loader
    of [loadFromYaml.js], the evaluation of targets of [main.js] and the
    formula checks of [validator.js], followed by the properties
    established about them. *)

From Stdlib Require Import String Ascii.
From Stdlib Require Import List NArith ZArith Arith Bool Lia Sorted.
Import ListNotations.

Set Implicit Arguments.

(* ================================================================== *)
(** ** JavaScript strings *)
(* ================================================================== *)

(** A JavaScript string is a sequence of UTF-16 code units; indexing
    ([s[i]]), [slice], [startsWith] and the single-character regular
    expressions of the lexer all work on code units. *)
Definition jschar := N.
Definition jsstring := list jschar.

Module JsString.

(** Decoder for the UTF-8 bytes of a literal of this file into the code
    units of the corresponding JavaScript literal. *)
Fixpoint of_bytes (bs : list N) : jsstring :=
  match bs with
  | [] => []
  | b1 :: tl1 =>
      if (b1 <? 128)%N then b1 :: of_bytes tl1
      else if (b1 <? 224)%N then
        match tl1 with
        | b2 :: tl2 =>
            (N.land b1 31 * 64 + N.land b2 63)%N :: of_bytes tl2
        | [] => [b1]
        end
      else if (b1 <? 240)%N then
        match tl1 with
        | b2 :: b3 :: tl3 =>
            (N.land b1 15 * 4096 + N.land b2 63 * 64 + N.land b3 63)%N
              :: of_bytes tl3
        | _ => [b1]
        end
      else
        match tl1 with
        | b2 :: b3 :: b4 :: tl4 =>
            let cp := (N.land b1 7 * 262144 + N.land b2 63 * 4096
                       + N.land b3 63 * 64 + N.land b4 63 - 65536)%N in
            (55296 + cp / 1024)%N :: (56320 + cp mod 1024)%N :: of_bytes tl4
        | _ => [b1]
        end
  end.

Definition lit (s : string) : jsstring :=
  of_bytes (map N_of_ascii (list_ascii_of_string s)).

Definition eqb (a b : jsstring) : bool :=
  if list_eq_dec N.eq_dec a b then true else false.

(** [s.startsWith(p)] *)
Fixpoint startsWith (s p : jsstring) {struct p} : bool :=
  match p with
  | [] => true
  | c :: p' =>
      match s with
      | d :: s' => (c =? d)%N && startsWith s' p'
      | [] => false
      end
  end.

(** [s.slice(n)] for [0 <= n]. *)
Definition slice (s : jsstring) (n : nat) : jsstring := skipn n s.

(** The characters matched by [\s], which are also those removed by
    [trim]. *)
Definition isWhitespace (c : jschar) : bool :=
  ((9 <=? c) && (c <=? 13) || (c =? 32) || (c =? 160) || (c =? 5760)
   || (8192 <=? c) && (c <=? 8202) || (c =? 8232) || (c =? 8233)
   || (c =? 8239) || (c =? 8287) || (c =? 12288) || (c =? 65279))%N.

(** [/[A-Za-z]/] *)
Definition isLetter (c : jschar) : bool :=
  ((65 <=? c) && (c <=? 90) || (97 <=? c) && (c <=? 122))%N.

(** [/[A-Za-z0-9_]/] *)
Definition isIdentChar (c : jschar) : bool :=
  (isLetter c || (48 <=? c) && (c <=? 57) || (c =? 95))%N.

Fixpoint dropWhile (f : jschar -> bool) (s : jsstring) : jsstring :=
  match s with
  | [] => []
  | c :: s' => if f c then dropWhile f s' else s
  end.

Fixpoint takeWhile (f : jschar -> bool) (s : jsstring) : jsstring :=
  match s with
  | [] => []
  | c :: s' => if f c then c :: takeWhile f s' else []
  end.

(** [s.trim()] *)
Definition trim (s : jsstring) : jsstring :=
  rev (dropWhile isWhitespace (rev (dropWhile isWhitespace s))).

(** Comparison of the default [Array.prototype.sort]: code unit by code
    unit, a proper prefix first. *)
Fixpoint leb (a b : jsstring) : bool :=
  match a, b with
  | [], _ => true
  | _ :: _, [] => false
  | c :: a', d :: b' =>
      if (c <? d)%N then true
      else if (d <? c)%N then false
      else leb a' b'
  end.

End JsString.

Definition js : string -> jsstring := JsString.lit.

Definition c_lparen : jschar := 40%N.      (* ( *)
Definition c_rparen : jschar := 41%N.      (* ) *)
Definition c_space  : jschar := 32%N.
Definition c_tilde  : jschar := 126%N.     (* ~ *)
Definition c_and    : jschar := 8743%N.    (* U+2227 *)
Definition c_or     : jschar := 8744%N.    (* U+2228 *)
Definition c_implies : jschar := 8594%N.   (* U+2192 *)
Definition c_iff    : jschar := 8596%N.    (* U+2194 *)

(* ================================================================== *)
(** ** Outcomes of a call *)
(* ================================================================== *)

(** formulaAST.js, [OperatorType]. *)
Inductive OperatorType := NOT | AND | OR | IMPLIES | IFF.

(** formulaLexer.js, [TokenType]. *)
Inductive TokenType := IDENTIFIER | OPERATOR | LPAREN | RPAREN | EOF.

(** The [value] of a token: the text of an identifier or parenthesis, the
    canonical operator tag of an operator token, [null] for the end
    token. *)
Inductive TokenValue :=
| VString (s : jsstring)
| VOperator (o : OperatorType)
| VNull.

Record Token := mkToken {
  tok_type : TokenType;
  tok_value : TokenValue;
  tok_position : nat
}.

(** The messages of [ParseError]. *)
Inductive ParseMessage :=
| Message (text : jsstring)
| ExpectedButFound (expected : jsstring) (actual : option Token)
| ExpectedIdentifierOrLParen (actual : option Token)
| UnexpectedTokenAfterFormula (actual : Token).

(** The messages of the errors thrown by the rule operations. *)
Inductive RuleMessage :=
| StepMustContainExactlyOneFormula
| UnknownSubtypeForAlphaRule
| FormulaIsNotAnImplication.

(** Everything the modelled code throws. *)
Inductive Error :=
| UnexpectedCharacter (c : jschar) (position : nat)
| UnknownOperatorStartingWith (c : option jschar) (position : nat)
| InvalidIdentifierStart (c : option jschar) (position : nat)
| ParseError (msg : ParseMessage) (position : nat) (token : option Token)
| RuleError (msg : RuleMessage)
| TypeError.

(** A call returns, throws, or (in the bounded models of the loops only)
    runs out of fuel. *)
Inductive Outcome (A : Type) :=
| Ret (a : A)
| Throw (e : Error)
| Diverge.
Arguments Ret {A} a.
Arguments Throw {A} e.
Arguments Diverge {A}.

Definition obind {A B} (m : Outcome A) (k : A -> Outcome B) : Outcome B :=
  match m with
  | Ret a => k a
  | Throw e => Throw e
  | Diverge => Diverge
  end.

Declare Scope outcome_scope.
Delimit Scope outcome_scope with outcome.
Notation "x <- m ;; k" := (obind m (fun x => k))
  (at level 61, m at next level, right associativity) : outcome_scope.
Notation "' pat <- m ;; k" := (obind m (fun x => match x with pat => k end))
  (at level 61, pat pattern, m at next level, right associativity)
  : outcome_scope.
Open Scope outcome_scope.

Definition returns {A} (m : Outcome A) : Prop := exists a, m = Ret a.
Definition throws {A} (m : Outcome A) : Prop := exists e, m = Throw e.
Definition terminates {A} (m : Outcome A) : Prop := m <> Diverge.

(* ================================================================== *)
(** ** formulaLexer.js *)
(* ================================================================== *)

Module Lexer.

(** [OPERATOR_MAPPINGS], in the order of its keys. *)
Definition OPERATOR_MAPPINGS : list (jsstring * OperatorType) :=
  [ (js "∧", AND); (js "AND", AND); (js "&", AND);
    (js "∨", OR); (js "OR", OR); (js "|", OR);
    (js "→", IMPLIES); (js "IMPLIES", IMPLIES); (js "->", IMPLIES);
    (js "=>", IMPLIES);
    (js "↔", IFF); (js "IFF", IFF); (js "<->", IFF); (js "<=>", IFF);
    (js "~", NOT); (js "NOT", NOT); (js "!", NOT) ].

(** [keys.sort((a, b) => b.length - a.length)]: a stable sort, longest
    first.  The entries are sorted together with their canonical tag. *)
Fixpoint insertByLength (x : jsstring * OperatorType)
         (l : list (jsstring * OperatorType)) :=
  match l with
  | [] => [x]
  | y :: l' =>
      if length (fst y) <=? length (fst x) then x :: l
      else y :: insertByLength x l'
  end.

Definition sortByLengthDesc (l : list (jsstring * OperatorType)) :=
  fold_right insertByLength [] l.

Record t := mk {
  input : jsstring;
  position : nat
}.

(** [new FormulaLexer(input)] *)
Definition new (s : jsstring) : t := mk (JsString.trim s) 0.

(** [this.current_char]: [input[position]], or [null] past the end. *)
Definition current_char (lx : t) : option jschar :=
  nth_error (input lx) (position lx).

(** [this.input.slice(this.position)] *)
Definition remaining (lx : t) : jsstring :=
  JsString.slice (input lx) (position lx).

Definition advance (lx : t) : t := mk (input lx) (position lx + 1).

Definition advanceBy (n : nat) (lx : t) : t :=
  mk (input lx) (position lx + n).

(** [skipWhitespace]: advance while the current character is
    whitespace. *)
Definition skipWhitespace (lx : t) : t :=
  advanceBy (length (JsString.takeWhile JsString.isWhitespace (remaining lx)))
            lx.

(** [readIdentifier] *)
Definition readIdentifier (lx : t) : Outcome (Token * t) :=
  let start_pos := position lx in
  match current_char lx with
  | Some c =>
      if JsString.isLetter c then
        let result := JsString.takeWhile JsString.isIdentChar (remaining lx) in
        Ret (mkToken IDENTIFIER (VString result) start_pos,
             advanceBy (length result) lx)
      else Throw (InvalidIdentifierStart (Some c) (position lx))
  | None => Throw (InvalidIdentifierStart None (position lx))
  end.

(** [readOperator] *)
Definition readOperator (lx : t) : Outcome (Token * t) :=
  let start_pos := position lx in
  let operators := sortByLengthDesc OPERATOR_MAPPINGS in
  match find (fun op => JsString.startsWith (remaining lx) (fst op))
             operators with
  | Some (op, canonical) =>
      Ret (mkToken OPERATOR (VOperator canonical) start_pos,
           advanceBy (length op) lx)
  | None => Throw (UnknownOperatorStartingWith (current_char lx) (position lx))
  end.

(** [startsOperator] *)
Definition startsOperator (lx : t) : bool :=
  match current_char lx with
  | None => false
  | Some _ =>
      existsb (fun op => JsString.startsWith (remaining lx) (fst op))
              OPERATOR_MAPPINGS
  end.

(** The body of the loop of [getNextToken] once the current character
    is known not to be whitespace. *)
Definition dispatch (lx : t) : Outcome (Token * t) :=
  match current_char lx with
  | None => Ret (mkToken EOF VNull (position lx), lx)
  | Some c =>
      if (c =? c_lparen)%N then
        Ret (mkToken LPAREN (VString [c_lparen]) (position lx), advance lx)
      else if (c =? c_rparen)%N then
        Ret (mkToken RPAREN (VString [c_rparen]) (position lx), advance lx)
      else if startsOperator lx then readOperator lx
      else if JsString.isLetter c then readIdentifier lx
      else Throw (UnexpectedCharacter c (position lx))
  end.

(** [getNextToken]: a whitespace character makes the loop skip the
    whole run of whitespace and start over, where the current character
    is no longer whitespace. *)
Definition getNextToken (lx : t) : Outcome (Token * t) :=
  match current_char lx with
  | None => Ret (mkToken EOF VNull (position lx), lx)
  | Some c =>
      if JsString.isWhitespace c then dispatch (skipWhitespace lx)
      else dispatch lx
  end.

(** The loop of [tokenize]; [fuel] bounds the number of tokens read. *)
Fixpoint tokenizeLoop (fuel : nat) (lx : t) : Outcome (list Token) :=
  match fuel with
  | 0 => Diverge
  | S fuel' =>
      '(token, lx') <- getNextToken lx ;;
      match tok_type token with
      | EOF => Ret [token]
      | _ => tokens <- tokenizeLoop fuel' lx' ;; Ret (token :: tokens)
      end
  end.

(** [lexer.tokenize()]: every token before the end token takes at
    least one character. *)
Definition tokenizeAll (lx : t) : Outcome (list Token) :=
  tokenizeLoop (S (length (input lx))) lx.

(** [tokenize(input)] *)
Definition tokenize (s : jsstring) : Outcome (list Token) :=
  tokenizeAll (new s).

End Lexer.

Definition tok_values (ts : list Token) : list TokenValue := map tok_value ts.

(* ================================================================== *)
(** ** formulaAST.js *)
(* ================================================================== *)

(** [AtomNode], [UnaryNode] and [BinaryNode]. *)
Inductive AST :=
| AtomNode (name : jsstring)
| UnaryNode (operator : OperatorType) (operand : AST)
| BinaryNode (operator : OperatorType) (lhs rhs : AST).

Definition OperatorType_eqb (a b : OperatorType) : bool :=
  match a, b with
  | NOT, NOT | AND, AND | OR, OR | IMPLIES, IMPLIES | IFF, IFF => true
  | _, _ => false
  end.

(** The operator tags as the strings they are in the source. *)
Definition OperatorType_name (o : OperatorType) : jsstring :=
  match o with
  | NOT => js "not"
  | AND => js "and"
  | OR => js "or"
  | IMPLIES => js "implies"
  | IFF => js "iff"
  end.

(** [opSymbols[this.operator] || this.operator] *)
Definition opSymbol (o : OperatorType) : jsstring :=
  match o with
  | AND => [c_and]
  | OR => [c_or]
  | IMPLIES => [c_implies]
  | IFF => [c_iff]
  | NOT => OperatorType_name NOT
  end.

(** The [toString] methods of the three node classes, which
    [astToString] calls. *)
Fixpoint astToString (ast : AST) : jsstring :=
  match ast with
  | AtomNode name => name
  | UnaryNode _ operand => c_tilde :: astToString operand
  | BinaryNode operator lhs rhs =>
      [c_lparen] ++ astToString lhs ++ [c_space] ++ opSymbol operator
      ++ [c_space] ++ astToString rhs ++ [c_rparen]
  end.

(** [Set.prototype.add] on a set kept in insertion order. *)
Definition set_add (x : jsstring) (s : list jsstring) : list jsstring :=
  if existsb (JsString.eqb x) s then s else s ++ [x].

Definition set_has (s : list jsstring) (x : jsstring) : bool :=
  existsb (JsString.eqb x) s.

(** [new Set(array)] *)
Definition set_of_list (l : list jsstring) : list jsstring :=
  fold_left (fun s x => set_add x s) l [].

Fixpoint collectAtoms (node : AST) (atoms : list jsstring) : list jsstring :=
  match node with
  | AtomNode name => set_add name atoms
  | UnaryNode _ operand => collectAtoms operand atoms
  | BinaryNode _ lhs rhs => collectAtoms rhs (collectAtoms lhs atoms)
  end.

Definition getAtoms (ast : AST) : list jsstring := collectAtoms ast [].

Fixpoint astEquals (ast1 ast2 : AST) : bool :=
  match ast1, ast2 with
  | AtomNode n1, AtomNode n2 => JsString.eqb n1 n2
  | UnaryNode o1 a1, UnaryNode o2 a2 =>
      OperatorType_eqb o1 o2 && astEquals a1 a2
  | BinaryNode o1 l1 r1, BinaryNode o2 l2 r2 =>
      OperatorType_eqb o1 o2 && astEquals l1 l2 && astEquals r1 r2
  | _, _ => false
  end.

Fixpoint normalizeAST (ast : AST) : AST :=
  match ast with
  | AtomNode _ => ast
  | UnaryNode operator operand =>
      match operator, operand with
      | NOT, UnaryNode NOT inner => normalizeAST inner
      | _, _ => UnaryNode operator (normalizeAST operand)
      end
  | BinaryNode operator lhs rhs =>
      BinaryNode operator (normalizeAST lhs) (normalizeAST rhs)
  end.

Definition isImplication (ast : AST) : bool :=
  match ast with
  | BinaryNode IMPLIES _ _ => true
  | _ => false
  end.

(** [getImplicationParts]: [(antecedent, consequent)], or [null]. *)
Definition getImplicationParts (ast : AST) : option (AST * AST) :=
  match ast with
  | BinaryNode IMPLIES lhs rhs => Some (lhs, rhs)
  | _ => None
  end.

Definition negate (ast : AST) : AST := UnaryNode NOT ast.
Definition createConjunction (l r : AST) : AST := BinaryNode AND l r.
Definition createDisjunction (l r : AST) : AST := BinaryNode OR l r.
Definition createImplication (l r : AST) : AST := BinaryNode IMPLIES l r.
Definition createEquivalence (l r : AST) : AST := BinaryNode IFF l r.
Definition createAtom (name : jsstring) : AST := AtomNode name.

(* ================================================================== *)
(** ** formulaParser.js *)
(* ================================================================== *)

Module Parser.

Record t := mk {
  tokens : list Token;
  position : nat
}.

Definition new (ts : list Token) : t := mk ts 0.

(** [this.currentToken]: [tokens[position]], or [null] past the end. *)
Definition currentToken (p : t) : option Token :=
  nth_error (tokens p) (position p).

Definition advance (p : t) : t := mk (tokens p) (position p + 1).

Definition TokenType_eqb (a b : TokenType) : bool :=
  match a, b with
  | IDENTIFIER, IDENTIFIER | OPERATOR, OPERATOR | LPAREN, LPAREN
  | RPAREN, RPAREN | EOF, EOF => true
  | _, _ => false
  end.

Definition TokenValue_eqb (a b : TokenValue) : bool :=
  match a, b with
  | VString x, VString y => JsString.eqb x y
  | VOperator x, VOperator y => OperatorType_eqb x y
  | VNull, VNull => true
  | _, _ => false
  end.

(** [match(tokenType, value = null)] *)
Definition match_ (p : t) (tokenType : TokenType)
           (value : option TokenValue) : bool :=
  match currentToken p with
  | None => false
  | Some tok =>
      if negb (TokenType_eqb (tok_type tok) tokenType) then false
      else match value with
           | Some v => TokenValue_eqb (tok_value tok) v
           | None => true
           end
  end.

(** [this.currentToken?.position || this.position] *)
Definition errorPosition (p : t) : nat :=
  match currentToken p with
  | Some tok => if tok_position tok =? 0 then position p else tok_position tok
  | None => position p
  end.

(** [consume(tokenType, value, errorMsg)] *)
Definition consume (p : t) (tokenType : TokenType) (value : jsstring)
           (errorMsg : option jsstring) : Outcome (Token * t) :=
  match currentToken p with
  | Some tok =>
      if match_ p tokenType (Some (VString value)) then Ret (tok, advance p)
      else
        Throw (ParseError
                 match errorMsg with
                 | Some m => Message m
                 | None => ExpectedButFound value (currentToken p)
                 end
                 (errorPosition p) (currentToken p))
  | None =>
      Throw (ParseError
               match errorMsg with
               | Some m => Message m
               | None => ExpectedButFound value None
               end
               (errorPosition p) None)
  end.

(** The [while (this.match(OPERATOR, op))] loop shared by the three
    left-associative levels; [operand] parses the next operand and
    [create] builds the node. *)
Fixpoint parseLeftAssoc (fuel : nat) (op : OperatorType)
         (operand : t -> Outcome (AST * t)) (create : AST -> AST -> AST)
         (lhs : AST) (p : t) : Outcome (AST * t) :=
  match fuel with
  | 0 => Diverge
  | S fuel' =>
      if match_ p OPERATOR (Some (VOperator op)) then
        '(rhs, p') <- operand (advance p) ;;
        parseLeftAssoc fuel' op operand create (create lhs rhs) p'
      else Ret (lhs, p)
  end.

(** The recursive-descent functions; [fuel] bounds the depth of the
    calls.  The value of an identifier token is its text, as the lexer
    builds it; an identifier token with any other value is kept out of the
    trees by an error. *)
Fixpoint parseEquivalence (fuel : nat) (p : t) : Outcome (AST * t) :=
  match fuel with
  | 0 => Diverge
  | S fuel' =>
      '(lhs, p1) <- parseImplication fuel' p ;;
      parseLeftAssoc fuel' IFF (parseImplication fuel') createEquivalence
                     lhs p1
  end

with parseImplication (fuel : nat) (p : t) : Outcome (AST * t) :=
  match fuel with
  | 0 => Diverge
  | S fuel' =>
      '(lhs, p1) <- parseDisjunction fuel' p ;;
      if match_ p1 OPERATOR (Some (VOperator IMPLIES)) then
        '(rhs, p2) <- parseImplication fuel' (advance p1) ;;
        Ret (createImplication lhs rhs, p2)
      else Ret (lhs, p1)
  end

with parseDisjunction (fuel : nat) (p : t) : Outcome (AST * t) :=
  match fuel with
  | 0 => Diverge
  | S fuel' =>
      '(lhs, p1) <- parseConjunction fuel' p ;;
      parseLeftAssoc fuel' OR (parseConjunction fuel') createDisjunction
                     lhs p1
  end

with parseConjunction (fuel : nat) (p : t) : Outcome (AST * t) :=
  match fuel with
  | 0 => Diverge
  | S fuel' =>
      '(lhs, p1) <- parseNegation fuel' p ;;
      parseLeftAssoc fuel' AND (parseNegation fuel') createConjunction
                     lhs p1
  end

with parseNegation (fuel : nat) (p : t) : Outcome (AST * t) :=
  match fuel with
  | 0 => Diverge
  | S fuel' =>
      if match_ p OPERATOR (Some (VOperator NOT)) then
        '(operand, p1) <- parseNegation fuel' (advance p) ;;
        Ret (negate operand, p1)
      else parsePrimary fuel' p
  end

with parsePrimary (fuel : nat) (p : t) : Outcome (AST * t) :=
  match fuel with
  | 0 => Diverge
  | S fuel' =>
      if match_ p LPAREN None then
        '(expr, p1) <- parseEquivalence fuel' (advance p) ;;
        '(_, p2) <- consume p1 RPAREN [c_rparen]
                      (Some (js "Expected ')' after expression")) ;;
        Ret (expr, p2)
      else if match_ p IDENTIFIER None then
        match currentToken p with
        | Some {| tok_value := VString name |} =>
            Ret (createAtom name, advance p)
        | _ => Throw TypeError
        end
      else
        Throw (ParseError (ExpectedIdentifierOrLParen (currentToken p))
                          (errorPosition p) (currentToken p))
  end.

(** Enough fuel for any token array of this length. *)
Definition fuelFor (ts : list Token) : nat := 10 * length ts + 10.

(** [parse()].  The functions above throw nothing but [ParseError], which
    the handler rethrows unchanged. *)
Definition parse (p : t) : Outcome AST :=
  '(ast, p') <- parseEquivalence (fuelFor (tokens p)) p ;;
  match currentToken p' with
  | Some tok =>
      match tok_type tok with
      | EOF => Ret ast
      | _ => Throw (ParseError (UnexpectedTokenAfterFormula tok)
                               (tok_position tok) (Some tok))
      end
  | None => Ret ast
  end.

End Parser.

(** [parseFormulaFromString(input)] *)
Definition parseFormulaFromString (input : jsstring) : Outcome AST :=
  tokens <- Lexer.tokenize input ;;
  Parser.parse (Parser.new tokens).

(* ================================================================== *)
(** ** gentzen.js: parseFormula; formulaUtils.js *)
(* ================================================================== *)

(** The object returned by [parseFormula]; its [toString] is
    [pf_toString]. *)
Record ParsedFormula := mkParsed {
  raw : jsstring;
  ast : AST
}.

Definition parseFormula (formulaStr : jsstring) : Outcome ParsedFormula :=
  ast <- parseFormulaFromString formulaStr ;;
  Ret (mkParsed formulaStr (normalizeAST ast)).

Definition pf_toString (f : ParsedFormula) : jsstring := astToString (ast f).

(** [normalizeFormula(formula)] *)
Definition normalizeFormula (formula : jsstring) : Outcome jsstring :=
  parsed <- parseFormula formula ;;
  Ret (pf_toString parsed).

(** [extractFormulaAtoms(formula)] *)
Definition extractFormulaAtoms (formula : jsstring) : Outcome (list jsstring) :=
  parsed <- parseFormula formula ;;
  Ret (getAtoms (ast parsed)).

(** [canonicalDoubleNeg(formula)]: strip every leading pair of tildes. *)
Fixpoint canonicalDoubleNeg (formula : jsstring) : jsstring :=
  match formula with
  | c1 :: c2 :: rest =>
      if ((c1 =? c_tilde) && (c2 =? c_tilde))%N then canonicalDoubleNeg rest
      else formula
  | _ => formula
  end.

(** [atom.replace(/^~+/, '')] *)
Definition stripLeadingTildes (atom : jsstring) : jsstring :=
  JsString.dropWhile (fun c => (c =? c_tilde)%N) atom.

(** [extractMissingFactsFromFormula(formula, isAtomResolvableCallback)] *)
Definition extractMissingFactsFromFormula (formula : jsstring)
           (isAtomResolvableCallback : jsstring -> bool)
  : Outcome (bool * list jsstring) :=
  parsed <- parseFormula formula ;;
  let atoms := getAtoms (ast parsed) in
  let missing :=
    map stripLeadingTildes
        (filter (fun atom => negb (isAtomResolvableCallback atom)) atoms) in
  Ret (match missing with [] => true | _ => false end, missing).

(* ================================================================== *)
(** ** gentzen.js: the derivation state and its rules *)
(* ================================================================== *)

Definition MAX_ITERATIONS : nat := 1000.
Definition MAX_QUEUE_SIZE : nat := 1000.
Definition MAX_STEPS : nat := 100.

(** A derivation step: [{ origin, ruleType, from, formulas }]; [formulas]
    is a [Set], kept in insertion order. *)
#[local] Unset Elimination Schemes.
Inductive Step := mkStep {
  origin : jsstring;
  ruleType : jsstring;
  from : list Step;
  formulas : list jsstring
}.
#[local] Set Elimination Schemes.

(** The records the scenario loader pushes on [skippedSteps]. *)
Record SkippedStep := mkSkipped {
  stepIndex : nat;
  skippedRule : jsstring;
  skippedFrom : list jsstring;
  skippedMissing : list jsstring
}.

(** The fields of a [GentzenSystem] the modelled methods read or write;
    [facts] and [missingFacts] are [Set]s, kept in insertion order. *)
Record GentzenSystem := mkSystem {
  steps : list Step;
  facts : list jsstring;
  missingFacts : list jsstring;
  skippedSteps : list SkippedStep
}.

(** [new GentzenSystem()] *)
Definition emptySystem : GentzenSystem := mkSystem [] [] [] [].

(** A method of a [GentzenSystem]: it runs on the state [this], returns or
    throws, and leaves a state behind in either case. *)
Definition Method (A : Type) : Type :=
  GentzenSystem -> Outcome A * GentzenSystem.

Definition mret {A} (a : A) : Method A := fun this => (Ret a, this).

Definition mbind {A B} (m : Method A) (k : A -> Method B) : Method B :=
  fun this =>
    match m this with
    | (Ret a, this') => k a this'
    | (Throw e, this') => (Throw e, this')
    | (Diverge, this') => (Diverge, this')
    end.

(** A call that does not touch the state. *)
Definition lift {A} (o : Outcome A) : Method A := fun this => (o, this).

Definition pushStep (s : Step) : Method unit :=
  fun this =>
    (Ret tt, mkSystem (steps this ++ [s]) (facts this) (missingFacts this)
                      (skippedSteps this)).

Declare Scope method_scope.
Delimit Scope method_scope with method.
Notation "x <~ m ;; k" := (mbind m (fun x => k))
  (at level 61, m at next level, right associativity) : method_scope.
Notation "m ;;; k" := (mbind m (fun _ => k))
  (at level 61, right associativity) : method_scope.
Open Scope method_scope.

(** [cloneSystem(system)] *)
Definition cloneSystem (system : GentzenSystem) : GentzenSystem :=
  mkSystem
    (map (fun step => mkStep (origin step) (ruleType step) (from step)
                             (formulas step))
         (steps system))
    (facts system) [] [].

(** Insertion of [x] in a list sorted by [JsString.leb]. *)
Fixpoint sortInsert (x : jsstring) (l : list jsstring) : list jsstring :=
  match l with
  | [] => [x]
  | y :: l' => if JsString.leb x y then x :: l else y :: sortInsert x l'
  end.

(** [array.sort()] on strings. *)
Definition sortStrings (l : list jsstring) : list jsstring :=
  fold_right sortInsert [] l.

(** [array.join(sep)] *)
Fixpoint join (sep : jsstring) (l : list jsstring) : jsstring :=
  match l with
  | [] => []
  | [x] => x
  | x :: l' => x ++ sep ++ join sep l'
  end.

(** Every formula of the steps, then every fact, each through
    [canonicalDoubleNeg]. *)
Definition knownFormulas (system : GentzenSystem) : list jsstring :=
  flat_map (fun step => map canonicalDoubleNeg (formulas step)) (steps system)
  ++ map canonicalDoubleNeg (facts system).

(** [getSystemSignature(system)] *)
Definition getSystemSignature (system : GentzenSystem) : jsstring :=
  let uniqueSorted := sortStrings (set_of_list (knownFormulas system)) in
  join (js " | ") uniqueSorted.

(** [didWeDeriveNewFormula(originalSystem, newSystem, newStep)] *)
Definition didWeDeriveNewFormula (originalSystem newSystem : GentzenSystem)
           (newStep : Step) : bool :=
  let known := set_of_list (knownFormulas originalSystem) in
  existsb (fun f => negb (set_has known (canonicalDoubleNeg f)))
          (formulas newStep).

(** [getUniqueFormula(step)] *)
Definition getUniqueFormula (step : Step) : Outcome jsstring :=
  match formulas step with
  | [f] => Ret f
  | _ => Throw (RuleError StepMustContainExactlyOneFormula)
  end.

(** [addFact(formulaStr)] *)
Definition addFact (formulaStr : jsstring) : Method unit :=
  fun this =>
    (Ret tt, mkSystem (steps this) (set_add formulaStr (facts this))
                      (missingFacts this) (skippedSteps this)).

(** [isFactAvailable(factName)] *)
Definition isFactAvailable (this : GentzenSystem) (factName : jsstring) : bool :=
  if set_has (facts this) factName then true
  else existsb (fun step => set_has (formulas step) factName) (steps this).

(** [isAtomResolvable(atom)] *)
Definition isAtomResolvable (this : GentzenSystem) (atom : jsstring) : bool :=
  if isFactAvailable this atom then true
  else if JsString.startsWith atom [c_tilde] then
    let baseFact := JsString.slice atom 1 in
    negb (isFactAvailable this baseFact)
  else isFactAvailable this (c_tilde :: atom).

(** [trackMissingFact(factName)] *)
Definition trackMissingFact (factName : jsstring) : Method unit :=
  fun this =>
    (Ret tt, mkSystem (steps this) (facts this)
                      (set_add factName (missingFacts this))
                      (skippedSteps this)).

(** [addProposition(formulaStr)] *)
Definition addProposition (formulaStr : jsstring) : Method Step :=
  let step := mkStep (js "Proposition") (js "fact") [] [formulaStr] in
  pushStep step ;;; mret step.

(** The first element of [l] for which [f] returns true stops the loop; an
    exception raised on the way does too. *)
Fixpoint oexists {A} (f : A -> Outcome bool) (l : list A) : Outcome bool :=
  match l with
  | [] => Ret false
  | x :: l' => b <- f x ;; if b then Ret true else oexists f l'
  end.

(** [isProved(targetFormula)] *)
Definition isProved (this : GentzenSystem) (targetFormula : jsstring)
  : Outcome bool :=
  normalizedTarget <- normalizeFormula targetFormula ;;
  let same f :=
    normalized <- normalizeFormula f ;;
    Ret (JsString.eqb normalized normalizedTarget) in
  inFacts <- oexists same (facts this) ;;
  if inFacts then Ret true
  else oexists (fun step => oexists same (formulas step)) (steps this).

(** [canResolveFormula(formula)]: [(canResolve, missing)]. *)
Definition canResolveFormula (this : GentzenSystem) (formula : jsstring)
  : Outcome (bool * list jsstring) :=
  extractMissingFactsFromFormula formula (isAtomResolvable this).

(** [alphaRule(step1, step2, ruleType)] *)
Definition alphaRule (step1 step2 : Step) (ruleType : jsstring) : Method Step :=
  A <~ lift (getUniqueFormula step1) ;;
  B <~ lift (getUniqueFormula step2) ;;
  newFormula <~ lift (
    if JsString.eqb ruleType (js "and") then
      Ret ([c_lparen] ++ A ++ [c_space; c_and; c_space] ++ B ++ [c_rparen])
    else if JsString.eqb ruleType (js "implies") then
      Ret ([c_lparen] ++ A ++ [c_space; c_implies; c_space] ++ B ++ [c_rparen])
    else Throw (RuleError UnknownSubtypeForAlphaRule)) ;;
  let newStep := mkStep (js "AlphaRule") ruleType [step1; step2] [newFormula] in
  pushStep newStep ;;; mret newStep.

(** [betaRule(step1, step2)] *)
Definition betaRule (step1 step2 : Step) : Method Step :=
  A <~ lift (getUniqueFormula step1) ;;
  B <~ lift (getUniqueFormula step2) ;;
  let newFormula :=
    [c_lparen] ++ A ++ [c_space; c_or; c_space] ++ B ++ [c_rparen] in
  let newStep := mkStep (js "BetaRule") (js "or") [step1; step2] [newFormula] in
  pushStep newStep ;;; mret newStep.

(** [contrapositionRule(step)] *)
Definition contrapositionRule (step : Step) : Method Step :=
  f <~ lift (getUniqueFormula step) ;;
  parsed <~ lift (parseFormula f) ;;
  parts <~ lift (
    if negb (isImplication (ast parsed)) then
      Throw (RuleError FormulaIsNotAnImplication)
    else
      match getImplicationParts (ast parsed) with
      | Some parts => Ret parts
      | None => Throw TypeError
      end) ;;
  let '(antecedent, consequent) := parts in
  let negatedConsequent := negate consequent in
  let negatedAntecedent := negate antecedent in
  let contrapositive := createImplication negatedConsequent negatedAntecedent in
  let newFormula := astToString contrapositive in
  let newStep := mkStep (js "ContrapositionRule") (js "contraposition") [step]
                        [newFormula] in
  pushStep newStep ;;; mret newStep.

(** [doubleNegationRule(step, mode = 'introduction')] *)
Definition doubleNegationRule (step : Step) (mode : jsstring) : Method Step :=
  f <~ lift (getUniqueFormula step) ;;
  let newFormula :=
    if JsString.eqb mode (js "introduction") then
      if JsString.startsWith f [c_tilde; c_tilde] then f
      else [c_tilde; c_tilde] ++ f
    else
      if JsString.startsWith f [c_tilde; c_tilde] then JsString.slice f 2
      else f in
  let newStep :=
    mkStep (js "DoubleNegationRule")
           (if JsString.eqb mode (js "introduction") then js "doubleNegIntro"
            else js "doubleNegElim")
           [step] [newFormula] in
  pushStep newStep ;;; mret newStep.

(** [equivalenceRule(step1, step2)] *)
Definition equivalenceRule (step1 step2 : Step) : Method Step :=
  A <~ lift (getUniqueFormula step1) ;;
  B <~ lift (getUniqueFormula step2) ;;
  let newFormula :=
    [c_lparen] ++ A ++ [c_space; c_iff; c_space] ++ B ++ [c_rparen] in
  let newStep := mkStep (js "EquivalenceRule") (js "equiv") [step1; step2]
                        [newFormula] in
  pushStep newStep ;;; mret newStep.

(* ================================================================== *)
(** ** gentzen.js: bounded proof search *)
(* ================================================================== *)

(** [array.flatMap] for a body that may throw. *)
Fixpoint oflat_map {A B} (f : A -> Outcome (list B)) (l : list A)
  : Outcome (list B) :=
  match l with
  | [] => Ret []
  | x :: l' => ys <- f x ;; zs <- oflat_map f l' ;; Ret (ys ++ zs)
  end.

(** [array[i]] as the argument of a rule: [undefined] makes the rule throw
    when it reads [step.formulas]. *)
Definition withStep (st : option Step) (rule : Step -> Method Step)
  : Method Step :=
  match st with
  | Some step => rule step
  | None => lift (Throw TypeError)
  end.

(** One iteration of the loops of [expandOneLevel]: clone, apply the rule
    to the clone inside [try], keep the clone when the new step holds a
    formula the parent does not know. *)
Definition attempt (this : GentzenSystem)
           (rule : GentzenSystem -> Method Step) : Outcome (list GentzenSystem) :=
  let sysClone := cloneSystem this in
  match rule sysClone sysClone with
  | (Ret newStep, sysClone') =>
      Ret (if didWeDeriveNewFormula this sysClone' newStep then [sysClone']
           else [])
  | (Throw _, _) => Ret []
  | (Diverge, _) => Diverge
  end.

(** The rules tried on the pair [(i, j)], in the order of [combos]. *)
Definition binaryCombos (i j : nat) : list (GentzenSystem -> Method Step) :=
  [ fun c => withStep (nth_error (steps c) i) (fun s1 =>
             withStep (nth_error (steps c) j) (fun s2 =>
               alphaRule s1 s2 (js "and")));
    fun c => withStep (nth_error (steps c) i) (fun s1 =>
             withStep (nth_error (steps c) j) (fun s2 =>
               alphaRule s1 s2 (js "implies")));
    fun c => withStep (nth_error (steps c) i) (fun s1 =>
             withStep (nth_error (steps c) j) (fun s2 => betaRule s1 s2));
    fun c => withStep (nth_error (steps c) i) (fun s1 =>
             withStep (nth_error (steps c) j) (fun s2 =>
               equivalenceRule s1 s2)) ].

(** The rules tried on the single step [i]. *)
Definition unaryCombos (i : nat) : list (GentzenSystem -> Method Step) :=
  [ fun c => withStep (nth_error (steps c) i) contrapositionRule;
    fun c => withStep (nth_error (steps c) i) (fun s =>
               doubleNegationRule s (js "introduction"));
    fun c => withStep (nth_error (steps c) i) (fun s =>
               doubleNegationRule s (js "elimination")) ].

(** [expandOneLevel()] *)
Definition expandOneLevel (this : GentzenSystem)
  : Outcome (list GentzenSystem) :=
  if MAX_STEPS <=? length (steps this) then Ret []
  else
    let stepCount := length (steps this) in
    binary <- oflat_map (fun i =>
                oflat_map (fun j =>
                  oflat_map (attempt this) (binaryCombos i j))
                  (seq 0 stepCount))
                (seq 0 stepCount) ;;
    unary <- oflat_map (fun i => oflat_map (attempt this) (unaryCombos i))
                       (seq 0 stepCount) ;;
    Ret (binary ++ unary).

(** The entries of [result.path]: [`step_${n}`] and ['final_step']. *)
Inductive PathLabel := step_ (n : nat) | final_step.

(** The object [searchForProof] returns. *)
Record SearchResult := mkResult {
  proven : bool;
  path : list PathLabel;
  resultMissingFacts : list jsstring;
  resultSkippedSteps : list SkippedStep;
  depth : nat
}.

(** The entries of the queue. *)
Record QueueEntry := mkEntry {
  entrySystem : GentzenSystem;
  entryDepth : nat;
  entryPath : list PathLabel
}.

(** [result] as it is initialised. *)
Definition initialResult : SearchResult := mkResult false [] [] [] 0.

(** The [for (const child of ...)] loop of [searchForProof]: either the
    search returns from inside it, or it leaves [visited] and [queue]
    updated. *)
Fixpoint scanChildren (targetFormula : jsstring) (depth : nat)
         (path : list PathLabel) (children : list GentzenSystem)
         (visited : list jsstring) (queue : list QueueEntry)
  : Outcome (SearchResult + list jsstring * list QueueEntry) :=
  match children with
  | [] => Ret (inr (visited, queue))
  | child :: rest =>
      proved <- isProved child targetFormula ;;
      if proved then
        Ret (inl (mkResult true (path ++ [final_step]) [] [] (depth + 1)))
      else
        let sig := getSystemSignature child in
        if negb (set_has visited sig) then
          scanChildren targetFormula depth path rest (set_add sig visited)
            (queue ++ [mkEntry child (depth + 1) (path ++ [step_ (depth + 1)])])
        else scanChildren targetFormula depth path rest visited queue
  end.

(** The [while (queue.length)] loop of [searchForProof]; [fuel] bounds
    the number of times its body is entered. *)
Fixpoint searchLoop (fuel : nat) (targetFormula : jsstring) (maxDepth : nat)
         (queue : list QueueEntry) (visited : list jsstring)
         (iterations : nat) : Outcome SearchResult :=
  match fuel with
  | 0 => Diverge
  | S fuel' =>
      match queue with
      | [] => Ret initialResult
      | entry :: queue' =>
          let iterations := iterations + 1 in
          if (MAX_ITERATIONS <? iterations) || (MAX_QUEUE_SIZE <? length queue)
          then Ret initialResult
          else
            let system := entrySystem entry in
            let depth := entryDepth entry in
            let path := entryPath entry in
            proved <- isProved system targetFormula ;;
            if proved then Ret (mkResult true path [] [] depth)
            else if maxDepth <=? depth then
              searchLoop fuel' targetFormula maxDepth queue' visited iterations
            else
              children <- expandOneLevel system ;;
              scanned <- scanChildren targetFormula depth path children
                                      visited queue' ;;
              match scanned with
              | inl result => Ret result
              | inr (visited', queue'') =>
                  searchLoop fuel' targetFormula maxDepth queue'' visited'
                             iterations
              end
      end
  end.

(** [missing.forEach(fact => this.trackMissingFact(fact))] *)
Fixpoint trackAll (missing : list jsstring) : Method unit :=
  match missing with
  | [] => mret tt
  | fact :: rest => trackMissingFact fact ;;; trackAll rest
  end.

(** [searchForProof(targetFormula, maxDepth = 5)].  The body of the loop
    is entered at most [MAX_ITERATIONS + 1] times. *)
Definition searchForProof (targetFormula : jsstring) (maxDepth : nat)
  : Method SearchResult :=
  fun this =>
    (alreadyProved <~ lift (isProved this targetFormula) ;;
     if (alreadyProved : bool) then mret (mkResult true [] [] [] 0)
     else
       resolved <~ lift (canResolveFormula this targetFormula) ;;
       let '(canResolve, missing) := resolved in
       if negb canResolve then
         trackAll missing ;;; mret (mkResult false [] missing [] 0)
       else
         lift (searchLoop (S MAX_ITERATIONS) targetFormula maxDepth
                          [mkEntry this 0 []] [getSystemSignature this] 0))
      this.

(** The step [addProposition] builds for a formula written as a literal. *)
Definition fact (name : string) : Step :=
  mkStep (js "Proposition") (js "fact") [] [js name].

(* ================================================================== *)
(** ** formulaAST.js: traversal, measures and validation *)
(* ================================================================== *)

(** [walkAST(ast, visitor)]: the node first, then its children from left
    to right.  What the visitor does is a change of a state [S]. *)
Fixpoint walkAST {S : Type} (ast : AST) (visitor : AST -> S -> S) (s : S)
  : S :=
  match ast with
  | AtomNode _ => visitor ast s
  | UnaryNode _ operand => walkAST operand visitor (visitor ast s)
  | BinaryNode _ lhs rhs =>
      walkAST rhs visitor (walkAST lhs visitor (visitor ast s))
  end.

(** [isConjunction(ast)] *)
Definition isConjunction (ast : AST) : bool :=
  match ast with
  | BinaryNode AND _ _ => true
  | _ => false
  end.

(** [isDisjunction(ast)] *)
Definition isDisjunction (ast : AST) : bool :=
  match ast with
  | BinaryNode OR _ _ => true
  | _ => false
  end.

(** [isNegation(ast)] *)
Definition isNegation (ast : AST) : bool :=
  match ast with
  | UnaryNode NOT _ => true
  | _ => false
  end.

(** [isAtom(ast)] *)
Definition isAtom (ast : AST) : bool :=
  match ast with
  | AtomNode _ => true
  | _ => false
  end.

(** [getDepth(ast)] *)
Fixpoint getDepth (ast : AST) : nat :=
  match ast with
  | AtomNode _ => 1
  | UnaryNode _ operand => 1 + getDepth operand
  | BinaryNode _ lhs rhs => 1 + Nat.max (getDepth lhs) (getDepth rhs)
  end.

(** [countNodes(ast)] *)
Fixpoint countNodes (ast : AST) : nat :=
  match ast with
  | AtomNode _ => 1
  | UnaryNode _ operand => 1 + countNodes operand
  | BinaryNode _ lhs rhs => 1 + countNodes lhs + countNodes rhs
  end.

(** The inner function of [validateAST], with [errors] as the array it
    pushes on.  A node of this type is never [null], its [type] is one of
    the three and its operator one of the five, so of the checks of the
    source the one on the atom's name is the only one that can fail: it
    does on the empty name. *)
Fixpoint validate (node : AST) (path : jsstring) (errors : list jsstring)
  : list jsstring :=
  match node with
  | AtomNode name =>
      match name with
      | [] => errors ++ [js "Invalid atom name at " ++ path]
      | _ => errors
      end
  | UnaryNode _ operand => validate operand (path ++ js ".operand") errors
  | BinaryNode _ lhs rhs =>
      validate rhs (path ++ js ".right")
               (validate lhs (path ++ js ".left") errors)
  end.

(** The object [validateAST] returns. *)
Record ASTValidation := mkASTValidation {
  av_isValid : bool;
  av_errors : list jsstring
}.

(** [validateAST(ast)] *)
Definition validateAST (ast : AST) : ASTValidation :=
  let errors := validate ast (js "root") [] in
  mkASTValidation (length errors =? 0) errors.

(** The nodes of a tree, each before its children, left before right. *)
Fixpoint preorder (t : AST) : list AST :=
  t :: match t with
       | AtomNode _ => []
       | UnaryNode _ operand => preorder operand
       | BinaryNode _ lhs rhs => preorder lhs ++ preorder rhs
       end.

(* ================================================================== *)
(** ** formulaParser.js: checking a string *)
(* ================================================================== *)

(** An entry of an [errors] array: [error.message], or
    [`Unexpected error: ${error.message}`]; the message is that of the
    error value. *)
Inductive ReportedError :=
| Reported (e : Error)
| UnexpectedError (e : Error).

(** The object [validateFormulaSyntax] returns; [position] is present in
    one of its three shapes only. *)
Record SyntaxValidation := mkSyntaxValidation {
  sv_isValid : bool;
  sv_errors : list ReportedError;
  sv_position : option nat
}.

(** [validateFormulaSyntax(input)] *)
Definition validateFormulaSyntax (input : jsstring)
  : Outcome SyntaxValidation :=
  match parseFormulaFromString input with
  | Ret _ => Ret (mkSyntaxValidation true [] None)
  | Throw (ParseError m position token) =>
      Ret (mkSyntaxValidation false [Reported (ParseError m position token)]
                              (Some position))
  | Throw e => Ret (mkSyntaxValidation false [UnexpectedError e] None)
  | Diverge => Diverge
  end.

(** The object [getParseInfo] returns. *)
Record ParseInfo := mkParseInfo {
  pi_success : bool;
  pi_tokens : list Token;
  pi_ast : option AST;
  pi_errors : list ReportedError
}.

Definition isEOF (t : Token) : bool :=
  match tok_type t with
  | EOF => true
  | _ => false
  end.

(** [getParseInfo(input)] *)
Definition getParseInfo (input : jsstring) : Outcome ParseInfo :=
  match Lexer.tokenize input with
  | Ret tokens =>
      match Parser.parse (Parser.new tokens) with
      | Ret ast =>
          Ret (mkParseInfo true (filter (fun t => negb (isEOF t)) tokens)
                           (Some ast) [])
      | Throw e => Ret (mkParseInfo false [] None [Reported e])
      | Diverge => Diverge
      end
  | Throw e => Ret (mkParseInfo false [] None [Reported e])
  | Diverge => Diverge
  end.

(* ================================================================== *)
(** ** gentzen.js: the steps that hold a formula *)
(* ================================================================== *)

(** [array.filter] for a callback that may throw. *)
Fixpoint ofilter {A} (f : A -> Outcome bool) (l : list A) : Outcome (list A) :=
  match l with
  | [] => Ret []
  | x :: l' =>
      b <- f x ;;
      rest <- ofilter f l' ;;
      Ret (if (b : bool) then x :: rest else rest)
  end.

(** [findStepsContaining(formula)] *)
Definition findStepsContaining (this : GentzenSystem) (formula : jsstring)
  : Outcome (list Step) :=
  normalizedSearchFormula <- normalizeFormula formula ;;
  ofilter (fun step =>
             oexists (fun stepFormula =>
                        normalizedStepFormula <- normalizeFormula stepFormula ;;
                        Ret (JsString.eqb normalizedStepFormula
                                          normalizedSearchFormula))
                     (formulas step))
          (steps this).

(* ================================================================== *)
(** ** loadFromYaml.js: the facts of a scenario *)
(* ================================================================== *)

(** [loadGentzenScenario]: the loop over [Object.entries(factMap)], where
    [factMap] is what [runFactResolvers] returns, a boolean for each fact
    name. *)
Fixpoint addResolvedFacts (factMap : list (jsstring * bool)) : Method unit :=
  match factMap with
  | [] => mret tt
  | (factName, isResolved) :: rest =>
      (if (isResolved : bool) then addFact factName
       else if negb (JsString.startsWith factName [c_tilde]) then
         addFact (c_tilde :: factName)
       else mret tt) ;;;
      addResolvedFacts rest
  end.

(** [loadGentzenScenario]: the loop over [scenario.propositions]. *)
Fixpoint addPropositions (propositions : list jsstring) : Method unit :=
  match propositions with
  | [] => mret tt
  | p :: rest => addProposition p ;;; addPropositions rest
  end.

(* ================================================================== *)
(** ** loadFromYaml.js: the steps of a scenario *)
(* ================================================================== *)

(** [addFormulaAtomsToSet(formula, atomSet)] *)
Definition addFormulaAtomsToSet (formula : jsstring) (atomSet : list jsstring)
  : Outcome (list jsstring) :=
  parsed <- parseFormula formula ;;
  Ret (fold_left (fun s atom => set_add atom s) (getAtoms (ast parsed)) atomSet).

(** A step of a scenario, [{ rule, subtype, from }], as the loader reads
    it: [rule] a string, [subtype] a string or absent, [from] an array of
    strings, or [None] when it is no array. *)
Record ScenarioStep := mkScenarioStep {
  sc_rule : jsstring;
  sc_subtype : option jsstring;
  sc_from : option (list jsstring)
}.

(** A scenario; an absent field is an empty list. *)
Record Scenario := mkScenario {
  sc_propositions : list jsstring;
  sc_steps : list ScenarioStep;
  sc_targets : list jsstring
}.

(** [for (const formula of ...) addFormulaAtomsToSet(formula, atoms)] *)
Fixpoint addAtomsOf (formulaList : list jsstring) (atomSet : list jsstring)
  : Outcome (list jsstring) :=
  match formulaList with
  | [] => Ret atomSet
  | formula :: rest =>
      atomSet' <- addFormulaAtomsToSet formula atomSet ;;
      addAtomsOf rest atomSet'
  end.

(** The loop of [collectReferencedAtoms] over [scenario.steps]. *)
Fixpoint addAtomsOfSteps (stepList : list ScenarioStep)
         (atomSet : list jsstring) : Outcome (list jsstring) :=
  match stepList with
  | [] => Ret atomSet
  | step :: rest =>
      atomSet' <- match sc_from step with
                  | Some from => addAtomsOf from atomSet
                  | None => Ret atomSet
                  end ;;
      addAtomsOfSteps rest atomSet'
  end.

(** [collectReferencedAtoms(scenario)] *)
Definition collectReferencedAtoms (scenario : Scenario)
  : Outcome (list jsstring) :=
  let referencedAtoms :=
    fold_left (fun s p => set_add p s) (sc_propositions scenario) [] in
  referencedAtoms <- addAtomsOfSteps (sc_steps scenario) referencedAtoms ;;
  addAtomsOf (sc_targets scenario) referencedAtoms.

(** [subtype || fallback]: an absent or empty [subtype] gives the
    fallback. *)
Definition orElse (subtype : option jsstring) (fallback : jsstring)
  : jsstring :=
  match subtype with
  | Some (c :: s) => c :: s
  | _ => fallback
  end.

(** The object pushed on [stepObjects] for a formula that is a fact. *)
Definition factRef (formula : jsstring) : Step :=
  mkStep (js "FactRef") (js "factRef") [] [formula].

(** The loop over [from]: [(missingFacts, stepObjects)]. *)
Fixpoint resolveFrom (this : GentzenSystem) (from : list jsstring)
         (missingFacts : list jsstring) (stepObjects : list Step)
  : Outcome (list jsstring * list Step) :=
  match from with
  | [] => Ret (missingFacts, stepObjects)
  | formula :: rest =>
      if existsb (JsString.eqb formula) (facts this) then
        resolveFrom this rest missingFacts (stepObjects ++ [factRef formula])
      else
        foundSteps <- findStepsContaining this formula ;;
        match foundSteps with
        | first :: _ =>
            resolveFrom this rest missingFacts (stepObjects ++ [first])
        | [] =>
            resolved <- canResolveFormula this formula ;;
            let '(canResolve, missing) := resolved in
            if negb canResolve then
              resolveFrom this rest (missingFacts ++ missing) stepObjects
            else resolveFrom this rest missingFacts stepObjects
        end
  end.

(** A rule called inside [try { ... } catch { continue }]. *)
Definition tryRule (m : Method Step) : Method unit :=
  fun this =>
    match m this with
    | (Ret _, this') => (Ret tt, this')
    | (Throw _, this') => (Ret tt, this')
    | (Diverge, this') => (Diverge, this')
    end.

(** The [switch (rule)] of the loader. *)
Definition applyRule (rule : jsstring) (subtype : option jsstring)
           (stepObjects : list Step) : Method unit :=
  if JsString.eqb rule (js "alpha") then
    match stepObjects with
    | [s0; s1] => tryRule (alphaRule s0 s1 (orElse subtype (js "and")))
    | _ => mret tt
    end
  else if JsString.eqb rule (js "beta") then
    match stepObjects with
    | [s0; s1] => tryRule (betaRule s0 s1)
    | _ => mret tt
    end
  else if JsString.eqb rule (js "contraposition") then
    match stepObjects with
    | [s0] => tryRule (contrapositionRule s0)
    | _ => mret tt
    end
  else if JsString.eqb rule (js "doubleNegation") then
    match stepObjects with
    | [s0] =>
        tryRule (doubleNegationRule s0 (orElse subtype (js "introduction")))
    | _ => mret tt
    end
  else if JsString.eqb rule (js "equivalence") then
    match stepObjects with
    | [s0; s1] => tryRule (equivalenceRule s0 s1)
    | _ => mret tt
    end
  else mret tt.

(** [system.skippedSteps.push(...)]; the record keeps [stepIndex], [rule],
    [from] and [missingFacts]. *)
Definition pushSkipped (sk : SkippedStep) : Method unit :=
  fun this =>
    (Ret tt, mkSystem (steps this) (facts this) (missingFacts this)
                      (skippedSteps this ++ [sk])).

(** The body of the loop over [scenario.steps], for the step at [index]. *)
Definition loadStep (index : nat) (step : ScenarioStep) : Method unit :=
  match sc_from step with
  | None => mret tt
  | Some from =>
      resolved <~ (fun this => (resolveFrom this from [] [], this)) ;;
      let '(missingFacts, stepObjects) := resolved in
      if 0 <? length missingFacts then
        pushSkipped (mkSkipped (index + 1) (sc_rule step) from missingFacts) ;;;
        trackAll missingFacts
      else if negb (length stepObjects =? length from) then mret tt
      else applyRule (sc_rule step) (sc_subtype step) stepObjects
  end.

(** The loop over [scenario.steps], from the step at [index] on. *)
Fixpoint loadSteps (index : nat) (stepList : list ScenarioStep)
  : Method unit :=
  match stepList with
  | [] => mret tt
  | step :: rest => loadStep index step ;;; loadSteps (index + 1) rest
  end.

(** What [loadGentzenScenario] returns, the scenario being read and the
    resolvers run: [{ system, targets, referencedAtoms, propositions }]. *)
Record Loaded := mkLoaded {
  ld_system : GentzenSystem;
  ld_targets : list jsstring;
  ld_referencedAtoms : list jsstring;
  ld_propositions : list jsstring
}.

(** [loadGentzenScenario], from the parsed scenario and the fact map. *)
Definition loadGentzenScenario (scenario : Scenario)
           (factMap : list (jsstring * bool)) : Outcome Loaded :=
  referencedAtoms <- collectReferencedAtoms scenario ;;
  match (addResolvedFacts factMap ;;;
         addPropositions (sc_propositions scenario) ;;;
         loadSteps 0 (sc_steps scenario)) emptySystem with
  | (Ret _, system) =>
      Ret (mkLoaded system (sc_targets scenario) referencedAtoms
                    (sc_propositions scenario))
  | (Throw e, _) => Throw e
  | (Diverge, _) => Diverge
  end.

(* ================================================================== *)
(** ** main.js: the targets of a scenario *)
(* ================================================================== *)

(** An entry of [results.targets]. *)
Record TargetResult := mkTargetResult {
  t_formula : jsstring;
  t_proven : bool;
  t_missingFacts : list jsstring;
  t_path : list PathLabel
}.

(** What [evaluateTargets] reads and writes of [results]:
    [results.summary.provenTargets] and [results.targets]. *)
Record Results := mkResults {
  provenTargets : nat;
  targets : list TargetResult
}.

(** [evaluateTargets(targets, system, results)]; [system] is the state
    of the method. *)
Fixpoint evaluateTargets (targetList : list jsstring) (results : Results)
  : Method Results :=
  match targetList with
  | [] => mret results
  | target :: rest =>
      result <~ searchForProof target 5 ;;
      let provenTargets' :=
        if proven result then provenTargets results + 1
        else provenTargets results in
      evaluateTargets rest
        (mkResults provenTargets'
           (targets results
            ++ [mkTargetResult target (proven result)
                               (resultMissingFacts result) (path result)]))
  end.

(* ================================================================== *)
(** ** validator.js: the syntax checks of a formula *)
(* ================================================================== *)

(** [s.includes(p)] *)
Fixpoint includes (s p : jsstring) : bool :=
  JsString.startsWith s p
  || match s with
     | [] => false
     | _ :: s' => includes s' p
     end.

(** The loop over the characters of a formula: [parenCount] when the loop
    is left, and whether it is left by [break].  [for (const char of
    formula)] goes through code points; a parenthesis is one code unit
    and never half of a pair, so the count is that of the code units. *)
Fixpoint parenLoop (chars : jsstring) (parenCount : Z) : Z * bool :=
  match chars with
  | [] => (parenCount, false)
  | char :: rest =>
      let parenCount :=
        if (char =? c_lparen)%N then (parenCount + 1)%Z else parenCount in
      let parenCount :=
        if (char =? c_rparen)%N then (parenCount - 1)%Z else parenCount in
      if (parenCount <? 0)%Z then (parenCount, true)
      else parenLoop rest parenCount
  end.

(** The messages of the two checks, each with the formula it quotes. *)
Inductive FormulaMessage :=
| HasUnbalancedParentheses (formula : jsstring)
| MayNeedParentheses (formula : jsstring).

(** [/[∧∨→↔]|AND|OR|->|<->/.test(formula)] *)
Definition hasOperators (formula : jsstring) : bool :=
  existsb (includes formula)
          [[c_and]; [c_or]; [c_implies]; [c_iff];
           js "AND"; js "OR"; js "->"; js "<->"].

(** The body of [allFormulas.forEach] for a string: what it pushes on
    [errors] and on [warnings]. *)
Definition checkFormula (formula : jsstring)
  : list FormulaMessage * list FormulaMessage :=
  let '(parenCount, broke) := parenLoop formula 0%Z in
  let errors :=
    (if (broke : bool) then [HasUnbalancedParentheses formula] else [])
    ++ (if negb (parenCount =? 0)%Z then [HasUnbalancedParentheses formula]
        else []) in
  let hasParens := includes formula [c_lparen] in
  let warnings :=
    if hasOperators formula && negb hasParens then
      [MayNeedParentheses formula]
    else [] in
  (errors, warnings).

(* ================================================================== *)
(** ** Vocabulary of the statements *)
(* ================================================================== *)

(** The operator aliases that are written with letters. *)
Definition keywordAliases : list jsstring :=
  [js "AND"; js "OR"; js "IMPLIES"; js "IFF"; js "NOT"].

Definition beginsWithKeyword (s : jsstring) : bool :=
  existsb (JsString.startsWith s) keywordAliases.

(** [s] matches [[A-Za-z][A-Za-z0-9_]*] and nothing else. *)
Definition isAtomName (s : jsstring) : bool :=
  match s with
  | [] => false
  | c :: cs => JsString.isLetter c && forallb JsString.isIdentChar cs
  end.

(** The names the lexer returns as identifiers. *)
Definition lexerName (s : jsstring) : bool :=
  isAtomName s && negb (beginsWithKeyword s).

(** The trees the parser builds: atoms named by identifiers, [not] the
    only unary operator and never a binary one. *)
Fixpoint wfAST (t : AST) : bool :=
  match t with
  | AtomNode name => lexerName name
  | UnaryNode operator operand => OperatorType_eqb operator NOT && wfAST operand
  | BinaryNode operator lhs rhs =>
      negb (OperatorType_eqb operator NOT) && wfAST lhs && wfAST rhs
  end.

(** A token without its position. *)
Definition Kind : Type := TokenType * TokenValue.
Definition kindOf (tok : Token) : Kind := (tok_type tok, tok_value tok).

(** The tokens of the rendering of a tree. *)
Fixpoint tokenKinds (t : AST) : list Kind :=
  match t with
  | AtomNode name => [(IDENTIFIER, VString name)]
  | UnaryNode _ operand => (OPERATOR, VOperator NOT) :: tokenKinds operand
  | BinaryNode operator lhs rhs =>
      [(LPAREN, VString [c_lparen])] ++ tokenKinds lhs
      ++ [(OPERATOR, VOperator operator)] ++ tokenKinds rhs
      ++ [(RPAREN, VString [c_rparen])]
  end.

(** What the lexer guarantees of each token it returns. *)
Definition tokenOK (tok : Token) : Prop :=
  match tok_type tok with
  | IDENTIFIER => exists name, tok_value tok = VString name /\ lexerName name = true
  | OPERATOR => exists o, tok_value tok = VOperator o
  | LPAREN => tok_value tok = VString [c_lparen]
  | RPAREN => tok_value tok = VString [c_rparen]
  | EOF => tok_value tok = VNull
  end.

(** A canonical formula string: the rendering of a tree of the parser. *)
Definition canonicalFormula (f : jsstring) : Prop :=
  exists t, wfAST t = true /\ f = astToString t.

(** [s'] is one of the successors of [s]. *)
Definition expandsTo (s s' : GentzenSystem) : Prop :=
  exists l, expandOneLevel s = Ret l /\ In s' l.

(** The states reachable by rule expansion. *)
Inductive reachable (s : GentzenSystem) : GentzenSystem -> Prop :=
| reachable_refl : reachable s s
| reachable_step s1 s2 : reachable s s1 -> expandsTo s1 s2 -> reachable s s2.

(** [a] is a fact or the formula of a step, as the exact string. *)
Definition available (this : GentzenSystem) (a : jsstring) : Prop :=
  In a (facts this)
  \/ exists step, In step (steps this) /\ In a (formulas step).

(** The measure of what a lexer or parser still has to read. *)
Definition lexerLeft (lx : Lexer.t) : nat :=
  length (Lexer.input lx) - Lexer.position lx.
Definition parserLeft (p : Parser.t) : nat :=
  length (Parser.tokens p) - Parser.position p.

(** The tokens a parser has not consumed. *)
Definition parserRest (p : Parser.t) : list Token :=
  skipn (Parser.position p) (Parser.tokens p).

(** The end of a rendering inside a longer input: nothing, or a character
    that cannot continue an identifier. *)
Definition delimited (rest : jsstring) : Prop :=
  match rest with
  | [] => True
  | c :: _ => JsString.isIdentChar c = false
  end.

(** Where the lexer stops with an error: a character that is not
    whitespace, a parenthesis or a letter, at which no operator alias
    starts. *)
Definition unlexableAt (input : jsstring) (pos : nat) (c : jschar) : Prop :=
  nth_error input pos = Some c
  /\ JsString.isWhitespace c = false
  /\ c <> c_lparen /\ c <> c_rparen
  /\ JsString.isLetter c = false
  /\ existsb (fun op => JsString.startsWith (JsString.slice input pos) (fst op))
             Lexer.OPERATOR_MAPPINGS = false.

(** The tokens read so far, put before what the rest of the loop
    returns. *)
Definition prependTokens (toks : list Token) (o : Outcome (list Token))
  : Outcome (list Token) :=
  ts <- o ;; Ret (toks ++ ts).

(** From [lx] the loop of [tokenize] reads tokens of kinds [ks] over [n]
    characters and goes on from there. *)
Definition lexesTo (lx : Lexer.t) (ks : list Kind) (n : nat) : Prop :=
  exists toks,
    map kindOf toks = ks
    /\ forall fuel,
        Lexer.tokenizeLoop (length ks + fuel) lx
        = prependTokens toks (Lexer.tokenizeLoop fuel (Lexer.advanceBy n lx)).

(** The operator symbols of the rendering. *)
Definition symbolOf (o : OperatorType) : jschar :=
  match o with
  | NOT => c_tilde
  | AND => c_and
  | OR => c_or
  | IMPLIES => c_implies
  | IFF => c_iff
  end.

(** An outcome of a parsing function called at [p]: it returns or throws,
    keeps the token array and does not move backwards. *)
Definition outcomeOK (p : Parser.t) (m : Outcome (AST * Parser.t)) : Prop :=
  terminates m
  /\ forall t p', m = Ret (t, p') ->
       Parser.tokens p' = Parser.tokens p /\ parserLeft p' <= parserLeft p.

Definition behaves (f : Parser.t -> Outcome (AST * Parser.t)) (p : Parser.t)
  : Prop := outcomeOK p (f p).

(** A parsing function builds trees of the parser from tokens of the
    lexer. *)
Definition buildsWf (f : Parser.t -> Outcome (AST * Parser.t)) : Prop :=
  forall p t p',
    Forall tokenOK (Parser.tokens p) -> f p = Ret (t, p') ->
    wfAST t = true /\ Parser.tokens p' = Parser.tokens p.

(** The parser [n] tokens further. *)
Definition shift (p : Parser.t) (n : nat) : Parser.t :=
  Parser.mk (Parser.tokens p) (Parser.position p + n).

(** With enough fuel for the tokens left, [f] returns [t] at [p] and
    leaves the parser at [q]. *)
Definition parsesTo (k : nat) (f : nat -> Parser.t -> Outcome (AST * Parser.t))
           (p : Parser.t) (t : AST) (q : Parser.t) : Prop :=
  forall fuel, 10 * parserLeft p + k <= fuel -> f fuel p = Ret (t, q).

(** The state after a step has been pushed. *)
Definition pushed (this : GentzenSystem) (s : Step) : GentzenSystem :=
  mkSystem (steps this ++ [s]) (facts this) (missingFacts this)
           (skippedSteps this).

(** [this] with the names of [missing] added to [missingFacts]. *)
Definition tracked (this : GentzenSystem) (missing : list jsstring)
  : GentzenSystem :=
  mkSystem (steps this) (facts this)
           (fold_left (fun s x => set_add x s) missing (missingFacts this))
           (skippedSteps this).

(** The atoms of a parsed target that [isAtomResolvable] rejects. *)
Definition unresolvedAtoms (this : GentzenSystem) (pf : ParsedFormula)
  : list jsstring :=
  filter (fun atom => negb (isAtomResolvable this atom)) (getAtoms (ast pf)).

(** The errors of a formula string that does not lex or does not parse. *)
Definition isSyntaxError (e : Error) : Prop :=
  match e with
  | UnexpectedCharacter _ _ => True
  | ParseError _ _ _ => True
  | _ => False
  end.

(** On tokens of the lexer, a parsing function throws nothing but those. *)
Definition throwsSyntax (f : Parser.t -> Outcome (AST * Parser.t)) : Prop :=
  forall p e,
    Forall tokenOK (Parser.tokens p) -> f p = Throw e -> isSyntaxError e.

(** Every system waiting in the queue was reached from [this]. *)
Definition queueReachable (this : GentzenSystem) (queue : list QueueEntry)
  : Prop :=
  forall e, In e queue -> reachable this (entrySystem e).

(** The end of a formula inside a longer string: nothing, whitespace or a
    closing parenthesis. *)
Definition hardDelimited (ext : jsstring) : Prop :=
  match ext with
  | [] => True
  | d :: _ => JsString.isWhitespace d = true \/ d = c_rparen
  end.

(** The characters no operator alias contains. *)
Definition plain (c : jschar) : bool :=
  negb (JsString.isWhitespace c) && negb (c =? c_rparen)%N.

(** What [getNextToken] does next, as a function of the characters left:
    the end, a token of some kind with the characters after it, or an
    error. *)
Inductive StepResult :=
| StepEOF
| StepTok (k : Kind) (r : jsstring)
| StepErr.

Definition stepOf (r : jsstring) : StepResult :=
  match JsString.dropWhile JsString.isWhitespace r with
  | [] => StepEOF
  | c :: r0 =>
      if (c =? c_lparen)%N then StepTok (LPAREN, VString [c_lparen]) r0
      else if (c =? c_rparen)%N then StepTok (RPAREN, VString [c_rparen]) r0
      else if existsb (fun op => JsString.startsWith (c :: r0) (fst op))
                      Lexer.OPERATOR_MAPPINGS then
        match find (fun op => JsString.startsWith (c :: r0) (fst op))
                   (Lexer.sortByLengthDesc Lexer.OPERATOR_MAPPINGS) with
        | Some (op, canonical) =>
            StepTok (OPERATOR, VOperator canonical) (skipn (length op) (c :: r0))
        | None => StepErr
        end
      else if JsString.isLetter c then
        StepTok (IDENTIFIER,
                 VString (JsString.takeWhile JsString.isIdentChar (c :: r0)))
                (JsString.dropWhile JsString.isIdentChar (c :: r0))
      else StepErr
  end.

(** The kinds of the tokens read from a string, up to its end. *)
Inductive Lexes : jsstring -> list Kind -> Prop :=
| Lexes_eof r : stepOf r = StepEOF -> Lexes r []
| Lexes_tok r k r' ks :
    stepOf r = StepTok k r' -> Lexes r' ks -> Lexes r (k :: ks).

(** The token sequences the parser accepts: an operand is a name, a
    negated operand, or a parenthesised sequence; a sequence is an operand
    followed by binary operators with an operand each.  Which operator
    binds tighter decides the tree, not whether there is one. *)
Definition opKind (o : OperatorType) : Kind := (OPERATOR, VOperator o).

Inductive NegK : list Kind -> Prop :=
| NK_id name : NegK [(IDENTIFIER, VString name)]
| NK_not n : NegK n -> NegK (opKind NOT :: n)
| NK_paren v n tl :
    NegK n -> TailK tl ->
    NegK ((LPAREN, v) :: (n ++ tl) ++ [(RPAREN, VString [c_rparen])])
with TailK : list Kind -> Prop :=
| TK_nil : TailK []
| TK_cons o n tl :
    OperatorType_eqb o NOT = false -> NegK n -> TailK tl ->
    TailK (opKind o :: n ++ tl).

Definition FlatK (e : list Kind) : Prop :=
  exists n tl, e = n ++ tl /\ NegK n /\ TailK tl.

(** The level of the grammar at which a binary operator is read. *)
Definition prec (o : OperatorType) : nat :=
  match o with
  | IFF => 0
  | IMPLIES => 1
  | OR => 2
  | AND => 3
  | NOT => 4
  end.

(** A sequence of operators and operands that a level stops at: it is
    empty or begins with an operator of a lower level. *)
Definition lowHead (L : nat) (tl : list Kind) : Prop :=
  forall o rest, tl = opKind o :: rest -> prec o < L.

(** A parsing function of level [L] reads an operand and the operators of
    its level or above that follow, whatever comes after. *)
Definition LevelOK (k : nat) (f : nat -> Parser.t -> Outcome (AST * Parser.t))
           (L m : nat) : Prop :=
  forall p n tl c rest,
    NegK n -> TailK tl -> fst c <> OPERATOR ->
    length n + length tl <= m ->
    map kindOf (parserRest p) = n ++ tl ++ c :: rest ->
    exists t tl1 tl2,
      tl = tl1 ++ tl2 /\ TailK tl2 /\ lowHead L tl2
      /\ parsesTo k f p t (shift p (length n + length tl1)).

(** What a parsing function has read when it returns. *)
Definition readsFlat (f : Parser.t -> Outcome (AST * Parser.t)) : Prop :=
  forall p t p',
    f p = Ret (t, p') ->
    Parser.tokens p' = Parser.tokens p
    /\ exists n tl,
         NegK n /\ TailK tl
         /\ map kindOf (parserRest p) = (n ++ tl) ++ map kindOf (parserRest p').

Definition readsOperand (f : Parser.t -> Outcome (AST * Parser.t)) : Prop :=
  forall p t p',
    f p = Ret (t, p') ->
    Parser.tokens p' = Parser.tokens p
    /\ exists n,
         NegK n
         /\ map kindOf (parserRest p) = n ++ map kindOf (parserRest p').

(** No end token among them. *)
Definition noEOF (ks : list Kind) : Prop := Forall (fun k => fst k <> EOF) ks.

(** A formula string that parses. *)
Definition parses (f : jsstring) : Prop := returns (parseFormula f).

(** A state whose formula strings all parse. *)
Definition parseableState (s : GentzenSystem) : Prop :=
  Forall parses (facts s)
  /\ Forall (fun st => Forall parses (formulas st)) (steps s).

(** *** Tokens, parsers and errors *)

(** Where a token sits in the input of the lexer: the text at its
    position is a parenthesis, an alias of its operator, or its name, as
    long as an identifier can be there; the end token sits at the end. *)
Definition tokenAt (input : jsstring) (tok : Token) : Prop :=
  let r := JsString.slice input (tok_position tok) in
  match tok_type tok, tok_value tok with
  | LPAREN, VString v => v = [c_lparen] /\ JsString.startsWith r v = true
  | RPAREN, VString v => v = [c_rparen] /\ JsString.startsWith r v = true
  | OPERATOR, VOperator o =>
      exists alias, In (alias, o) Lexer.OPERATOR_MAPPINGS
                    /\ JsString.startsWith r alias = true
  | IDENTIFIER, VString name =>
      name = JsString.takeWhile JsString.isIdentChar r
      /\ isAtomName name = true
  | EOF, VNull => tok_position tok = length input
  | _, _ => False
  end.

(** Two parsers with the same tokens left to read, positions apart. *)
Definition sameRest (p q : Parser.t) : Prop :=
  map kindOf (parserRest p) = map kindOf (parserRest q).

(** Two outcomes of a parsing function that differ at most in the
    positions they mention. *)
Definition agree (a b : Outcome (AST * Parser.t)) : Prop :=
  match a, b with
  | Ret (t, p), Ret (t', q) => t = t' /\ sameRest p q
  | Throw _, Throw _ => True
  | Diverge, Diverge => True
  | _, _ => False
  end.

(** Token arrays as the lexer returns them: tokens of the lexer, at
    strictly increasing positions, the last one the end token. *)
Definition lexerTokens (ts : list Token) : Prop :=
  Forall tokenOK ts
  /\ StronglySorted lt (map tok_position ts)
  /\ exists body eof, ts = body ++ [eof] /\ tok_type eof = EOF.

(** A parser on [ts] that has not read an end token. *)
Definition goodParser (ts : list Token) (p : Parser.t) : Prop :=
  Parser.tokens p = ts
  /\ Forall (fun t => tok_type t <> EOF) (firstn (Parser.position p) ts).

(** A parse error raised on a token of [ts]: it carries that token and
    the token's position, and its message names no other token. *)
Definition errorAt (ts : list Token) (e : Error) : Prop :=
  exists m tok,
    e = ParseError m (tok_position tok) (Some tok)
    /\ In tok ts
    /\ match m with
       | Message _ => True
       | ExpectedButFound _ found => found = Some tok
       | ExpectedIdentifierOrLParen found => found = Some tok
       | UnexpectedTokenAfterFormula found => found = tok
       end.

(** A parsing function that raises its errors on the token it is at and
    stays before the end token. *)
Definition locates (f : Parser.t -> Outcome (AST * Parser.t)) : Prop :=
  forall ts p,
    lexerTokens ts -> goodParser ts p ->
    (forall e, f p = Throw e -> errorAt ts e)
    /\ (forall t p', f p = Ret (t, p') -> goodParser ts p').

(** *** States, searches and scenarios *)

(** What a rule of [expandOneLevel] leaves when it returns. *)
Definition ruleShape (c : GentzenSystem) (n : Step) (c' : GentzenSystem)
  : Prop :=
  c' = pushed c n
  /\ Forall (fun a => In a (steps c)) (from n)
  /\ In (origin n)
        [js "AlphaRule"; js "BetaRule"; js "EquivalenceRule";
         js "ContrapositionRule"; js "DoubleNegationRule"]
  /\ exists f,
       formulas n = [f]
       /\ (origin n = js "DoubleNegationRule" ->
           exists s f0, In s (steps c) /\ formulas s = [f0]
                        /\ canonicalDoubleNeg f = canonicalDoubleNeg f0).

(** What [expandOneLevel] keeps of an attempt. *)
Definition successorOf (s c : GentzenSystem) : Prop :=
  exists newStep f,
    c = pushed (cloneSystem s) newStep
    /\ formulas newStep = [f]
    /\ ~ In (canonicalDoubleNeg f) (knownFormulas s)
    /\ In (origin newStep)
          [js "AlphaRule"; js "BetaRule"; js "EquivalenceRule";
           js "ContrapositionRule"]
    /\ Forall (fun a => In a (steps s)) (from newStep).

(** The order of [sortStrings]. *)
Definition lebP (a b : jsstring) : Prop := JsString.leb a b = true.

(** [s] is [this] with [n] steps more and the same facts. *)
Definition grownBy (this : GentzenSystem) (n : nat) (s : GentzenSystem)
  : Prop :=
  reachable this s
  /\ facts s = facts this
  /\ exists added, steps s = steps this ++ added /\ length added = n.

(** An entry the search of [target] from [this] holds in its queue. *)
Definition entryOK (this : GentzenSystem) (target : jsstring) (maxDepth : nat)
           (e : QueueEntry) : Prop :=
  entryDepth e <= maxDepth
  /\ entryPath e = map step_ (seq 1 (entryDepth e))
  /\ isProved (entrySystem e) target = Ret false
  /\ grownBy this (entryDepth e) (entrySystem e).

(** A result the loop of the search returns on a successor. *)
Definition foundAt (this : GentzenSystem) (target : jsstring) (maxDepth : nat)
           (r : SearchResult) : Prop :=
  exists d s,
    r = mkResult true (map step_ (seq 1 d) ++ [final_step]) [] [] (d + 1)
    /\ d + 1 <= maxDepth
    /\ grownBy this (d + 1) s
    /\ isProved s target = Ret true.

(** The entry of [results.targets] for a target searched on its own in
    [this]. *)
Definition targetAlone (this : GentzenSystem) (target : jsstring)
  : Outcome TargetResult :=
  result <- fst (searchForProof target 5 this) ;;
  Ret (mkTargetResult target (proven result) (resultMissingFacts result)
                      (path result)).

(** Two strings with the same normal form. *)
Definition sameFormula (f g : jsstring) : Prop :=
  exists n, normalizeFormula f = Ret n /\ normalizeFormula g = Ret n.

(** A rule call that returned [n] and left [c']: the step is the last of
    [c'], and its formula is proved there. *)
Definition concludes (c : GentzenSystem) (n : Step) (c' : GentzenSystem)
  : Prop :=
  c' = pushed c n
  /\ parseableState c'
  /\ exists f, formulas n = [f] /\ isProved c' f = Ret true.

(** The formulas a scenario refers to: those of the [from] arrays of its
    steps, then its targets. *)
Definition referencedFormulas (scenario : Scenario) : list jsstring :=
  flat_map (fun step => match sc_from step with
                        | Some from => from
                        | None => []
                        end) (sc_steps scenario)
  ++ sc_targets scenario.

(** [this'] is [this] with the steps [added] and the skipped steps [sk]
    more, their missing facts tracked, and the same facts. *)
Definition grew (this this' : GentzenSystem) (added : list Step)
           (sk : list SkippedStep) : Prop :=
  steps this' = steps this ++ added
  /\ facts this' = facts this
  /\ skippedSteps this' = skippedSteps this ++ sk
  /\ forall x, In x (missingFacts this')
               <-> In x (missingFacts this)
                   \/ exists s, In s sk /\ In x (skippedMissing s).

(** The record of a skipped step is that of the scenario step at its
    index, counted from 1 after [index], and names a missing fact. *)
Definition skippedOf (index : nat) (stepList : list ScenarioStep)
           (s : SkippedStep) : Prop :=
  skippedMissing s <> []
  /\ exists k st,
       stepIndex s = index + k + 1
       /\ nth_error stepList k = Some st
       /\ sc_from st = Some (skippedFrom s)
       /\ sc_rule st = skippedRule s.

(** The [from] arrays of the steps hold formulas that parse. *)
Definition fromParse (stepList : list ScenarioStep) : Prop :=
  Forall (fun st => forall from, sc_from st = Some from -> Forall parses from)
         stepList.

(** The step [addProposition] pushes for a formula. *)
Definition propositionStep (formulaStr : jsstring) : Step :=
  mkStep (js "Proposition") (js "fact") [] [formulaStr].

(** The count of [parenLoop] after the characters of a token. *)
Definition bump (k : Kind) (parenCount : Z) : Z :=
  match fst k with
  | LPAREN => (parenCount + 1)%Z
  | RPAREN => (parenCount - 1)%Z
  | _ => parenCount
  end.

(** [parenLoop] on the kinds of tokens. *)
Fixpoint tokenLoop (ks : list Kind) (parenCount : Z) : Z * bool :=
  match ks with
  | [] => (parenCount, false)
  | k :: rest =>
      if (bump k parenCount <? 0)%Z then (bump k parenCount, true)
      else tokenLoop rest (bump k parenCount)
  end.

Definition notParen (c : jschar) : bool :=
  negb (c =? c_lparen)%N && negb (c =? c_rparen)%N.

(** The number of closing parentheses of [s] less that of its opening
    ones. *)
Fixpoint excess (s : jsstring) : Z :=
  match s with
  | [] => 0%Z
  | c :: s' =>
      ((if (c =? c_rparen)%N then 1 else 0)
       - (if (c =? c_lparen)%N then 1 else 0) + excess s')%Z
  end.

(* ================================================================== *)
(** ** Tactics *)
(* ================================================================== *)

(** Boolean tests on code units as arithmetic facts. *)
Ltac bool_to_prop H :=
  repeat (rewrite ?orb_true_iff, ?andb_true_iff, ?N.leb_le, ?N.eqb_eq,
            ?N.ltb_lt in H).

(** Membership in a list of literals. *)
Ltac in_list := vm_compute; repeat (first [left; reflexivity | right]).

(** The three outcomes of a call that is known to terminate, by [lemma]:
    the last never happens. *)
Ltac unique_formula lemma step :=
  let T := fresh "T" in
  pose proof (lemma step) as T;
  destruct (getUniqueFormula step); simpl; [|discriminate|now elim T].

(* ================================================================== *)
(** * Properties *)
(* ================================================================== *)

Unset Implicit Arguments.

(** ** Strings *)

Lemma JsString_eqb_eq a b : JsString.eqb a b = true <-> a = b.
Proof.
  unfold JsString.eqb; destruct (list_eq_dec N.eq_dec a b); split; congruence.
Qed.

Lemma JsString_eqb_refl a : JsString.eqb a a = true.
Proof. now apply JsString_eqb_eq. Qed.

Lemma JsString_eqb_neq a b : JsString.eqb a b = false <-> a <> b.
Proof.
  unfold JsString.eqb; destruct (list_eq_dec N.eq_dec a b); split; congruence.
Qed.

Lemma startsWith_iff s p :
  JsString.startsWith s p = true <-> exists r, s = p ++ r.
Proof.
  revert s; induction p as [|c p IH]; intros s; simpl.
  - split; [intros _; now exists s | reflexivity].
  - destruct s as [|d s].
    + split; [discriminate | intros [r Hr]; discriminate].
    + rewrite andb_true_iff, N.eqb_eq, IH. split.
      * intros [-> [r ->]]. now exists r.
      * intros [r Hr]. injection Hr as -> ->. split; [reflexivity | now exists r].
Qed.

Lemma startsWith_app p r : JsString.startsWith (p ++ r) p = true.
Proof. apply startsWith_iff. now exists r. Qed.

Lemma startsWith_weaken s r p :
  JsString.startsWith s p = true -> JsString.startsWith (s ++ r) p = true.
Proof.
  rewrite !startsWith_iff. intros [q ->]. exists (q ++ r). now rewrite app_assoc.
Qed.

(** A prefix made of identifier characters that fits in [s ++ rest] fits in
    [s] when [rest] cannot continue an identifier. *)
Lemma startsWith_delimited s rest p :
  forallb JsString.isIdentChar p = true -> delimited rest ->
  JsString.startsWith (s ++ rest) p = true -> JsString.startsWith s p = true.
Proof.
  revert s; induction p as [|c p IH]; intros s Hp Hd H; [reflexivity|].
  simpl in Hp. apply andb_true_iff in Hp as [Hc Hp].
  destruct s as [|d s]; simpl in *.
  - destruct rest as [|e rest]; [discriminate|].
    apply andb_true_iff in H as [He _]. apply N.eqb_eq in He. subst e.
    simpl in Hd. congruence.
  - apply andb_true_iff in H as [-> H]. simpl. now apply IH.
Qed.

Lemma takeWhile_dropWhile f s :
  JsString.takeWhile f s ++ JsString.dropWhile f s = s.
Proof.
  induction s as [|c s IH]; simpl; [reflexivity|].
  destruct (f c); simpl; [now rewrite IH | reflexivity].
Qed.

Lemma takeWhile_all f s : forallb f s = true -> JsString.takeWhile f s = s.
Proof.
  induction s as [|c s IH]; simpl; [reflexivity|].
  intros H. apply andb_true_iff in H as [-> H]. now rewrite IH.
Qed.

Lemma takeWhile_app_stop f a b :
  forallb f a = true ->
  match b with [] => True | c :: _ => f c = false end ->
  JsString.takeWhile f (a ++ b) = a.
Proof.
  induction a as [|c a IH]; simpl; intros Ha Hb.
  - destruct b as [|d b]; simpl; [reflexivity | now rewrite Hb].
  - apply andb_true_iff in Ha as [-> Ha]. now rewrite IH.
Qed.

Lemma takeWhile_forallb f s : forallb f (JsString.takeWhile f s) = true.
Proof.
  induction s as [|c s IH]; simpl; [reflexivity|].
  destruct (f c) eqn:E; simpl; [now rewrite E | reflexivity].
Qed.

Lemma takeWhile_length f s : length (JsString.takeWhile f s) <= length s.
Proof.
  induction s as [|c s IH]; simpl; [lia|]. destruct (f c); simpl; lia.
Qed.

Lemma dropWhile_head f s :
  match s with [] => True | c :: _ => f c = false end ->
  JsString.dropWhile f s = s.
Proof. destruct s as [|c s]; simpl; [reflexivity | now intros ->]. Qed.

Lemma trim_fixed s c d s' s'' :
  s = c :: s' -> s = s'' ++ [d] ->
  JsString.isWhitespace c = false -> JsString.isWhitespace d = false ->
  JsString.trim s = s.
Proof.
  intros Hc Hd Wc Wd. unfold JsString.trim.
  rewrite (dropWhile_head JsString.isWhitespace s) by (now rewrite Hc).
  rewrite Hd at 1. rewrite rev_app_distr. simpl. rewrite Wd.
  change (d :: rev s'') with (rev [d] ++ rev s'').
  now rewrite <- rev_app_distr, rev_involutive.
Qed.

Lemma letter_isIdentChar c :
  JsString.isLetter c = true -> JsString.isIdentChar c = true.
Proof. unfold JsString.isIdentChar. now intros ->. Qed.

Lemma identChar_not_whitespace c :
  JsString.isIdentChar c = true -> JsString.isWhitespace c = false.
Proof.
  unfold JsString.isIdentChar, JsString.isLetter, JsString.isWhitespace.
  intros H. apply not_true_iff_false. intros W.
  bool_to_prop H. bool_to_prop W. lia.
Qed.

(** ** The lexer *)

Lemma nth_error_skipn_hd {A} (l : list A) n :
  nth_error l n = hd_error (skipn n l).
Proof.
  revert l; induction n as [|n IH]; intros [|x l]; simpl; auto.
Qed.

Lemma current_char_remaining lx :
  Lexer.current_char lx = hd_error (Lexer.remaining lx).
Proof. apply nth_error_skipn_hd. Qed.

Lemma remaining_advanceBy n lx :
  Lexer.remaining (Lexer.advanceBy n lx) = skipn n (Lexer.remaining lx).
Proof.
  unfold Lexer.remaining, Lexer.advanceBy, JsString.slice; simpl.
  now rewrite skipn_skipn, Nat.add_comm.
Qed.

Lemma remaining_length lx : length (Lexer.remaining lx) = lexerLeft lx.
Proof. unfold Lexer.remaining, JsString.slice, lexerLeft. apply length_skipn. Qed.

Lemma skipn_app_exact {A} (a b : list A) : skipn (length a) (a ++ b) = b.
Proof. induction a; simpl; auto. Qed.

Lemma advanceBy_advanceBy n k lx :
  Lexer.advanceBy k (Lexer.advanceBy n lx) = Lexer.advanceBy (n + k) lx.
Proof. unfold Lexer.advanceBy; simpl. f_equal. lia. Qed.

Lemma advanceBy_0 lx : Lexer.advanceBy 0 lx = lx.
Proof. destruct lx; unfold Lexer.advanceBy; simpl. f_equal. lia. Qed.

Lemma sortedOperators :
  Lexer.sortByLengthDesc Lexer.OPERATOR_MAPPINGS
  = [ (js "IMPLIES", IMPLIES); (js "AND", AND); (js "IFF", IFF);
      (js "<->", IFF); (js "<=>", IFF); (js "NOT", NOT); (js "OR", OR);
      (js "->", IMPLIES); (js "=>", IMPLIES); (js "∧", AND); (js "&", AND);
      (js "∨", OR); (js "|", OR); (js "→", IMPLIES); (js "↔", IFF);
      (js "~", NOT); (js "!", NOT) ].
Proof. vm_compute. reflexivity. Qed.

Lemma In_insertByLength x y l :
  In x (Lexer.insertByLength y l) <-> x = y \/ In x l.
Proof.
  induction l as [|z l IH]; simpl.
  - intuition congruence.
  - destruct (length (fst z) <=? length (fst y)); simpl; rewrite ?IH;
      intuition congruence.
Qed.

Lemma In_sortByLengthDesc x l : In x (Lexer.sortByLengthDesc l) <-> In x l.
Proof.
  induction l as [|y l IH]; simpl; [tauto|].
  rewrite In_insertByLength, IH. intuition congruence.
Qed.

Lemma operators_nonempty op c :
  In (op, c) Lexer.OPERATOR_MAPPINGS -> 1 <= length op.
Proof.
  unfold Lexer.OPERATOR_MAPPINGS. simpl.
  intros H. repeat (destruct H as [H|H]; [injection H as <- <-; vm_compute; lia|]).
  destruct H.
Qed.

(** What [readOperator] finds wherever [startsOperator] holds. *)
Lemma readOperator_finds r :
  existsb (fun op => JsString.startsWith r (fst op)) Lexer.OPERATOR_MAPPINGS = true ->
  exists op c,
    find (fun op => JsString.startsWith r (fst op))
         (Lexer.sortByLengthDesc Lexer.OPERATOR_MAPPINGS) = Some (op, c)
    /\ 1 <= length op /\ JsString.startsWith r op = true.
Proof.
  intros H. apply existsb_exists in H as [[op c] [Hin Hs]].
  destruct (find (fun op => JsString.startsWith r (fst op))
                 (Lexer.sortByLengthDesc Lexer.OPERATOR_MAPPINGS))
    as [[op' c']|] eqn:F.
  - exists op', c'. split; [reflexivity|].
    apply find_some in F as [Hin' Hs'].
    apply -> In_sortByLengthDesc in Hin'. simpl in Hs'.
    split; [now apply operators_nonempty with c'|assumption].
  - exfalso.
    assert (Hin2 : In (op, c) (Lexer.sortByLengthDesc Lexer.OPERATOR_MAPPINGS))
      by now apply In_sortByLengthDesc.
    pose proof (find_none _ _ F _ Hin2) as N. simpl in N, Hs. congruence.
Qed.

(** [getNextToken] never runs out of fuel, keeps the input, and moves
    forward inside it for every token but the end token. *)
Lemma skipWhitespace_input lx :
  Lexer.input (Lexer.skipWhitespace lx) = Lexer.input lx.
Proof. reflexivity. Qed.

Lemma startsWith_length s p :
  JsString.startsWith s p = true -> length p <= length s.
Proof.
  intros H. apply startsWith_iff in H as [r ->]. rewrite length_app. lia.
Qed.

Lemma dispatch_progress lx tok lx' :
  Lexer.dispatch lx = Ret (tok, lx') ->
  Lexer.input lx' = Lexer.input lx
  /\ Lexer.position lx <= Lexer.position lx'
  /\ (tok_type tok <> EOF -> lexerLeft lx' < lexerLeft lx).
Proof.
  unfold Lexer.dispatch. rewrite current_char_remaining.
  pose proof (remaining_length lx) as HL.
  destruct (Lexer.remaining lx) as [|c r] eqn:R; simpl.
  - intros H. injection H as <- <-. simpl.
    repeat split; try lia. intros Hn. now elim Hn.
  - simpl in HL.
    assert (Hadv : forall n, 1 <= n -> n <= S (length r) ->
              lexerLeft (Lexer.advanceBy n lx) < lexerLeft lx).
    { intros n H1 H2. unfold lexerLeft in *; simpl. lia. }
    destruct (c =? c_lparen)%N.
    { intros H; injection H as <- <-; simpl. repeat split; try lia.
      intros _. apply (Hadv 1); lia. }
    destruct (c =? c_rparen)%N.
    { intros H; injection H as <- <-; simpl. repeat split; try lia.
      intros _. apply (Hadv 1); lia. }
    destruct (Lexer.startsOperator lx) eqn:SO.
    { unfold Lexer.readOperator.
      destruct (find _ _) as [[op cn]|] eqn:F; [|discriminate].
      intros H; injection H as <- <-; simpl.
      apply find_some in F as [Hin Hs]. simpl in Hs.
      apply -> In_sortByLengthDesc in Hin. apply operators_nonempty in Hin.
      apply startsWith_length in Hs. rewrite R in Hs. simpl in Hs.
      repeat split; try lia. intros _. apply Hadv; lia. }
    destruct (JsString.isLetter c) eqn:LC; [|discriminate].
    unfold Lexer.readIdentifier. rewrite current_char_remaining, R. simpl.
    rewrite LC. intros H; injection H as <- <-; simpl.
    rewrite (letter_isIdentChar _ LC). simpl.
    pose proof (takeWhile_length JsString.isIdentChar r).
    repeat split; try lia. intros _. apply Hadv; lia.
Qed.

Lemma getNextToken_progress lx tok lx' :
  Lexer.getNextToken lx = Ret (tok, lx') ->
  Lexer.input lx' = Lexer.input lx
  /\ Lexer.position lx <= Lexer.position lx'
  /\ (tok_type tok <> EOF -> lexerLeft lx' < lexerLeft lx).
Proof.
  unfold Lexer.getNextToken.
  destruct (Lexer.current_char lx) as [c|].
  - destruct (JsString.isWhitespace c).
    + intros H. apply dispatch_progress in H as (H1 & H2 & H3).
      rewrite skipWhitespace_input in H1.
      unfold Lexer.skipWhitespace, Lexer.advanceBy, lexerLeft in *; simpl in *.
      split; [assumption|]. split; [lia|].
      intros Ht. specialize (H3 Ht). rewrite H1 in *. lia.
    + apply dispatch_progress.
  - intros H. injection H as <- <-. simpl.
    repeat split; try lia. intros Hn. now elim Hn.
Qed.

Lemma dispatch_terminates lx : terminates (Lexer.dispatch lx).
Proof.
  unfold terminates, Lexer.dispatch, Lexer.readOperator, Lexer.readIdentifier.
  destruct (Lexer.current_char lx) as [c|]; [|discriminate].
  destruct (c =? c_lparen)%N; [discriminate|].
  destruct (c =? c_rparen)%N; [discriminate|].
  destruct (Lexer.startsOperator lx).
  - destruct (find _ _) as [[? ?]|]; discriminate.
  - destruct (JsString.isLetter c); discriminate.
Qed.

Lemma getNextToken_terminates lx : terminates (Lexer.getNextToken lx).
Proof.
  unfold Lexer.getNextToken.
  destruct (Lexer.current_char lx) as [c|]; [|discriminate].
  destruct (JsString.isWhitespace c); apply dispatch_terminates.
Qed.

Lemma tokenizeLoop_terminates fuel lx :
  lexerLeft lx < fuel -> terminates (Lexer.tokenizeLoop fuel lx).
Proof.
  revert lx; induction fuel as [|fuel IH]; intros lx Hf; [lia|].
  simpl. pose proof (getNextToken_terminates lx) as T.
  pose proof (getNextToken_progress lx) as P.
  destruct (Lexer.getNextToken lx) as [[tok lx']| |]; simpl;
    [|discriminate|now elim T].
  destruct (P tok lx' eq_refl) as (_ & _ & P3).
  assert (E : tok_type tok <> EOF -> terminates (Lexer.tokenizeLoop fuel lx')).
  { intros Ht. apply IH. specialize (P3 Ht). lia. }
  unfold terminates in *.
  destruct (tok_type tok); try discriminate;
    (destruct (Lexer.tokenizeLoop fuel lx'); simpl;
     [discriminate|discriminate|apply E; discriminate]).
Qed.

(** [tokenize] always returns or throws. *)
Lemma tokenize_terminates s : terminates (Lexer.tokenize s).
Proof.
  unfold Lexer.tokenize, Lexer.tokenizeAll. apply tokenizeLoop_terminates.
  unfold lexerLeft. lia.
Qed.

Lemma dispatch_throws lx e :
  Lexer.dispatch lx = Throw e ->
  exists c, e = UnexpectedCharacter c (Lexer.position lx)
    /\ Lexer.current_char lx = Some c
    /\ c <> c_lparen /\ c <> c_rparen
    /\ JsString.isLetter c = false
    /\ existsb (fun op => JsString.startsWith (Lexer.remaining lx) (fst op))
               Lexer.OPERATOR_MAPPINGS = false.
Proof.
  unfold Lexer.dispatch.
  destruct (Lexer.current_char lx) as [c|] eqn:C; [|discriminate].
  destruct (N.eqb_spec c c_lparen); [discriminate|].
  destruct (N.eqb_spec c c_rparen); [discriminate|].
  unfold Lexer.startsOperator. rewrite C.
  destruct (existsb _ Lexer.OPERATOR_MAPPINGS) eqn:SO.
  - unfold Lexer.readOperator.
    destruct (readOperator_finds _ SO) as (op & cn & F & _). rewrite F.
    discriminate.
  - destruct (JsString.isLetter c) eqn:LC.
    + unfold Lexer.readIdentifier. rewrite C, LC. discriminate.
    + intros H. injection H as <-. exists c. auto 10.
Qed.

Lemma skipn_takeWhile f s :
  skipn (length (JsString.takeWhile f s)) s = JsString.dropWhile f s.
Proof.
  induction s as [|c s IH]; simpl; [reflexivity|].
  destruct (f c); simpl; [apply IH | reflexivity].
Qed.

Lemma dropWhile_hd f s c :
  hd_error (JsString.dropWhile f s) = Some c -> f c = false.
Proof.
  induction s as [|d s IH]; simpl; [discriminate|].
  destruct (f d) eqn:E; simpl; [apply IH | congruence].
Qed.

Lemma skipWhitespace_current lx c :
  Lexer.current_char (Lexer.skipWhitespace lx) = Some c ->
  JsString.isWhitespace c = false.
Proof.
  rewrite current_char_remaining. unfold Lexer.skipWhitespace.
  rewrite remaining_advanceBy, skipn_takeWhile. apply dropWhile_hd.
Qed.

Lemma getNextToken_throws lx e :
  Lexer.getNextToken lx = Throw e ->
  exists pos c, e = UnexpectedCharacter c pos
                /\ unlexableAt (Lexer.input lx) pos c.
Proof.
  unfold Lexer.getNextToken.
  destruct (Lexer.current_char lx) as [c|] eqn:C; [|discriminate].
  destruct (JsString.isWhitespace c) eqn:W; intros H;
    apply dispatch_throws in H as (d & -> & Hd & H1 & H2 & H3 & H4).
  - exists (Lexer.position (Lexer.skipWhitespace lx)), d.
    split; [reflexivity|]. unfold unlexableAt.
    pose proof (skipWhitespace_current _ _ Hd). auto 10.
  - exists (Lexer.position lx), d. split; [reflexivity|].
    unfold unlexableAt. assert (d = c) as -> by (unfold Lexer.current_char in *; congruence).
    auto 10.
Qed.

Lemma tokenizeLoop_throws fuel lx e :
  Lexer.tokenizeLoop fuel lx = Throw e ->
  exists pos c, e = UnexpectedCharacter c pos
                /\ unlexableAt (Lexer.input lx) pos c.
Proof.
  revert lx; induction fuel as [|fuel IH]; intros lx; simpl; [discriminate|].
  destruct (Lexer.getNextToken lx) as [[tok lx']| |] eqn:G; simpl;
    [| |discriminate].
  - apply getNextToken_progress in G as (Hin & _).
    assert (E : Lexer.tokenizeLoop fuel lx' = Throw e ->
                exists pos c, e = UnexpectedCharacter c pos
                              /\ unlexableAt (Lexer.input lx) pos c).
    { intros H. rewrite <- Hin. now apply IH. }
    destruct (tok_type tok); try discriminate;
      (destruct (Lexer.tokenizeLoop fuel lx'); simpl; try discriminate;
       intros H; apply E; congruence).
  - intros H. injection H as <-. now apply getNextToken_throws.
Qed.

(** The tokens the lexer returns. *)

Lemma keyword_is_operator name r :
  beginsWithKeyword name = true ->
  existsb (fun op => JsString.startsWith (name ++ r) (fst op))
          Lexer.OPERATOR_MAPPINGS = true.
Proof.
  unfold beginsWithKeyword. intros H.
  apply existsb_exists in H as [kw [Hin Hs]].
  assert (K : exists c, In (kw, c) Lexer.OPERATOR_MAPPINGS).
  { unfold keywordAliases in Hin.
    destruct Hin as [<-|[<-|[<-|[<-|[<-|[]]]]]];
      [exists AND | exists OR | exists IMPLIES | exists IFF | exists NOT];
      in_list. }
  destruct K as [c K]. apply existsb_exists. exists (kw, c).
  split; [assumption | now apply startsWith_weaken].
Qed.

Lemma dispatch_tokenOK lx tok lx' :
  Lexer.dispatch lx = Ret (tok, lx') -> tokenOK tok.
Proof.
  unfold Lexer.dispatch.
  destruct (Lexer.current_char lx) as [c|] eqn:C.
  2:{ intros H; injection H as <- <-. reflexivity. }
  destruct (c =? c_lparen)%N; [intros H; injection H as <- <-; reflexivity|].
  destruct (c =? c_rparen)%N; [intros H; injection H as <- <-; reflexivity|].
  destruct (Lexer.startsOperator lx) eqn:SO.
  - unfold Lexer.readOperator. destruct (find _ _) as [[op cn]|]; [|discriminate].
    intros H; injection H as <- <-. unfold tokenOK; simpl. now exists cn.
  - destruct (JsString.isLetter c) eqn:LC; [|discriminate].
    unfold Lexer.readIdentifier. rewrite C, LC.
    intros H; injection H as <- <-. unfold tokenOK; simpl.
    eexists; split; [reflexivity|].
    rewrite current_char_remaining in C.
    unfold Lexer.startsOperator in SO. rewrite current_char_remaining, C in SO.
    destruct (Lexer.remaining lx) as [|d r] eqn:R; [discriminate|].
    injection C as ->. unfold lexerName. simpl. rewrite (letter_isIdentChar _ LC).
    simpl. rewrite LC, takeWhile_forallb. simpl.
    destruct (beginsWithKeyword (c :: JsString.takeWhile JsString.isIdentChar r))
      eqn:K; [|reflexivity].
    apply keyword_is_operator with (r := JsString.dropWhile JsString.isIdentChar r) in K.
    simpl app in K. rewrite takeWhile_dropWhile in K. congruence.
Qed.

Lemma getNextToken_tokenOK lx tok lx' :
  Lexer.getNextToken lx = Ret (tok, lx') -> tokenOK tok.
Proof.
  unfold Lexer.getNextToken.
  destruct (Lexer.current_char lx) as [c|].
  - destruct (JsString.isWhitespace c); apply dispatch_tokenOK.
  - intros H; injection H as <- <-. reflexivity.
Qed.

Lemma tokenizeLoop_tokenOK fuel lx ts :
  Lexer.tokenizeLoop fuel lx = Ret ts -> Forall tokenOK ts.
Proof.
  revert lx ts; induction fuel as [|fuel IH]; intros lx ts; simpl; [discriminate|].
  destruct (Lexer.getNextToken lx) as [[tok lx']| |] eqn:G; simpl;
    try discriminate.
  apply getNextToken_tokenOK in G.
  assert (E : forall ts', Lexer.tokenizeLoop fuel lx' = Ret ts' ->
                          Forall tokenOK (tok :: ts')).
  { intros ts' H. constructor; [assumption | now apply IH with lx']. }
  destruct (tok_type tok);
    try (destruct (Lexer.tokenizeLoop fuel lx') as [ts'| |]; simpl;
         try discriminate; intros H; injection H as <-; now apply E).
  intros H; injection H as <-. now constructor.
Qed.

Lemma tokenize_tokenOK s ts : Lexer.tokenize s = Ret ts -> Forall tokenOK ts.
Proof. apply tokenizeLoop_tokenOK. Qed.

(** *** Lexing a name *)

Lemma letter_not_paren c :
  JsString.isLetter c = true ->
  (c =? c_lparen)%N = false /\ (c =? c_rparen)%N = false.
Proof.
  intros H. split; apply N.eqb_neq; intros ->; vm_compute in H; discriminate.
Qed.

(** No operator alias starts where a name of the lexer does. *)
Lemma name_not_operator name rest :
  lexerName name = true -> delimited rest ->
  existsb (fun op => JsString.startsWith (name ++ rest) (fst op))
          Lexer.OPERATOR_MAPPINGS = false.
Proof.
  unfold lexerName. intros Hn Hd.
  apply andb_true_iff in Hn as [Ha Hk]. apply negb_true_iff in Hk.
  destruct name as [|c cs]; [discriminate|]. simpl in Ha.
  apply andb_true_iff in Ha as [LC _].
  apply not_true_iff_false. intros H.
  apply existsb_exists in H as [[op cn] [Hin Hs]]. simpl fst in Hs.
  assert (Kw : forall kw, In kw keywordAliases -> op = kw -> False).
  { intros kw Hkw ->.
    apply startsWith_delimited in Hs; [|now (vm_compute in Hkw;
      repeat (destruct Hkw as [<-|Hkw]; [reflexivity|]); destruct Hkw)|assumption].
    assert (beginsWithKeyword (c :: cs) = true); [|congruence].
    apply existsb_exists. now exists kw. }
  unfold Lexer.OPERATOR_MAPPINGS in Hin. simpl in Hin.
  repeat (destruct Hin as [Hin|Hin];
          [injection Hin as <- <-;
           first [ solve [eapply Kw; [|reflexivity]; in_list]
                 | (vm_compute in Hs;
                    destruct c as [|q]; [discriminate|];
                    apply andb_true_iff in Hs as [Hq _];
                    apply Pos.eqb_eq in Hq; subst q;
                    vm_compute in LC; discriminate) ]|]).
  destruct Hin.
Qed.

Lemma dispatch_name lx name rest :
  Lexer.remaining lx = name ++ rest ->
  lexerName name = true -> delimited rest ->
  Lexer.dispatch lx
  = Ret (mkToken IDENTIFIER (VString name) (Lexer.position lx),
         Lexer.advanceBy (length name) lx).
Proof.
  intros R Hn Hd. pose proof (name_not_operator name rest Hn Hd) as NO.
  unfold lexerName in Hn. apply andb_true_iff in Hn as [Ha _].
  destruct name as [|c cs]; [discriminate|]. simpl in Ha.
  apply andb_true_iff in Ha as [LC Hcs].
  unfold Lexer.dispatch, Lexer.startsOperator, Lexer.readIdentifier.
  rewrite current_char_remaining, R. simpl hd_error. cbv iota.
  destruct (letter_not_paren c LC) as [-> ->].
  rewrite NO, LC.
  rewrite takeWhile_app_stop; [reflexivity| |].
  - simpl. now rewrite (letter_isIdentChar _ LC).
  - destruct rest; [exact I | exact Hd].
Qed.

Lemma getNextToken_ws lx ws c r :
  Lexer.remaining lx = ws ++ c :: r ->
  forallb JsString.isWhitespace ws = true ->
  JsString.isWhitespace c = false ->
  Lexer.getNextToken lx = Lexer.dispatch (Lexer.advanceBy (length ws) lx).
Proof.
  intros R Hws Hc. unfold Lexer.getNextToken.
  rewrite current_char_remaining, R.
  destruct ws as [|w ws]; simpl.
  - rewrite Hc. now rewrite advanceBy_0.
  - simpl in Hws. apply andb_true_iff in Hws as [Hw Hws]. rewrite Hw.
    unfold Lexer.skipWhitespace. rewrite R.
    change ((w :: ws) ++ c :: r) with ((w :: ws) ++ (c :: r)).
    rewrite takeWhile_app_stop; [reflexivity | simpl; now rewrite Hw | exact Hc].
Qed.

Lemma remaining_after lx a b :
  Lexer.remaining lx = a ++ b ->
  Lexer.remaining (Lexer.advanceBy (length a) lx) = b.
Proof. intros R. now rewrite remaining_advanceBy, R, skipn_app_exact. Qed.

Lemma getNextToken_name lx ws name rest :
  Lexer.remaining lx = ws ++ name ++ rest ->
  forallb JsString.isWhitespace ws = true ->
  lexerName name = true -> delimited rest ->
  Lexer.getNextToken lx
  = Ret (mkToken IDENTIFIER (VString name) (Lexer.position lx + length ws),
         Lexer.advanceBy (length ws + length name) lx).
Proof.
  intros R Hws Hn Hd.
  assert (exists c cs, name = c :: cs /\ JsString.isLetter c = true)
    as (c & cs & -> & LC).
  { unfold lexerName in Hn. apply andb_true_iff in Hn as [Ha _].
    destruct name as [|c cs]; [discriminate|]. simpl in Ha.
    apply andb_true_iff in Ha as [LC _]. now exists c, cs. }
  rewrite (getNextToken_ws lx ws c (cs ++ rest)); [|exact R|exact Hws|].
  - rewrite (dispatch_name _ (c :: cs) rest); [|now apply remaining_after|exact Hn|exact Hd].
    now rewrite advanceBy_advanceBy.
  - apply identChar_not_whitespace, letter_isIdentChar, LC.
Qed.

(** *** Lexing a rendering *)

Lemma lexesTo_nil lx : lexesTo lx [] 0.
Proof.
  exists []. split; [reflexivity|]. intros fuel. rewrite advanceBy_0. simpl.
  unfold prependTokens. now destruct (Lexer.tokenizeLoop fuel lx).
Qed.

Lemma lexesTo_one lx tok n :
  Lexer.getNextToken lx = Ret (tok, Lexer.advanceBy n lx) ->
  tok_type tok <> EOF ->
  lexesTo lx [kindOf tok] n.
Proof.
  intros G Ht. exists [tok]. split; [reflexivity|]. intros fuel. simpl.
  rewrite G. simpl. unfold prependTokens.
  destruct (tok_type tok); try reflexivity. now elim Ht.
Qed.

Lemma lexesTo_app lx k1 n k2 m :
  lexesTo lx k1 n -> lexesTo (Lexer.advanceBy n lx) k2 m ->
  lexesTo lx (k1 ++ k2) (n + m).
Proof.
  intros (t1 & E1 & H1) (t2 & E2 & H2). exists (t1 ++ t2). split.
  - now rewrite map_app, E1, E2.
  - intros fuel. rewrite length_app, <- Nat.add_assoc, H1, H2.
    rewrite advanceBy_advanceBy. unfold prependTokens.
    destruct (Lexer.tokenizeLoop fuel _); simpl; try reflexivity.
    now rewrite app_assoc.
Qed.

Lemma dispatch_lparen lx r :
  Lexer.remaining lx = c_lparen :: r ->
  Lexer.dispatch lx
  = Ret (mkToken LPAREN (VString [c_lparen]) (Lexer.position lx),
         Lexer.advanceBy 1 lx).
Proof.
  intros R. unfold Lexer.dispatch. rewrite current_char_remaining, R.
  reflexivity.
Qed.

Lemma dispatch_rparen lx r :
  Lexer.remaining lx = c_rparen :: r ->
  Lexer.dispatch lx
  = Ret (mkToken RPAREN (VString [c_rparen]) (Lexer.position lx),
         Lexer.advanceBy 1 lx).
Proof.
  intros R. unfold Lexer.dispatch. rewrite current_char_remaining, R.
  reflexivity.
Qed.

Lemma dispatch_symbol lx o r :
  Lexer.remaining lx = symbolOf o :: r ->
  Lexer.dispatch lx
  = Ret (mkToken OPERATOR (VOperator o) (Lexer.position lx),
         Lexer.advanceBy 1 lx).
Proof.
  intros R. unfold Lexer.dispatch, Lexer.startsOperator, Lexer.readOperator.
  rewrite current_char_remaining, R, sortedOperators.
  destruct o; vm_compute; reflexivity.
Qed.

Lemma symbol_not_whitespace o : JsString.isWhitespace (symbolOf o) = false.
Proof. now destruct o. Qed.

Lemma getNextToken_symbol lx ws o r :
  Lexer.remaining lx = ws ++ symbolOf o :: r ->
  forallb JsString.isWhitespace ws = true ->
  Lexer.getNextToken lx
  = Ret (mkToken OPERATOR (VOperator o) (Lexer.position lx + length ws),
         Lexer.advanceBy (length ws + 1) lx).
Proof.
  intros R Hws.
  rewrite (getNextToken_ws lx ws _ r R Hws (symbol_not_whitespace o)).
  rewrite (dispatch_symbol _ o r) by now apply remaining_after.
  now rewrite advanceBy_advanceBy.
Qed.

Lemma getNextToken_lparen lx ws r :
  Lexer.remaining lx = ws ++ c_lparen :: r ->
  forallb JsString.isWhitespace ws = true ->
  Lexer.getNextToken lx
  = Ret (mkToken LPAREN (VString [c_lparen]) (Lexer.position lx + length ws),
         Lexer.advanceBy (length ws + 1) lx).
Proof.
  intros R Hws.
  rewrite (getNextToken_ws lx ws _ r R Hws eq_refl).
  rewrite (dispatch_lparen _ r) by now apply remaining_after.
  now rewrite advanceBy_advanceBy.
Qed.

Lemma getNextToken_rparen lx r :
  Lexer.remaining lx = c_rparen :: r ->
  Lexer.getNextToken lx
  = Ret (mkToken RPAREN (VString [c_rparen]) (Lexer.position lx),
         Lexer.advanceBy 1 lx).
Proof.
  intros R. rewrite (getNextToken_ws lx [] _ r R eq_refl eq_refl).
  rewrite advanceBy_0. now apply dispatch_rparen with r.
Qed.

Lemma opSymbol_symbolOf o :
  OperatorType_eqb o NOT = false -> opSymbol o = [symbolOf o].
Proof. now destruct o. Qed.

(** The rendering of a tree of the parser is lexed into the tokens of the
    tree, whatever whitespace comes before it. *)
Lemma lexesTo_eq lx ks n n' : lexesTo lx ks n -> n = n' -> lexesTo lx ks n'.
Proof. now intros H <-. Qed.

(** The rendering of a tree of the parser is lexed into the tokens of the
    tree, whatever whitespace comes before it. *)
Lemma lex_render t :
  wfAST t = true ->
  forall lx ws rest,
    Lexer.remaining lx = ws ++ astToString t ++ rest ->
    forallb JsString.isWhitespace ws = true ->
    delimited rest ->
    lexesTo lx (tokenKinds t) (length ws + length (astToString t)).
Proof.
  induction t as [name|o t IH|o l IHl r IHr]; simpl; intros W lx ws rest R Hws Hd.
  - apply (lexesTo_one lx (mkToken IDENTIFIER (VString name)
                                   (Lexer.position lx + length ws))).
    + now apply getNextToken_name with rest.
    + discriminate.
  - apply andb_true_iff in W as [Wo W]. destruct o; try discriminate.
    eapply lexesTo_eq.
    + apply (lexesTo_app lx [(OPERATOR, VOperator NOT)] (length ws + 1)).
      * apply (lexesTo_one lx (mkToken OPERATOR (VOperator NOT)
                                       (Lexer.position lx + length ws))).
        -- now apply (getNextToken_symbol lx ws NOT (astToString t ++ rest)).
        -- discriminate.
      * apply (IH W _ [] rest); [|reflexivity|exact Hd].
        replace (length ws + 1) with (length (ws ++ [c_tilde]))
          by (rewrite length_app; reflexivity).
        apply remaining_after. rewrite R. now rewrite <- app_assoc.
    + simpl. lia.
  - apply andb_true_iff in W as [W Wr]. apply andb_true_iff in W as [Wo Wl].
    apply negb_true_iff in Wo. rewrite (opSymbol_symbolOf o Wo) in *.
    set (L := astToString l) in *. set (Rr := astToString r) in *.
    assert (R' : Lexer.remaining lx
                 = ws ++ c_lparen :: L ++ c_space :: symbolOf o :: c_space
                      :: Rr ++ c_rparen :: rest).
    { rewrite R. simpl. repeat (rewrite <- ?app_assoc; simpl). reflexivity. }
    clear R.
    assert (R1 : Lexer.remaining (Lexer.advanceBy (length ws + 1) lx)
                 = L ++ c_space :: symbolOf o :: c_space :: Rr ++ c_rparen :: rest).
    { replace (length ws + 1) with (length (ws ++ [c_lparen]))
        by (rewrite length_app; reflexivity).
      apply remaining_after. rewrite R'. now rewrite <- app_assoc. }
    set (lx1 := Lexer.advanceBy (length ws + 1) lx) in *.
    assert (R2 : Lexer.remaining (Lexer.advanceBy (0 + length L) lx1)
                 = [c_space] ++ symbolOf o :: c_space :: Rr ++ c_rparen :: rest).
    { apply remaining_after. exact R1. }
    set (lx2 := Lexer.advanceBy (0 + length L) lx1) in *.
    assert (R3 : Lexer.remaining (Lexer.advanceBy (1 + 1) lx2)
                 = [c_space] ++ Rr ++ c_rparen :: rest).
    { change (1 + 1) with (length [c_space; symbolOf o]).
      apply remaining_after. exact R2. }
    set (lx3 := Lexer.advanceBy (1 + 1) lx2) in *.
    assert (R4 : Lexer.remaining (Lexer.advanceBy (1 + length Rr) lx3)
                 = c_rparen :: rest).
    { change (1 + length Rr) with (length (c_space :: Rr)).
      apply remaining_after. exact R3. }
    set (lx4 := Lexer.advanceBy (1 + length Rr) lx3) in *.
    eapply lexesTo_eq.
    + apply (lexesTo_app lx [(LPAREN, VString [c_lparen])] (length ws + 1)).
      { apply (lexesTo_one lx (mkToken LPAREN (VString [c_lparen])
                                       (Lexer.position lx + length ws)));
          [|discriminate].
        now apply getNextToken_lparen
          with (r := L ++ c_space :: symbolOf o :: c_space :: Rr ++ c_rparen :: rest). }
      apply (lexesTo_app lx1 (tokenKinds l) (0 + length L)).
      { apply (IHl Wl lx1 [] _ R1 eq_refl). reflexivity. }
      apply (lexesTo_app lx2 [(OPERATOR, VOperator o)] (1 + 1)).
      { apply (lexesTo_one lx2 (mkToken OPERATOR (VOperator o)
                                        (Lexer.position lx2 + 1)));
          [|discriminate].
        now apply (getNextToken_symbol lx2 [c_space] o _ R2). }
      apply (lexesTo_app lx3 (tokenKinds r) (1 + length Rr)).
      { apply (IHr Wr lx3 [c_space] _ R3 eq_refl). reflexivity. }
      apply (lexesTo_one lx4 (mkToken RPAREN (VString [c_rparen])
                                      (Lexer.position lx4)) 1);
        [|discriminate].
      now apply getNextToken_rparen with rest.
    + subst L Rr. rewrite !length_app. simpl. rewrite !length_app. simpl. lia.
Qed.

Lemma atomName_identChars name :
  isAtomName name = true -> forallb JsString.isIdentChar name = true.
Proof.
  destruct name as [|c cs]; [discriminate|]. simpl. intros H.
  apply andb_true_iff in H as [LC ->]. now rewrite (letter_isIdentChar _ LC).
Qed.

Lemma lexerName_atomName name : lexerName name = true -> isAtomName name = true.
Proof. unfold lexerName. intros H. now apply andb_true_iff in H as [-> _]. Qed.

Lemma render_first t :
  wfAST t = true ->
  exists c s, astToString t = c :: s /\ JsString.isWhitespace c = false.
Proof.
  destruct t as [name|o t|o l r]; simpl; intros W.
  - apply lexerName_atomName in W. destruct name as [|c cs]; [discriminate|].
    simpl in W. apply andb_true_iff in W as [LC _]. exists c, cs.
    split; [reflexivity|].
    apply identChar_not_whitespace, letter_isIdentChar, LC.
  - now exists c_tilde, (astToString t).
  - eexists _, _. split; reflexivity.
Qed.

Lemma render_last t :
  wfAST t = true ->
  exists s d, astToString t = s ++ [d] /\ JsString.isWhitespace d = false.
Proof.
  induction t as [name|o t IH|o l IHl r IHr]; simpl; intros W.
  - apply lexerName_atomName in W. pose proof (atomName_identChars _ W) as I.
    destruct name as [|c cs]; [discriminate|].
    destruct (exists_last (l := c :: cs)) as (s & d & E); [discriminate|].
    rewrite E in *. exists s, d. split; [reflexivity|].
    rewrite forallb_app in I. apply andb_true_iff in I as [_ I]. simpl in I.
    apply andb_true_iff in I as [I _]. now apply identChar_not_whitespace.
  - apply andb_true_iff in W as [_ W]. destruct (IH W) as (s & d & E & Hd).
    exists (c_tilde :: s), d. rewrite E. split; [reflexivity | assumption].
  - exists (c_lparen :: astToString l ++ [c_space] ++ opSymbol o ++ [c_space]
              ++ astToString r), c_rparen.
    split; [|reflexivity]. simpl. repeat (rewrite <- ?app_assoc; simpl).
    reflexivity.
Qed.

Lemma render_trim t :
  wfAST t = true -> JsString.trim (astToString t) = astToString t.
Proof.
  intros W. destruct (render_first t W) as (c & s & E1 & H1).
  destruct (render_last t W) as (s' & d & E2 & H2).
  now apply trim_fixed with c d s s'.
Qed.

Lemma tokenKinds_length t :
  wfAST t = true -> length (tokenKinds t) <= length (astToString t).
Proof.
  induction t as [name|o t IH|o l IHl r IHr]; simpl; intros W.
  - apply lexerName_atomName in W. destruct name; [discriminate|]. simpl. lia.
  - apply andb_true_iff in W as [_ W]. specialize (IH W). lia.
  - apply andb_true_iff in W as [W Wr]. apply andb_true_iff in W as [_ Wl].
    specialize (IHl Wl). specialize (IHr Wr).
    rewrite !length_app. simpl. rewrite !length_app. simpl.
    rewrite !length_app. simpl. lia.
Qed.

Lemma tokenizeLoop_end fuel lx :
  Lexer.remaining lx = [] ->
  Lexer.tokenizeLoop (S fuel) lx = Ret [mkToken EOF VNull (Lexer.position lx)].
Proof.
  intros R. simpl. unfold Lexer.getNextToken.
  now rewrite current_char_remaining, R.
Qed.

(** [tokenize] on the rendering of a tree of the parser: the tokens of
    the tree, then the end token. *)
Lemma tokenize_render t :
  wfAST t = true ->
  exists toks eof,
    Lexer.tokenize (astToString t) = Ret (toks ++ [eof])
    /\ map kindOf toks = tokenKinds t
    /\ tok_type eof = EOF.
Proof.
  intros W. unfold Lexer.tokenize, Lexer.tokenizeAll, Lexer.new.
  rewrite (render_trim t W). set (s := astToString t).
  set (lx := Lexer.mk s 0).
  assert (R : Lexer.remaining lx = [] ++ s ++ []) by (simpl; now rewrite app_nil_r).
  destruct (lex_render t W lx [] [] R eq_refl I) as (toks & E & H).
  pose proof (tokenKinds_length t W) as Hl. fold s in Hl.
  simpl Lexer.input.
  replace (S (length s))
    with (length (tokenKinds t) + S (length s - length (tokenKinds t))) by lia.
  rewrite H, tokenizeLoop_end.
  - exists toks, (mkToken EOF VNull
                    (Lexer.position (Lexer.advanceBy (length ([]:jsstring) + length s) lx))).
    split; [reflexivity|]. split; [assumption | reflexivity].
  - change (length ([]:jsstring) + length s) with (length s).
    rewrite remaining_advanceBy. simpl. unfold JsString.slice. simpl.
    apply skipn_all.
Qed.

(** *** The lexer as a function of the characters left *)

Lemma getNextToken_skip lx :
  Lexer.getNextToken lx = Lexer.dispatch (Lexer.skipWhitespace lx).
Proof.
  unfold Lexer.getNextToken. rewrite current_char_remaining.
  destruct (Lexer.remaining lx) as [|c r] eqn:R; simpl hd_error; cbv iota.
  - unfold Lexer.skipWhitespace. rewrite R. simpl. rewrite advanceBy_0.
    unfold Lexer.dispatch. now rewrite current_char_remaining, R.
  - destruct (JsString.isWhitespace c) eqn:W; [reflexivity|].
    unfold Lexer.skipWhitespace. rewrite R. simpl. rewrite W. simpl.
    now rewrite advanceBy_0.
Qed.

Lemma remaining_skipWhitespace lx :
  Lexer.remaining (Lexer.skipWhitespace lx)
  = JsString.dropWhile JsString.isWhitespace (Lexer.remaining lx).
Proof.
  unfold Lexer.skipWhitespace. now rewrite remaining_advanceBy, skipn_takeWhile.
Qed.

Lemma getNextToken_stepOf lx :
  match stepOf (Lexer.remaining lx) with
  | StepEOF =>
      exists tok lx', Lexer.getNextToken lx = Ret (tok, lx')
                      /\ tok_type tok = EOF
  | StepTok k r' =>
      exists tok lx',
        Lexer.getNextToken lx = Ret (tok, lx')
        /\ kindOf tok = k /\ tok_type tok <> EOF
        /\ Lexer.remaining lx' = r'
  | StepErr => exists e, Lexer.getNextToken lx = Throw e
  end.
Proof.
  rewrite getNextToken_skip. unfold stepOf.
  rewrite <- remaining_skipWhitespace.
  set (lx1 := Lexer.skipWhitespace lx).
  unfold Lexer.dispatch, Lexer.startsOperator, Lexer.readOperator,
    Lexer.readIdentifier.
  rewrite current_char_remaining.
  destruct (Lexer.remaining lx1) as [|c r0] eqn:R; simpl hd_error; cbv iota.
  - eexists _, _. split; reflexivity.
  - assert (A1 : Lexer.remaining (Lexer.advance lx1) = r0).
    { change (Lexer.advance lx1) with (Lexer.advanceBy 1 lx1).
      now rewrite remaining_advanceBy, R. }
    destruct (c =? c_lparen)%N.
    { eexists _, _. split; [reflexivity|]. split; [reflexivity|].
      split; [discriminate | exact A1]. }
    destruct (c =? c_rparen)%N.
    { eexists _, _. split; [reflexivity|]. split; [reflexivity|].
      split; [discriminate | exact A1]. }
    destruct (existsb _ Lexer.OPERATOR_MAPPINGS).
    { destruct (find _ _) as [[op cn]|]; [|now eexists].
      eexists _, _. split; [reflexivity|]. split; [reflexivity|].
      split; [discriminate|]. now rewrite remaining_advanceBy, R. }
    destruct (JsString.isLetter c); [|now eexists].
    eexists _, _. split; [reflexivity|]. split; [reflexivity|].
    split; [discriminate|].
    rewrite remaining_advanceBy, R. apply skipn_takeWhile.
Qed.

(** The loop of [tokenize] returns exactly the runs of [Lexes], followed
    by the end token. *)
Lemma tokenizeLoop_Lexes fuel :
  forall lx ts,
    Lexer.tokenizeLoop fuel lx = Ret ts ->
    exists ks eof,
      Lexes (Lexer.remaining lx) ks
      /\ map kindOf ts = ks ++ [kindOf eof] /\ tok_type eof = EOF.
Proof.
  induction fuel as [|fuel IH]; intros lx ts E; [discriminate|].
  simpl in E. pose proof (getNextToken_stepOf lx) as G.
  destruct (Lexer.getNextToken lx) as [[tok lx']| |] eqn:N; simpl in E;
    try discriminate.
  destruct (stepOf (Lexer.remaining lx)) as [|k r'|] eqn:S.
  - destruct G as (tok0 & lx0 & G & Ht). injection G as <- <-.
    rewrite Ht in E. injection E as <-.
    exists [], tok. split; [now apply Lexes_eof|]. now split.
  - destruct G as (tok0 & lx0 & G & Hk & Ht & Hr). injection G as <- <-.
    assert (E' : exists ts', Lexer.tokenizeLoop fuel lx' = Ret ts'
                             /\ ts = tok :: ts').
    { destruct (tok_type tok); try (now elim Ht);
        (destruct (Lexer.tokenizeLoop fuel lx') as [ts'| |]; simpl in E;
         try discriminate; injection E as <-; now exists ts'). }
    destruct E' as (ts' & E' & ->).
    destruct (IH _ _ E') as (ks & eof & L & M & He).
    exists (k :: ks), eof. split; [|split; [|exact He]].
    + apply Lexes_tok with r'; [exact S | now rewrite <- Hr].
    + simpl. now rewrite Hk, M.
  - destruct G as (e & G). discriminate.
Qed.

Lemma Lexes_tokenizeLoop r ks :
  Lexes r ks ->
  forall fuel lx,
    Lexer.remaining lx = r -> lexerLeft lx < fuel ->
    exists ts eof,
      Lexer.tokenizeLoop fuel lx = Ret (ts ++ [eof])
      /\ map kindOf ts = ks /\ tok_type eof = EOF.
Proof.
  induction 1 as [r S|r k r' ks S L IH]; intros fuel lx R Hf;
    (destruct fuel as [|fuel]; [lia|]); simpl;
    pose proof (getNextToken_stepOf lx) as G; rewrite R, S in G.
  - destruct G as (tok & lx' & G & Ht). rewrite G. simpl. rewrite Ht.
    now exists [], tok.
  - destruct G as (tok & lx' & G & Hk & Ht & Hr). rewrite G. simpl.
    destruct (getNextToken_progress _ _ _ G) as (_ & _ & P).
    destruct (IH fuel lx' Hr) as (ts & eof & E & M & He);
      [specialize (P Ht); lia|].
    exists (tok :: ts), eof. rewrite E. simpl.
    split; [|split; [now rewrite Hk, M | exact He]].
    destruct (tok_type tok); try reflexivity. now elim Ht.
Qed.

(** *** Reading a formula inside a longer string *)

Lemma dropWhile_all f s : forallb f s = true -> JsString.dropWhile f s = [].
Proof.
  induction s as [|c s IH]; simpl; [reflexivity|].
  intros H. apply andb_true_iff in H as [-> H]. now apply IH.
Qed.

Lemma dropWhile_nil f s : JsString.dropWhile f s = [] -> forallb f s = true.
Proof.
  induction s as [|c s IH]; simpl; [reflexivity|].
  destruct (f c); [exact IH | discriminate].
Qed.

Lemma dropWhile_app_all f w r :
  forallb f w = true -> JsString.dropWhile f (w ++ r) = JsString.dropWhile f r.
Proof.
  induction w as [|c w IH]; simpl; [reflexivity|].
  intros H. apply andb_true_iff in H as [-> H]. now apply IH.
Qed.

Lemma dropWhile_app_some f a b :
  JsString.dropWhile f a <> [] ->
  JsString.dropWhile f (a ++ b) = JsString.dropWhile f a ++ b.
Proof.
  induction a as [|c a IH]; simpl; [congruence|].
  destruct (f c); [exact IH | reflexivity].
Qed.

Lemma dropWhile_app_stop f a b :
  match b with [] => True | c :: _ => f c = false end ->
  JsString.dropWhile f (a ++ b) = JsString.dropWhile f a ++ b.
Proof.
  intros Hb. induction a as [|c a IH]; simpl.
  - now apply dropWhile_head.
  - destruct (f c); [exact IH | reflexivity].
Qed.

Lemma takeWhile_app_delim f a b :
  match b with [] => True | c :: _ => f c = false end ->
  JsString.takeWhile f (a ++ b) = JsString.takeWhile f a.
Proof.
  intros Hb. induction a as [|c a IH]; simpl.
  - destruct b as [|d b]; simpl; [reflexivity | now rewrite Hb].
  - destruct (f c); [now rewrite IH | reflexivity].
Qed.

Lemma hardDelimited_delimited ext : hardDelimited ext -> delimited ext.
Proof.
  destruct ext as [|d ext]; simpl; [trivial|]. intros [W| ->]; [|reflexivity].
  destruct (JsString.isIdentChar d) eqn:I; [|reflexivity].
  apply identChar_not_whitespace in I. congruence.
Qed.

Lemma operators_plain op c :
  In (op, c) Lexer.OPERATOR_MAPPINGS -> forallb plain op = true.
Proof.
  assert (H : forallb (fun x => forallb plain (fst x)) Lexer.OPERATOR_MAPPINGS
              = true) by (vm_compute; reflexivity).
  intros I. rewrite forallb_forall in H. exact (H _ I).
Qed.

Lemma startsWith_extend r ext p :
  forallb plain p = true -> hardDelimited ext ->
  JsString.startsWith (r ++ ext) p = JsString.startsWith r p.
Proof.
  revert r; induction p as [|c p IH]; intros r Hp Hd; [reflexivity|].
  simpl in Hp. apply andb_true_iff in Hp as [Hc Hp].
  destruct r as [|d r]; simpl.
  - destruct ext as [|e ext]; [reflexivity|].
    replace (c =? e)%N with false; [reflexivity|].
    symmetry. apply N.eqb_neq. intros ->.
    unfold plain in Hc. apply andb_true_iff in Hc as [W P].
    simpl in Hd. destruct Hd as [Hd| ->].
    + now rewrite Hd in W.
    + now rewrite N.eqb_refl in P.
  - now rewrite IH.
Qed.

Lemma skipn_app_within {A} n (a b : list A) :
  n <= length a -> skipn n (a ++ b) = skipn n a ++ b.
Proof.
  revert a; induction n as [|n IH]; intros a H; [reflexivity|].
  destruct a as [|x a]; simpl in *; [lia|]. apply IH. lia.
Qed.

Lemma existsb_same {A} (f g : A -> bool) l :
  (forall x, In x l -> f x = g x) -> existsb f l = existsb g l.
Proof.
  induction l as [|x l IH]; intros H; simpl; [reflexivity|].
  rewrite (H x) by now left. rewrite IH; [reflexivity|].
  intros y Hy. apply H. now right.
Qed.

Lemma find_same {A} (f g : A -> bool) l :
  (forall x, In x l -> f x = g x) -> find f l = find g l.
Proof.
  induction l as [|x l IH]; intros H; simpl; [reflexivity|].
  rewrite (H x) by now left. rewrite IH; [reflexivity|].
  intros y Hy. apply H. now right.
Qed.

Lemma stepOf_EOF r :
  stepOf r = StepEOF <-> JsString.dropWhile JsString.isWhitespace r = [].
Proof.
  unfold stepOf.
  destruct (JsString.dropWhile JsString.isWhitespace r) as [|c r0];
    [tauto|].
  split; [|discriminate].
  destruct (c =? c_lparen)%N; [discriminate|].
  destruct (c =? c_rparen)%N; [discriminate|].
  destruct (existsb _ _).
  - destruct (find _ _) as [[op cn]|]; discriminate.
  - destruct (JsString.isLetter c); discriminate.
Qed.

Lemma stepOf_ws w r :
  forallb JsString.isWhitespace w = true -> stepOf (w ++ r) = stepOf r.
Proof. intros H. unfold stepOf. now rewrite dropWhile_app_all. Qed.

(** A token read from [r] is read in the same way from [r ++ ext], when
    [ext] begins with whitespace or a closing parenthesis. *)
Lemma stepOf_extend r ext :
  hardDelimited ext ->
  JsString.dropWhile JsString.isWhitespace r <> [] ->
  stepOf (r ++ ext)
  = match stepOf r with
    | StepTok k r' => StepTok k (r' ++ ext)
    | x => x
    end.
Proof.
  intros Hd Hr. unfold stepOf. rewrite dropWhile_app_some by exact Hr.
  destruct (JsString.dropWhile JsString.isWhitespace r) as [|c r0];
    [congruence|].
  simpl app. cbv beta iota.
  destruct (c =? c_lparen)%N; [reflexivity|].
  destruct (c =? c_rparen)%N; [reflexivity|].
  change (c :: r0 ++ ext) with ((c :: r0) ++ ext).
  rewrite (existsb_same
             (fun op => JsString.startsWith ((c :: r0) ++ ext) (fst op))
             (fun op => JsString.startsWith (c :: r0) (fst op))).
  2:{ intros [op cn] I. unfold fst.
      apply (startsWith_extend (c :: r0)); [|exact Hd].
      now apply operators_plain with cn. }
  rewrite (find_same
             (fun op => JsString.startsWith ((c :: r0) ++ ext) (fst op))
             (fun op => JsString.startsWith (c :: r0) (fst op))).
  2:{ intros [op cn] I. unfold fst.
      apply (startsWith_extend (c :: r0)); [|exact Hd].
      apply operators_plain with cn.
      exact (proj1 (In_sortByLengthDesc _ _) I). }
  destruct (existsb _ _).
  - destruct (find _ _) as [[op cn]|] eqn:F; [|reflexivity].
    apply find_some in F as [_ F]. simpl in F.
    apply startsWith_length in F.
    now rewrite skipn_app_within by exact F.
  - destruct (JsString.isLetter c); [|reflexivity].
    pose proof (hardDelimited_delimited _ Hd) as Hd'.
    rewrite takeWhile_app_delim, dropWhile_app_stop; [reflexivity| |];
      exact Hd'.
Qed.

Lemma Lexes_same r1 r2 ks : stepOf r1 = stepOf r2 -> Lexes r1 ks -> Lexes r2 ks.
Proof.
  intros E L. inversion L; subst.
  - apply Lexes_eof. congruence.
  - eapply Lexes_tok; [|eassumption]. congruence.
Qed.

Lemma Lexes_ws w r ks :
  forallb JsString.isWhitespace w = true -> Lexes (w ++ r) ks <-> Lexes r ks.
Proof.
  intros H. split; apply Lexes_same; [|symmetry]; now apply stepOf_ws.
Qed.

Lemma Lexes_extend r ks1 :
  Lexes r ks1 ->
  forall ext ks2, Lexes ext ks2 -> hardDelimited ext ->
                  Lexes (r ++ ext) (ks1 ++ ks2).
Proof.
  induction 1 as [r S|r k r' ks S L IH]; intros ext ks2 L2 Hd; simpl.
  - apply stepOf_EOF, dropWhile_nil in S. now apply Lexes_ws.
  - apply Lexes_tok with (r' ++ ext); [|now apply IH].
    rewrite stepOf_extend, S; [reflexivity | exact Hd |].
    intros N. apply stepOf_EOF in N. congruence.
Qed.

Lemma whitespace_hardDelimited t :
  forallb JsString.isWhitespace t = true -> hardDelimited t.
Proof.
  destruct t as [|d t]; simpl; [trivial|].
  intros H. apply andb_true_iff in H as [H _]. now left.
Qed.

Lemma Lexes_whitespace t :
  forallb JsString.isWhitespace t = true -> Lexes t [].
Proof. intros H. apply Lexes_eof, stepOf_EOF. now apply dropWhile_all. Qed.

(** Trailing whitespace changes nothing. *)
Lemma Lexes_unextend x ks :
  Lexes x ks ->
  forall r t, x = r ++ t -> forallb JsString.isWhitespace t = true ->
              Lexes r ks.
Proof.
  induction 1 as [x S|x k x' ks S L IH]; intros r t -> Ht.
  - apply Lexes_eof, stepOf_EOF.
    apply stepOf_EOF, dropWhile_nil in S.
    rewrite forallb_app in S. apply andb_true_iff in S as [S _].
    now apply dropWhile_all.
  - destruct (JsString.dropWhile JsString.isWhitespace r) eqn:D.
    + apply dropWhile_nil in D.
      assert (E : stepOf (r ++ t) = StepEOF).
      { apply stepOf_EOF, dropWhile_all. rewrite forallb_app.
        now rewrite D, Ht. }
      congruence.
    + rewrite stepOf_extend in S;
        [|now apply whitespace_hardDelimited | congruence].
      destruct (stepOf r) as [|k0 r0|] eqn:Sr; try discriminate.
      injection S as -> <-.
      apply Lexes_tok with r0; [exact Sr|]. now apply IH with t.
Qed.

Lemma Lexes_trailing r t ks :
  forallb JsString.isWhitespace t = true -> Lexes (r ++ t) ks <-> Lexes r ks.
Proof.
  intros Ht. split; intros L.
  - now apply Lexes_unextend with (r ++ t) t.
  - rewrite <- (app_nil_r ks). apply Lexes_extend; [exact L| |].
    + now apply Lexes_whitespace.
    + now apply whitespace_hardDelimited.
Qed.

(** [trim] removes a run of whitespace at each end. *)
Lemma trim_decompose s :
  exists l t,
    s = l ++ JsString.trim s ++ t
    /\ forallb JsString.isWhitespace l = true
    /\ forallb JsString.isWhitespace t = true.
Proof.
  unfold JsString.trim.
  set (s1 := JsString.dropWhile JsString.isWhitespace s).
  exists (JsString.takeWhile JsString.isWhitespace s),
         (rev (JsString.takeWhile JsString.isWhitespace (rev s1))).
  split; [|split].
  - rewrite <- rev_app_distr, takeWhile_dropWhile, rev_involutive.
    symmetry. apply takeWhile_dropWhile.
  - apply takeWhile_forallb.
  - rewrite forallb_forall. intros c Hc. apply In_rev in Hc.
    pose proof (takeWhile_forallb JsString.isWhitespace (rev s1)) as F.
    rewrite forallb_forall in F. now apply F.
Qed.

Lemma Lexes_trim s ks : Lexes (JsString.trim s) ks <-> Lexes s ks.
Proof.
  destruct (trim_decompose s) as (l & t & E & Hl & Ht).
  rewrite E at 2. rewrite Lexes_ws by exact Hl.
  now rewrite Lexes_trailing by exact Ht.
Qed.

(** The kinds of the tokens of a string are its run of [Lexes]. *)
Lemma tokenize_Lexes s ts :
  Lexer.tokenize s = Ret ts ->
  exists ks eof,
    Lexes s ks /\ map kindOf ts = ks ++ [kindOf eof] /\ tok_type eof = EOF.
Proof.
  intros E. apply tokenizeLoop_Lexes in E as (ks & eof & L & M & He).
  exists ks, eof. split; [|now split].
  apply Lexes_trim. exact L.
Qed.

Lemma Lexes_tokenize s ks :
  Lexes s ks ->
  exists ts eof,
    Lexer.tokenize s = Ret (ts ++ [eof])
    /\ map kindOf ts = ks /\ tok_type eof = EOF.
Proof.
  intros L. apply Lexes_trim in L.
  apply Lexes_tokenizeLoop with (JsString.trim s); [exact L|reflexivity|].
  unfold lexerLeft. simpl. lia.
Qed.

(** *** The three ways the rules build a string *)

Lemma stepOf_lparen r :
  stepOf (c_lparen :: r) = StepTok (LPAREN, VString [c_lparen]) r.
Proof. reflexivity. Qed.

Lemma stepOf_rparen r :
  stepOf (c_rparen :: r) = StepTok (RPAREN, VString [c_rparen]) r.
Proof. reflexivity. Qed.

Lemma stepOf_symbol o r :
  stepOf (symbolOf o :: r) = StepTok (OPERATOR, VOperator o) r.
Proof.
  unfold stepOf. rewrite sortedOperators. destruct o; vm_compute; reflexivity.
Qed.

Lemma Lexes_binary o A B ka kb :
  Lexes A ka -> Lexes B kb ->
  Lexes (c_lparen :: A ++ c_space :: symbolOf o :: c_space :: B ++ [c_rparen])
        ((LPAREN, VString [c_lparen])
           :: (ka ++ (OPERATOR, VOperator o) :: kb)
           ++ [(RPAREN, VString [c_rparen])]).
Proof.
  intros LA LB.
  apply Lexes_tok with (A ++ c_space :: symbolOf o :: c_space :: B ++ [c_rparen]);
    [apply stepOf_lparen|].
  rewrite <- app_assoc. apply Lexes_extend; [exact LA| |simpl; now left].
  apply (Lexes_ws [c_space]); [reflexivity|].
  apply Lexes_tok with (c_space :: B ++ [c_rparen]); [apply stepOf_symbol|].
  apply (Lexes_ws [c_space]); [reflexivity|].
  apply Lexes_extend; [exact LB| |simpl; now right].
  apply Lexes_tok with []; [apply stepOf_rparen|].
  now apply Lexes_eof.
Qed.

Lemma Lexes_tilde f k :
  Lexes f k <-> Lexes (c_tilde :: f) ((OPERATOR, VOperator NOT) :: k).
Proof.
  split; intros L.
  - apply Lexes_tok with f; [apply (stepOf_symbol NOT)|exact L].
  - inversion L as [|r k0 r' ks S L']; subst.
    rewrite (stepOf_symbol NOT) in S. now injection S as <-.
Qed.

Lemma Lexes_tilde_inv f K :
  Lexes (c_tilde :: f) K ->
  exists k, K = (OPERATOR, VOperator NOT) :: k /\ Lexes f k.
Proof.
  intros L. inversion L as [r S|r k0 r' ks S L']; subst.
  - now rewrite (stepOf_symbol NOT) in S.
  - rewrite (stepOf_symbol NOT) in S. injection S as <- <-. now exists ks.
Qed.

(** ** The parser *)

Lemma obind_terminates {A B} (m : Outcome A) (k : A -> Outcome B) :
  terminates m -> (forall a, m = Ret a -> terminates (k a)) ->
  terminates (obind m k).
Proof.
  unfold terminates. destruct m; simpl; intros T K; auto. discriminate.
Qed.

Lemma obind_Ret {A B} (m : Outcome A) (k : A -> Outcome B) b :
  obind m k = Ret b -> exists a, m = Ret a /\ k a = Ret b.
Proof. destruct m; simpl; intros H; try discriminate. now exists a. Qed.

Lemma parseEquivalence_S fuel p :
  Parser.parseEquivalence (S fuel) p
  = ('(l, p1) <- Parser.parseImplication fuel p ;;
     Parser.parseLeftAssoc fuel IFF (Parser.parseImplication fuel)
                           createEquivalence l p1).
Proof. reflexivity. Qed.

Lemma parseImplication_S fuel p :
  Parser.parseImplication (S fuel) p
  = ('(l, p1) <- Parser.parseDisjunction fuel p ;;
     if Parser.match_ p1 OPERATOR (Some (VOperator IMPLIES)) then
       '(r, p2) <- Parser.parseImplication fuel (Parser.advance p1) ;;
       Ret (createImplication l r, p2)
     else Ret (l, p1)).
Proof. reflexivity. Qed.

Lemma parseDisjunction_S fuel p :
  Parser.parseDisjunction (S fuel) p
  = ('(l, p1) <- Parser.parseConjunction fuel p ;;
     Parser.parseLeftAssoc fuel OR (Parser.parseConjunction fuel)
                           createDisjunction l p1).
Proof. reflexivity. Qed.

Lemma parseConjunction_S fuel p :
  Parser.parseConjunction (S fuel) p
  = ('(l, p1) <- Parser.parseNegation fuel p ;;
     Parser.parseLeftAssoc fuel AND (Parser.parseNegation fuel)
                           createConjunction l p1).
Proof. reflexivity. Qed.

Lemma parseNegation_S fuel p :
  Parser.parseNegation (S fuel) p
  = (if Parser.match_ p OPERATOR (Some (VOperator NOT)) then
       '(operand, p1) <- Parser.parseNegation fuel (Parser.advance p) ;;
       Ret (negate operand, p1)
     else Parser.parsePrimary fuel p).
Proof. reflexivity. Qed.

Lemma parsePrimary_S fuel p :
  Parser.parsePrimary (S fuel) p
  = (if Parser.match_ p LPAREN None then
       '(expr, p1) <- Parser.parseEquivalence fuel (Parser.advance p) ;;
       '(_, p2) <- Parser.consume p1 RPAREN [c_rparen]
                     (Some (js "Expected ')' after expression")) ;;
       Ret (expr, p2)
     else if Parser.match_ p IDENTIFIER None then
       match Parser.currentToken p with
       | Some {| tok_value := VString name |} =>
           Ret (createAtom name, Parser.advance p)
       | _ => Throw TypeError
       end
     else
       Throw (ParseError (ExpectedIdentifierOrLParen (Parser.currentToken p))
                         (Parser.errorPosition p) (Parser.currentToken p))).
Proof. reflexivity. Qed.

Lemma parseLeftAssoc_S fuel op operand create l p :
  Parser.parseLeftAssoc (S fuel) op operand create l p
  = (if Parser.match_ p OPERATOR (Some (VOperator op)) then
       '(r, p') <- operand (Parser.advance p) ;;
       Parser.parseLeftAssoc fuel op operand create (create l r) p'
     else Ret (l, p)).
Proof. reflexivity. Qed.

Lemma currentToken_rest p :
  Parser.currentToken p = hd_error (parserRest p).
Proof. apply nth_error_skipn_hd. Qed.

Lemma parserRest_advance p : parserRest (Parser.advance p) = tl (parserRest p).
Proof.
  unfold parserRest, Parser.advance; simpl.
  rewrite Nat.add_comm. simpl.
  generalize (Parser.tokens p) as l.
  induction (Parser.position p) as [|n IH]; intros [|x l]; simpl; auto.
Qed.

Lemma parserLeft_advance p tok :
  Parser.currentToken p = Some tok ->
  S (parserLeft (Parser.advance p)) = parserLeft p.
Proof.
  unfold Parser.currentToken, parserLeft, Parser.advance. simpl. intros H.
  assert (Parser.position p < length (Parser.tokens p))
    by (apply nth_error_Some; congruence).
  lia.
Qed.

Lemma match_current p ty v :
  Parser.match_ p ty v = true ->
  exists tok, Parser.currentToken p = Some tok
              /\ tok_type tok = ty
              /\ forall x, v = Some x -> tok_value tok = x.
Proof.
  unfold Parser.match_. destruct (Parser.currentToken p) as [tok|]; [|discriminate].
  intros H. exists tok. split; [reflexivity|].
  destruct (Parser.TokenType_eqb (tok_type tok) ty) eqn:E; [|discriminate].
  simpl in H. split.
  - destruct (tok_type tok), ty; simpl in E; congruence.
  - intros x ->. destruct (tok_value tok), x; simpl in H; try discriminate.
    + apply JsString_eqb_eq in H. congruence.
    + destruct o, o0; simpl in H; congruence.
    + reflexivity.
Qed.

Lemma outcomeOK_ret p t : outcomeOK p (Ret (t, p)).
Proof.
  split; [discriminate|]. intros t' p' E. injection E as <- <-. split; [reflexivity|lia].
Qed.

Lemma outcomeOK_throw p e : outcomeOK p (Throw e).
Proof. split; discriminate. Qed.

Lemma outcomeOK_weaken p q m :
  Parser.tokens q = Parser.tokens p -> parserLeft q <= parserLeft p ->
  outcomeOK q m -> outcomeOK p m.
Proof.
  intros Ht Hl [T R]. split; [exact T|]. intros t p' E.
  destruct (R _ _ E). split; [congruence|lia].
Qed.

Lemma outcomeOK_bind p m (g : AST -> Parser.t -> Outcome (AST * Parser.t)) :
  outcomeOK p m ->
  (forall l p1, m = Ret (l, p1) -> outcomeOK p1 (g l p1)) ->
  outcomeOK p ('(l, p1) <- m ;; g l p1).
Proof.
  intros [T R] G. split.
  - apply obind_terminates; [exact T|]. intros [l p1] E. now apply G.
  - intros t p' E. apply obind_Ret in E as ([l p1] & E1 & E2).
    destruct (R _ _ E1) as [Ht Hl]. destruct (G _ _ E1) as [_ R2].
    destruct (R2 _ _ E2). split; [congruence|lia].
Qed.

Lemma outcomeOK_advance p tok m :
  Parser.currentToken p = Some tok ->
  outcomeOK (Parser.advance p) m -> outcomeOK p m.
Proof.
  intros C. apply parserLeft_advance in C.
  apply outcomeOK_weaken; [reflexivity|lia].
Qed.

Lemma parseLeftAssoc_behaves fuel op operand create :
  forall l p,
    (forall q, parserLeft q < parserLeft p -> behaves operand q) ->
    parserLeft p < fuel ->
    behaves (Parser.parseLeftAssoc fuel op operand create l) p.
Proof.
  induction fuel as [|fuel IH]; intros l p Hop Hf; [lia|].
  unfold behaves. rewrite parseLeftAssoc_S.
  destruct (Parser.match_ p OPERATOR (Some (VOperator op))) eqn:M;
    [|apply outcomeOK_ret].
  apply match_current in M as (tok & C & _).
  apply (outcomeOK_advance _ _ _ C). apply parserLeft_advance in C.
  apply outcomeOK_bind; [apply Hop; lia|].
  intros r q E. destruct (Hop (Parser.advance p) ltac:(lia)) as [_ R].
  destruct (R _ _ E) as [_ Hq].
  apply IH; [|lia]. intros q' Hq'. apply Hop. lia.
Qed.

Lemma consume_behaves p ty v m tok p' :
  Parser.consume p ty v m = Ret (tok, p') ->
  Parser.tokens p' = Parser.tokens p /\ parserLeft p' <= parserLeft p.
Proof.
  unfold Parser.consume. destruct (Parser.currentToken p) eqn:C; [|discriminate].
  destruct (Parser.match_ p ty (Some (VString v))); [|discriminate].
  intros H. injection H as <- <-. apply parserLeft_advance in C.
  split; [reflexivity|lia].
Qed.

Lemma consume_terminates p ty v m : terminates (Parser.consume p ty v m).
Proof.
  unfold Parser.consume, terminates.
  destruct (Parser.currentToken p); [|discriminate].
  destruct (Parser.match_ p ty (Some (VString v))); discriminate.
Qed.

(** With fuel in proportion to the tokens left, no parsing function runs
    out of it. *)
Lemma parser_behaves fuel :
  (forall p, 10 * parserLeft p + 6 <= fuel -> behaves (Parser.parseEquivalence fuel) p)
  /\ (forall p, 10 * parserLeft p + 5 <= fuel -> behaves (Parser.parseImplication fuel) p)
  /\ (forall p, 10 * parserLeft p + 4 <= fuel -> behaves (Parser.parseDisjunction fuel) p)
  /\ (forall p, 10 * parserLeft p + 3 <= fuel -> behaves (Parser.parseConjunction fuel) p)
  /\ (forall p, 10 * parserLeft p + 2 <= fuel -> behaves (Parser.parseNegation fuel) p)
  /\ (forall p, 10 * parserLeft p + 1 <= fuel -> behaves (Parser.parsePrimary fuel) p).
Proof.
  induction fuel as [|fuel (IE & II & ID & IC & IN & IP)].
  { split; [|split; [|split; [|split; [|split]]]]; intros; lia. }
  assert (Loop : forall op operand create k l p p1,
             (forall q, 10 * parserLeft q + k <= fuel -> behaves operand q) ->
             1 <= k ->
             10 * parserLeft p + k <= fuel ->
             operand p = Ret (l, p1) ->
             outcomeOK p1 (Parser.parseLeftAssoc fuel op operand create l p1)).
  { intros op operand create k l p p1 Hop Hk Hp E.
    destruct (Hop p Hp) as [_ R]. destruct (R _ _ E) as [_ H1].
    apply parseLeftAssoc_behaves; [|lia]. intros q Hq. apply Hop. lia. }
  split; [|split; [|split; [|split; [|split]]]]; intros p Hp; unfold behaves.
  - rewrite parseEquivalence_S. apply outcomeOK_bind; [apply II; lia|].
    intros l p1 E. apply (Loop _ _ _ 5 l p p1 II); [lia|lia|exact E].
  - rewrite parseImplication_S. apply outcomeOK_bind; [apply ID; lia|].
    intros l p1 E. destruct (ID p ltac:(lia)) as [_ R]. destruct (R _ _ E) as [_ H1].
    destruct (Parser.match_ p1 OPERATOR (Some (VOperator IMPLIES))) eqn:M;
      [|apply outcomeOK_ret].
    apply match_current in M as (tok & C & _).
    apply (outcomeOK_advance _ _ _ C). apply parserLeft_advance in C.
    apply outcomeOK_bind; [apply II; lia|]. intros r p2 _. apply outcomeOK_ret.
  - rewrite parseDisjunction_S. apply outcomeOK_bind; [apply IC; lia|].
    intros l p1 E. apply (Loop _ _ _ 3 l p p1 IC); [lia|lia|exact E].
  - rewrite parseConjunction_S. apply outcomeOK_bind; [apply IN; lia|].
    intros l p1 E. apply (Loop _ _ _ 2 l p p1 IN); [lia|lia|exact E].
  - rewrite parseNegation_S.
    destruct (Parser.match_ p OPERATOR (Some (VOperator NOT))) eqn:M;
      [|apply IP; lia].
    apply match_current in M as (tok & C & _).
    apply (outcomeOK_advance _ _ _ C). apply parserLeft_advance in C.
    apply outcomeOK_bind; [apply IN; lia|]. intros r p2 _. apply outcomeOK_ret.
  - rewrite parsePrimary_S.
    destruct (Parser.match_ p LPAREN None) eqn:M.
    + apply match_current in M as (tok & C & _).
      apply (outcomeOK_advance _ _ _ C). apply parserLeft_advance in C.
      apply outcomeOK_bind; [apply IE; lia|]. intros l p1 _.
      split.
      * apply obind_terminates; [apply consume_terminates|].
        intros [? ?] _. discriminate.
      * intros t p' E. apply obind_Ret in E as ([tk p2] & E2 & E3).
        injection E3 as <- <-. now apply consume_behaves in E2.
    + destruct (Parser.match_ p IDENTIFIER None) eqn:M2;
        [|apply outcomeOK_throw].
      apply match_current in M2 as (tok & C & _). rewrite C.
      destruct tok as [ty [name|o|] pos]; try apply outcomeOK_throw.
      apply (outcomeOK_advance _ _ _ C), outcomeOK_ret.
Qed.

Lemma parse_terminates p : Parser.position p = 0 -> terminates (Parser.parse p).
Proof.
  intros P0. unfold Parser.parse.
  destruct (parser_behaves (Parser.fuelFor (Parser.tokens p))) as (IE & _).
  destruct (IE p) as [T _].
  { unfold Parser.fuelFor, parserLeft. lia. }
  apply obind_terminates; [exact T|]. intros [t p'] _. unfold terminates.
  destruct (Parser.currentToken p') as [tok|]; [|discriminate].
  destruct (tok_type tok); discriminate.
Qed.

(** [parseFormulaFromString] and what is built on it always return or
    throw. *)
Lemma parseFormulaFromString_terminates s : terminates (parseFormulaFromString s).
Proof.
  unfold parseFormulaFromString. apply obind_terminates.
  - apply tokenize_terminates.
  - intros ts _. now apply parse_terminates.
Qed.

Lemma parseFormula_terminates s : terminates (parseFormula s).
Proof.
  unfold parseFormula. apply obind_terminates.
  - apply parseFormulaFromString_terminates.
  - intros a _. discriminate.
Qed.

Lemma normalizeFormula_terminates s : terminates (normalizeFormula s).
Proof.
  unfold normalizeFormula. apply obind_terminates.
  - apply parseFormula_terminates.
  - intros a _. discriminate.
Qed.

(** *** The trees the parser builds *)

Lemma parseLeftAssoc_buildsWf op operand create :
  buildsWf operand ->
  (forall l r, wfAST l = true -> wfAST r = true -> wfAST (create l r) = true) ->
  forall fuel l, wfAST l = true ->
    buildsWf (Parser.parseLeftAssoc fuel op operand create l).
Proof.
  intros Hop Hc. induction fuel as [|fuel IH]; intros l Wl p t p' Hp E;
    [discriminate|].
  rewrite parseLeftAssoc_S in E.
  destruct (Parser.match_ p OPERATOR (Some (VOperator op))).
  - apply obind_Ret in E as ([r q] & E1 & E2).
    destruct (Hop (Parser.advance p) r q Hp E1) as [Wr Hq]. simpl in Hq.
    destruct (IH (create l r) (Hc _ _ Wl Wr) q t p') as [Wt Hp']; auto.
    + now rewrite Hq.
    + split; [assumption|congruence].
  - injection E as <- <-. now split.
Qed.

Lemma parser_buildsWf fuel :
  buildsWf (Parser.parseEquivalence fuel)
  /\ buildsWf (Parser.parseImplication fuel)
  /\ buildsWf (Parser.parseDisjunction fuel)
  /\ buildsWf (Parser.parseConjunction fuel)
  /\ buildsWf (Parser.parseNegation fuel)
  /\ buildsWf (Parser.parsePrimary fuel).
Proof.
  induction fuel as [|fuel (IE & II & ID & IC & IN & IP)].
  { repeat split; discriminate. }
  assert (Bin : forall o l r, OperatorType_eqb o NOT = false ->
                  wfAST l = true -> wfAST r = true ->
                  wfAST (BinaryNode o l r) = true).
  { intros o l r Ho Wl Wr. simpl. now rewrite Ho, Wl, Wr. }
  assert (Loop : forall op operand create,
             buildsWf operand ->
             (forall l r, wfAST l = true -> wfAST r = true ->
                          wfAST (create l r) = true) ->
             forall p t p',
               Forall tokenOK (Parser.tokens p) ->
               ('(l, p1) <- operand p ;;
                Parser.parseLeftAssoc fuel op operand create l p1) = Ret (t, p') ->
               wfAST t = true /\ Parser.tokens p' = Parser.tokens p).
  { intros op operand create Hop Hc p t p' Hp E.
    apply obind_Ret in E as ([l p1] & E1 & E2).
    destruct (Hop p l p1 Hp E1) as [Wl H1].
    destruct (parseLeftAssoc_buildsWf op operand create Hop Hc fuel l Wl p1 t p')
      as [Wt H2]; auto.
    - now rewrite H1.
    - split; [assumption|congruence]. }
  split; [|split; [|split; [|split; [|split]]]]; intros p t p' Hp E.
  - rewrite parseEquivalence_S in E.
    apply (Loop IFF _ createEquivalence II (fun l r => Bin IFF l r eq_refl) p); auto.
  - rewrite parseImplication_S in E.
    apply obind_Ret in E as ([l p1] & E1 & E2).
    destruct (ID p l p1 Hp E1) as [Wl H1].
    destruct (Parser.match_ p1 OPERATOR (Some (VOperator IMPLIES))).
    + apply obind_Ret in E2 as ([r p2] & E2 & E3). injection E3 as <- <-.
      destruct (II (Parser.advance p1) r p2) as [Wr H2]; auto.
      { simpl. now rewrite H1. }
      simpl in H2. split; [now apply Bin|congruence].
    + injection E2 as <- <-. now split.
  - rewrite parseDisjunction_S in E.
    apply (Loop OR _ createDisjunction IC (fun l r => Bin OR l r eq_refl) p); auto.
  - rewrite parseConjunction_S in E.
    apply (Loop AND _ createConjunction IN (fun l r => Bin AND l r eq_refl) p); auto.
  - rewrite parseNegation_S in E.
    destruct (Parser.match_ p OPERATOR (Some (VOperator NOT))).
    + apply obind_Ret in E as ([r p1] & E1 & E2). injection E2 as <- <-.
      destruct (IN (Parser.advance p) r p1 Hp E1) as [Wr H1]. now split.
    + now apply IP.
  - rewrite parsePrimary_S in E.
    destruct (Parser.match_ p LPAREN None).
    + apply obind_Ret in E as ([r p1] & E1 & E2).
      apply obind_Ret in E2 as ([tk p2] & E2 & E3). injection E3 as <- <-.
      destruct (IE (Parser.advance p) r p1 Hp E1) as [Wr H1].
      apply consume_behaves in E2 as [H2 _]. simpl in H1. split; [assumption|congruence].
    + destruct (Parser.match_ p IDENTIFIER None) eqn:M; [|discriminate].
      apply match_current in M as (tok & C & Ht & _). rewrite C in E.
      assert (OK : tokenOK tok).
      { eapply Forall_forall; [exact Hp|]. eapply nth_error_In. exact C. }
      unfold tokenOK in OK. rewrite Ht in OK. destruct OK as (name & Hv & Hn).
      destruct tok as [ty v pos]. simpl in Hv. subst v.
      injection E as <- <-. now split.
Qed.

Lemma parse_wf ts t :
  Forall tokenOK ts -> Parser.parse (Parser.new ts) = Ret t -> wfAST t = true.
Proof.
  intros Hts E. unfold Parser.parse in E.
  apply obind_Ret in E as ([t' p'] & E1 & E2).
  destruct (parser_buildsWf (Parser.fuelFor (Parser.tokens (Parser.new ts))))
    as (IE & _).
  destruct (IE (Parser.new ts) t' p' Hts E1) as [W _].
  destruct (Parser.currentToken p') as [tok|]; [|congruence].
  destruct (tok_type tok); congruence.
Qed.

Lemma parseFormulaFromString_wf s t :
  parseFormulaFromString s = Ret t -> wfAST t = true.
Proof.
  unfold parseFormulaFromString. intros E.
  apply obind_Ret in E as (ts & E1 & E2).
  apply tokenize_tokenOK in E1. now apply parse_wf with ts.
Qed.

(** *** Parsing the tokens of a rendering *)

Lemma advance_shift p : Parser.advance p = shift p 1.
Proof. reflexivity. Qed.

Lemma shift_shift p a b : shift (shift p a) b = shift p (a + b).
Proof. unfold shift; simpl. f_equal. lia. Qed.

Lemma parserRest_shift p n : parserRest (shift p n) = skipn n (parserRest p).
Proof.
  unfold parserRest, shift; simpl. now rewrite skipn_skipn, Nat.add_comm.
Qed.

Lemma parserLeft_shift p n : parserLeft (shift p n) <= parserLeft p.
Proof. unfold parserLeft, shift; simpl. lia. Qed.

Lemma kinds_shift p a b :
  map kindOf (parserRest p) = a ++ b ->
  map kindOf (parserRest (shift p (length a))) = b.
Proof.
  intros H. rewrite parserRest_shift, <- skipn_map, H. apply skipn_app_exact.
Qed.

Lemma match_kind q ty v ks ty' v' :
  map kindOf (parserRest q) = (ty, v) :: ks ->
  Parser.match_ q ty' v'
  = Parser.TokenType_eqb ty ty'
    && match v' with Some x => Parser.TokenValue_eqb v x | None => true end.
Proof.
  unfold Parser.match_. rewrite currentToken_rest.
  destruct (parserRest q) as [|tok r]; [discriminate|]. simpl.
  intros H. injection H as H1 H2 _. rewrite H1, H2.
  now destruct (Parser.TokenType_eqb ty ty').
Qed.

Lemma current_kind q ty v ks :
  map kindOf (parserRest q) = (ty, v) :: ks ->
  exists pos, Parser.currentToken q = Some (mkToken ty v pos).
Proof.
  rewrite currentToken_rest.
  destruct (parserRest q) as [|[ty' v' pos] r]; [discriminate|]. simpl.
  unfold kindOf; simpl. intros H. injection H as -> -> _. now exists pos.
Qed.

Lemma lift_loop k sub top op create :
  1 <= k ->
  (forall fuel p,
      top (S fuel) p
      = ('(l, p1) <- sub fuel p ;;
         Parser.parseLeftAssoc fuel op (sub fuel) create l p1)) ->
  forall p t q,
    parsesTo k sub p t q ->
    Parser.match_ q OPERATOR (Some (VOperator op)) = false ->
    parsesTo (S k) top p t q.
Proof.
  intros Hk Htop p t q Hs M fuel Hf.
  destruct fuel as [|f]; [lia|]. rewrite Htop, Hs by lia. simpl.
  destruct f as [|f]; [lia|]. now rewrite parseLeftAssoc_S, M.
Qed.

Lemma loop_bin k sub top op create :
  2 <= k ->
  (forall fuel p,
      top (S fuel) p
      = ('(l, p1) <- sub fuel p ;;
         Parser.parseLeftAssoc fuel op (sub fuel) create l p1)) ->
  forall p l q1 r q2,
    parsesTo k sub p l q1 ->
    Parser.match_ q1 OPERATOR (Some (VOperator op)) = true ->
    parserLeft q1 <= parserLeft p ->
    parsesTo k sub (Parser.advance q1) r q2 ->
    Parser.match_ q2 OPERATOR (Some (VOperator op)) = false ->
    parsesTo (S k) top p (create l r) q2.
Proof.
  intros Hk Htop p l q1 r q2 Hl M1 Hq Hr M2 fuel Hf.
  destruct fuel as [|f]; [lia|]. rewrite Htop, Hl by lia. simpl.
  destruct f as [|f]; [lia|]. rewrite parseLeftAssoc_S, M1, Hr.
  - simpl. destruct f as [|f]; [lia|]. now rewrite parseLeftAssoc_S, M2.
  - pose proof (parserLeft_shift q1 1). rewrite advance_shift. lia.
Qed.

Lemma impl_lift p t q :
  parsesTo 4 Parser.parseDisjunction p t q ->
  Parser.match_ q OPERATOR (Some (VOperator IMPLIES)) = false ->
  parsesTo 5 Parser.parseImplication p t q.
Proof.
  intros Hs M fuel Hf. destruct fuel as [|f]; [lia|].
  rewrite parseImplication_S, Hs by lia. simpl. now rewrite M.
Qed.

Lemma impl_bin p l q1 r q2 :
  parsesTo 4 Parser.parseDisjunction p l q1 ->
  Parser.match_ q1 OPERATOR (Some (VOperator IMPLIES)) = true ->
  parserLeft q1 <= parserLeft p ->
  parsesTo 5 Parser.parseImplication (Parser.advance q1) r q2 ->
  parsesTo 5 Parser.parseImplication p (createImplication l r) q2.
Proof.
  intros Hl M1 Hq Hr fuel Hf. destruct fuel as [|f]; [lia|].
  rewrite parseImplication_S, Hl by lia. simpl. rewrite M1, Hr; [reflexivity|].
  apply match_current in M1 as (tok & C & _). apply parserLeft_advance in C. lia.
Qed.

Lemma conj_lift p t q :
  parsesTo 2 Parser.parseNegation p t q ->
  Parser.match_ q OPERATOR (Some (VOperator AND)) = false ->
  parsesTo 3 Parser.parseConjunction p t q.
Proof.
  apply (lift_loop 2 Parser.parseNegation Parser.parseConjunction AND
                   createConjunction); [lia | exact parseConjunction_S].
Qed.

Lemma disj_lift p t q :
  parsesTo 3 Parser.parseConjunction p t q ->
  Parser.match_ q OPERATOR (Some (VOperator OR)) = false ->
  parsesTo 4 Parser.parseDisjunction p t q.
Proof.
  apply (lift_loop 3 Parser.parseConjunction Parser.parseDisjunction OR
                   createDisjunction); [lia | exact parseDisjunction_S].
Qed.

Lemma equiv_lift p t q :
  parsesTo 5 Parser.parseImplication p t q ->
  Parser.match_ q OPERATOR (Some (VOperator IFF)) = false ->
  parsesTo 6 Parser.parseEquivalence p t q.
Proof.
  apply (lift_loop 5 Parser.parseImplication Parser.parseEquivalence IFF
                   createEquivalence); [lia | exact parseEquivalence_S].
Qed.

(** A parenthesised binary node, between its parentheses. *)
Lemma equiv_binary p o l r q1 q2 ks1 v ks2 :
  OperatorType_eqb o NOT = false ->
  parsesTo 2 Parser.parseNegation p l q1 ->
  parserLeft q1 <= parserLeft p ->
  map kindOf (parserRest q1) = (OPERATOR, VOperator o) :: ks1 ->
  parsesTo 2 Parser.parseNegation (Parser.advance q1) r q2 ->
  map kindOf (parserRest q2) = (RPAREN, v) :: ks2 ->
  parsesTo 6 Parser.parseEquivalence p (BinaryNode o l r) q2.
Proof.
  intros Ho Hl Hq K1 Hr K2.
  assert (M2 : forall op, Parser.match_ q2 OPERATOR (Some (VOperator op)) = false)
    by (intros op; now rewrite (match_kind _ _ _ _ _ _ K2)).
  assert (M1 : forall op, Parser.match_ q1 OPERATOR (Some (VOperator op))
                          = OperatorType_eqb o op)
    by (intros op; now rewrite (match_kind _ _ _ _ _ _ K1)).
  destruct o; try discriminate.
  - apply equiv_lift; [|apply M2]. apply impl_lift; [|apply M2].
    apply disj_lift; [|apply M2].
    apply (loop_bin 2 Parser.parseNegation Parser.parseConjunction AND
                    createConjunction ltac:(lia) parseConjunction_S p l q1 r q2);
      auto; now rewrite M1.
  - apply equiv_lift; [|apply M2]. apply impl_lift; [|apply M2].
    apply (loop_bin 3 Parser.parseConjunction Parser.parseDisjunction OR
                    createDisjunction ltac:(lia) parseDisjunction_S
                    p l q1 r q2); auto; try (now rewrite M1).
    + apply conj_lift; [exact Hl | now rewrite M1].
    + apply conj_lift; [exact Hr | apply M2].
  - apply equiv_lift; [|apply M2].
    apply (impl_bin p l q1 r q2); auto; try (now rewrite M1).
    + apply disj_lift; [|now rewrite M1].
      apply conj_lift; [exact Hl | now rewrite M1].
    + apply impl_lift; [|apply M2]. apply disj_lift; [|apply M2].
      apply conj_lift; [exact Hr | apply M2].
  - apply (loop_bin 5 Parser.parseImplication Parser.parseEquivalence IFF
                    createEquivalence ltac:(lia) parseEquivalence_S
                    p l q1 r q2); auto; try (now rewrite M1).
    + apply impl_lift; [|now rewrite M1]. apply disj_lift; [|now rewrite M1].
      apply conj_lift; [exact Hl | now rewrite M1].
    + apply impl_lift; [|apply M2]. apply disj_lift; [|apply M2].
      apply conj_lift; [exact Hr | apply M2].
Qed.

(** The tokens of a tree of the parser are parsed back into the tree. *)
Lemma neg_render t :
  wfAST t = true ->
  forall p rest,
    map kindOf (parserRest p) = tokenKinds t ++ rest ->
    parsesTo 2 Parser.parseNegation p t (shift p (length (tokenKinds t))).
Proof.
  induction t as [name|o t IH|o l IHl r IHr]; simpl; intros W p rest K fuel Hf.
  - destruct fuel as [|f]; [lia|]. rewrite parseNegation_S.
    rewrite (match_kind _ _ _ _ _ _ K). simpl.
    destruct f as [|f]; [lia|]. rewrite parsePrimary_S.
    rewrite !(match_kind _ _ _ _ _ _ K). simpl.
    destruct (current_kind _ _ _ _ K) as [pos ->]. reflexivity.
  - apply andb_true_iff in W as [Wo W]. destruct o; try discriminate.
    destruct fuel as [|f]; [lia|]. rewrite parseNegation_S.
    rewrite (match_kind _ _ _ _ _ _ K). simpl.
    destruct (current_kind _ _ _ _ K) as [pos C].
    pose proof (parserLeft_advance _ _ C) as HL.
    rewrite advance_shift in *.
    rewrite (IH W (shift p 1) rest).
    + simpl. now rewrite shift_shift.
    + now apply (kinds_shift p [(OPERATOR, VOperator NOT)]).
    + lia.
  - apply andb_true_iff in W as [W Wr]. apply andb_true_iff in W as [Wo Wl].
    apply negb_true_iff in Wo.
    destruct fuel as [|f]; [lia|]. rewrite parseNegation_S.
    rewrite (match_kind _ _ _ _ _ _ K). simpl.
    destruct f as [|f]; [lia|]. rewrite parsePrimary_S.
    rewrite (match_kind _ _ _ _ _ _ K). simpl.
    destruct (current_kind _ _ _ _ K) as [pos C].
    pose proof (parserLeft_advance _ _ C) as HL.
    rewrite advance_shift in *.
    set (p0 := shift p 1) in *.
    assert (K0 : map kindOf (parserRest p0)
                 = tokenKinds l ++ (OPERATOR, VOperator o)
                     :: tokenKinds r ++ (RPAREN, VString [c_rparen]) :: rest).
    { apply (kinds_shift p [(LPAREN, VString [c_lparen])]). rewrite K. simpl.
      repeat (rewrite <- ?app_assoc; simpl). reflexivity. }
    set (q1 := shift p0 (length (tokenKinds l))).
    assert (K1 : map kindOf (parserRest q1)
                 = (OPERATOR, VOperator o)
                     :: tokenKinds r ++ (RPAREN, VString [c_rparen]) :: rest)
      by (apply kinds_shift; exact K0).
    assert (K1' : map kindOf (parserRest (Parser.advance q1))
                  = tokenKinds r ++ (RPAREN, VString [c_rparen]) :: rest).
    { rewrite advance_shift.
      now apply (kinds_shift q1 [(OPERATOR, VOperator o)]). }
    set (q2 := shift (Parser.advance q1) (length (tokenKinds r))).
    assert (K2 : map kindOf (parserRest q2)
                 = (RPAREN, VString [c_rparen]) :: rest)
      by (apply kinds_shift; exact K1').
    rewrite (equiv_binary p0 o l r q1 q2 _ _ _ Wo (IHl Wl p0 _ K0)
                          (parserLeft_shift _ _) K1 (IHr Wr _ _ K1') K2)
      by lia.
    simpl. unfold Parser.consume.
    destruct (current_kind _ _ _ _ K2) as [pos2 C2]. rewrite C2.
    rewrite (match_kind _ _ _ _ _ _ K2). simpl.
    do 2 f_equal. unfold q2, q1, p0, Parser.advance, shift; simpl. f_equal.
    rewrite !length_app. simpl. rewrite !length_app. simpl. lia.
Qed.

(** [parse] on the tokens of a rendering followed by the end token. *)
Lemma parse_render t toks eof :
  wfAST t = true -> map kindOf toks = tokenKinds t -> tok_type eof = EOF ->
  Parser.parse (Parser.new (toks ++ [eof])) = Ret t.
Proof.
  intros W K He. set (p := Parser.new (toks ++ [eof])).
  assert (Kp : map kindOf (parserRest p) = tokenKinds t ++ [kindOf eof]).
  { unfold p, parserRest, Parser.new; simpl. now rewrite map_app, K. }
  pose proof (neg_render t W p _ Kp) as HN.
  set (q := shift p (length (tokenKinds t))) in *.
  assert (Kq : map kindOf (parserRest q) = [(EOF, tok_value eof)]).
  { unfold q. rewrite (kinds_shift p _ _ Kp). unfold kindOf. now rewrite He. }
  assert (M : forall op, Parser.match_ q OPERATOR (Some (VOperator op)) = false)
    by (intros op; now rewrite (match_kind _ _ _ _ _ _ Kq)).
  assert (HE : parsesTo 6 Parser.parseEquivalence p t q).
  { apply equiv_lift; [|apply M]. apply impl_lift; [|apply M].
    apply disj_lift; [|apply M]. apply conj_lift; [exact HN | apply M]. }
  unfold Parser.parse. rewrite HE.
  - simpl. destruct (current_kind _ _ _ _ Kq) as [pos ->]. reflexivity.
  - unfold Parser.fuelFor, parserLeft, p, Parser.new; simpl. lia.
Qed.

(** A tree of the parser is the parse of its own rendering. *)
Lemma parseFormulaFromString_render t :
  wfAST t = true -> parseFormulaFromString (astToString t) = Ret t.
Proof.
  intros W. unfold parseFormulaFromString.
  destruct (tokenize_render t W) as (toks & eof & -> & K & He). simpl.
  now apply parse_render.
Qed.

(** *** The token sequences the parser accepts *)

Lemma shift_0 p : shift p 0 = p.
Proof. destruct p; unfold shift; simpl. f_equal. lia. Qed.

Lemma parserRest_length p : length (parserRest p) = parserLeft p.
Proof. unfold parserRest, parserLeft. apply length_skipn. Qed.

Lemma kinds_left p a b :
  map kindOf (parserRest p) = a ++ b -> length a + length b = parserLeft p.
Proof.
  intros H. rewrite <- parserRest_length, <- (length_map kindOf), H.
  now rewrite length_app.
Qed.

Lemma NegK_nonempty n : NegK n -> 1 <= length n.
Proof. intros [name|n' _|v n' tl' _ _]; simpl; lia. Qed.

Lemma TailK_app a b : TailK a -> TailK b -> TailK (a ++ b).
Proof.
  induction 1 as [|o n tl Ho Hn Ht IH]; intros Hb; [exact Hb|].
  simpl. rewrite <- app_assoc. apply TK_cons; auto.
Qed.

Lemma OperatorType_eqb_eq a b : OperatorType_eqb a b = true <-> a = b.
Proof. destruct a, b; simpl; split; congruence. Qed.

Lemma prec_inj a b : prec a = prec b -> a = b.
Proof. destruct a, b; simpl; congruence. Qed.

Lemma TailK_lowHead tl : TailK tl -> lowHead 4 tl.
Proof.
  intros Ht o rest ->. inversion Ht; subst.
  destruct o; simpl; try lia. discriminate.
Qed.

Lemma lowHead_0 tl : TailK tl -> lowHead 0 tl -> tl = [].
Proof.
  intros [|o n tl' Ho Hn Ht] L; [reflexivity|].
  specialize (L o _ eq_refl). lia.
Qed.

Lemma LevelOK_0 k f L : LevelOK k f L 0.
Proof.
  intros p n tl c rest Hn Ht Hc Hm. apply NegK_nonempty in Hn. lia.
Qed.

Lemma match_operator q o ks op :
  map kindOf (parserRest q) = opKind o :: ks ->
  Parser.match_ q OPERATOR (Some (VOperator op)) = OperatorType_eqb o op.
Proof. intros K. now rewrite (match_kind _ _ _ _ _ _ K). Qed.

Lemma match_closer q c ks op :
  fst c <> OPERATOR ->
  map kindOf (parserRest q) = c :: ks ->
  Parser.match_ q OPERATOR (Some (VOperator op)) = false.
Proof.
  destruct c as [ty v]. simpl. intros Hc K.
  rewrite (match_kind _ _ _ _ _ _ K). now destruct ty.
Qed.

(** An operand. *)
Lemma neg_step m :
  LevelOK 2 Parser.parseNegation 4 m ->
  LevelOK 6 Parser.parseEquivalence 0 m ->
  LevelOK 2 Parser.parseNegation 4 (S m).
Proof.
  intros IHn IHe p n tl c rest Hn Ht Hc Hm K.
  destruct Hn as [name|n' Hn'|v n' tl' Hn' Ht'].
  - exists (AtomNode name), [], tl.
    split; [reflexivity|]. split; [exact Ht|].
    split; [now apply TailK_lowHead|].
    intros fuel Hf. simpl in K.
    destruct fuel as [|f]; [lia|].
    rewrite parseNegation_S, (match_kind _ _ _ _ _ _ K). simpl.
    destruct f as [|f]; [lia|].
    rewrite parsePrimary_S, !(match_kind _ _ _ _ _ _ K). simpl.
    destruct (current_kind _ _ _ _ K) as [pos ->]. reflexivity.
  - simpl in K, Hm.
    assert (K' : map kindOf (parserRest (Parser.advance p))
                 = n' ++ tl ++ c :: rest)
      by (rewrite advance_shift; now apply (kinds_shift p [opKind NOT])).
    destruct (IHn _ n' tl c rest Hn' Ht Hc ltac:(lia) K')
      as (t & tl1 & tl2 & E & T2 & L2 & P).
    exists (negate t), tl1, tl2.
    split; [exact E|]. split; [exact T2|]. split; [exact L2|].
    intros fuel Hf. destruct fuel as [|f]; [lia|].
    rewrite parseNegation_S, (match_operator _ _ _ _ K). simpl.
    destruct (current_kind _ _ _ _ K) as [pos C].
    apply parserLeft_advance in C.
    rewrite P by lia. simpl. rewrite advance_shift, shift_shift.
    reflexivity.
  - simpl in K, Hm. rewrite length_app in Hm. simpl in Hm.
    rewrite length_app in Hm.
    assert (K' : map kindOf (parserRest (Parser.advance p))
                 = n' ++ tl' ++ (RPAREN, VString [c_rparen])
                      :: tl ++ c :: rest).
    { rewrite advance_shift. apply (kinds_shift p [(LPAREN, v)]).
      rewrite K. simpl. now rewrite <- !app_assoc. }
    destruct (IHe _ n' tl' (RPAREN, VString [c_rparen]) (tl ++ c :: rest)
                  Hn' Ht' ltac:(discriminate) ltac:(lia) K')
      as (t & tl1 & tl2 & E & T2 & L2 & P).
    apply lowHead_0 in L2; [|exact T2]. subst tl2.
    rewrite app_nil_r in E. subst tl1.
    set (q := shift (Parser.advance p) (length n' + length tl')) in *.
    assert (Kq : map kindOf (parserRest q)
                 = (RPAREN, VString [c_rparen]) :: tl ++ c :: rest).
    { unfold q. rewrite <- length_app. apply kinds_shift.
      now rewrite <- app_assoc. }
    exists t, [], tl.
    split; [reflexivity|]. split; [exact Ht|].
    split; [now apply TailK_lowHead|].
    intros fuel Hf. destruct fuel as [|f]; [lia|].
    rewrite parseNegation_S, (match_kind _ _ _ _ _ _ K). simpl.
    destruct f as [|f]; [lia|].
    rewrite parsePrimary_S, (match_kind _ _ _ _ _ _ K). simpl.
    destruct (current_kind _ _ _ _ K) as [pos C].
    apply parserLeft_advance in C.
    rewrite P by lia. simpl. unfold Parser.consume.
    destruct (current_kind _ _ _ _ Kq) as [pos2 C2]. rewrite C2.
    rewrite (match_kind _ _ _ _ _ _ Kq). simpl.
    do 2 f_equal. unfold q, Parser.advance, shift; simpl. f_equal.
    rewrite !length_app. simpl. lia.
Qed.

(** The loop of a left-associative level. *)
Lemma loop_level k sub op create m :
  LevelOK k sub (S (prec op)) m ->
  forall b tlB c rest p l,
    length tlB <= b -> b <= m ->
    TailK tlB -> lowHead (S (prec op)) tlB -> fst c <> OPERATOR ->
    map kindOf (parserRest p) = tlB ++ c :: rest ->
    exists t tl1 tl2,
      tlB = tl1 ++ tl2 /\ TailK tl2 /\ lowHead (prec op) tl2
      /\ forall fuelL fuelS,
           b < fuelL -> 10 * parserLeft p + k <= fuelS ->
           Parser.parseLeftAssoc fuelL op (sub fuelS) create l p
           = Ret (t, shift p (length tl1)).
Proof.
  intros Hsub. induction b as [|b IH];
    intros tlB c rest p l Hb Hm Ht LH Hc K.
  - destruct tlB; [|simpl in Hb; lia].
    exists l, [], []. split; [reflexivity|]. split; [constructor|].
    split; [intros o r; discriminate|].
    intros fuelL fuelS HL HS. destruct fuelL as [|f]; [lia|].
    rewrite parseLeftAssoc_S, (match_closer _ _ _ _ Hc K).
    now rewrite shift_0.
  - destruct Ht as [|o n1 tl' Ho Hn1 Ht'].
    { exists l, [], []. split; [reflexivity|]. split; [constructor|].
      split; [intros o r; discriminate|].
      intros fuelL fuelS HL HS. destruct fuelL as [|f]; [lia|].
      rewrite parseLeftAssoc_S, (match_closer _ _ _ _ Hc K).
      now rewrite shift_0. }
    simpl in K, Hb. rewrite length_app in Hb.
    destruct (OperatorType_eqb o op) eqn:Eo.
    + apply OperatorType_eqb_eq in Eo. subst o.
      assert (K' : map kindOf (parserRest (Parser.advance p))
                   = n1 ++ tl' ++ c :: rest).
      { rewrite advance_shift. apply (kinds_shift p [opKind op]).
        rewrite K. simpl. now rewrite <- app_assoc. }
      destruct (Hsub _ n1 tl' c rest Hn1 Ht' Hc ltac:(lia) K')
        as (t1 & tlA & tlB' & E & T2 & L2 & P).
      set (q := shift (Parser.advance p) (length n1 + length tlA)) in *.
      assert (Kq : map kindOf (parserRest q) = tlB' ++ c :: rest).
      { unfold q. rewrite <- length_app. apply kinds_shift.
        rewrite K', E. now rewrite <- !app_assoc. }
      assert (Hlen : length tl' = length tlA + length tlB')
        by (rewrite E; apply length_app).
      destruct (IH tlB' c rest q (create l t1) ltac:(lia) ltac:(lia) T2 L2 Hc Kq)
        as (t & tl1 & tl2 & E' & T2' & L2' & P').
      exists t, (opKind op :: n1 ++ tlA ++ tl1), tl2.
      split; [|split; [exact T2'|split; [exact L2'|]]].
      { simpl. rewrite E, E'. now rewrite <- !app_assoc. }
      intros fuelL fuelS HL HS. destruct fuelL as [|f]; [lia|].
      rewrite parseLeftAssoc_S, (match_operator _ _ _ _ K).
      replace (OperatorType_eqb op op) with true
        by (symmetry; now apply OperatorType_eqb_eq).
      destruct (current_kind _ _ _ _ K) as [pos C].
      apply parserLeft_advance in C.
      rewrite P by lia. cbn [obind].
      rewrite P'.
      * do 2 f_equal. unfold q. rewrite advance_shift, !shift_shift.
        f_equal. simpl. rewrite !length_app. lia.
      * lia.
      * pose proof (parserLeft_shift (Parser.advance p)
                                     (length n1 + length tlA)).
        fold q in H. lia.
    + exists l, [], (opKind o :: n1 ++ tl').
      split; [reflexivity|]. split; [now apply TK_cons|]. split.
      * intros o' r E. injection E as <- _.
        specialize (LH o _ eq_refl).
        assert (prec o <> prec op).
        { intros X. apply prec_inj in X. subst o.
          assert (OperatorType_eqb op op = true)
            by now apply OperatorType_eqb_eq.
          congruence. }
        lia.
      * intros fuelL fuelS HL HS. destruct fuelL as [|f]; [lia|].
        rewrite parseLeftAssoc_S, (match_operator _ _ _ _ K), Eo.
        now rewrite shift_0.
Qed.

Lemma loop_step k sub top op create m :
  (forall fuel p,
      top (S fuel) p
      = ('(l, p1) <- sub fuel p ;;
         Parser.parseLeftAssoc fuel op (sub fuel) create l p1)) ->
  LevelOK k sub (S (prec op)) m -> LevelOK (S k) top (prec op) m.
Proof.
  intros Htop Hsub p n tl c rest Hn Ht Hc Hm K.
  destruct (Hsub p n tl c rest Hn Ht Hc Hm K)
    as (t0 & tlA & tlB & E & T2 & L2 & P).
  set (q := shift p (length n + length tlA)) in *.
  assert (Kq : map kindOf (parserRest q) = tlB ++ c :: rest).
  { unfold q. rewrite <- length_app. apply kinds_shift.
    rewrite K, E. now rewrite <- !app_assoc. }
  assert (Hlen : length tl = length tlA + length tlB)
    by (rewrite E; apply length_app).
  destruct (loop_level k sub op create m Hsub (length tlB) tlB c rest q t0
              ltac:(lia) ltac:(lia) T2 L2 Hc Kq)
    as (t & tl1 & tl2 & E' & T2' & L2' & P').
  exists t, (tlA ++ tl1), tl2.
  split; [|split; [exact T2'|split; [exact L2'|]]].
  { rewrite E, E'. now rewrite <- app_assoc. }
  intros fuel Hf. destruct fuel as [|f]; [lia|].
  rewrite Htop, P by lia. cbn [obind].
  pose proof (parserLeft_shift p (length n + length tlA)) as HS. fold q in HS.
  pose proof (kinds_left _ _ _ Kq) as HL. simpl in HL.
  rewrite P' by lia.
  do 2 f_equal. unfold q. rewrite shift_shift. f_equal.
  rewrite length_app. lia.
Qed.

(** The level of the implication, which is right-associative. *)
Lemma impl_step m :
  LevelOK 4 Parser.parseDisjunction 2 (S m) ->
  LevelOK 5 Parser.parseImplication 1 m ->
  LevelOK 5 Parser.parseImplication 1 (S m).
Proof.
  intros Hsub IHi p n tl c rest Hn Ht Hc Hm K.
  destruct (Hsub p n tl c rest Hn Ht Hc Hm K)
    as (t0 & tlA & tlB & E & T2 & L2 & P).
  set (q := shift p (length n + length tlA)) in *.
  assert (Kq : map kindOf (parserRest q) = tlB ++ c :: rest).
  { unfold q. rewrite <- length_app. apply kinds_shift.
    rewrite K, E. now rewrite <- !app_assoc. }
  assert (Hlen : length tl = length tlA + length tlB)
    by (rewrite E; apply length_app).
  pose proof (parserLeft_shift p (length n + length tlA)) as HS. fold q in HS.
  destruct T2 as [|o n1 tl' Ho Hn1 Ht'].
  - exists t0, tlA, []. split; [exact E|]. split; [constructor|].
    split; [intros o r; discriminate|].
    intros fuel Hf. destruct fuel as [|f]; [lia|].
    rewrite parseImplication_S, P by lia. cbn [obind].
    now rewrite (match_closer _ _ _ _ Hc Kq).
  - simpl in Kq, Hlen. rewrite length_app in Hlen.
    destruct (OperatorType_eqb o IMPLIES) eqn:Eo.
    + apply OperatorType_eqb_eq in Eo. subst o.
      assert (K' : map kindOf (parserRest (Parser.advance q))
                   = n1 ++ tl' ++ c :: rest).
      { rewrite advance_shift. apply (kinds_shift q [opKind IMPLIES]).
        rewrite Kq. simpl. now rewrite <- app_assoc. }
      destruct (IHi _ n1 tl' c rest Hn1 Ht' Hc ltac:(lia) K')
        as (t1 & tl1 & tl2 & E' & T2' & L2' & P').
      exists (createImplication t0 t1),
             (tlA ++ opKind IMPLIES :: n1 ++ tl1), tl2.
      split; [|split; [exact T2'|split; [exact L2'|]]].
      { rewrite E, E'. now repeat (rewrite <- ?app_assoc; simpl). }
      intros fuel Hf. destruct fuel as [|f]; [lia|].
      rewrite parseImplication_S, P by lia. cbn [obind].
      rewrite (match_operator _ _ _ _ Kq). simpl.
      destruct (current_kind _ _ _ _ Kq) as [pos C].
      apply parserLeft_advance in C.
      rewrite P' by lia. cbn [obind].
      do 2 f_equal. unfold q. rewrite advance_shift, !shift_shift.
      f_equal. simpl. rewrite !length_app. simpl. rewrite !length_app. lia.
    + exists t0, tlA, (opKind o :: n1 ++ tl').
      split; [exact E|]. split; [now apply TK_cons|]. split.
      * intros o' r X. injection X as <- _.
        specialize (L2 o _ eq_refl).
        destruct o; simpl in *; try lia; discriminate.
      * intros fuel Hf. destruct fuel as [|f]; [lia|].
        rewrite parseImplication_S, P by lia. cbn [obind].
        now rewrite (match_operator _ _ _ _ Kq), Eo.
Qed.

Lemma parser_levels m :
  LevelOK 2 Parser.parseNegation 4 m
  /\ LevelOK 3 Parser.parseConjunction 3 m
  /\ LevelOK 4 Parser.parseDisjunction 2 m
  /\ LevelOK 5 Parser.parseImplication 1 m
  /\ LevelOK 6 Parser.parseEquivalence 0 m.
Proof.
  induction m as [|m (N & C & D & I & E)].
  - repeat split; apply LevelOK_0.
  - pose proof (neg_step m N E) as N'.
    pose proof (loop_step 2 Parser.parseNegation Parser.parseConjunction AND
                          createConjunction (S m) parseConjunction_S N') as C'.
    pose proof (loop_step 3 Parser.parseConjunction Parser.parseDisjunction OR
                          createDisjunction (S m) parseDisjunction_S C') as D'.
    pose proof (impl_step m D' I) as I'.
    pose proof (loop_step 5 Parser.parseImplication Parser.parseEquivalence IFF
                          createEquivalence (S m) parseEquivalence_S I') as E'.
    repeat split; assumption.
Qed.

(** [parse] accepts the sequences of the grammar. *)
Lemma parse_accepts ts eof :
  FlatK (map kindOf ts) -> tok_type eof = EOF ->
  returns (Parser.parse (Parser.new (ts ++ [eof]))).
Proof.
  intros (n & tl & E & Hn & Ht) He.
  set (p := Parser.new (ts ++ [eof])).
  assert (K : map kindOf (parserRest p) = n ++ tl ++ kindOf eof :: []).
  { unfold p, parserRest, Parser.new; simpl.
    now rewrite map_app, E, <- app_assoc. }
  destruct (parser_levels (length n + length tl)) as (_ & _ & _ & _ & HE).
  destruct (HE p n tl (kindOf eof) [] Hn Ht) as (t & tl1 & tl2 & E2 & T2 & L2 & P);
    [unfold kindOf; simpl; rewrite He; discriminate | lia | exact K |].
  apply lowHead_0 in L2; [|exact T2]. subst tl2. rewrite app_nil_r in E2.
  subst tl1. exists t. unfold Parser.parse. rewrite P.
  - cbn [obind].
    assert (Kq : map kindOf (parserRest (shift p (length n + length tl)))
                 = [kindOf eof]).
    { rewrite <- length_app. apply kinds_shift. now rewrite <- app_assoc. }
    unfold kindOf in Kq at 2. rewrite He in Kq.
    destruct (current_kind _ _ _ _ Kq) as [pos ->]. reflexivity.
  - unfold Parser.fuelFor, parserLeft, p, Parser.new; simpl. lia.
Qed.

(** *** What the parser has read when it returns *)

Lemma match_rest p ty v :
  Parser.match_ p ty v = true ->
  exists tok,
    Parser.currentToken p = Some tok /\ tok_type tok = ty
    /\ (forall x, v = Some x -> tok_value tok = x)
    /\ map kindOf (parserRest p)
       = kindOf tok :: map kindOf (parserRest (Parser.advance p)).
Proof.
  intros M. destruct (match_current _ _ _ M) as (tok & C & Hty & Hv).
  exists tok. repeat split; try assumption.
  rewrite parserRest_advance. rewrite currentToken_rest in C.
  destruct (parserRest p) as [|x r]; [discriminate|].
  simpl in C. injection C as ->. reflexivity.
Qed.

Lemma consume_Ret p ty v m tok p' :
  Parser.consume p ty v m = Ret (tok, p') ->
  p' = Parser.advance p
  /\ Parser.match_ p ty (Some (VString v)) = true.
Proof.
  unfold Parser.consume. destruct (Parser.currentToken p); [|discriminate].
  destruct (Parser.match_ p ty (Some (VString v))); [|discriminate].
  intros H. injection H as _ <-. now split.
Qed.

Lemma readsOperand_readsFlat f : readsOperand f -> readsFlat f.
Proof.
  intros H p t p' E. destruct (H p t p' E) as (T & n & Hn & K).
  split; [exact T|]. exists n, []. split; [exact Hn|].
  split; [constructor|]. now rewrite app_nil_r.
Qed.

Lemma parseLeftAssoc_reads op operand create :
  OperatorType_eqb op NOT = false -> readsFlat operand ->
  forall fuel l p t p',
    Parser.parseLeftAssoc fuel op operand create l p = Ret (t, p') ->
    Parser.tokens p' = Parser.tokens p
    /\ exists tl,
         TailK tl
         /\ map kindOf (parserRest p) = tl ++ map kindOf (parserRest p').
Proof.
  intros Ho Hop. induction fuel as [|fuel IH]; intros l p t p' E;
    [discriminate|].
  rewrite parseLeftAssoc_S in E.
  destruct (Parser.match_ p OPERATOR (Some (VOperator op))) eqn:M.
  - apply obind_Ret in E as ([r q] & E1 & E2).
    destruct (match_rest _ _ _ M) as (tok & C & Hty & Hv & K).
    destruct (Hop _ _ _ E1) as (T1 & n & tl & Hn & Ht & K1).
    destruct (IH _ _ _ _ E2) as (T2 & tl' & Ht' & K2).
    split; [simpl in T1; congruence|].
    exists (opKind op :: n ++ (tl ++ tl')).
    split; [apply TK_cons; auto; now apply TailK_app|].
    rewrite K, K1, K2. unfold kindOf at 1.
    rewrite Hty, (Hv _ eq_refl). simpl. now rewrite <- !app_assoc.
  - injection E as <- <-. split; [reflexivity|]. exists []. split; [constructor|].
    reflexivity.
Qed.

Lemma level_reads sub top op create :
  OperatorType_eqb op NOT = false ->
  forall fuel,
    top (S fuel)
    = (fun p => '(l, p1) <- sub fuel p ;;
                Parser.parseLeftAssoc fuel op (sub fuel) create l p1) ->
    readsFlat (sub fuel) -> readsFlat (top (S fuel)).
Proof.
  intros Ho fuel Htop Hsub p t p' E. rewrite Htop in E.
  apply obind_Ret in E as ([l p1] & E1 & E2).
  destruct (Hsub _ _ _ E1) as (T1 & n & tl & Hn & Ht & K1).
  destruct (parseLeftAssoc_reads op (sub fuel) create Ho Hsub _ _ _ _ _ E2)
    as (T2 & tl' & Ht' & K2).
  split; [congruence|]. exists n, (tl ++ tl').
  split; [exact Hn|]. split; [now apply TailK_app|].
  rewrite K1, K2. now rewrite <- !app_assoc.
Qed.

Lemma parser_reads fuel :
  readsOperand (Parser.parsePrimary fuel)
  /\ readsOperand (Parser.parseNegation fuel)
  /\ readsFlat (Parser.parseConjunction fuel)
  /\ readsFlat (Parser.parseDisjunction fuel)
  /\ readsFlat (Parser.parseImplication fuel)
  /\ readsFlat (Parser.parseEquivalence fuel).
Proof.
  induction fuel as [|fuel (P & N & C & D & I & E)].
  - split; [|split; [|split; [|split; [|split]]]]; intros p t p' X;
      discriminate.
  - assert (P' : readsOperand (Parser.parsePrimary (S fuel))).
    { intros p t p' X. rewrite parsePrimary_S in X.
      destruct (Parser.match_ p LPAREN None) eqn:M1.
      - apply obind_Ret in X as ([expr p1] & X1 & X2).
        apply obind_Ret in X2 as ([tok p2] & X2 & X3). injection X3 as <- <-.
        destruct (match_rest _ _ _ M1) as (tok1 & C1 & Hty1 & _ & K1).
        destruct (E _ _ _ X1) as (T1 & n & tl & Hn & Ht & K2).
        apply consume_Ret in X2 as [-> M2].
        destruct (match_rest _ _ _ M2) as (tok2 & C2 & Hty2 & Hv2 & K3).
        split; [simpl; simpl in T1; congruence|].
        exists ((LPAREN, tok_value tok1)
                  :: (n ++ tl) ++ [(RPAREN, VString [c_rparen])]).
        split; [now apply NK_paren|].
        rewrite K1, K2, K3. unfold kindOf at 1 2.
        rewrite Hty1, Hty2, (Hv2 _ eq_refl). simpl.
        now rewrite <- !app_assoc.
      - destruct (Parser.match_ p IDENTIFIER None) eqn:M2; [|discriminate].
        destruct (match_rest _ _ _ M2) as (tok & C0 & Hty & _ & K).
        rewrite C0 in X. destruct tok as [ty v pos]. simpl in *.
        destruct v as [name| |]; try discriminate.
        injection X as <- <-. split; [reflexivity|].
        exists [(IDENTIFIER, VString name)]. split; [constructor|].
        rewrite K. unfold kindOf at 1. simpl. now rewrite Hty. }
    assert (N' : readsOperand (Parser.parseNegation (S fuel))).
    { intros p t p' X. rewrite parseNegation_S in X.
      destruct (Parser.match_ p OPERATOR (Some (VOperator NOT))) eqn:M.
      - apply obind_Ret in X as ([operand p1] & X1 & X2). injection X2 as <- <-.
        destruct (match_rest _ _ _ M) as (tok & C0 & Hty & Hv & K).
        destruct (N _ _ _ X1) as (T1 & n & Hn & K1).
        split; [simpl in T1; congruence|].
        exists (opKind NOT :: n). split; [now apply NK_not|].
        rewrite K, K1. unfold kindOf at 1. now rewrite Hty, (Hv _ eq_refl).
      - exact (P _ _ _ X). }
    split; [exact P'|]. split; [exact N'|].
    split; [|split; [|split]].
    + apply (level_reads Parser.parseNegation Parser.parseConjunction AND
                         createConjunction eq_refl fuel eq_refl).
      now apply readsOperand_readsFlat.
    + now apply (level_reads Parser.parseConjunction Parser.parseDisjunction OR
                             createDisjunction eq_refl fuel eq_refl).
    + intros p t p' X. rewrite parseImplication_S in X.
      apply obind_Ret in X as ([l p1] & X1 & X2).
      destruct (D _ _ _ X1) as (T1 & n & tl & Hn & Ht & K1).
      destruct (Parser.match_ p1 OPERATOR (Some (VOperator IMPLIES))) eqn:M.
      * apply obind_Ret in X2 as ([r p2] & X2 & X3). injection X3 as <- <-.
        destruct (match_rest _ _ _ M) as (tok & C0 & Hty & Hv & K).
        destruct (I _ _ _ X2) as (T2 & n2 & tl2 & Hn2 & Ht2 & K2).
        split; [simpl in T2; congruence|].
        exists n, (tl ++ opKind IMPLIES :: n2 ++ tl2).
        split; [exact Hn|].
        split; [apply TailK_app; [exact Ht|]; now apply TK_cons|].
        rewrite K1, K, K2. unfold kindOf at 1. rewrite Hty, (Hv _ eq_refl).
        now repeat (rewrite <- ?app_assoc; simpl).
      * injection X2 as <- <-. split; [exact T1|]. now exists n, tl.
    + now apply (level_reads Parser.parseImplication Parser.parseEquivalence
                             IFF createEquivalence eq_refl fuel eq_refl).
Qed.

Lemma noEOF_split ks e a R :
  noEOF ks -> noEOF a -> fst e = EOF ->
  match R with [] => True | k :: _ => fst k = EOF end ->
  ks ++ [e] = a ++ R -> a = ks.
Proof.
  intros Hk Ha He HR. revert a Ha.
  induction Hk as [|x ks Hx Hk IH]; intros a Ha E.
  - destruct a as [|y a]; [reflexivity|].
    simpl in E. injection E as <- E. apply Forall_inv in Ha. congruence.
  - destruct a as [|y a]; simpl in E.
    + destruct R as [|k R]; [discriminate|]. injection E as -> _. congruence.
    + injection E as <- E. f_equal. apply IH; [|exact E].
      now apply Forall_inv_tail in Ha.
Qed.

Lemma flat_noEOF m :
  (forall n, length n <= m -> NegK n -> noEOF n)
  /\ (forall tl, length tl <= m -> TailK tl -> noEOF tl).
Proof.
  induction m as [|m [IHn IHt]]; split.
  - intros n Hm Hn. apply NegK_nonempty in Hn. lia.
  - intros tl Hm Ht. destruct Ht as [|o n tl' Ho Hn Ht].
    + constructor.
    + simpl in Hm. lia.
  - intros n Hm Hn. destruct Hn as [name|n' Hn'|v n' tl' Hn' Ht'];
      simpl in Hm.
    + constructor; [discriminate|constructor].
    + constructor; [discriminate|]. apply IHn; [lia|exact Hn'].
    + rewrite !length_app in Hm. simpl in Hm.
      constructor; [discriminate|]. apply Forall_app. split.
      * apply Forall_app. split; [apply IHn | apply IHt]; auto; lia.
      * constructor; [discriminate|constructor].
  - intros tl Hm Ht. destruct Ht as [|o n tl' Ho Hn Ht]; [constructor|].
    simpl in Hm. rewrite length_app in Hm.
    constructor; [discriminate|]. apply Forall_app.
    split; [apply IHn | apply IHt]; auto; lia.
Qed.

Lemma NegK_noEOF n : NegK n -> noEOF n.
Proof. apply (proj1 (flat_noEOF (length n))). lia. Qed.

Lemma TailK_noEOF tl : TailK tl -> noEOF tl.
Proof. apply (proj2 (flat_noEOF (length tl))). lia. Qed.

Lemma stepOf_noEOF r k r' : stepOf r = StepTok k r' -> fst k <> EOF.
Proof.
  unfold stepOf.
  destruct (JsString.dropWhile JsString.isWhitespace r) as [|c r0];
    [discriminate|].
  destruct (c =? c_lparen)%N; [intros H; injection H as <- _; discriminate|].
  destruct (c =? c_rparen)%N; [intros H; injection H as <- _; discriminate|].
  destruct (existsb _ _).
  - destruct (find _ _) as [[op cn]|]; [|discriminate].
    intros H; injection H as <- _; discriminate.
  - destruct (JsString.isLetter c); [|discriminate].
    intros H; injection H as <- _; discriminate.
Qed.

Lemma Lexes_noEOF r ks : Lexes r ks -> noEOF ks.
Proof.
  induction 1 as [r S|r k r' ks S L IH]; constructor; [|exact IH].
  now apply stepOf_noEOF in S.
Qed.

(** [parse] returns on the sequences of the grammar only. *)
Lemma parse_reads ts ks eof t :
  noEOF ks -> map kindOf ts = ks ++ [kindOf eof] -> tok_type eof = EOF ->
  Parser.parse (Parser.new ts) = Ret t -> FlatK ks.
Proof.
  intros Hk K He X. unfold Parser.parse in X.
  apply obind_Ret in X as ([ast p'] & X1 & X2).
  destruct (parser_reads (Parser.fuelFor (Parser.tokens (Parser.new ts))))
    as (_ & _ & _ & _ & _ & E).
  destruct (E _ _ _ X1) as (T & n & tl & Hn & Ht & K1).
  change (parserRest (Parser.new ts)) with ts in K1.
  exists n, tl. split; [|now split].
  symmetry. apply noEOF_split with (kindOf eof) (map kindOf (parserRest p')).
  - exact Hk.
  - apply Forall_app. split; [now apply NegK_noEOF | now apply TailK_noEOF].
  - exact He.
  - rewrite currentToken_rest in X2.
    destruct (parserRest p') as [|tok r]; [exact I|]. simpl in X2 |- *.
    destruct (tok_type tok); try discriminate. reflexivity.
  - exact (eq_trans (eq_sym K) K1).
Qed.

(** ** Normalisation *)

Lemma AST_nested_ind (P : AST -> Prop) :
  (forall name, P (AtomNode name)) ->
  (forall inner, P inner -> P (UnaryNode NOT (UnaryNode NOT inner))) ->
  (forall o t, P t -> (o = NOT -> forall u, t <> UnaryNode NOT u) ->
     P (UnaryNode o t)) ->
  (forall o l r, P l -> P r -> P (BinaryNode o l r)) ->
  forall t, P t.
Proof.
  intros HA HN HU HB t.
  enough (H : P t /\ forall o inner, t = UnaryNode o inner -> P inner)
    by apply H.
  induction t as [name|o t [IH1 IH2]|o l [IHl _] r [IHr _]].
  - split; [apply HA | discriminate].
  - split.
    + destruct o; try (apply HU; [exact IH1 | discriminate]).
      destruct t as [name|o2 t2|o2 l2 r2];
        try (apply HU; [exact IH1 | discriminate]).
      destruct o2; try (apply HU; [exact IH1 | discriminate]).
      apply HN. now apply (IH2 NOT).
    + intros o' inner E. injection E as _ <-. exact IH1.
  - split; [now apply HB | discriminate].
Qed.

Lemma normalizeAST_unary o t :
  (o = NOT -> forall u, t <> UnaryNode NOT u) ->
  normalizeAST (UnaryNode o t) = UnaryNode o (normalizeAST t).
Proof.
  intros H. destruct o; try reflexivity.
  destruct t as [name|o2 t2|o2 l2 r2]; try reflexivity.
  destruct o2; try reflexivity. now elim (H eq_refl t2).
Qed.

Lemma normalizeAST_wf t : wfAST t = true -> wfAST (normalizeAST t) = true.
Proof.
  induction t as [name|inner IH|o t IH E|o l r IHl IHr] using AST_nested_ind;
    intros W.
  - exact W.
  - simpl in *. now apply IH.
  - rewrite normalizeAST_unary by exact E. simpl in W |- *.
    apply andb_true_iff in W as [Wo W]. rewrite Wo. now apply IH.
  - simpl in W |- *. apply andb_true_iff in W as [W Wr].
    apply andb_true_iff in W as [Wo Wl]. now rewrite Wo, IHl, IHr.
Qed.

(** Normalisation never returns a negation for anything but a negation. *)
Lemma normalizeAST_head t :
  (forall u, t <> UnaryNode NOT u) -> forall u, normalizeAST t <> UnaryNode NOT u.
Proof.
  intros H u. destruct t as [name|o t|o l r]; simpl; try discriminate.
  destruct o; try discriminate. now elim (H t).
Qed.

Lemma normalizeAST_idempotent t :
  normalizeAST (normalizeAST t) = normalizeAST t.
Proof.
  induction t as [name|inner IH|o t IH E|o l r IHl IHr] using AST_nested_ind.
  - reflexivity.
  - exact IH.
  - rewrite normalizeAST_unary by exact E.
    rewrite normalizeAST_unary; [now rewrite IH|].
    intros Ho. apply normalizeAST_head. now apply E.
  - simpl. now rewrite IHl, IHr.
Qed.

Lemma astEquals_refl t : astEquals t t = true.
Proof.
  induction t as [name|o t IH|o l IHl r IHr]; simpl.
  - apply JsString_eqb_refl.
  - rewrite IH. now destruct o.
  - rewrite IHl, IHr. now destruct o.
Qed.

(** ** Parsing canonical strings *)

Lemma parseFormula_wf s f : parseFormula s = Ret f -> wfAST (ast f) = true.
Proof.
  unfold parseFormula. intros E. apply obind_Ret in E as (t & E1 & E2).
  injection E2 as <-. simpl. apply normalizeAST_wf.
  now apply parseFormulaFromString_wf with s.
Qed.

Lemma parseFormula_render t :
  wfAST t = true ->
  parseFormula (astToString t) = Ret (mkParsed (astToString t) (normalizeAST t)).
Proof.
  intros W. unfold parseFormula. now rewrite parseFormulaFromString_render.
Qed.

Lemma normalizeFormula_canonical f :
  canonicalFormula f -> returns (normalizeFormula f).
Proof.
  intros (t & W & ->). unfold normalizeFormula.
  rewrite parseFormula_render by exact W. simpl. now eexists.
Qed.

(** *** The strings that parse *)

Lemma parses_iff s : parses s <-> exists ks, Lexes s ks /\ FlatK ks.
Proof.
  unfold parses, parseFormula, parseFormulaFromString. split.
  - intros [pf X]. apply obind_Ret in X as (t & X & _).
    apply obind_Ret in X as (ts & X1 & X2).
    destruct (tokenize_Lexes _ _ X1) as (ks & eof & L & K & He).
    exists ks. split; [exact L|].
    apply parse_reads with ts eof t; auto. now apply Lexes_noEOF with s.
  - intros (ks & L & F).
    destruct (Lexes_tokenize _ _ L) as (ts & eof & -> & K & He).
    rewrite <- K in F. cbn [obind].
    destruct (parse_accepts ts eof F He) as [t ->]. now eexists.
Qed.

Lemma FlatK_binary o a b :
  OperatorType_eqb o NOT = false -> FlatK a -> FlatK b ->
  FlatK ((LPAREN, VString [c_lparen])
           :: (a ++ opKind o :: b) ++ [(RPAREN, VString [c_rparen])]).
Proof.
  intros Ho (na & ta & -> & Hna & Hta) (nb & tb & -> & Hnb & Htb).
  exists ((LPAREN, VString [c_lparen])
            :: (na ++ (ta ++ opKind o :: nb ++ tb))
            ++ [(RPAREN, VString [c_rparen])]), [].
  split; [|split; [|constructor]].
  - rewrite app_nil_r. now rewrite <- !app_assoc.
  - apply NK_paren; [exact Hna|]. apply TailK_app; [exact Hta|].
    now apply TK_cons.
Qed.

Lemma FlatK_not k : FlatK k <-> FlatK (opKind NOT :: k).
Proof.
  split.
  - intros (n & tl & -> & Hn & Ht). exists (opKind NOT :: n), tl.
    split; [reflexivity|]. split; [now apply NK_not | exact Ht].
  - intros (n & tl & E & Hn & Ht).
    destruct Hn as [name|n' Hn'|v n' tl' Hn' Ht']; try discriminate.
    simpl in E. injection E as ->. now exists n', tl.
Qed.

Lemma parses_binary o A B :
  OperatorType_eqb o NOT = false -> parses A -> parses B ->
  parses ([c_lparen] ++ A ++ [c_space; symbolOf o; c_space] ++ B
          ++ [c_rparen]).
Proof.
  rewrite !parses_iff. intros Ho (ka & LA & FA) (kb & LB & FB).
  exists ((LPAREN, VString [c_lparen])
            :: (ka ++ opKind o :: kb) ++ [(RPAREN, VString [c_rparen])]).
  split; [now apply Lexes_binary | now apply FlatK_binary].
Qed.

Lemma parses_doubleNeg_intro f :
  parses f ->
  parses (if JsString.startsWith f [c_tilde; c_tilde] then f
          else [c_tilde; c_tilde] ++ f).
Proof.
  intros P. destruct (JsString.startsWith f [c_tilde; c_tilde]); [exact P|].
  apply parses_iff in P as (k & L & F). apply parses_iff.
  exists (opKind NOT :: opKind NOT :: k). split.
  - simpl. apply (proj1 (Lexes_tilde _ _)), (proj1 (Lexes_tilde _ _)).
    exact L.
  - apply (proj1 (FlatK_not _)), (proj1 (FlatK_not _)). exact F.
Qed.

Lemma parses_doubleNeg_elim f :
  parses f ->
  parses (if JsString.startsWith f [c_tilde; c_tilde]
          then JsString.slice f 2 else f).
Proof.
  intros P. destruct (JsString.startsWith f [c_tilde; c_tilde]) eqn:S;
    [|exact P].
  apply startsWith_iff in S as [g ->]. simpl.
  apply parses_iff in P as (K & L & F). apply parses_iff.
  simpl in L. apply Lexes_tilde_inv in L as (k1 & -> & L).
  apply Lexes_tilde_inv in L as (k & -> & L).
  exists k. split; [exact L|].
  apply (proj2 (FlatK_not _)), (proj2 (FlatK_not _)). exact F.
Qed.

Lemma canonical_parses f : canonicalFormula f -> parses f.
Proof.
  intros (t & W & ->). unfold parses. rewrite parseFormula_render by exact W.
  now eexists.
Qed.

(** ** Parsing and rendering *)

(** C3.  For every formula string [s] that [parseFormula] accepts, the
    canonical rendering of the parsed, normalised tree is accepted too and
    parses to a tree that [astEquals] finds equal to the first one (and
    that is the same tree): [parse(render(parse(s)))] is AST-equal to
    [parse(s)]. *)
Theorem C3_parse_render_roundtrip (s : jsstring) (f : ParsedFormula) :
  parseFormula s = Ret f ->
  exists f',
    parseFormula (pf_toString f) = Ret f'
    /\ astEquals (ast f') (ast f) = true
    /\ ast f' = ast f.
Proof.
  intros E. pose proof (parseFormula_wf s f E) as W.
  unfold pf_toString. rewrite (parseFormula_render (ast f) W).
  eexists. split; [reflexivity|]. simpl.
  assert (N : normalizeAST (ast f) = ast f).
  { unfold parseFormula in E. apply obind_Ret in E as (t & _ & E2).
    injection E2 as <-. simpl. apply normalizeAST_idempotent. }
  rewrite N. split; [apply astEquals_refl | reflexivity].
Qed.

Lemma C3_parse_render_roundtrip_witness :
  exists f',
    parseFormula
      (pf_toString
         (mkParsed (js "~~A & (B -> ~C)")
                   (BinaryNode AND (AtomNode (js "A"))
                      (BinaryNode IMPLIES (AtomNode (js "B"))
                         (UnaryNode NOT (AtomNode (js "C")))))))
    = Ret f'
    /\ astEquals (ast f')
         (BinaryNode AND (AtomNode (js "A"))
            (BinaryNode IMPLIES (AtomNode (js "B"))
               (UnaryNode NOT (AtomNode (js "C"))))) = true
    /\ ast f'
       = BinaryNode AND (AtomNode (js "A"))
           (BinaryNode IMPLIES (AtomNode (js "B"))
              (UnaryNode NOT (AtomNode (js "C")))).
Proof.
  apply (C3_parse_render_roundtrip (js "~~A & (B -> ~C)")).
  vm_compute. reflexivity.
Defined.


(** ** Atom names and lexical errors *)

Lemma tokenize_atomName s :
  lexerName s = true ->
  Lexer.tokenize s
  = Ret [mkToken IDENTIFIER (VString s) 0; mkToken EOF VNull (length s)].
Proof.
  intros Hn. unfold Lexer.tokenize, Lexer.tokenizeAll, Lexer.new.
  pose proof (render_trim (AtomNode s) Hn) as T. simpl astToString in T.
  rewrite T. simpl Lexer.input.
  set (lx := Lexer.mk s 0).
  assert (R : Lexer.remaining lx = [] ++ s ++ []) by (simpl; now rewrite app_nil_r).
  assert (G := getNextToken_name lx [] s [] R eq_refl Hn I).
  cbn [Lexer.tokenizeLoop]. rewrite G. simpl.
  destruct s as [|c cs]; [discriminate|].
  simpl length. rewrite tokenizeLoop_end; [reflexivity|].
  rewrite remaining_advanceBy. simpl. unfold JsString.slice. simpl.
  apply skipn_all.
Qed.

(** C4 as stated fails: [OR] matches the atom-name pattern, yet it is the
    keyword alias of the disjunction; the lexer returns an operator token
    for it, not an identifier, and the parser rejects the input. *)
Lemma C4_counterexample :
  isAtomName (js "OR") = true
  /\ Lexer.tokenize (js "OR")
     = Ret [mkToken OPERATOR (VOperator OR) 0; mkToken EOF VNull 2]
  /\ parseFormulaFromString (js "OR")
     = Throw (ParseError
                (ExpectedIdentifierOrLParen
                   (Some (mkToken OPERATOR (VOperator OR) 0)))
                0 (Some (mkToken OPERATOR (VOperator OR) 0)))
  /\ ~ (forall s, isAtomName s = true ->
          Lexer.tokenize s
          = Ret [mkToken IDENTIFIER (VString s) 0; mkToken EOF VNull (length s)]
          /\ parseFormulaFromString s = Ret (AtomNode s)).
Proof.
  split; [reflexivity|]. split; [vm_compute; reflexivity|].
  split; [vm_compute; reflexivity|].
  intros H. destruct (H (js "OR") eq_refl) as [_ H2]. vm_compute in H2.
  discriminate.
Qed.

(** C4, amended.  For every string [s] that matches the atom-name pattern
    and does not begin with one of the keyword aliases [AND], [OR],
    [IMPLIES], [IFF], [NOT], tokenizing returns the identifier token of
    value [s] at position 0 followed by the end token, and parsing [s]
    returns [Atom(s)].  For every input, the only error the lexer raises is
    the positioned unexpected-character error, at a character that is not
    whitespace, not a parenthesis, not a letter, and where no operator
    alias starts. *)
Theorem C4_atoms_and_lexical_errors :
  (forall s,
      isAtomName s = true -> beginsWithKeyword s = false ->
      Lexer.tokenize s
      = Ret [mkToken IDENTIFIER (VString s) 0; mkToken EOF VNull (length s)]
      /\ parseFormulaFromString s = Ret (AtomNode s))
  /\ (forall s e,
         Lexer.tokenize s = Throw e ->
         exists pos c,
           e = UnexpectedCharacter c pos
           /\ unlexableAt (JsString.trim s) pos c).
Proof.
  split.
  - intros s Ha Hk.
    assert (Hn : lexerName s = true) by (unfold lexerName; now rewrite Ha, Hk).
    split; [now apply tokenize_atomName|].
    now apply (parseFormulaFromString_render (AtomNode s)).
  - intros s e H. apply tokenizeLoop_throws in H. exact H.
Qed.

Lemma C4_atoms_and_lexical_errors_witness :
  (Lexer.tokenize (js "CustomerIsVIP")
   = Ret [mkToken IDENTIFIER (VString (js "CustomerIsVIP")) 0;
          mkToken EOF VNull (length (js "CustomerIsVIP"))]
   /\ parseFormulaFromString (js "CustomerIsVIP")
      = Ret (AtomNode (js "CustomerIsVIP")))
  /\ exists pos c,
       UnexpectedCharacter 45%N 4 = UnexpectedCharacter c pos
       /\ unlexableAt (JsString.trim (js "User-Name")) pos c.
Proof.
  split.
  - apply (proj1 C4_atoms_and_lexical_errors (js "CustomerIsVIP")); reflexivity.
  - apply (proj2 C4_atoms_and_lexical_errors (js "User-Name")).
    vm_compute. reflexivity.
Defined.

(** ** The derivation state *)

Lemma set_has_In s x : set_has s x = true <-> In x s.
Proof.
  unfold set_has. rewrite existsb_exists. split.
  - intros (y & Hy & E). apply JsString_eqb_eq in E. now subst.
  - intros H. exists x. split; [assumption | apply JsString_eqb_refl].
Qed.

Lemma isFactAvailable_spec this a :
  isFactAvailable this a = true <-> available this a.
Proof.
  unfold isFactAvailable, available.
  destruct (set_has (facts this) a) eqn:F.
  - apply set_has_In in F. tauto.
  - rewrite existsb_exists. split.
    + intros (step & Hs & Hf). right. exists step. now rewrite <- set_has_In.
    + intros [H|(step & Hs & Hf)].
      * apply set_has_In in H. congruence.
      * exists step. now rewrite set_has_In.
Qed.

Lemma isFactAvailable_false this a :
  isFactAvailable this a = false <-> ~ available this a.
Proof.
  rewrite <- isFactAvailable_spec. destruct (isFactAvailable this a); split;
    congruence.
Qed.

(** C5.  Closed-world auto-negation.  An available atom is resolvable; an
    unavailable atom written with a leading tilde is resolvable exactly
    when its base is not available; an unavailable atom without a leading
    tilde is resolvable exactly when its negation is available.  With the
    facts [{X}]: [X] is resolvable, [~X] is not, [Y] is not, [~Y] is. *)
Theorem C5_auto_negation :
  (forall this atom, available this atom -> isAtomResolvable this atom = true)
  /\ (forall this base,
         ~ available this (c_tilde :: base) ->
         (isAtomResolvable this (c_tilde :: base) = true
          <-> ~ available this base))
  /\ (forall this atom,
         ~ available this atom ->
         JsString.startsWith atom [c_tilde] = false ->
         (isAtomResolvable this atom = true
          <-> available this (c_tilde :: atom)))
  /\ (let this := mkSystem [] [js "X"] [] [] in
      isAtomResolvable this (js "X") = true
      /\ isAtomResolvable this (js "~X") = false
      /\ isAtomResolvable this (js "Y") = false
      /\ isAtomResolvable this (js "~Y") = true).
Proof.
  split; [|split; [|split]].
  - intros this atom H. unfold isAtomResolvable.
    apply isFactAvailable_spec in H. now rewrite H.
  - intros this base H. unfold isAtomResolvable.
    apply isFactAvailable_false in H. rewrite H. simpl.
    rewrite ?N.eqb_refl. simpl. unfold JsString.slice. simpl.
    rewrite negb_true_iff. apply isFactAvailable_false.
  - intros this atom H S. unfold isAtomResolvable.
    apply isFactAvailable_false in H. rewrite H, S.
    apply isFactAvailable_spec.
  - vm_compute. repeat split.
Qed.

Lemma C5_auto_negation_witness :
  isAtomResolvable (mkSystem [fact "X"] [js "~Z"] [] []) (js "X") = true
  /\ (isAtomResolvable (mkSystem [fact "X"] [js "~Z"] [] []) (js "~Y") = true
      <-> ~ available (mkSystem [fact "X"] [js "~Z"] [] []) (js "Y"))
  /\ (isAtomResolvable (mkSystem [fact "X"] [js "~Z"] [] []) (js "Z") = true
      <-> available (mkSystem [fact "X"] [js "~Z"] [] []) (js "~Z")).
Proof.
  split; [|split].
  - apply (proj1 C5_auto_negation). right. exists (fact "X").
    split; [left; reflexivity | left; reflexivity].
  - apply (proj1 (proj2 C5_auto_negation) _ (js "Y")).
    apply isFactAvailable_false. reflexivity.
  - apply (proj1 (proj2 (proj2 C5_auto_negation)) _ (js "Z")).
    + apply isFactAvailable_false. reflexivity.
    + reflexivity.
Defined.

(** C9.  [doubleNegationRule] on a step holding [f] appends the step it
    returns.  In introduction mode the new step holds [f] itself when [f]
    starts with two tildes and [~~f] otherwise, so a second introduction
    changes nothing; in elimination mode it holds [f] without its first
    two tildes when [f] starts with two tildes (one pair only) and [f]
    itself otherwise.  The parser collapses double negations:
    [~~~~X] renders [X] and [~~~X] renders [~X]. *)
Theorem C9_double_negation :
  (forall this step f,
      formulas step = [f] ->
      exists introStep elimStep,
        doubleNegationRule step (js "introduction") this
        = (Ret introStep, pushed this introStep)
        /\ doubleNegationRule step (js "elimination") this
           = (Ret elimStep, pushed this elimStep)
        /\ (JsString.startsWith f [c_tilde; c_tilde] = true ->
            formulas introStep = [f])
        /\ (JsString.startsWith f [c_tilde; c_tilde] = false ->
            formulas introStep = [c_tilde :: c_tilde :: f])
        /\ (forall this', fst (doubleNegationRule introStep (js "introduction") this')
                          = Ret (mkStep (js "DoubleNegationRule")
                                        (js "doubleNegIntro") [introStep]
                                        (formulas introStep)))
        /\ (forall g, f = c_tilde :: c_tilde :: g -> formulas elimStep = [g])
        /\ (JsString.startsWith f [c_tilde; c_tilde] = false ->
            formulas elimStep = [f]))
  /\ normalizeFormula (js "~~~~X") = Ret (js "X")
  /\ normalizeFormula (js "~~~X") = Ret (js "~X").
Proof.
  split; [|split; vm_compute; reflexivity].
  intros this step f Hf.
  unfold doubleNegationRule, mbind, lift, getUniqueFormula, pushStep, mret.
  rewrite Hf.
  change (JsString.eqb (js "introduction") (js "introduction")) with true.
  change (JsString.eqb (js "elimination") (js "introduction")) with false.
  cbv iota. eexists _, _.
  split; [reflexivity|]. split; [reflexivity|]. cbn [formulas].
  split; [intros ->; reflexivity|]. split; [intros ->; reflexivity|].
  split.
  - intros this'. cbn [fst].
    destruct (JsString.startsWith f [c_tilde; c_tilde]) eqn:S.
    + rewrite S. reflexivity.
    + simpl. rewrite ?N.eqb_refl. simpl. reflexivity.
  - split.
    + intros g ->. simpl. rewrite ?N.eqb_refl. reflexivity.
    + intros ->. reflexivity.
Qed.

Lemma C9_double_negation_witness :
  exists introStep elimStep,
    doubleNegationRule (fact "~~~A") (js "introduction") emptySystem
    = (Ret introStep, pushed emptySystem introStep)
    /\ doubleNegationRule (fact "~~~A") (js "elimination") emptySystem
       = (Ret elimStep, pushed emptySystem elimStep)
    /\ (JsString.startsWith (js "~~~A") [c_tilde; c_tilde] = true ->
        formulas introStep = [js "~~~A"])
    /\ (JsString.startsWith (js "~~~A") [c_tilde; c_tilde] = false ->
        formulas introStep = [c_tilde :: c_tilde :: js "~~~A"])
    /\ (forall this', fst (doubleNegationRule introStep (js "introduction") this')
                      = Ret (mkStep (js "DoubleNegationRule")
                                    (js "doubleNegIntro") [introStep]
                                    (formulas introStep)))
    /\ (forall g, js "~~~A" = c_tilde :: c_tilde :: g -> formulas elimStep = [g])
    /\ (JsString.startsWith (js "~~~A") [c_tilde; c_tilde] = false ->
        formulas elimStep = [js "~~~A"]).
Proof.
  apply (proj1 C9_double_negation emptySystem (fact "~~~A") (js "~~~A")).
  reflexivity.
Defined.

(** C7.  [contrapositionRule] on a step whose single formula parses as an
    implication of [a] and [b] appends and returns a step that holds
    exactly the rendering of the implication of [~b] and [~a], that is
    an opening parenthesis, a tilde, [b], the arrow between spaces, a
    tilde, [a] and a closing parenthesis; on a step whose formula parses
    as anything else it raises the not-an-implication error, and on a
    formula that does not parse, the parse error.  A step holding
    [(A → B)] yields [(~B → ~A)]. *)
Theorem C7_contraposition :
  (forall this step f pf a b,
      formulas step = [f] ->
      parseFormula f = Ret pf -> ast pf = BinaryNode IMPLIES a b ->
      exists newStep,
        contrapositionRule step this = (Ret newStep, pushed this newStep)
        /\ formulas newStep
           = [astToString (BinaryNode IMPLIES (UnaryNode NOT b) (UnaryNode NOT a))]
        /\ formulas newStep
           = [[c_lparen; c_tilde] ++ astToString b
              ++ [c_space; c_implies; c_space; c_tilde] ++ astToString a
              ++ [c_rparen]]
        /\ from newStep = [step])
  /\ (forall this step f pf,
         formulas step = [f] ->
         parseFormula f = Ret pf -> isImplication (ast pf) = false ->
         contrapositionRule step this
         = (Throw (RuleError FormulaIsNotAnImplication), this))
  /\ (forall this step f e,
         formulas step = [f] -> parseFormula f = Throw e ->
         contrapositionRule step this = (Throw e, this))
  /\ (exists newStep,
         contrapositionRule (fact "(A → B)") emptySystem
         = (Ret newStep, pushed emptySystem newStep)
         /\ formulas newStep = [js "(~B → ~A)"])
  /\ contrapositionRule (fact "(A ∧ B)") emptySystem
     = (Throw (RuleError FormulaIsNotAnImplication), emptySystem).
Proof.
  split; [|split; [|split; [|split]]].
  - intros this step f pf a b Hf Hp Ha.
    unfold contrapositionRule, mbind, lift, getUniqueFormula, pushStep, mret.
    rewrite Hf, Hp, Ha. cbn [isImplication getImplicationParts negb].
    eexists. split; [reflexivity|]. cbn [formulas from].
    split; [reflexivity|]. split; [|reflexivity].
    simpl. repeat (rewrite <- ?app_assoc; simpl). reflexivity.
  - intros this step f pf Hf Hp Hi.
    unfold contrapositionRule, mbind, lift, getUniqueFormula.
    now rewrite Hf, Hp, Hi.
  - intros this step f e Hf Hp.
    unfold contrapositionRule, mbind, lift, getUniqueFormula.
    now rewrite Hf, Hp.
  - eexists. split; vm_compute; reflexivity.
  - vm_compute. reflexivity.
Qed.

Lemma C7_contraposition_witness :
  (exists newStep,
      contrapositionRule (fact "P -> ~~Q") emptySystem
      = (Ret newStep, pushed emptySystem newStep)
      /\ formulas newStep
         = [astToString (BinaryNode IMPLIES (UnaryNode NOT (AtomNode (js "Q")))
                                    (UnaryNode NOT (AtomNode (js "P"))))]
      /\ formulas newStep
         = [[c_lparen; c_tilde] ++ astToString (AtomNode (js "Q"))
            ++ [c_space; c_implies; c_space; c_tilde]
            ++ astToString (AtomNode (js "P")) ++ [c_rparen]]
      /\ from newStep = [fact "P -> ~~Q"])
  /\ contrapositionRule (fact "~(P -> Q)") emptySystem
     = (Throw (RuleError FormulaIsNotAnImplication), emptySystem).
Proof.
  split.
  - apply (proj1 C7_contraposition emptySystem (fact "P -> ~~Q") (js "P -> ~~Q")
                 (mkParsed (js "P -> ~~Q")
                    (BinaryNode IMPLIES (AtomNode (js "P")) (AtomNode (js "Q")))));
      [reflexivity | vm_compute; reflexivity | reflexivity].
  - apply (proj1 (proj2 C7_contraposition) emptySystem (fact "~(P -> Q)")
                 (js "~(P -> Q)")
                 (mkParsed (js "~(P -> Q)")
                    (UnaryNode NOT
                       (BinaryNode IMPLIES (AtomNode (js "P")) (AtomNode (js "Q"))))));
      [reflexivity | vm_compute; reflexivity | reflexivity].
Defined.

(** C10.  Every rule operation is atomic on error: when [alphaRule],
    [betaRule], [equivalenceRule], [contrapositionRule] or
    [doubleNegationRule] raises, the state it leaves is the state it was
    called on: no step was appended and the facts are those of before. *)
Theorem C10_rules_atomic_on_error (this this' : GentzenSystem) (e : Error) :
  (forall step1 step2 ruleType,
      alphaRule step1 step2 ruleType this = (Throw e, this') -> this' = this)
  /\ (forall step1 step2,
         betaRule step1 step2 this = (Throw e, this') -> this' = this)
  /\ (forall step1 step2,
         equivalenceRule step1 step2 this = (Throw e, this') -> this' = this)
  /\ (forall step,
         contrapositionRule step this = (Throw e, this') -> this' = this)
  /\ (forall step mode,
         doubleNegationRule step mode this = (Throw e, this') -> this' = this).
Proof.
  split; [|split; [|split; [|split]]].
  - intros step1 step2 ruleType.
    unfold alphaRule, mbind, lift, pushStep, mret.
    destruct (getUniqueFormula step1); try (intros H; now injection H).
    destruct (getUniqueFormula step2); try (intros H; now injection H).
    destruct (JsString.eqb ruleType (js "and")); [discriminate|].
    destruct (JsString.eqb ruleType (js "implies")); [discriminate|].
    intros H; now injection H.
  - intros step1 step2. unfold betaRule, mbind, lift, pushStep, mret.
    destruct (getUniqueFormula step1); try (intros H; now injection H).
    destruct (getUniqueFormula step2); intros H; now injection H.
  - intros step1 step2. unfold equivalenceRule, mbind, lift, pushStep, mret.
    destruct (getUniqueFormula step1); try (intros H; now injection H).
    destruct (getUniqueFormula step2); intros H; now injection H.
  - intros step. unfold contrapositionRule, mbind, lift, pushStep, mret.
    destruct (getUniqueFormula step); try (intros H; now injection H).
    destruct (parseFormula a) as [pf| |]; try (intros H; now injection H).
    destruct (isImplication (ast pf)); simpl; [|intros H; now injection H].
    destruct (getImplicationParts (ast pf)) as [[x y]|];
      [discriminate | intros H; now injection H].
  - intros step mode. unfold doubleNegationRule, mbind, lift, pushStep, mret.
    destruct (getUniqueFormula step); intros H; now injection H.
Qed.

Lemma C10_rules_atomic_on_error_witness :
  alphaRule (fact "A") (fact "B") (js "xor") (mkSystem [fact "A"; fact "B"] [js "C"] [] [])
  = (Throw (RuleError UnknownSubtypeForAlphaRule),
     mkSystem [fact "A"; fact "B"] [js "C"] [] [])
  /\ mkSystem [fact "A"; fact "B"] [js "C"] [] []
     = mkSystem [fact "A"; fact "B"] [js "C"] [] [].
Proof.
  split; [vm_compute; reflexivity|].
  apply (proj1 (C10_rules_atomic_on_error
                  (mkSystem [fact "A"; fact "B"] [js "C"] [] [])
                  (mkSystem [fact "A"; fact "B"] [js "C"] [] [])
                  (RuleError UnknownSubtypeForAlphaRule))
               (fact "A") (fact "B") (js "xor")).
  vm_compute. reflexivity.
Defined.

(** ** The search *)

Lemma trackAll_spec missing :
  forall this, trackAll missing this = (Ret tt, tracked this missing).
Proof.
  induction missing as [|x l IH]; intros this; simpl.
  - now destruct this.
  - unfold mbind, trackMissingFact. rewrite IH. reflexivity.
Qed.

Lemma searchForProof_unfold target maxDepth this :
  searchForProof target maxDepth this
  = match isProved this target with
    | Ret true => (Ret (mkResult true [] [] [] 0), this)
    | Ret false =>
        match canResolveFormula this target with
        | Ret (true, _) =>
            (searchLoop (S MAX_ITERATIONS) target maxDepth [mkEntry this 0 []]
                        [getSystemSignature this] 0, this)
        | Ret (false, missing) =>
            (Ret (mkResult false [] missing [] 0), tracked this missing)
        | Throw e => (Throw e, this)
        | Diverge => (Diverge, this)
        end
    | Throw e => (Throw e, this)
    | Diverge => (Diverge, this)
    end.
Proof.
  unfold searchForProof, mbind, lift, mret.
  destruct (isProved this target) as [[|]| |]; try reflexivity.
  destruct (canResolveFormula this target) as [[[|] m]| |]; try reflexivity.
  simpl. now rewrite trackAll_spec.
Qed.

Lemma searchForProof_cases target maxDepth this r this' :
  searchForProof target maxDepth this = (Ret r, this') ->
  (isProved this target = Ret true
   /\ r = mkResult true [] [] [] 0 /\ this' = this)
  \/ (isProved this target = Ret false
      /\ exists missing,
           canResolveFormula this target = Ret (false, missing)
           /\ r = mkResult false [] missing [] 0
           /\ this' = tracked this missing)
  \/ (isProved this target = Ret false
      /\ (exists m, canResolveFormula this target = Ret (true, m))
      /\ searchLoop (S MAX_ITERATIONS) target maxDepth [mkEntry this 0 []]
                    [getSystemSignature this] 0 = Ret r
      /\ this' = this).
Proof.
  rewrite searchForProof_unfold. intros E.
  destruct (isProved this target) as [[|]|e|].
  - left. apply pair_equal_spec in E as [E1 E2]. injection E1 as <-. auto.
  - right. destruct (canResolveFormula this target) as [[[|] m]|e|].
    + right. apply pair_equal_spec in E as [E1 E2]. split; [reflexivity|].
      split; [now exists m|]. now split.
    + left. apply pair_equal_spec in E as [E1 E2]. injection E1 as <-.
      split; [reflexivity|]. exists m. auto.
    + apply pair_equal_spec in E as [E1 E2]. discriminate.
    + apply pair_equal_spec in E as [E1 E2]. discriminate.
  - apply pair_equal_spec in E as [E1 E2]. discriminate.
  - apply pair_equal_spec in E as [E1 E2]. discriminate.
Qed.

Lemma searchLoop_S fuel target maxDepth queue visited iterations :
  searchLoop (S fuel) target maxDepth queue visited iterations
  = match queue with
    | [] => Ret initialResult
    | entry :: queue' =>
        if (MAX_ITERATIONS <? iterations + 1) || (MAX_QUEUE_SIZE <? length queue)
        then Ret initialResult
        else
          proved <- isProved (entrySystem entry) target ;;
          if proved then
            Ret (mkResult true (entryPath entry) [] [] (entryDepth entry))
          else if maxDepth <=? entryDepth entry then
            searchLoop fuel target maxDepth queue' visited (iterations + 1)
          else
            children <- expandOneLevel (entrySystem entry) ;;
            scanned <- scanChildren target (entryDepth entry) (entryPath entry)
                                    children visited queue' ;;
            match scanned with
            | inl result => Ret result
            | inr (visited', queue'') =>
                searchLoop fuel target maxDepth queue'' visited' (iterations + 1)
            end
    end.
Proof. destruct queue; reflexivity. Qed.

Lemma scanChildren_inl target depth path children :
  forall visited queue r,
    scanChildren target depth path children visited queue = Ret (inl r) ->
    proven r = true /\ resultMissingFacts r = []
    /\ exists child, In child children /\ isProved child target = Ret true.
Proof.
  induction children as [|child rest IH]; intros visited queue r; simpl;
    [discriminate|].
  destruct (isProved child target) as [[|]| |] eqn:P; simpl; try discriminate.
  - intros H. injection H as <-. simpl. repeat split. exists child. auto.
  - destruct (negb (set_has visited (getSystemSignature child))); intros H;
      apply IH in H as (H1 & H2 & c & Hc & Hp); repeat split; auto;
      exists c; auto.
Qed.

Lemma scanChildren_inr target depth path children :
  forall visited queue visited' queue',
    scanChildren target depth path children visited queue
    = Ret (inr (visited', queue')) ->
    forall e, In e queue' -> In e queue \/ In (entrySystem e) children.
Proof.
  induction children as [|child rest IH]; intros visited queue visited' queue';
    simpl.
  - intros H. injection H as <- <-. auto.
  - destruct (isProved child target) as [[|]| |]; simpl; try discriminate.
    destruct (negb (set_has visited (getSystemSignature child))); intros H e He;
      destruct (IH _ _ _ _ H e He) as [Hq|Hc]; auto.
    apply in_app_or in Hq as [Hq|[<-|[]]]; auto.
Qed.

Section SearchFrom.

Variable this : GentzenSystem.
Variable target : jsstring.
Variable maxDepth : nat.

Lemma searchLoop_sound fuel :
  forall queue visited iterations r,
    queueReachable this queue ->
    searchLoop fuel target maxDepth queue visited iterations = Ret r ->
    proven r = true ->
    exists s, reachable this s /\ isProved s target = Ret true.
Proof.
  induction fuel as [|fuel IH]; intros queue visited iterations r Q E Pr;
    [discriminate|].
  rewrite searchLoop_S in E. destruct queue as [|entry queue'].
  { injection E as <-. discriminate. }
  destruct ((MAX_ITERATIONS <? iterations + 1)
            || (MAX_QUEUE_SIZE <? length (entry :: queue'))).
  { injection E as <-. discriminate. }
  assert (Re : reachable this (entrySystem entry)) by (apply Q; now left).
  assert (Q' : queueReachable this queue') by (intros e He; apply Q; now right).
  destruct (isProved (entrySystem entry) target) as [[|]| |] eqn:P; simpl in E;
    try discriminate.
  { now exists (entrySystem entry). }
  destruct (maxDepth <=? entryDepth entry); [now apply IH in E|].
  destruct (expandOneLevel (entrySystem entry)) as [children| |] eqn:X;
    simpl in E; try discriminate.
  destruct (scanChildren target (entryDepth entry) (entryPath entry) children
                         visited queue') as [[res|[v' q'']]| |] eqn:SC;
    simpl in E; try discriminate.
  - injection E as <-. apply scanChildren_inl in SC as (_ & _ & c & Hc & Hp).
    exists c. split; [|exact Hp].
    apply reachable_step with (entrySystem entry); [exact Re|].
    now exists children.
  - apply IH in E; [exact E| |exact Pr].
    intros e He. destruct (scanChildren_inr _ _ _ _ _ _ _ _ SC e He) as [H|H].
    + now apply Q'.
    + apply reachable_step with (entrySystem entry); [exact Re|].
      now exists children.
Qed.

Lemma searchLoop_missing fuel :
  forall queue visited iterations r,
    searchLoop fuel target maxDepth queue visited iterations = Ret r ->
    resultMissingFacts r = [].
Proof.
  induction fuel as [|fuel IH]; intros queue visited iterations r E;
    [discriminate|].
  rewrite searchLoop_S in E. destruct queue as [|entry queue'].
  { now injection E as <-. }
  destruct ((MAX_ITERATIONS <? iterations + 1)
            || (MAX_QUEUE_SIZE <? length (entry :: queue'))).
  { now injection E as <-. }
  destruct (isProved (entrySystem entry) target) as [[|]| |]; simpl in E;
    try discriminate.
  { now injection E as <-. }
  destruct (maxDepth <=? entryDepth entry); [now apply IH in E|].
  destruct (expandOneLevel (entrySystem entry)) as [children| |];
    simpl in E; try discriminate.
  destruct (scanChildren target (entryDepth entry) (entryPath entry) children
                         visited queue') as [[res|[v' q'']]| |] eqn:SC;
    simpl in E; try discriminate.
  - injection E as <-. now apply scanChildren_inl in SC as (_ & H & _).
  - now apply IH in E.
Qed.

End SearchFrom.

Lemma expandOneLevel_ceiling s :
  MAX_STEPS <= length (steps s) -> expandOneLevel s = Ret [].
Proof.
  intros H. unfold expandOneLevel.
  apply Nat.leb_le in H. now rewrite H.
Qed.

Lemma reachable_ceiling this s :
  MAX_STEPS <= length (steps this) -> reachable this s -> s = this.
Proof.
  intros H R. induction R as [|s1 s2 R IH (l & E & Hin)]; [reflexivity|].
  subst s1. rewrite (expandOneLevel_ceiling this H) in E. injection E as <-.
  destruct Hin.
Qed.

(** C1.  [searchForProof] never produces a false positive.  Whenever it
    returns a result with [proven] true, [isProved] holds of the target in
    the initial state or in a state reachable from it by rule expansion.
    A pass of the loop that finds the iteration count or the queue size
    over its bound returns the result with [proven] false; a state at the
    step ceiling has no successors, and a search started from such a state
    reports proven only if the target is proved in that very state. *)
Theorem C1_search_no_false_positive :
  (forall this target maxDepth r this',
      searchForProof target maxDepth this = (Ret r, this') ->
      proven r = true ->
      exists s, reachable this s /\ isProved s target = Ret true)
  /\ (forall fuel target maxDepth entry queue visited iterations,
         MAX_ITERATIONS < iterations + 1
         \/ MAX_QUEUE_SIZE < length (entry :: queue) ->
         exists r,
           searchLoop (S fuel) target maxDepth (entry :: queue) visited iterations
           = Ret r
           /\ proven r = false)
  /\ (forall s, MAX_STEPS <= length (steps s) -> expandOneLevel s = Ret [])
  /\ (forall this target maxDepth r this',
         MAX_STEPS <= length (steps this) ->
         searchForProof target maxDepth this = (Ret r, this') ->
         proven r = true ->
         isProved this target = Ret true).
Proof.
  assert (Sound : forall this target maxDepth r this',
             searchForProof target maxDepth this = (Ret r, this') ->
             proven r = true ->
             exists s, reachable this s /\ isProved s target = Ret true).
  { intros this target maxDepth r this' E Pr.
    apply searchForProof_cases in E
      as [(P & _)|[(_ & m & _ & -> & _)|(_ & _ & E & _)]].
    - exists this. split; [apply reachable_refl | exact P].
    - discriminate.
    - apply (searchLoop_sound this target maxDepth _ _ _ _ r) in E; auto.
      intros e [<-|[]]. apply reachable_refl. }
  split; [exact Sound|]. split; [|split; [exact expandOneLevel_ceiling|]].
  - intros fuel target maxDepth entry queue visited iterations H.
    exists initialResult. split; [|reflexivity].
    rewrite searchLoop_S.
    assert (B : (MAX_ITERATIONS <? iterations + 1)
                || (MAX_QUEUE_SIZE <? length (entry :: queue)) = true).
    { apply orb_true_iff. destruct H as [H|H]; [left|right];
        now apply Nat.ltb_lt. }
    now rewrite B.
  - intros this target maxDepth r this' Hc E Pr.
    destruct (Sound _ _ _ _ _ E Pr) as (s & R & P).
    now rewrite (reachable_ceiling this s Hc R) in P.
Qed.

Lemma C1_search_no_false_positive_witness :
  exists s,
    reachable (mkSystem [fact "A"; fact "B"] [] [] []) s
    /\ isProved s (js "B & A") = Ret true.
Proof.
  apply (proj1 C1_search_no_false_positive
               (mkSystem [fact "A"; fact "B"] [] [] []) (js "B & A") 5
               (mkResult true [final_step] [] [] 1)
               (mkSystem [fact "A"; fact "B"] [] [] []));
    [vm_compute; reflexivity | reflexivity].
Defined.

(** C6.  When the target is not already proved and some atom of it is
    unresolvable, [searchForProof] returns at once, whatever the depth
    bound: [proven] is false, [missingFacts] is the list of the unresolved
    atoms with their leading tildes stripped, the path is empty and the
    depth 0, and the state is left with its steps and facts untouched and
    those names tracked.  Conversely a result with a non-empty
    [missingFacts] arises only that way, so a result of the bounded loop
    has [missingFacts] empty. *)
Theorem C6_missing_facts :
  (forall this target maxDepth pf,
      isProved this target = Ret false ->
      parseFormula target = Ret pf ->
      unresolvedAtoms this pf <> [] ->
      searchForProof target maxDepth this
      = (Ret (mkResult false []
                       (map stripLeadingTildes (unresolvedAtoms this pf)) [] 0),
         tracked this (map stripLeadingTildes (unresolvedAtoms this pf))))
  /\ (forall this target maxDepth r this',
         searchForProof target maxDepth this = (Ret r, this') ->
         resultMissingFacts r <> [] ->
         proven r = false
         /\ isProved this target = Ret false
         /\ canResolveFormula this target = Ret (false, resultMissingFacts r)
         /\ exists pf, parseFormula target = Ret pf
                       /\ unresolvedAtoms this pf <> []
                       /\ resultMissingFacts r
                          = map stripLeadingTildes (unresolvedAtoms this pf))
  /\ (forall fuel target maxDepth queue visited iterations r,
         searchLoop fuel target maxDepth queue visited iterations = Ret r ->
         resultMissingFacts r = []).
Proof.
  split; [|split].
  - intros this target maxDepth pf P Hp Hu.
    assert (C : canResolveFormula this target
                = Ret (false, map stripLeadingTildes (unresolvedAtoms this pf))).
    { unfold canResolveFormula, extractMissingFactsFromFormula. rewrite Hp.
      simpl. fold (unresolvedAtoms this pf).
      destruct (unresolvedAtoms this pf) as [|a l]; [now elim Hu|]. reflexivity. }
    now rewrite searchForProof_unfold, P, C.
  - intros this target maxDepth r this' E Hm.
    apply searchForProof_cases in E
      as [(_ & -> & _)|[(P & m & C & -> & _)|(_ & _ & E & _)]].
    + now elim Hm.
    + simpl in *. repeat split; try assumption.
      unfold canResolveFormula, extractMissingFactsFromFormula in C.
      apply obind_Ret in C as (pf & Hp & C). exists pf. split; [exact Hp|].
      fold (unresolvedAtoms this pf) in C. injection C as _ <-.
      split; [|reflexivity]. intros U. rewrite U in Hm. now elim Hm.
    + apply searchLoop_missing in E. now elim Hm.
  - intros fuel target maxDepth queue visited iterations r.
    apply searchLoop_missing.
Qed.

Lemma C6_missing_facts_witness :
  searchForProof (js "A & (Q | ~R)") 5 (mkSystem [fact "A"] [js "~R"] [] [])
  = (Ret (mkResult false [] [js "Q"] [] 0),
     mkSystem [fact "A"] [js "~R"] [js "Q"] []).
Proof.
  apply (proj1 C6_missing_facts (mkSystem [fact "A"] [js "~R"] [] [])
               (js "A & (Q | ~R)") 5
               (mkParsed (js "A & (Q | ~R)")
                  (BinaryNode AND (AtomNode (js "A"))
                     (BinaryNode OR (AtomNode (js "Q"))
                        (UnaryNode NOT (AtomNode (js "R")))))));
    [vm_compute; reflexivity | vm_compute; reflexivity | discriminate].
Defined.

(** *** Termination *)

Lemma returns_terminates {A} (m : Outcome A) : returns m -> terminates m.
Proof. intros [a ->]. discriminate. Qed.

Lemma terminates_Ret {A} (a : A) : terminates (Ret a).
Proof. discriminate. Qed.

Lemma obind_returns {A B} (m : Outcome A) (k : A -> Outcome B) :
  returns m -> (forall a, m = Ret a -> returns (k a)) -> returns (obind m k).
Proof. intros [a ->] K. simpl. now apply K. Qed.

Lemma oexists_terminates {A} (f : A -> Outcome bool) l :
  (forall x, In x l -> terminates (f x)) -> terminates (oexists f l).
Proof.
  induction l as [|x l IH]; intros H; simpl; [discriminate|].
  apply obind_terminates; [apply H; now left|].
  intros [|] _; [discriminate|]. apply IH. intros y Hy. apply H. now right.
Qed.

Lemma oexists_returns {A} (f : A -> Outcome bool) l :
  (forall x, In x l -> returns (f x)) -> returns (oexists f l).
Proof.
  induction l as [|x l IH]; intros H; simpl; [now eexists|].
  apply obind_returns; [apply H; now left|].
  intros [|] _; [now eexists|]. apply IH. intros y Hy. apply H. now right.
Qed.

Lemma isProved_terminates this target : terminates (isProved this target).
Proof.
  unfold isProved. apply obind_terminates; [apply normalizeFormula_terminates|].
  intros nt _.
  assert (S : forall f, terminates (normalized <- normalizeFormula f ;;
                                    Ret (JsString.eqb normalized nt))).
  { intros f. apply obind_terminates; [apply normalizeFormula_terminates|].
    intros a _. discriminate. }
  apply obind_terminates.
  - apply oexists_terminates. intros f _. apply S.
  - intros [|] _; [discriminate|].
    apply oexists_terminates. intros step _.
    apply oexists_terminates. intros f _. apply S.
Qed.

Lemma canResolveFormula_terminates this target :
  terminates (canResolveFormula this target).
Proof.
  unfold canResolveFormula, extractMissingFactsFromFormula.
  apply obind_terminates; [apply parseFormula_terminates|].
  intros a _. discriminate.
Qed.

(** What each rule does when it returns. *)
Lemma getUniqueFormula_Ret step f :
  getUniqueFormula step = Ret f -> formulas step = [f].
Proof.
  unfold getUniqueFormula. destruct (formulas step) as [|x [|y l]];
    try discriminate. now intros H; injection H as ->.
Qed.

Lemma getUniqueFormula_terminates step : terminates (getUniqueFormula step).
Proof.
  unfold getUniqueFormula. destruct (formulas step) as [|x [|y l]]; discriminate.
Qed.

Lemma alphaRule_terminates s1 s2 rt this :
  terminates (fst (alphaRule s1 s2 rt this)).
Proof.
  unfold terminates, alphaRule, mbind, lift, pushStep, mret.
  unique_formula getUniqueFormula_terminates s1. unique_formula getUniqueFormula_terminates s2.
  destruct (JsString.eqb rt (js "and")); [discriminate|].
  destruct (JsString.eqb rt (js "implies")); discriminate.
Qed.

Lemma betaRule_terminates s1 s2 this : terminates (fst (betaRule s1 s2 this)).
Proof.
  unfold terminates, betaRule, mbind, lift, pushStep, mret.
  unique_formula getUniqueFormula_terminates s1. unique_formula getUniqueFormula_terminates s2. discriminate.
Qed.

Lemma equivalenceRule_terminates s1 s2 this :
  terminates (fst (equivalenceRule s1 s2 this)).
Proof.
  unfold terminates, equivalenceRule, mbind, lift, pushStep, mret.
  unique_formula getUniqueFormula_terminates s1. unique_formula getUniqueFormula_terminates s2. discriminate.
Qed.

Lemma contrapositionRule_terminates s this :
  terminates (fst (contrapositionRule s this)).
Proof.
  unfold terminates, contrapositionRule, mbind, lift, pushStep, mret.
  unique_formula getUniqueFormula_terminates s.
  pose proof (parseFormula_terminates a) as Tp.
  destruct (parseFormula a) as [pf| |]; try discriminate; [|now elim Tp].
  destruct (isImplication (ast pf)); simpl; [|discriminate].
  destruct (getImplicationParts (ast pf)) as [[x y]|]; discriminate.
Qed.

Lemma doubleNegationRule_terminates s mode this :
  terminates (fst (doubleNegationRule s mode this)).
Proof.
  unfold terminates, doubleNegationRule, mbind, lift, pushStep, mret.
  unique_formula getUniqueFormula_terminates s. discriminate.
Qed.

Lemma withStep_terminates st rule this :
  (forall s, terminates (fst (rule s this))) ->
  terminates (fst (withStep st rule this)).
Proof. intros H. destruct st; simpl; [apply H | discriminate]. Qed.

Lemma attempt_returns this rule :
  terminates (fst (rule (cloneSystem this) (cloneSystem this))) ->
  returns (attempt this rule).
Proof.
  unfold attempt. intros T.
  destruct (rule (cloneSystem this) (cloneSystem this)) as [[n|e|] c'];
    simpl in *; [now eexists | now eexists | now elim T].
Qed.

Lemma oflat_map_returns {A B} (f : A -> Outcome (list B)) l :
  (forall x, In x l -> returns (f x)) -> returns (oflat_map f l).
Proof.
  induction l as [|x l IH]; intros H; simpl; [now eexists|].
  apply obind_returns; [apply H; now left|]. intros ys _.
  apply obind_returns; [apply IH; intros y Hy; apply H; now right|].
  intros zs _. now eexists.
Qed.

Lemma binaryCombos_terminate i j c rule :
  In rule (binaryCombos i j) -> terminates (fst (rule c c)).
Proof.
  unfold binaryCombos. intros [<-|[<-|[<-|[<-|[]]]]];
    apply withStep_terminates; intros s1; apply withStep_terminates; intros s2.
  - apply alphaRule_terminates.
  - apply alphaRule_terminates.
  - apply betaRule_terminates.
  - apply equivalenceRule_terminates.
Qed.

Lemma unaryCombos_terminate i c rule :
  In rule (unaryCombos i) -> terminates (fst (rule c c)).
Proof.
  unfold unaryCombos. intros [<-|[<-|[<-|[]]]];
    apply withStep_terminates; intros s.
  - apply contrapositionRule_terminates.
  - apply doubleNegationRule_terminates.
  - apply doubleNegationRule_terminates.
Qed.

(** One round of expansion always returns its list of successors. *)
Lemma expandOneLevel_returns s : returns (expandOneLevel s).
Proof.
  unfold expandOneLevel.
  destruct (MAX_STEPS <=? length (steps s)); [now eexists|].
  apply obind_returns.
  - apply oflat_map_returns. intros i _. apply oflat_map_returns. intros j _.
    apply oflat_map_returns. intros rule Hr. apply attempt_returns.
    now apply binaryCombos_terminate with i j.
  - intros binary _. apply obind_returns.
    + apply oflat_map_returns. intros i _. apply oflat_map_returns.
      intros rule Hr. apply attempt_returns.
      now apply unaryCombos_terminate with i.
    + intros unary _. now eexists.
Qed.

Lemma scanChildren_terminates target depth path children :
  forall visited queue,
    terminates (scanChildren target depth path children visited queue).
Proof.
  induction children as [|child rest IH]; intros visited queue; simpl;
    [discriminate|].
  apply obind_terminates; [apply isProved_terminates|].
  intros [|] _; [discriminate|].
  destruct (negb (set_has visited (getSystemSignature child))); apply IH.
Qed.

(** The loop: with [MAX_ITERATIONS + 1] passes left to count, it never
    runs out of fuel. *)
Lemma searchLoop_terminates target maxDepth fuel :
  forall queue visited iterations,
    MAX_ITERATIONS + 1 <= iterations + fuel -> 1 <= fuel ->
    terminates (searchLoop fuel target maxDepth queue visited iterations).
Proof.
  induction fuel as [|fuel IH]; intros queue visited iterations Hs Hf; [lia|].
  rewrite searchLoop_S. destruct queue as [|entry queue']; [apply terminates_Ret|].
  destruct (MAX_ITERATIONS <? iterations + 1) eqn:B1; [apply terminates_Ret|].
  apply Nat.ltb_ge in B1.
  destruct (MAX_QUEUE_SIZE <? length (entry :: queue')); [apply terminates_Ret|].
  assert (Rec : forall q v, terminates (searchLoop fuel target maxDepth q v
                                                   (iterations + 1)))
    by (intros q v; apply IH; lia).
  cbv beta iota. unfold orb.
  apply obind_terminates; [apply isProved_terminates|].
  intros [|] _; [apply terminates_Ret|].
  destruct (maxDepth <=? entryDepth entry); [apply Rec|].
  apply obind_terminates; [apply returns_terminates, expandOneLevel_returns|].
  intros children _.
  apply obind_terminates; [apply scanChildren_terminates|].
  intros [res|[v q]] _; [apply terminates_Ret | apply Rec].
Qed.

Lemma searchForProof_terminates target maxDepth this :
  terminates (fst (searchForProof target maxDepth this)).
Proof.
  rewrite searchForProof_unfold.
  pose proof (isProved_terminates this target) as T1.
  destruct (isProved this target) as [[|]|e|];
    [apply terminates_Ret| |discriminate|now elim T1].
  pose proof (canResolveFormula_terminates this target) as T2.
  destruct (canResolveFormula this target) as [[[|] m]|e|];
    [|apply terminates_Ret|discriminate|now elim T2].
  cbn [fst]. apply searchLoop_terminates; lia.
Qed.

(** *** States whose formulas parse *)

Lemma cloneSystem_steps s : steps (cloneSystem s) = steps s.
Proof.
  unfold cloneSystem; simpl. rewrite <- (map_id (steps s)) at 2.
  apply map_ext. now intros [o r f fs].
Qed.

Lemma cloneSystem_parseable s : parseableState s -> parseableState (cloneSystem s).
Proof.
  intros [F S]. split; [exact F|]. now rewrite cloneSystem_steps.
Qed.

Lemma pushed_parseable c s :
  parseableState c -> Forall parses (formulas s) ->
  parseableState (pushed c s).
Proof.
  intros [F S] H. split; [exact F|]. simpl. apply Forall_app. split; [exact S|].
  now constructor.
Qed.

Lemma step_parseable c i s :
  parseableState c -> nth_error (steps c) i = Some s ->
  Forall parses (formulas s).
Proof.
  intros [_ S] H. apply nth_error_In in H.
  now apply (proj1 (Forall_forall _ _) S).
Qed.

Lemma unique_parseable s f :
  Forall parses (formulas s) -> getUniqueFormula s = Ret f ->
  parses f.
Proof.
  intros H E. apply getUniqueFormula_Ret in E. rewrite E in H.
  now apply Forall_inv in H.
Qed.

Lemma binaryRule_parseable o origin' ruleType' s1 s2 c n c' :
  OperatorType_eqb o NOT = false ->
  parseableState c ->
  Forall parses (formulas s1) ->
  Forall parses (formulas s2) ->
  (A <~ lift (getUniqueFormula s1) ;;
   B <~ lift (getUniqueFormula s2) ;;
   let newFormula :=
     [c_lparen] ++ A ++ [c_space; symbolOf o; c_space] ++ B ++ [c_rparen] in
   let newStep := mkStep origin' ruleType' [s1; s2] [newFormula] in
   pushStep newStep ;;; mret newStep) c = (Ret n, c') ->
  parseableState c'.
Proof.
  intros Ho Cc C1 C2. unfold mbind, lift, pushStep, mret.
  destruct (getUniqueFormula s1) as [A| |] eqn:U1; try discriminate.
  destruct (getUniqueFormula s2) as [B| |] eqn:U2; try discriminate.
  intros E. injection E as <- <-.
  apply (pushed_parseable c); [exact Cc|]. simpl. constructor; [|constructor].
  apply parses_binary; [exact Ho| |].
  - now apply unique_parseable with s1.
  - now apply unique_parseable with s2.
Qed.

Lemma alphaRule_parseable s1 s2 rt c n c' :
  parseableState c ->
  Forall parses (formulas s1) ->
  Forall parses (formulas s2) ->
  alphaRule s1 s2 rt c = (Ret n, c') -> parseableState c'.
Proof.
  intros Cc C1 C2. unfold alphaRule, mbind, lift, pushStep, mret.
  destruct (getUniqueFormula s1) as [A| |] eqn:U1; try discriminate.
  destruct (getUniqueFormula s2) as [B| |] eqn:U2; try discriminate.
  pose proof (unique_parseable _ _ C1 U1) as CA.
  pose proof (unique_parseable _ _ C2 U2) as CB.
  destruct (JsString.eqb rt (js "and")).
  - intros E. injection E as <- <-.
    apply (pushed_parseable c); [exact Cc|]. simpl. constructor; [|constructor].
    now apply (parses_binary AND).
  - destruct (JsString.eqb rt (js "implies")); [|discriminate].
    intros E. injection E as <- <-.
    apply (pushed_parseable c); [exact Cc|]. simpl. constructor; [|constructor].
    now apply (parses_binary IMPLIES).
Qed.

Lemma betaRule_parseable s1 s2 c n c' :
  parseableState c ->
  Forall parses (formulas s1) ->
  Forall parses (formulas s2) ->
  betaRule s1 s2 c = (Ret n, c') -> parseableState c'.
Proof. intros Cc C1 C2. now apply (binaryRule_parseable OR). Qed.

Lemma equivalenceRule_parseable s1 s2 c n c' :
  parseableState c ->
  Forall parses (formulas s1) ->
  Forall parses (formulas s2) ->
  equivalenceRule s1 s2 c = (Ret n, c') -> parseableState c'.
Proof. intros Cc C1 C2. now apply (binaryRule_parseable IFF). Qed.

Lemma contrapositionRule_parseable s c n c' :
  parseableState c ->
  contrapositionRule s c = (Ret n, c') -> parseableState c'.
Proof.
  intros Cc. unfold contrapositionRule, mbind, lift, pushStep, mret.
  destruct (getUniqueFormula s) as [f| |]; try discriminate.
  destruct (parseFormula f) as [pf| |] eqn:P; try discriminate.
  apply parseFormula_wf in P.
  destruct (ast pf) as [name|o t|o l r]; simpl; try discriminate.
  destruct o; simpl; try discriminate.
  intros E. injection E as <- <-.
  apply (pushed_parseable c); [exact Cc|]. cbn [formulas].
  constructor; [|constructor]. apply canonical_parses.
  exists (BinaryNode IMPLIES (UnaryNode NOT r) (UnaryNode NOT l)).
  split; [|reflexivity]. simpl in P |- *.
  apply andb_true_iff in P as [-> ->]. reflexivity.
Qed.

Lemma doubleNegationRule_parseable s mode c n c' :
  parseableState c ->
  Forall parses (formulas s) ->
  doubleNegationRule s mode c = (Ret n, c') -> parseableState c'.
Proof.
  intros Cc Cs. unfold doubleNegationRule, mbind, lift, pushStep, mret.
  destruct (getUniqueFormula s) as [f| |] eqn:U; try discriminate.
  pose proof (unique_parseable _ _ Cs U) as Cf.
  intros E. injection E as <- <-.
  apply (pushed_parseable c); [exact Cc|]. cbn [formulas].
  constructor; [|constructor].
  destruct (JsString.eqb mode (js "introduction")).
  - now apply parses_doubleNeg_intro.
  - now apply parses_doubleNeg_elim.
Qed.

Lemma binaryCombos_parseable i j rule c n c' :
  In rule (binaryCombos i j) -> parseableState c ->
  rule c c = (Ret n, c') -> parseableState c'.
Proof.
  unfold binaryCombos. intros Hin Cc.
  assert (W : forall body : Step -> Step -> Method Step,
             (forall s1 s2 n c',
                 Forall parses (formulas s1) ->
                 Forall parses (formulas s2) ->
                 body s1 s2 c = (Ret n, c') -> parseableState c') ->
             withStep (nth_error (steps c) i) (fun s1 =>
               withStep (nth_error (steps c) j) (fun s2 => body s1 s2)) c
             = (Ret n, c') -> parseableState c').
  { intros body Hb.
    destruct (nth_error (steps c) i) as [s1|] eqn:N1; simpl; [|discriminate].
    destruct (nth_error (steps c) j) as [s2|] eqn:N2; simpl; [|discriminate].
    apply Hb; [now apply step_parseable with c i
             | now apply step_parseable with c j]. }
  destruct Hin as [<-|[<-|[<-|[<-|[]]]]]; apply W; intros s1 s2 n0 c0 C1 C2.
  - now apply alphaRule_parseable.
  - now apply alphaRule_parseable.
  - now apply betaRule_parseable.
  - now apply equivalenceRule_parseable.
Qed.

Lemma unaryCombos_parseable i rule c n c' :
  In rule (unaryCombos i) -> parseableState c ->
  rule c c = (Ret n, c') -> parseableState c'.
Proof.
  unfold unaryCombos. intros Hin Cc.
  assert (W : forall body : Step -> Method Step,
             (forall s n c',
                 Forall parses (formulas s) ->
                 body s c = (Ret n, c') -> parseableState c') ->
             withStep (nth_error (steps c) i) body c = (Ret n, c') ->
             parseableState c').
  { intros body Hb.
    destruct (nth_error (steps c) i) as [s|] eqn:N1; simpl; [|discriminate].
    apply Hb. now apply step_parseable with c i. }
  destruct Hin as [<-|[<-|[<-|[]]]]; apply W; intros s n0 c0 C1.
  - now apply contrapositionRule_parseable.
  - now apply doubleNegationRule_parseable.
  - now apply doubleNegationRule_parseable.
Qed.

Lemma attempt_parseable this rule l :
  parseableState this ->
  (forall n c', rule (cloneSystem this) (cloneSystem this) = (Ret n, c') ->
                parseableState c') ->
  attempt this rule = Ret l -> Forall parseableState l.
Proof.
  intros Ct Hr. unfold attempt.
  destruct (rule (cloneSystem this) (cloneSystem this)) as [[n|e|] c'] eqn:R;
    intros E; try discriminate; injection E as <-; [|constructor].
  destruct (didWeDeriveNewFormula this c' n); [|constructor].
  constructor; [|constructor]. now apply Hr with n.
Qed.

Lemma attempt_length this rule l : attempt this rule = Ret l -> length l <= 1.
Proof.
  unfold attempt.
  destruct (rule (cloneSystem this) (cloneSystem this)) as [[n|e|] c'];
    intros E; try discriminate; injection E as <-; [|simpl; lia].
  destruct (didWeDeriveNewFormula this c' n); simpl; lia.
Qed.

Lemma oflat_map_Forall {A B} (P : B -> Prop) (f : A -> Outcome (list B)) xs :
  (forall x ys, In x xs -> f x = Ret ys -> Forall P ys) ->
  forall zs, oflat_map f xs = Ret zs -> Forall P zs.
Proof.
  induction xs as [|x xs IH]; intros H zs; simpl.
  - intros E. injection E as <-. constructor.
  - intros E. apply obind_Ret in E as (ys & E1 & E2).
    apply obind_Ret in E2 as (ws & E2 & E3). injection E3 as <-.
    apply Forall_app. split.
    + apply (H x); [now left | exact E1].
    + apply IH; [|exact E2]. intros y vs Hy. apply H. now right.
Qed.

Lemma oflat_map_length {A B} (f : A -> Outcome (list B)) k xs :
  (forall x ys, In x xs -> f x = Ret ys -> length ys <= k) ->
  forall zs, oflat_map f xs = Ret zs -> length zs <= k * length xs.
Proof.
  induction xs as [|x xs IH]; intros H zs; simpl.
  - intros E. injection E as <-. simpl. lia.
  - intros E. apply obind_Ret in E as (ys & E1 & E2).
    apply obind_Ret in E2 as (ws & E2 & E3). injection E3 as <-.
    rewrite length_app.
    assert (length ys <= k) by (apply (H x); [now left | exact E1]).
    assert (length ws <= k * length xs)
      by (apply IH; [|exact E2]; intros y vs Hy; apply H; now right).
    lia.
Qed.

(** The formulas of the successors of such a state parse. *)
Lemma expandOneLevel_parseable s l :
  parseableState s -> expandOneLevel s = Ret l -> Forall parseableState l.
Proof.
  intros Cs. unfold expandOneLevel.
  destruct (MAX_STEPS <=? length (steps s)).
  { intros E. injection E as <-. constructor. }
  intros E. apply obind_Ret in E as (binary & E1 & E2).
  apply obind_Ret in E2 as (unary & E2 & E3). injection E3 as <-.
  pose proof (cloneSystem_parseable s Cs) as Cc.
  apply Forall_app. split.
  - revert E1. apply oflat_map_Forall. intros i ys _.
    apply oflat_map_Forall. intros j zs _.
    apply oflat_map_Forall. intros rule ws Hr.
    apply attempt_parseable; [exact Cs|]. intros n c'.
    now apply binaryCombos_parseable with i j.
  - revert E2. apply oflat_map_Forall. intros i ys _.
    apply oflat_map_Forall. intros rule ws Hr.
    apply attempt_parseable; [exact Cs|]. intros n c'.
    now apply unaryCombos_parseable with i.
Qed.

(** One round attempts four rules on each ordered pair of steps and
    three on each step, and keeps at most one successor per attempt. *)
Lemma expandOneLevel_length s l :
  expandOneLevel s = Ret l ->
  length l <= 4 * (length (steps s) * length (steps s)) + 3 * length (steps s).
Proof.
  unfold expandOneLevel.
  destruct (MAX_STEPS <=? length (steps s)).
  { intros E. injection E as <-. simpl. lia. }
  intros E. apply obind_Ret in E as (binary & E1 & E2).
  apply obind_Ret in E2 as (unary & E2 & E3). injection E3 as <-.
  rewrite length_app.
  assert (B : length binary
              <= (4 * length (steps s)) * length (seq 0 (length (steps s)))).
  { revert E1. apply oflat_map_length. intros i ys _ Ei.
    replace (4 * length (steps s))
      with (4 * length (seq 0 (length (steps s)))) by now rewrite length_seq.
    revert Ei. apply oflat_map_length. intros j zs _ Ej.
    change 4 with (1 * length (binaryCombos i j)).
    revert Ej. apply oflat_map_length. intros rule ws _. apply attempt_length. }
  assert (U : length unary <= 3 * length (seq 0 (length (steps s)))).
  { revert E2. apply oflat_map_length. intros i ys _ Ei.
    change 3 with (1 * length (unaryCombos i)).
    revert Ei. apply oflat_map_length. intros rule ws _. apply attempt_length. }
  rewrite length_seq in *. lia.
Qed.

(** *** The search returns *)

Lemma isProved_returns s target :
  parseableState s -> returns (normalizeFormula target) ->
  returns (isProved s target).
Proof.
  intros [F S] T. unfold isProved. apply obind_returns; [exact T|].
  intros nt _.
  assert (Same : forall f, parses f ->
             returns (normalized <- normalizeFormula f ;;
                      Ret (JsString.eqb normalized nt))).
  { intros f [pf Pf]. unfold normalizeFormula. rewrite Pf. now eexists. }
  apply obind_returns.
  - apply oexists_returns. intros f Hf. apply Same.
    now apply (proj1 (Forall_forall _ _) F).
  - intros [|] _; [now eexists|].
    apply oexists_returns. intros step Hs.
    apply oexists_returns. intros f Hf. apply Same.
    pose proof (proj1 (Forall_forall _ _) S step Hs) as Cs.
    now apply (proj1 (Forall_forall _ _) Cs).
Qed.

Lemma scanChildren_returns target depth path children :
  Forall parseableState children -> returns (normalizeFormula target) ->
  forall visited queue,
    returns (scanChildren target depth path children visited queue).
Proof.
  intros C T. induction children as [|child rest IH]; intros visited queue;
    simpl; [now eexists|].
  apply obind_returns; [apply isProved_returns; [now apply Forall_inv in C|exact T]|].
  intros [|] _; [now eexists|]. apply Forall_inv_tail in C.
  destruct (negb (set_has visited (getSystemSignature child))); now apply IH.
Qed.

Lemma searchLoop_returns target maxDepth fuel :
  returns (normalizeFormula target) ->
  forall queue visited iterations,
    (forall e, In e queue -> parseableState (entrySystem e)) ->
    MAX_ITERATIONS + 1 <= iterations + fuel -> 1 <= fuel ->
    returns (searchLoop fuel target maxDepth queue visited iterations).
Proof.
  intros T. induction fuel as [|fuel IH];
    intros queue visited iterations Q Hs Hf; [lia|].
  rewrite searchLoop_S. destruct queue as [|entry queue']; [now eexists|].
  destruct (MAX_ITERATIONS <? iterations + 1) eqn:B1; [now eexists|].
  apply Nat.ltb_ge in B1.
  destruct (MAX_QUEUE_SIZE <? length (entry :: queue')); [now eexists|].
  assert (Rec : forall q v,
             (forall e, In e q -> parseableState (entrySystem e)) ->
             returns (searchLoop fuel target maxDepth q v (iterations + 1)))
    by (intros q v Hq; apply IH; [exact Hq|lia|lia]).
  assert (Ce : parseableState (entrySystem entry)) by (apply Q; now left).
  assert (Q' : forall e, In e queue' -> parseableState (entrySystem e))
    by (intros e He; apply Q; now right).
  cbv beta iota. unfold orb.
  apply obind_returns; [now apply isProved_returns|].
  intros [|] _; [now eexists|].
  destruct (maxDepth <=? entryDepth entry); [now apply Rec|].
  apply obind_returns; [apply expandOneLevel_returns|].
  intros children X. apply expandOneLevel_parseable in X; [|exact Ce].
  apply obind_returns; [now apply scanChildren_returns|].
  intros [res|[v q]] SC; [now eexists|]. apply Rec.
  intros e He. destruct (scanChildren_inr _ _ _ _ _ _ _ _ SC e He) as [H|H].
  - now apply Q'.
  - now apply (proj1 (Forall_forall _ _) X).
Qed.

Lemma searchForProof_returns target maxDepth this :
  parseableState this -> returns (parseFormula target) ->
  returns (fst (searchForProof target maxDepth this)).
Proof.
  intros C [pf P].
  assert (T : returns (normalizeFormula target)).
  { unfold normalizeFormula. rewrite P. now eexists. }
  rewrite searchForProof_unfold.
  destruct (isProved_returns this target C T) as [[|] ->]; [now eexists|].
  unfold canResolveFormula, extractMissingFactsFromFormula. rewrite P.
  cbn [obind].
  destruct (map stripLeadingTildes _) as [|m ms]; [|now eexists].
  cbn [fst]. apply searchLoop_returns; [exact T| |lia|lia].
  intros e [<-|[]]. exact C.
Qed.

(** *** What the search can throw *)

Lemma obind_Throw {A B} (m : Outcome A) (k : A -> Outcome B) e :
  obind m k = Throw e -> m = Throw e \/ exists a, m = Ret a /\ k a = Throw e.
Proof.
  destruct m as [a|e0|]; simpl; intros H.
  - right. now exists a.
  - left. now injection H as ->.
  - discriminate.
Qed.

Lemma parseLeftAssoc_throws op operand create :
  buildsWf operand -> throwsSyntax operand ->
  forall fuel l, throwsSyntax (Parser.parseLeftAssoc fuel op operand create l).
Proof.
  intros Hw Ht. induction fuel as [|fuel IH]; intros l p e Hp E; [discriminate|].
  rewrite parseLeftAssoc_S in E.
  destruct (Parser.match_ p OPERATOR (Some (VOperator op))); [|discriminate].
  apply obind_Throw in E as [E|([r q] & E1 & E2)].
  - now apply (Ht (Parser.advance p)).
  - destruct (Hw (Parser.advance p) r q Hp E1) as [_ Hq]. simpl in Hq.
    apply (IH (create l r) q); [now rewrite Hq | exact E2].
Qed.

Lemma consume_throws p ty v m e :
  Parser.consume p ty v m = Throw e -> isSyntaxError e.
Proof.
  unfold Parser.consume. destruct (Parser.currentToken p).
  - destruct (Parser.match_ p ty (Some (VString v))); [discriminate|].
    intros H. injection H as <-. exact I.
  - intros H. injection H as <-. exact I.
Qed.

Lemma parser_throws fuel :
  throwsSyntax (Parser.parseEquivalence fuel)
  /\ throwsSyntax (Parser.parseImplication fuel)
  /\ throwsSyntax (Parser.parseDisjunction fuel)
  /\ throwsSyntax (Parser.parseConjunction fuel)
  /\ throwsSyntax (Parser.parseNegation fuel)
  /\ throwsSyntax (Parser.parsePrimary fuel).
Proof.
  induction fuel as [|fuel (IE & II & ID & IC & IN & IP)].
  { repeat split; discriminate. }
  destruct (parser_buildsWf fuel) as (WE & WI & WD & WC & WN & WP).
  assert (Loop : forall op operand create,
             buildsWf operand -> throwsSyntax operand ->
             forall p e,
               Forall tokenOK (Parser.tokens p) ->
               ('(l, p1) <- operand p ;;
                Parser.parseLeftAssoc fuel op operand create l p1) = Throw e ->
               isSyntaxError e).
  { intros op operand create Hw Ht p e Hp E.
    apply obind_Throw in E as [E|([l p1] & E1 & E2)]; [now apply (Ht p)|].
    destruct (Hw p l p1 Hp E1) as [_ H1].
    apply (parseLeftAssoc_throws op operand create Hw Ht fuel l p1);
      [now rewrite H1 | exact E2]. }
  split; [|split; [|split; [|split; [|split]]]]; intros p e Hp E.
  - rewrite parseEquivalence_S in E. now apply (Loop IFF _ createEquivalence WI II p).
  - rewrite parseImplication_S in E.
    apply obind_Throw in E as [E|([l p1] & E1 & E2)]; [now apply (ID p)|].
    destruct (WD p l p1 Hp E1) as [_ H1].
    destruct (Parser.match_ p1 OPERATOR (Some (VOperator IMPLIES)));
      [|discriminate].
    apply obind_Throw in E2 as [E2|([r p2] & _ & E3)]; [|discriminate].
    apply (II (Parser.advance p1)); [simpl; now rewrite H1 | exact E2].
  - rewrite parseDisjunction_S in E. now apply (Loop OR _ createDisjunction WC IC p).
  - rewrite parseConjunction_S in E. now apply (Loop AND _ createConjunction WN IN p).
  - rewrite parseNegation_S in E.
    destruct (Parser.match_ p OPERATOR (Some (VOperator NOT))).
    + apply obind_Throw in E as [E|([r p1] & _ & E2)]; [|discriminate].
      now apply (IN (Parser.advance p)).
    + now apply (IP p).
  - rewrite parsePrimary_S in E.
    destruct (Parser.match_ p LPAREN None).
    + apply obind_Throw in E as [E|([r p1] & E1 & E2)];
        [now apply (IE (Parser.advance p))|].
      apply obind_Throw in E2 as [E2|([tk p2] & _ & E3)]; [|discriminate].
      now apply consume_throws in E2.
    + destruct (Parser.match_ p IDENTIFIER None) eqn:M.
      * apply match_current in M as (tok & C & Ht & _). rewrite C in E.
        assert (OK : tokenOK tok).
        { eapply Forall_forall; [exact Hp|]. eapply nth_error_In. exact C. }
        unfold tokenOK in OK. rewrite Ht in OK. destruct OK as (name & Hv & _).
        destruct tok as [ty v pos]. simpl in Hv. subst v. discriminate.
      * injection E as <-. exact I.
Qed.

(** A formula string that does not parse raises a lexical or a parse
    error, nothing else. *)
Lemma parseFormula_throws s e : parseFormula s = Throw e -> isSyntaxError e.
Proof.
  unfold parseFormula, parseFormulaFromString. intros E.
  apply obind_Throw in E as [E|(t & _ & E)]; [|discriminate].
  apply obind_Throw in E as [E|(ts & E1 & E2)].
  - apply tokenizeLoop_throws in E as (pos & c & -> & _). exact I.
  - apply tokenize_tokenOK in E1. unfold Parser.parse in E2.
    apply obind_Throw in E2 as [E2|([t p'] & _ & E3)].
    + destruct (parser_throws (Parser.fuelFor (Parser.tokens (Parser.new ts))))
        as (IE & _).
      now apply (IE (Parser.new ts)).
    + destruct (Parser.currentToken p') as [tok|]; [|discriminate].
      destruct (tok_type tok); try discriminate; injection E3 as <-; exact I.
Qed.

Lemma normalizeFormula_throws s e :
  normalizeFormula s = Throw e -> isSyntaxError e.
Proof.
  unfold normalizeFormula. intros E.
  apply obind_Throw in E as [E|(t & _ & E)]; [|discriminate].
  now apply parseFormula_throws in E.
Qed.

Lemma oexists_throws {A} (P : Error -> Prop) (f : A -> Outcome bool) l e :
  (forall x, f x = Throw e -> P e) -> oexists f l = Throw e -> P e.
Proof.
  intros H. induction l as [|x l IH]; simpl; [discriminate|]. intros E.
  apply obind_Throw in E as [E|([|] & _ & E)];
    [now apply (H x) | discriminate | now apply IH].
Qed.

Lemma isProved_throws this target e :
  isProved this target = Throw e -> isSyntaxError e.
Proof.
  unfold isProved. intros E.
  apply obind_Throw in E as [E|(nt & _ & E)];
    [now apply normalizeFormula_throws in E|].
  assert (Same : forall f, (normalized <- normalizeFormula f ;;
                            Ret (JsString.eqb normalized nt)) = Throw e ->
                           isSyntaxError e).
  { intros f H. apply obind_Throw in H as [H|(a & _ & H)]; [|discriminate].
    now apply normalizeFormula_throws in H. }
  apply obind_Throw in E as [E|([|] & _ & E)]; [|discriminate|].
  - revert E. apply oexists_throws. exact Same.
  - revert E. apply oexists_throws. intros step.
    apply oexists_throws. exact Same.
Qed.

Lemma scanChildren_throws target depth path children e :
  forall visited queue,
    scanChildren target depth path children visited queue = Throw e ->
    isSyntaxError e.
Proof.
  induction children as [|child rest IH]; intros visited queue; simpl;
    [discriminate|].
  intros E. apply obind_Throw in E as [E|([|] & _ & E)];
    [now apply isProved_throws in E | discriminate |].
  destruct (negb (set_has visited (getSystemSignature child)));
    now apply IH in E.
Qed.

Lemma searchLoop_throws target maxDepth fuel e :
  forall queue visited iterations,
    searchLoop fuel target maxDepth queue visited iterations = Throw e ->
    isSyntaxError e.
Proof.
  induction fuel as [|fuel IH]; intros queue visited iterations E;
    [discriminate|].
  rewrite searchLoop_S in E. destruct queue as [|entry queue']; [discriminate|].
  destruct ((MAX_ITERATIONS <? iterations + 1)
            || (MAX_QUEUE_SIZE <? length (entry :: queue'))); [discriminate|].
  apply obind_Throw in E as [E|([|] & _ & E)];
    [now apply isProved_throws in E | discriminate |].
  destruct (maxDepth <=? entryDepth entry); [now apply IH in E|].
  apply obind_Throw in E as [E|(children & _ & E)].
  { destruct (expandOneLevel_returns (entrySystem entry)) as [l X]. congruence. }
  apply obind_Throw in E as [E|([res|[v q]] & _ & E)];
    [now apply scanChildren_throws in E | discriminate | now apply IH in E].
Qed.

Lemma searchForProof_throws target maxDepth this e this' :
  searchForProof target maxDepth this = (Throw e, this') ->
  isSyntaxError e /\ this' = this.
Proof.
  rewrite searchForProof_unfold. intros E.
  destruct (isProved this target) as [[|]|e0|] eqn:P.
  - apply pair_equal_spec in E as [E1 E2]. discriminate.
  - destruct (canResolveFormula this target) as [[[|] m]|e1|] eqn:C;
      apply pair_equal_spec in E as [E1 E3].
    + split; [now apply searchLoop_throws in E1 | congruence].
    + discriminate.
    + injection E1 as <-. split; [|congruence].
      unfold canResolveFormula, extractMissingFactsFromFormula in C.
      apply obind_Throw in C as [C|(a & _ & C)]; [|discriminate].
      now apply parseFormula_throws in C.
    + discriminate.
  - apply pair_equal_spec in E as [E1 E2]. injection E1 as <-.
    split; [now apply isProved_throws in P | congruence].
  - apply pair_equal_spec in E as [E1 E2]. discriminate.
Qed.

(** C2 as stated fails.  The atoms [A] and [B] of the target are facts, so
    they are all resolvable; the fact [OR] is a name by the pattern of
    atom names.  [isProved] normalizes every fact: the lexer returns the
    operator token for [OR], the parser rejects it, and the search throws
    that parse error instead of returning a result.  The fact [ORDER_OK],
    whose first two characters are lexed as that operator, has the same
    effect. *)
Lemma C2_counterexample :
  canResolveFormula (mkSystem [] [js "A"; js "B"; js "OR"] [] []) (js "B & A")
  = Ret (true, [])
  /\ searchForProof (js "B & A") 5 (mkSystem [] [js "A"; js "B"; js "OR"] [] [])
     = (Throw (ParseError
                 (ExpectedIdentifierOrLParen
                    (Some (mkToken OPERATOR (VOperator OR) 0)))
                 0 (Some (mkToken OPERATOR (VOperator OR) 0))),
        mkSystem [] [js "A"; js "B"; js "OR"] [] [])
  /\ canResolveFormula (mkSystem [] [js "A"; js "B"; js "ORDER_OK"] [] [])
                       (js "B & A")
     = Ret (true, [])
  /\ throws (fst (searchForProof (js "B & A") 5
                    (mkSystem [] [js "A"; js "B"; js "ORDER_OK"] [] [])))
  /\ ~ (forall this target maxDepth,
          canResolveFormula this target = Ret (true, []) ->
          returns (fst (searchForProof target maxDepth this))).
Proof.
  split; [vm_compute; reflexivity|]. split; [vm_compute; reflexivity|].
  split; [vm_compute; reflexivity|].
  split; [eexists; vm_compute; reflexivity|].
  intros H.
  destruct (H (mkSystem [] [js "A"; js "B"; js "OR"] [] []) (js "B & A") 5
              ltac:(vm_compute; reflexivity)) as [r R].
  vm_compute in R. discriminate R.
Qed.

(** C2, amended.  [searchForProof] never hangs, on any state, target and
    depth bound: the loop body is entered at most [MAX_ITERATIONS + 1]
    times, which the iteration counter enforces, and every parse inside
    it terminates; so the call returns a result or throws.  On a state
    whose fact and step formulas all parse and a target whose atoms are
    all resolvable it returns a result; so it does whenever the formulas
    of the state and the target parse.  It throws only when one of these
    strings does not parse: a lexical or parse error, and the state is
    left as it was.  One round of expansion always returns, with at most
    four successors per ordered pair of steps and three per step, and
    none at the step ceiling. *)
Theorem C2_search_terminates :
  (forall this target maxDepth,
      terminates (fst (searchForProof target maxDepth this)))
  /\ (forall this target maxDepth,
         parseableState this ->
         canResolveFormula this target = Ret (true, []) ->
         returns (fst (searchForProof target maxDepth this)))
  /\ (forall this target maxDepth,
         parseableState this -> parses target ->
         returns (fst (searchForProof target maxDepth this)))
  /\ (forall this target maxDepth e this',
         searchForProof target maxDepth this = (Throw e, this') ->
         isSyntaxError e /\ this' = this
         /\ ~ (parseableState this /\ parses target))
  /\ (forall target maxDepth fuel queue visited iterations,
         MAX_ITERATIONS + 1 <= iterations + fuel -> 1 <= fuel ->
         terminates (searchLoop fuel target maxDepth queue visited iterations))
  /\ (forall s,
         exists l,
           expandOneLevel s = Ret l
           /\ length l <= 4 * (length (steps s) * length (steps s))
                          + 3 * length (steps s)
           /\ (MAX_STEPS <= length (steps s) -> l = [])).
Proof.
  split; [exact (fun this target maxDepth =>
                   searchForProof_terminates target maxDepth this)|].
  split; [|split; [|split; [|split]]].
  - intros this target maxDepth C E.
    apply searchForProof_returns; [exact C|].
    unfold canResolveFormula, extractMissingFactsFromFormula in E.
    apply obind_Ret in E as (pf & P & _). now exists pf.
  - intros this target maxDepth. apply searchForProof_returns.
  - intros this target maxDepth e this' E.
    destruct (searchForProof_throws _ _ _ _ _ E) as [Y Z].
    split; [exact Y|]. split; [exact Z|]. intros [C P].
    destruct (searchForProof_returns target maxDepth this C P) as [r R].
    rewrite E in R. discriminate.
  - intros target maxDepth fuel. apply searchLoop_terminates.
  - intros s. destruct (expandOneLevel_returns s) as [l E]. exists l.
    split; [exact E|]. split; [now apply expandOneLevel_length|].
    intros H. rewrite (expandOneLevel_ceiling s H) in E. now injection E.
Qed.

Lemma C2_search_terminates_witness :
  returns (fst (searchForProof (js "~B -> (A | ~~A)") 5
                  (mkSystem [fact "A"; fact "(A ∧ A)"] [js "~B"; js "A OR  B"]
                            [] []))).
Proof.
  apply (proj1 (proj2 C2_search_terminates)).
  - split.
    + constructor; [|constructor; [|constructor]];
        eexists; vm_compute; reflexivity.
    + constructor; [|constructor; [|constructor]];
        (constructor; [|constructor]); eexists; vm_compute; reflexivity.
  - vm_compute. reflexivity.
Defined.

(** ** The tree utilities *)

(** X1.  [astEquals] decides equality of trees: it returns true on two
    trees exactly when they are the same tree. *)
Theorem X1_astEquals_decides (a b : AST) : astEquals a b = true <-> a = b.
Proof.
  split; [|intros ->; apply astEquals_refl].
  revert b. induction a as [n|o a IH|o l IHl r IHr]; intros [n'|o' a'|o' l' r'];
    simpl; try discriminate.
  - intros H. apply JsString_eqb_eq in H. now subst.
  - intros H. apply andb_true_iff in H as [Ho Ha].
    apply OperatorType_eqb_eq in Ho. apply IH in Ha. now subst.
  - intros H. apply andb_true_iff in H as [H Hr].
    apply andb_true_iff in H as [Ho Hl].
    apply OperatorType_eqb_eq in Ho. apply IHl in Hl. apply IHr in Hr.
    now subst.
Qed.

Lemma collectAtoms_normalizeAST t :
  forall atoms, collectAtoms (normalizeAST t) atoms = collectAtoms t atoms.
Proof.
  induction t as [name|inner IH|o t IH E|o l r IHl IHr] using AST_nested_ind;
    intros atoms.
  - reflexivity.
  - simpl. apply IH.
  - rewrite normalizeAST_unary by exact E. simpl. apply IH.
  - simpl. now rewrite IHl, IHr.
Qed.

Lemma countNodes_normalizeAST t : countNodes (normalizeAST t) <= countNodes t.
Proof.
  induction t as [name|inner IH|o t IH E|o l r IHl IHr] using AST_nested_ind.
  - simpl. lia.
  - simpl in *. lia.
  - rewrite normalizeAST_unary by exact E. simpl. lia.
  - simpl. lia.
Qed.

Lemma getDepth_normalizeAST t : getDepth (normalizeAST t) <= getDepth t.
Proof.
  induction t as [name|inner IH|o t IH E|o l r IHl IHr] using AST_nested_ind.
  - simpl. lia.
  - simpl in *. lia.
  - rewrite normalizeAST_unary by exact E. simpl. lia.
  - simpl. lia.
Qed.

Lemma isNegation_spec t : isNegation t = true <-> exists u, t = UnaryNode NOT u.
Proof.
  destruct t as [name|o t|o l r]; simpl.
  - split; [discriminate | intros [u H]; discriminate].
  - destruct o; split; try discriminate; try (intros [u H]; discriminate).
    + intros _. now exists t.
    + reflexivity.
  - split; [discriminate | intros [u H]; discriminate].
Qed.

Lemma normalizeAST_no_double_negation t :
  forall o x,
    In (UnaryNode o x) (preorder (normalizeAST t)) ->
    isNegation (UnaryNode o x) = true -> isNegation x = false.
Proof.
  induction t as [name|inner IH|o t IH E|o l r IHl IHr] using AST_nested_ind;
    intros o' x Hin Hneg.
  - simpl in Hin. destruct Hin as [H|[]]. discriminate.
  - simpl in Hin. now apply IH with o'.
  - rewrite normalizeAST_unary in Hin by exact E. simpl in Hin.
    destruct Hin as [H|H]; [|now apply IH with o'].
    injection H as <- <-.
    destruct (isNegation (normalizeAST t)) eqn:N; [|reflexivity].
    apply isNegation_spec in N as [u N].
    apply isNegation_spec in Hneg as [u' Hu]. injection Hu as -> _.
    exfalso. apply (normalizeAST_head t (E eq_refl) u). exact N.
  - simpl in Hin. destruct Hin as [H|H]; [discriminate|].
    apply in_app_or in H as [H|H]; [now apply IHl with o' | now apply IHr with o'].
Qed.

(** X2.  [normalizeAST] removes every double negation: in the tree it
    returns no negation is the operand of a negation.  It keeps the atoms
    [getAtoms] lists, in their order, and the tree it returns has no more
    nodes and no more depth than the one it was given. *)
Theorem X2_normalizeAST_normal_form (t : AST) :
  (forall n, In n (preorder (normalizeAST t)) ->
             isNegation n = true ->
             forall o x, n = UnaryNode o x -> isNegation x = false)
  /\ getAtoms (normalizeAST t) = getAtoms t
  /\ countNodes (normalizeAST t) <= countNodes t
  /\ getDepth (normalizeAST t) <= getDepth t.
Proof.
  split; [|split; [|split]].
  - intros n Hin Hneg o x ->.
    now apply (normalizeAST_no_double_negation t o x).
  - apply collectAtoms_normalizeAST.
  - apply countNodes_normalizeAST.
  - apply getDepth_normalizeAST.
Qed.

Lemma walkAST_preorder {S} (t : AST) (visitor : AST -> S -> S) :
  forall s, walkAST t visitor s = fold_left (fun s n => visitor n s) (preorder t) s.
Proof.
  induction t as [name|o t IH|o l IHl r IHr]; intros s; simpl.
  - reflexivity.
  - apply IH.
  - rewrite fold_left_app, IHl. apply IHr.
Qed.

Lemma preorder_length t : length (preorder t) = countNodes t.
Proof.
  induction t as [name|o t IH|o l IHl r IHr]; simpl; auto.
  rewrite length_app. lia.
Qed.

Lemma getDepth_countNodes t : 1 <= getDepth t /\ getDepth t <= countNodes t.
Proof.
  induction t as [name|o t IH|o l IHl r IHr]; simpl; lia.
Qed.

(** X3.  [walkAST] calls the visitor once on every node, the root first
    and each node before its children, the left child's nodes before the
    right child's: the calls are those of a left fold over the nodes in
    that order, and [countNodes] is their number.  The depth of a tree is
    at least 1 and at most its number of nodes. *)
Theorem X3_walkAST_visits_each_node (t : AST) :
  (forall (S : Type) (visitor : AST -> S -> S) (s : S),
      walkAST t visitor s
      = fold_left (fun s n => visitor n s) (preorder t) s)
  /\ hd_error (preorder t) = Some t
  /\ walkAST t (fun _ n => n + 1) 0 = countNodes t
  /\ 1 <= getDepth t <= countNodes t.
Proof.
  split; [intros S v s; apply walkAST_preorder|].
  split; [now destruct t|]. split; [|apply getDepth_countNodes].
  rewrite walkAST_preorder, <- preorder_length.
  generalize (preorder t) as l. intros l.
  assert (H : forall k, fold_left (fun s (_ : AST) => s + 1) l k = k + length l).
  { induction l as [|x l IH]; intros k; simpl; [lia|]. rewrite IH. lia. }
  apply H.
Qed.

(** *** Sets kept in insertion order *)

Lemma set_add_In x y s : In x (set_add y s) <-> x = y \/ In x s.
Proof.
  unfold set_add. destruct (existsb (JsString.eqb y) s) eqn:E.
  - split; [now right|]. intros [->|H]; [|exact H].
    now apply (set_has_In s y).
  - rewrite in_app_iff. simpl. split.
    + intros [H|[H|[]]]; [now right | now left].
    + intros [->|H]; [right; now left | now left].
Qed.

Lemma set_add_NoDup y s : NoDup s -> NoDup (set_add y s).
Proof.
  intros N. unfold set_add. destruct (existsb (JsString.eqb y) s) eqn:E;
    [exact N|].
  apply NoDup_app; [exact N | constructor; [intros []|constructor] |].
  intros x Hx [->|[]].
  assert (H : set_has s x = true) by now apply set_has_In.
  unfold set_has in H. congruence.
Qed.

Lemma collectAtoms_In t :
  forall atoms name,
    In name (collectAtoms t atoms)
    <-> In name atoms \/ In (AtomNode name) (preorder t).
Proof.
  induction t as [n|o t IH|o l IHl r IHr]; intros atoms name; simpl.
  - rewrite set_add_In. split.
    + intros [->|H]; [right; now left | now left].
    + intros [H|[H|[]]]; [now right | left; congruence].
  - rewrite IH. intuition discriminate.
  - rewrite IHr, IHl, in_app_iff. intuition discriminate.
Qed.

Lemma collectAtoms_NoDup t :
  forall atoms, NoDup atoms -> NoDup (collectAtoms t atoms).
Proof.
  induction t as [n|o t IH|o l IHl r IHr]; intros atoms N; simpl.
  - now apply set_add_NoDup.
  - now apply IH.
  - now apply IHr, IHl.
Qed.

(** X4.  [getAtoms] returns each name once: the names of the tree's atom
    nodes and nothing else.  A negation has the atoms of its operand. *)
Theorem X4_getAtoms_names_once (t : AST) :
  NoDup (getAtoms t)
  /\ (forall name, In name (getAtoms t) <-> In (AtomNode name) (preorder t))
  /\ getAtoms (negate t) = getAtoms t.
Proof.
  split; [apply collectAtoms_NoDup; constructor|]. split; [|reflexivity].
  intros name. unfold getAtoms. rewrite collectAtoms_In. simpl. tauto.
Qed.

(** *** Validation of a tree *)

Lemma validate_app t :
  forall path errors, validate t path errors = errors ++ validate t path [].
Proof.
  induction t as [n|o t IH|o l IHl r IHr]; intros path errors; simpl.
  - destruct n; [reflexivity | now rewrite app_nil_r].
  - apply IH.
  - rewrite IHr, IHl, (IHr _ (validate l _ [])). now rewrite app_assoc.
Qed.

Lemma validate_length t :
  forall path,
    length (validate t path [])
    = length (filter (fun n => match n with AtomNode [] => true | _ => false end)
                     (preorder t)).
Proof.
  induction t as [n|o t IH|o l IHl r IHr]; intros path; simpl.
  - now destruct n.
  - apply IH.
  - rewrite validate_app, length_app, filter_app, length_app.
    now rewrite IHl, IHr.
Qed.

Lemma wfAST_no_empty_atom t :
  wfAST t = true -> ~ In (AtomNode []) (preorder t).
Proof.
  induction t as [n|o t IH|o l IHl r IHr]; simpl; intros W.
  - intros [H|[]]. injection H as ->. discriminate.
  - apply andb_true_iff in W as [_ W]. intros [H|H]; [discriminate|].
    now apply IH.
  - apply andb_true_iff in W as [W Wr]. apply andb_true_iff in W as [_ Wl].
    intros [H|H]; [discriminate|]. apply in_app_or in H as [H|H].
    + now apply IHl.
    + now apply IHr.
Qed.

Lemma filter_nil_iff {A} (f : A -> bool) l :
  filter f l = [] <-> forall x, In x l -> f x = false.
Proof.
  induction l as [|a l IH]; simpl.
  - split; [intros _ x [] | reflexivity].
  - destruct (f a) eqn:E.
    + split; [discriminate|]. intros H. specialize (H a (or_introl eq_refl)).
      congruence.
    + rewrite IH. split.
      * intros H x [<-|Hx]; [exact E | now apply H].
      * intros H x Hx. apply H. now right.
Qed.

(** X5.  [validateAST] reports one error for each atom node whose name is
    the empty string, with the path of that node from [root], and nothing
    else; the tree is valid exactly when no atom has the empty name.
    Every tree [parseFormula] returns is valid. *)
Theorem X5_validateAST_empty_names :
  (forall t,
      length (av_errors (validateAST t))
      = length (filter (fun n => match n with AtomNode [] => true | _ => false end)
                       (preorder t))
      /\ (av_isValid (validateAST t) = true <-> ~ In [] (getAtoms t))
      /\ (av_isValid (validateAST t) = true <-> av_errors (validateAST t) = []))
  /\ (forall s pf,
         parseFormula s = Ret pf ->
         validateAST (ast pf) = mkASTValidation true [])
  /\ av_errors (validateAST
                  (BinaryNode AND (AtomNode [])
                              (UnaryNode NOT (AtomNode []))))
     = [js "Invalid atom name at root.left";
        js "Invalid atom name at root.right.operand"].
Proof.
  assert (V : forall t, av_isValid (validateAST t) = true
                        <-> av_errors (validateAST t) = []).
  { intros t. unfold validateAST. simpl. rewrite Nat.eqb_eq.
    now rewrite length_zero_iff_nil. }
  assert (E : forall t, av_errors (validateAST t) = []
                        <-> ~ In (AtomNode []) (preorder t)).
  { intros t. unfold validateAST. simpl.
    rewrite <- length_zero_iff_nil, validate_length, length_zero_iff_nil.
    rewrite filter_nil_iff. split.
    - intros H Hin. specialize (H _ Hin). discriminate.
    - intros H [[|c n]|o x|o l r] Hx; try reflexivity. now elim H. }
  split; [|split].
  - intros t. split; [apply validate_length|]. split; [|apply V].
    rewrite V, E.
    unfold getAtoms. rewrite collectAtoms_In. simpl. tauto.
  - intros s pf P. apply parseFormula_wf in P.
    apply wfAST_no_empty_atom in P. apply E in P.
    unfold validateAST in *. simpl in P. now rewrite P.
  - vm_compute. reflexivity.
Qed.

(** ** The tokens and the input *)

Lemma dispatch_token lx tok lx' :
  Lexer.dispatch lx = Ret (tok, lx') ->
  Lexer.position lx <= length (Lexer.input lx) ->
  tok_position tok = Lexer.position lx
  /\ tokenAt (Lexer.input lx) tok
  /\ Lexer.position lx' <= length (Lexer.input lx)
  /\ (tok_type tok <> EOF -> Lexer.position lx < Lexer.position lx').
Proof.
  unfold Lexer.dispatch. rewrite current_char_remaining.
  pose proof (remaining_length lx) as HL. unfold lexerLeft in HL.
  intros H Hp. unfold tokenAt.
  destruct (Lexer.remaining lx) as [|c r] eqn:R; simpl in H.
  - injection H as <- <-. simpl in *.
    repeat split; try lia. intros Hn. now elim Hn.
  - simpl in HL.
    destruct (c =? c_lparen)%N eqn:E1.
    { injection H as <- <-. simpl. apply N.eqb_eq in E1. subst c.
      change (JsString.slice (Lexer.input lx) (Lexer.position lx))
        with (Lexer.remaining lx). rewrite R. simpl.
      repeat split; try lia. }
    destruct (c =? c_rparen)%N eqn:E2.
    { injection H as <- <-. simpl. apply N.eqb_eq in E2. subst c.
      change (JsString.slice (Lexer.input lx) (Lexer.position lx))
        with (Lexer.remaining lx). rewrite R. simpl.
      repeat split; try lia. }
    destruct (Lexer.startsOperator lx) eqn:SO.
    { unfold Lexer.readOperator in H.
      destruct (find _ _) as [[op cn]|] eqn:F; [|discriminate].
      injection H as <- <-. simpl.
      apply find_some in F as [Hin Hs]. simpl in Hs.
      apply -> In_sortByLengthDesc in Hin.
      pose proof (operators_nonempty _ _ Hin) as Hn.
      pose proof (startsWith_length _ _ Hs) as Hl. rewrite R in Hl.
      simpl in Hl.
      repeat split; try lia. now exists op. }
    destruct (JsString.isLetter c) eqn:LC; [|discriminate].
    unfold Lexer.readIdentifier in H.
    rewrite current_char_remaining, R in H. simpl in H. rewrite LC in H.
    injection H as <- <-. simpl.
    change (JsString.slice (Lexer.input lx) (Lexer.position lx))
      with (Lexer.remaining lx). rewrite R. simpl.
    rewrite (letter_isIdentChar _ LC). simpl.
    pose proof (takeWhile_length JsString.isIdentChar r).
    repeat split; try lia.
    now rewrite LC, takeWhile_forallb.
Qed.

Lemma skipWhitespace_position lx :
  Lexer.position lx <= length (Lexer.input lx) ->
  Lexer.position lx <= Lexer.position (Lexer.skipWhitespace lx)
  /\ Lexer.position (Lexer.skipWhitespace lx) <= length (Lexer.input lx).
Proof.
  intros Hp. unfold Lexer.skipWhitespace. simpl.
  pose proof (takeWhile_length JsString.isWhitespace (Lexer.remaining lx)).
  pose proof (remaining_length lx). unfold lexerLeft in *. lia.
Qed.

Lemma getNextToken_token lx tok lx' :
  Lexer.getNextToken lx = Ret (tok, lx') ->
  Lexer.position lx <= length (Lexer.input lx) ->
  Lexer.position lx <= tok_position tok
  /\ tokenAt (Lexer.input lx) tok
  /\ Lexer.input lx' = Lexer.input lx
  /\ tok_position tok <= Lexer.position lx'
  /\ Lexer.position lx' <= length (Lexer.input lx)
  /\ (tok_type tok <> EOF -> tok_position tok < Lexer.position lx').
Proof.
  intros G Hp. pose proof (getNextToken_progress _ _ _ G) as (HI & _ & _).
  rewrite getNextToken_skip in G.
  destruct (skipWhitespace_position lx Hp) as [H1 H2].
  rewrite <- (skipWhitespace_input lx) in H2.
  destruct (dispatch_token _ _ _ G H2) as (A & B & C & D).
  rewrite skipWhitespace_input in *.
  split; [lia|]. split; [exact B|]. split; [exact HI|].
  split; [|split; [lia|]].
  - assert (X : Lexer.position (Lexer.skipWhitespace lx) <= Lexer.position lx').
    { apply dispatch_progress in G. lia. }
    lia.
  - intros Ht. specialize (D Ht). lia.
Qed.

Lemma tokenizeLoop_tokens fuel :
  forall lx ts,
    Lexer.tokenizeLoop fuel lx = Ret ts ->
    Lexer.position lx <= length (Lexer.input lx) ->
    Forall (tokenAt (Lexer.input lx)) ts
    /\ Forall (fun t => Lexer.position lx <= tok_position t) ts
    /\ StronglySorted lt (map tok_position ts)
    /\ (exists body eof,
           ts = body ++ [eof] /\ tok_type eof = EOF
           /\ Forall (fun t => tok_type t <> EOF) body)
    /\ length ts <= lexerLeft lx + 1.
Proof.
  induction fuel as [|fuel IH]; intros lx ts E Hp; [discriminate|].
  simpl in E.
  destruct (Lexer.getNextToken lx) as [[tok lx']| |] eqn:G; simpl in E;
    try discriminate.
  destruct (getNextToken_token _ _ _ G Hp) as (A & B & C & D & F & H).
  destruct (getNextToken_progress _ _ _ G) as (_ & _ & PR).
  destruct (tok_type tok) eqn:Ty.
  5:{ injection E as <-. repeat split.
      - now constructor.
      - now constructor.
      - simpl. constructor; constructor.
      - exists [], tok. now repeat split.
      - simpl. lia. }
  all: destruct (Lexer.tokenizeLoop fuel lx') as [ts'| |] eqn:E'; simpl in E;
    try discriminate; injection E as <-;
    rewrite <- C in F;
    destruct (IH _ _ E' F) as (I1 & I2 & I3 & (body & eof & -> & He & Hb) & I5);
    rewrite C in I1;
    assert (Hd : tok_position tok < Lexer.position lx')
      by (apply H; discriminate);
    assert (Hl : lexerLeft lx' < lexerLeft lx) by (apply PR; discriminate);
    (repeat split;
     [ now constructor
     | constructor; [exact A|];
       revert I2; apply Forall_impl; intros t Ht; lia
     | simpl; constructor; [exact I3|];
       apply Forall_map; revert I2; apply Forall_impl; intros t Ht; lia
     | exists (tok :: body), eof; repeat split; auto;
       constructor; [rewrite Ty; discriminate | exact Hb]
     | simpl; lia ]).
Qed.

(** X6.  The tokens [tokenize] returns are those of the trimmed input,
    from left to right: their positions increase strictly, each token is
    in the input at its position (a parenthesis, an alias of its operator,
    or the longest run of identifier characters, which begins with a
    letter), the last token is the end token, at the length of the
    trimmed input, and no other token is an end token.  There are never
    more tokens than characters, plus one. *)
Theorem X6_tokenize_positions (s : jsstring) (ts : list Token) :
  Lexer.tokenize s = Ret ts ->
  StronglySorted lt (map tok_position ts)
  /\ Forall (tokenAt (JsString.trim s)) ts
  /\ (exists body eof,
         ts = body ++ [eof] /\ tok_type eof = EOF
         /\ tok_position eof = length (JsString.trim s)
         /\ Forall (fun t => tok_type t <> EOF) body)
  /\ length ts <= length (JsString.trim s) + 1.
Proof.
  intros E. unfold Lexer.tokenize, Lexer.tokenizeAll in E.
  apply tokenizeLoop_tokens in E; [|simpl; lia].
  destruct E as (A & _ & C & (body & eof & -> & He & Hb) & F).
  simpl in A, F. unfold lexerLeft in F. simpl in F.
  repeat split; try assumption; [|lia].
  exists body, eof. repeat split; try assumption.
  apply Forall_app in A as [_ A]. apply Forall_inv in A.
  unfold tokenAt in A. rewrite He in A.
  destruct (tok_value eof); try contradiction. exact A.
Qed.

Lemma X6_tokenize_positions_witness :
  exists ts,
    Lexer.tokenize (js " (A <-> ~B1) IMPLIES x_2 ") = Ret ts
    /\ StronglySorted lt (map tok_position ts)
    /\ length ts <= length (JsString.trim (js " (A <-> ~B1) IMPLIES x_2 ")) + 1.
Proof.
  eexists. split; [vm_compute; reflexivity|].
  destruct (X6_tokenize_positions (js " (A <-> ~B1) IMPLIES x_2 ") _
              ltac:(vm_compute; reflexivity)) as (A & _ & _ & B).
  split; [exact A | exact B].
Defined.

(** ** Whitespace around a formula *)

Lemma forallb_rev {A} (f : A -> bool) l : forallb f (rev l) = forallb f l.
Proof.
  induction l as [|x l IH]; simpl; [reflexivity|].
  rewrite forallb_app, IH. simpl. rewrite andb_true_r. apply andb_comm.
Qed.

Lemma trim_surrounded w1 s w2 :
  forallb JsString.isWhitespace w1 = true ->
  forallb JsString.isWhitespace w2 = true ->
  JsString.trim (w1 ++ s ++ w2) = JsString.trim s.
Proof.
  intros H1 H2. unfold JsString.trim. rewrite dropWhile_app_all by exact H1.
  destruct (JsString.dropWhile JsString.isWhitespace s) as [|c d] eqn:D.
  - apply dropWhile_nil in D.
    rewrite (dropWhile_all _ (s ++ w2)); [reflexivity|].
    rewrite forallb_app. now rewrite D, H2.
  - rewrite dropWhile_app_some by congruence. rewrite D.
    rewrite rev_app_distr, dropWhile_app_all; [reflexivity|].
    now rewrite forallb_rev.
Qed.

Lemma trim_blank w :
  forallb JsString.isWhitespace w = true -> JsString.trim w = [].
Proof.
  intros H. unfold JsString.trim. rewrite (dropWhile_all _ w) by exact H.
  reflexivity.
Qed.

(** X7.  Whitespace before and after a formula string is ignored: the
    tokens, with their positions, the tree, the error if there is one,
    and the canonical string are those of the string without it. *)
Theorem X7_surrounding_whitespace (w1 s w2 : jsstring) :
  forallb JsString.isWhitespace w1 = true ->
  forallb JsString.isWhitespace w2 = true ->
  Lexer.tokenize (w1 ++ s ++ w2) = Lexer.tokenize s
  /\ parseFormulaFromString (w1 ++ s ++ w2) = parseFormulaFromString s
  /\ normalizeFormula (w1 ++ s ++ w2) = normalizeFormula s
  /\ extractFormulaAtoms (w1 ++ s ++ w2) = extractFormulaAtoms s.
Proof.
  intros H1 H2.
  assert (T : Lexer.tokenize (w1 ++ s ++ w2) = Lexer.tokenize s).
  { unfold Lexer.tokenize, Lexer.new. now rewrite trim_surrounded. }
  assert (P : parseFormulaFromString (w1 ++ s ++ w2) = parseFormulaFromString s).
  { unfold parseFormulaFromString. now rewrite T. }
  split; [exact T|]. split; [exact P|].
  unfold normalizeFormula, extractFormulaAtoms, parseFormula. rewrite P.
  split; now destruct (parseFormulaFromString s).
Qed.

Lemma X7_surrounding_whitespace_witness :
  normalizeFormula (js "   A & B  ") = normalizeFormula (js "A & B").
Proof.
  apply (X7_surrounding_whitespace (js "   ") (js "A & B") (js "  "));
    reflexivity.
Defined.

(** X8.  A string that is empty or holds nothing but whitespace has the
    end token at position 0 as its only token, and does not parse: the
    parser raises its expected-identifier error at position 0, on that
    token.  [isProved] called with such a target raises that error in
    every state, whatever its facts and steps: the target is parsed
    before any of them is looked at. *)
Theorem X8_blank_input (w : jsstring) :
  forallb JsString.isWhitespace w = true ->
  Lexer.tokenize w = Ret [mkToken EOF VNull 0]
  /\ parseFormulaFromString w
     = Throw (ParseError
                (ExpectedIdentifierOrLParen (Some (mkToken EOF VNull 0)))
                0 (Some (mkToken EOF VNull 0)))
  /\ forall this,
       isProved this w
       = Throw (ParseError
                  (ExpectedIdentifierOrLParen (Some (mkToken EOF VNull 0)))
                  0 (Some (mkToken EOF VNull 0))).
Proof.
  intros H.
  assert (T : Lexer.tokenize w = Ret [mkToken EOF VNull 0]).
  { unfold Lexer.tokenize, Lexer.new. now rewrite trim_blank. }
  assert (P : parseFormulaFromString w
              = Throw (ParseError
                         (ExpectedIdentifierOrLParen (Some (mkToken EOF VNull 0)))
                         0 (Some (mkToken EOF VNull 0)))).
  { unfold parseFormulaFromString. rewrite T. reflexivity. }
  split; [exact T|]. split; [exact P|]. intros this.
  unfold isProved, normalizeFormula, parseFormula. now rewrite P.
Qed.

Lemma X8_blank_input_witness :
  Lexer.tokenize (js "  ") = Ret [mkToken EOF VNull 0]
  /\ isProved (mkSystem [fact "A -> B"] [js "is-admin"; js "A"] [] [])
              (js "  ")
     = Throw (ParseError
                (ExpectedIdentifierOrLParen (Some (mkToken EOF VNull 0)))
                0 (Some (mkToken EOF VNull 0))).
Proof.
  destruct (X8_blank_input (js "  ") eq_refl) as (T & _ & P).
  split; [exact T | apply P].
Defined.

(** ** The parser reads types and values, not positions *)

Lemma sameRest_current p q :
  sameRest p q ->
  option_map kindOf (Parser.currentToken p)
  = option_map kindOf (Parser.currentToken q).
Proof.
  unfold sameRest. rewrite !currentToken_rest.
  destruct (parserRest p), (parserRest q); simpl; try discriminate;
    [reflexivity|]. intros H. unfold kindOf in *. congruence.
Qed.

Lemma sameRest_match p q ty v :
  sameRest p q -> Parser.match_ p ty v = Parser.match_ q ty v.
Proof.
  intros H. apply sameRest_current in H. unfold Parser.match_.
  destruct (Parser.currentToken p) as [a|], (Parser.currentToken q) as [b|];
    simpl in H; try discriminate; [|reflexivity].
  unfold kindOf in H. injection H as H1 H2. now rewrite H1, H2.
Qed.

Lemma sameRest_advance p q :
  sameRest p q -> sameRest (Parser.advance p) (Parser.advance q).
Proof.
  unfold sameRest. rewrite !parserRest_advance. intros H.
  destruct (parserRest p), (parserRest q); simpl in *; try discriminate;
    [reflexivity|]. now injection H.
Qed.

Lemma agree_bind a b (f g : AST * Parser.t -> Outcome (AST * Parser.t)) :
  agree a b ->
  (forall t p q, sameRest p q -> agree (f (t, p)) (g (t, q))) ->
  agree (obind a f) (obind b g).
Proof.
  destruct a as [[t p]| |], b as [[t' q]| |]; simpl; try contradiction;
    try (intros; exact I).
  intros [-> H] F. now apply F.
Qed.

Lemma agree_loop op operand create :
  (forall p q, sameRest p q -> agree (operand p) (operand q)) ->
  forall fuel l p q,
    sameRest p q ->
    agree (Parser.parseLeftAssoc fuel op operand create l p)
          (Parser.parseLeftAssoc fuel op operand create l q).
Proof.
  intros Hop. induction fuel as [|fuel IH]; intros l p q H; [exact I|].
  rewrite !parseLeftAssoc_S, (sameRest_match p q _ _ H).
  destruct (Parser.match_ q OPERATOR (Some (VOperator op))).
  - apply agree_bind; [apply Hop; now apply sameRest_advance|].
    intros t p1 q1 H1. now apply IH.
  - simpl. now split.
Qed.

Lemma agree_consume p q ty v m :
  sameRest p q ->
  match Parser.consume p ty v m, Parser.consume q ty v m with
  | Ret (_, p'), Ret (_, q') => sameRest p' q'
  | Throw _, Throw _ => True
  | _, _ => False
  end.
Proof.
  intros H. unfold Parser.consume. rewrite (sameRest_match p q _ _ H).
  pose proof (sameRest_current _ _ H) as C.
  destruct (Parser.currentToken p), (Parser.currentToken q); simpl in C;
    try discriminate; [|exact I].
  destruct (Parser.match_ q ty (Some (VString v))); [|exact I].
  now apply sameRest_advance.
Qed.

Lemma parser_agrees fuel :
  forall p q,
    sameRest p q ->
    agree (Parser.parseEquivalence fuel p) (Parser.parseEquivalence fuel q)
    /\ agree (Parser.parseImplication fuel p) (Parser.parseImplication fuel q)
    /\ agree (Parser.parseDisjunction fuel p) (Parser.parseDisjunction fuel q)
    /\ agree (Parser.parseConjunction fuel p) (Parser.parseConjunction fuel q)
    /\ agree (Parser.parseNegation fuel p) (Parser.parseNegation fuel q)
    /\ agree (Parser.parsePrimary fuel p) (Parser.parsePrimary fuel q).
Proof.
  induction fuel as [|fuel IH]; intros p q H.
  { repeat split; exact I. }
  assert (IE : forall p q, sameRest p q ->
             agree (Parser.parseEquivalence fuel p) (Parser.parseEquivalence fuel q))
    by (intros a b X; apply (IH a b X)).
  assert (II : forall p q, sameRest p q ->
             agree (Parser.parseImplication fuel p) (Parser.parseImplication fuel q))
    by (intros a b X; apply (IH a b X)).
  assert (ID : forall p q, sameRest p q ->
             agree (Parser.parseDisjunction fuel p) (Parser.parseDisjunction fuel q))
    by (intros a b X; apply (IH a b X)).
  assert (IC : forall p q, sameRest p q ->
             agree (Parser.parseConjunction fuel p) (Parser.parseConjunction fuel q))
    by (intros a b X; apply (IH a b X)).
  assert (IN : forall p q, sameRest p q ->
             agree (Parser.parseNegation fuel p) (Parser.parseNegation fuel q))
    by (intros a b X; apply (IH a b X)).
  assert (IP : forall p q, sameRest p q ->
             agree (Parser.parsePrimary fuel p) (Parser.parsePrimary fuel q))
    by (intros a b X; apply (IH a b X)).
  split; [|split; [|split; [|split; [|split]]]].
  - rewrite !parseEquivalence_S. apply agree_bind; [now apply II|].
    intros t p1 q1 H1. now apply agree_loop.
  - rewrite !parseImplication_S. apply agree_bind; [now apply ID|].
    intros t p1 q1 H1. rewrite (sameRest_match p1 q1 _ _ H1).
    destruct (Parser.match_ q1 OPERATOR (Some (VOperator IMPLIES))).
    + apply agree_bind; [apply II; now apply sameRest_advance|].
      intros t2 p2 q2 H2. simpl. now split.
    + simpl. now split.
  - rewrite !parseDisjunction_S. apply agree_bind; [now apply IC|].
    intros t p1 q1 H1. now apply agree_loop.
  - rewrite !parseConjunction_S. apply agree_bind; [now apply IN|].
    intros t p1 q1 H1. now apply agree_loop.
  - rewrite !parseNegation_S, (sameRest_match p q _ _ H).
    destruct (Parser.match_ q OPERATOR (Some (VOperator NOT))).
    + apply agree_bind; [apply IN; now apply sameRest_advance|].
      intros t2 p2 q2 H2. simpl. now split.
    + now apply IP.
  - rewrite !parsePrimary_S, !(sameRest_match p q _ _ H).
    destruct (Parser.match_ q LPAREN None).
    + apply agree_bind; [apply IE; now apply sameRest_advance|].
      intros t p1 q1 H1.
      pose proof (agree_consume p1 q1 RPAREN [c_rparen]
                    (Some (js "Expected ')' after expression")) H1) as C.
      destruct (Parser.consume p1 _ _ _) as [[k1 p2]| |],
               (Parser.consume q1 _ _ _) as [[k2 q2]| |];
        simpl; try contradiction; try exact I. now split.
    + destruct (Parser.match_ q IDENTIFIER None); [|exact I].
      pose proof (sameRest_current _ _ H) as C.
      destruct (Parser.currentToken p) as [[ty v pos]|],
               (Parser.currentToken q) as [[ty' v' pos']|];
        simpl in C; try discriminate; [|exact I].
      unfold kindOf in C. simpl in C. injection C as _ ->.
      destruct v'; try exact I. simpl. split; [reflexivity|].
      now apply sameRest_advance.
Qed.

Lemma parse_agrees ts ts' :
  map kindOf ts = map kindOf ts' ->
  match Parser.parse (Parser.new ts), Parser.parse (Parser.new ts') with
  | Ret t, Ret t' => t = t'
  | Throw _, Throw _ => True
  | Diverge, Diverge => True
  | _, _ => False
  end.
Proof.
  intros K. unfold Parser.parse.
  assert (L : Parser.fuelFor (Parser.tokens (Parser.new ts))
              = Parser.fuelFor (Parser.tokens (Parser.new ts'))).
  { unfold Parser.fuelFor. simpl.
    now rewrite <- (length_map kindOf ts), K, length_map. }
  rewrite L.
  destruct (parser_agrees (Parser.fuelFor (Parser.tokens (Parser.new ts')))
              (Parser.new ts) (Parser.new ts') K) as (A & _).
  destruct (Parser.parseEquivalence _ (Parser.new ts)) as [[t p]| |],
           (Parser.parseEquivalence _ (Parser.new ts')) as [[t' q]| |];
    simpl in *; try contradiction; try exact I.
  destruct A as [-> A]. apply sameRest_current in A.
  destruct (Parser.currentToken p) as [a|], (Parser.currentToken q) as [b|];
    simpl in A; try discriminate; [|reflexivity].
  unfold kindOf in A. injection A as A _. rewrite A.
  now destruct (tok_type b).
Qed.

(** X9.  The parser reads the types and values of the tokens and never
    their positions: two formula strings whose tokens agree in type and
    value, whatever the spacing and whichever aliases of the operators
    they are written with, have the same tree and the same canonical
    string, or both fail to parse. *)
Theorem X9_spelling_is_irrelevant (s s' : jsstring) (ts ts' : list Token) :
  Lexer.tokenize s = Ret ts -> Lexer.tokenize s' = Ret ts' ->
  map kindOf ts = map kindOf ts' ->
  (forall t, parseFormulaFromString s = Ret t
             <-> parseFormulaFromString s' = Ret t)
  /\ (forall n, normalizeFormula s = Ret n <-> normalizeFormula s' = Ret n)
  /\ (throws (parseFormulaFromString s) <-> throws (parseFormulaFromString s')).
Proof.
  intros T T' K. pose proof (parse_agrees ts ts' K) as A.
  assert (P : forall t, parseFormulaFromString s = Ret t
                        <-> parseFormulaFromString s' = Ret t).
  { intros t. unfold parseFormulaFromString. rewrite T, T'. simpl.
    destruct (Parser.parse (Parser.new ts)), (Parser.parse (Parser.new ts'));
      try contradiction; split; intros H; try discriminate; congruence. }
  split; [exact P|]. split.
  - intros n. unfold normalizeFormula, parseFormula.
    destruct (parseFormulaFromString s) as [t| |].
    + now rewrite (proj1 (P t) eq_refl).
    + destruct (parseFormulaFromString s') as [t'| |]; simpl;
        try (split; discriminate).
      pose proof (proj2 (P t') eq_refl). discriminate.
    + destruct (parseFormulaFromString s') as [t'| |]; simpl;
        try (split; discriminate).
      pose proof (proj2 (P t') eq_refl). discriminate.
  - unfold parseFormulaFromString, throws. rewrite T, T'. simpl.
    destruct (Parser.parse (Parser.new ts)), (Parser.parse (Parser.new ts'));
      try contradiction; split; intros [x H]; try discriminate; now eexists.
Qed.

Lemma X9_spelling_is_irrelevant_witness :
  throws (parseFormulaFromString (js "A&B->~C"))
  <-> throws (parseFormulaFromString (js "A AND  B IMPLIES NOT C")).
Proof.
  apply (X9_spelling_is_irrelevant
           (js "A&B->~C") (js "A AND  B IMPLIES NOT C")
           [mkToken IDENTIFIER (VString (js "A")) 0;
            mkToken OPERATOR (VOperator AND) 1;
            mkToken IDENTIFIER (VString (js "B")) 2;
            mkToken OPERATOR (VOperator IMPLIES) 3;
            mkToken OPERATOR (VOperator NOT) 5;
            mkToken IDENTIFIER (VString (js "C")) 6;
            mkToken EOF VNull 7]
           [mkToken IDENTIFIER (VString (js "A")) 0;
            mkToken OPERATOR (VOperator AND) 2;
            mkToken IDENTIFIER (VString (js "B")) 7;
            mkToken OPERATOR (VOperator IMPLIES) 9;
            mkToken OPERATOR (VOperator NOT) 17;
            mkToken IDENTIFIER (VString (js "C")) 21;
            mkToken EOF VNull 22]);
    vm_compute; reflexivity.
Defined.

(** ** Where a parse error points *)

Lemma sorted_index l :
  forall a i x,
    StronglySorted lt (map tok_position (a :: l)) ->
    nth_error (a :: l) i = Some x ->
    tok_position a + i <= tok_position x.
Proof.
  induction l as [|b l IH]; intros a i x S N.
  - destruct i as [|[|i]]; simpl in N; try discriminate.
    injection N as <-. lia.
  - destruct i as [|i]; simpl in N; [injection N as <-; lia|].
    simpl in S. inversion S as [|? ? S' F]; subst.
    apply Forall_inv in F. specialize (IH b i x S' N). lia.
Qed.

Lemma firstn_snoc {A} (l : list A) :
  forall k x, nth_error l k = Some x -> firstn (k + 1) l = firstn k l ++ [x].
Proof.
  induction l as [|a l IH]; intros [|k] x N; simpl in *; try discriminate.
  - now injection N as <-.
  - f_equal. now apply IH.
Qed.

Lemma goodParser_current ts p :
  lexerTokens ts -> goodParser ts p ->
  exists tok,
    Parser.currentToken p = Some tok /\ In tok ts
    /\ Parser.errorPosition p = tok_position tok.
Proof.
  intros (_ & S & body & eof & E & He) [T G].
  unfold Parser.currentToken, Parser.errorPosition, Parser.currentToken.
  rewrite T. destruct (nth_error ts (Parser.position p)) as [tok|] eqn:N.
  - exists tok. split; [reflexivity|]. split; [now apply nth_error_In in N|].
    destruct (tok_position tok =? 0) eqn:Z; [|reflexivity].
    apply Nat.eqb_eq in Z. destruct ts as [|a l]; [now destruct (Parser.position p)|].
    pose proof (sorted_index l a _ _ S N). lia.
  - exfalso. apply nth_error_None in N. subst ts.
    rewrite firstn_all2 in G by exact N.
    apply Forall_app in G as [_ G]. apply Forall_inv in G. contradiction.
Qed.

Lemma goodParser_advance ts p ty v :
  goodParser ts p -> Parser.match_ p ty v = true -> ty <> EOF ->
  goodParser ts (Parser.advance p).
Proof.
  intros [T G] M Hty. split; [exact T|]. simpl.
  apply match_current in M as (tok & C & Ht & _).
  unfold Parser.currentToken in C. rewrite T in C.
  rewrite (firstn_snoc _ _ _ C). apply Forall_app. split; [exact G|].
  constructor; [congruence|constructor].
Qed.

Lemma consume_locates ts p ty v m :
  lexerTokens ts -> goodParser ts p -> ty <> EOF ->
  (forall e, Parser.consume p ty v (Some m) = Throw e -> errorAt ts e)
  /\ (forall tok p', Parser.consume p ty v (Some m) = Ret (tok, p') ->
                     goodParser ts p').
Proof.
  intros L G Hty. destruct (goodParser_current ts p L G) as (tok & C & I & EP).
  unfold Parser.consume. rewrite C.
  destruct (Parser.match_ p ty (Some (VString v))) eqn:M; split.
  - discriminate.
  - intros k p' H. injection H as _ <-. now apply goodParser_advance with ty (Some (VString v)).
  - intros e H. injection H as <-. rewrite EP. now exists (Message m), tok.
  - discriminate.
Qed.

Lemma locates_loop op operand create :
  locates operand ->
  forall fuel l, locates (Parser.parseLeftAssoc fuel op operand create l).
Proof.
  intros Hop. induction fuel as [|fuel IH]; intros l ts p L G;
    [split; discriminate|].
  rewrite parseLeftAssoc_S.
  destruct (Parser.match_ p OPERATOR (Some (VOperator op))) eqn:M.
  - assert (G1 : goodParser ts (Parser.advance p))
      by (apply goodParser_advance with OPERATOR (Some (VOperator op));
          auto; discriminate).
    destruct (Hop ts _ L G1) as [HT HR]. split.
    + intros e E. apply obind_Throw in E as [E|([r q] & E1 & E2)];
        [now apply HT|].
      now apply (IH (create l r) ts q L (HR _ _ E1)).
    + intros t p' E. apply obind_Ret in E as ([r q] & E1 & E2).
      now apply (IH (create l r) ts q L (HR _ _ E1)) with t.
  - split; [discriminate|]. intros t p' E. now injection E as <- <-.
Qed.

Lemma parser_locates fuel :
  locates (Parser.parseEquivalence fuel)
  /\ locates (Parser.parseImplication fuel)
  /\ locates (Parser.parseDisjunction fuel)
  /\ locates (Parser.parseConjunction fuel)
  /\ locates (Parser.parseNegation fuel)
  /\ locates (Parser.parsePrimary fuel).
Proof.
  induction fuel as [|fuel (IE & II & ID & IC & IN & IP)].
  { split; [|split; [|split; [|split; [|split]]]]; intros ts p L G;
      split; discriminate. }
  assert (Level : forall sub op create,
             locates sub ->
             locates (fun p => '(l, p1) <- sub p ;;
                               Parser.parseLeftAssoc fuel op sub create l p1)).
  { intros sub op create Hs ts p L G. destruct (Hs ts p L G) as [HT HR]. split.
    - intros e E. apply obind_Throw in E as [E|([l q] & E1 & E2)];
        [now apply HT|].
      now apply (locates_loop op sub create Hs fuel l ts q L (HR _ _ E1)).
    - intros t p' E. apply obind_Ret in E as ([l q] & E1 & E2).
      now apply (locates_loop op sub create Hs fuel l ts q L (HR _ _ E1)) with t. }
  split; [|split; [|split; [|split; [|split]]]].
  - exact (Level _ IFF createEquivalence II).
  - intros ts p L G. rewrite parseImplication_S.
    destruct (ID ts p L G) as [HT HR]. split.
    + intros e E. apply obind_Throw in E as [E|([l q] & E1 & E2)];
        [now apply HT|].
      destruct (Parser.match_ q OPERATOR (Some (VOperator IMPLIES))) eqn:M;
        [|discriminate].
      apply obind_Throw in E2 as [E2|([r q2] & _ & E3)]; [|discriminate].
      assert (G1 : goodParser ts (Parser.advance q)).
      { apply goodParser_advance with OPERATOR (Some (VOperator IMPLIES));
          auto; [now apply HR with l | discriminate]. }
      now apply (II ts _ L G1).
    + intros t p' E. apply obind_Ret in E as ([l q] & E1 & E2).
      destruct (Parser.match_ q OPERATOR (Some (VOperator IMPLIES))) eqn:M.
      * apply obind_Ret in E2 as ([r q2] & E2 & E3). injection E3 as _ <-.
        assert (G1 : goodParser ts (Parser.advance q)).
        { apply goodParser_advance with OPERATOR (Some (VOperator IMPLIES));
            auto; [now apply HR with l | discriminate]. }
        now apply (II ts _ L G1) with r.
      * injection E2 as _ <-. now apply HR with l.
  - exact (Level _ OR createDisjunction IC).
  - exact (Level _ AND createConjunction IN).
  - intros ts p L G. rewrite parseNegation_S.
    destruct (Parser.match_ p OPERATOR (Some (VOperator NOT))) eqn:M.
    + assert (G1 : goodParser ts (Parser.advance p))
        by (apply goodParser_advance with OPERATOR (Some (VOperator NOT));
            auto; discriminate).
      destruct (IN ts _ L G1) as [HT HR]. split.
      * intros e E. apply obind_Throw in E as [E|([r q] & _ & E2)];
          [now apply HT | discriminate].
      * intros t p' E. apply obind_Ret in E as ([r q] & E1 & E2).
        injection E2 as _ <-. now apply HR with r.
    + now apply IP.
  - intros ts p L G. rewrite parsePrimary_S.
    destruct (goodParser_current ts p L G) as (tok & C & I & EP).
    destruct (Parser.match_ p LPAREN None) eqn:M1.
    + assert (G1 : goodParser ts (Parser.advance p))
        by (apply goodParser_advance with LPAREN None; auto; discriminate).
      destruct (IE ts _ L G1) as [HT HR]. split.
      * intros e E. apply obind_Throw in E as [E|([r q] & E1 & E2)];
          [now apply HT|].
        apply obind_Throw in E2 as [E2|([k q2] & _ & E3)]; [|discriminate].
        destruct (consume_locates ts q RPAREN [c_rparen]
                    (js "Expected ')' after expression") L (HR _ _ E1))
          as [CT _]; [discriminate|]. now apply CT.
      * intros t p' E. apply obind_Ret in E as ([r q] & E1 & E2).
        apply obind_Ret in E2 as ([k q2] & E2 & E3). injection E3 as _ <-.
        destruct (consume_locates ts q RPAREN [c_rparen]
                    (js "Expected ')' after expression") L (HR _ _ E1))
          as [_ CR]; [discriminate|]. now apply CR with k.
    + destruct (Parser.match_ p IDENTIFIER None) eqn:M2.
      * rewrite C.
        assert (OK : tokenOK tok).
        { destruct L as (OK & _). now apply (proj1 (Forall_forall _ _) OK). }
        pose proof (match_current _ _ _ M2) as (tok' & C' & Ht & _).
        rewrite C in C'. injection C' as <-.
        unfold tokenOK in OK. rewrite Ht in OK. destruct OK as (name & Hv & _).
        destruct tok as [ty v pos]. simpl in Hv. subst v. split; [discriminate|].
        intros t p' E. injection E as _ <-.
        apply goodParser_advance with IDENTIFIER None; auto. discriminate.
      * split; [|discriminate]. intros e E. injection E as <-.
        rewrite EP, C. now exists (ExpectedIdentifierOrLParen (Some tok)), tok.
Qed.

Lemma tokenize_lexerTokens s ts :
  Lexer.tokenize s = Ret ts ->
  lexerTokens ts
  /\ Forall (tokenAt (JsString.trim s)) ts
  /\ Forall (fun t => tok_position t <= length (JsString.trim s)) ts.
Proof.
  intros E. pose proof (tokenize_tokenOK _ _ E) as OK.
  unfold Lexer.tokenize, Lexer.tokenizeAll in E.
  apply tokenizeLoop_tokens in E; [|simpl; lia].
  destruct E as (A & _ & C & (body & eof & -> & He & Hb) & _). simpl in A.
  split; [|split; [exact A|]].
  - split; [exact OK|]. split; [exact C|]. now exists body, eof.
  - assert (Le : tok_position eof = length (JsString.trim s)).
    { apply Forall_app in A as [_ A]. apply Forall_inv in A.
      unfold tokenAt in A. rewrite He in A.
      destruct (tok_value eof); try contradiction. exact A. }
    rewrite map_app in C. simpl in C.
    apply Forall_app. split; [|constructor; [lia|constructor]].
    clear - C Le. induction body as [|b body IH]; [constructor|].
    simpl in C. inversion C as [|? ? S F]; subst. constructor.
    + apply Forall_app in F as [_ F]. apply Forall_inv in F. lia.
    + now apply IH.
Qed.

(** X10.  What [parseFormulaFromString] raises, when it raises, is one of
    two errors.  The lexer's: on a character of the trimmed input that is
    not whitespace, a parenthesis or a letter and starts no operator
    alias, with the position of that character.  Or the parser's: on one
    of the tokens, which the error carries together with the position of
    that token in the trimmed input, whatever that position is. *)
Theorem X10_errors_are_positioned (s : jsstring) (e : Error) :
  parseFormulaFromString s = Throw e ->
  (exists c pos,
      e = UnexpectedCharacter c pos /\ unlexableAt (JsString.trim s) pos c)
  \/ (exists ts,
         Lexer.tokenize s = Ret ts
         /\ errorAt ts e
         /\ exists m tok,
              e = ParseError m (tok_position tok) (Some tok)
              /\ tokenAt (JsString.trim s) tok
              /\ tok_position tok <= length (JsString.trim s)).
Proof.
  unfold parseFormulaFromString. intros E.
  apply obind_Throw in E as [E|(ts & E1 & E2)].
  - left. apply tokenizeLoop_throws in E as (pos & c & -> & U).
    now exists c, pos.
  - right. exists ts. split; [exact E1|].
    destruct (tokenize_lexerTokens _ _ E1) as (L & A & B).
    assert (G0 : goodParser ts (Parser.new ts)) by (split; [reflexivity|constructor]).
    assert (EA : errorAt ts e).
    { unfold Parser.parse in E2.
      destruct (parser_locates (Parser.fuelFor (Parser.tokens (Parser.new ts))))
        as (IE & _).
      destruct (IE ts _ L G0) as [HT HR].
      apply obind_Throw in E2 as [E2|([t p'] & E3 & E4)]; [now apply HT|].
      destruct (HR _ _ E3) as [T _].
      destruct (Parser.currentToken p') as [tok|] eqn:C; [|discriminate].
      assert (I : In tok ts).
      { unfold Parser.currentToken in C. rewrite T in C.
        now apply nth_error_In in C. }
      destruct (tok_type tok); try discriminate; injection E4 as <-;
        now exists (UnexpectedTokenAfterFormula tok), tok. }
    split; [exact EA|]. destruct EA as (m & tok & -> & I & _).
    exists m, tok. split; [reflexivity|].
    split; [now apply (proj1 (Forall_forall _ _) A)
           | now apply (proj1 (Forall_forall _ _) B)].
Qed.

Lemma X10_errors_are_positioned_witness :
  exists ts,
    Lexer.tokenize (js "  (A ∧ B") = Ret ts
    /\ errorAt ts (ParseError (Message (js "Expected ')' after expression")) 6
                              (Some (mkToken EOF VNull 6))).
Proof.
  destruct (X10_errors_are_positioned (js "  (A ∧ B")
              (ParseError (Message (js "Expected ')' after expression")) 6
                          (Some (mkToken EOF VNull 6)))
              ltac:(vm_compute; reflexivity))
    as [(c & pos & H & _)|(ts & T & EA & _)]; [discriminate|].
  exists ts. split; [exact T | exact EA].
Defined.

(** ** Checking the syntax of a string *)

Lemma filter_body body eof :
  tok_type eof = EOF -> Forall (fun t => tok_type t <> EOF) body ->
  filter (fun t => negb (isEOF t)) (body ++ [eof]) = body.
Proof.
  intros He Hb. rewrite filter_app. simpl. unfold isEOF at 2. rewrite He. simpl.
  rewrite app_nil_r. induction Hb as [|b body Hx Hb IH]; [reflexivity|].
  simpl. rewrite IH. unfold isEOF. now destruct (tok_type b).
Qed.

(** X11.  [validateFormulaSyntax] and [getParseInfo] never raise: they
    return an object for every string.  Both say yes exactly on the
    strings that parse; then there is no error, [getParseInfo] holds the
    tree as the parser built it and the tokens of the lexer without the
    end token.  Otherwise each holds one error, and [getParseInfo] no
    token and no tree, even when the string could be tokenized;
    [validateFormulaSyntax] gives a position exactly when the string
    could be tokenized, and none for a character the lexer rejects. *)
Theorem X11_syntax_check_never_raises (s : jsstring) :
  exists v i,
    validateFormulaSyntax s = Ret v /\ getParseInfo s = Ret i
    /\ sv_isValid v = pi_success i
    /\ (sv_isValid v = true <-> returns (parseFormulaFromString s))
    /\ (sv_isValid v = true ->
        sv_errors v = [] /\ sv_position v = None /\ pi_errors i = []
        /\ exists t eof,
             parseFormulaFromString s = Ret t /\ pi_ast i = Some t
             /\ Lexer.tokenize s = Ret (pi_tokens i ++ [eof]))
    /\ (sv_isValid v = false ->
        length (sv_errors v) = 1 /\ length (pi_errors i) = 1
        /\ pi_tokens i = [] /\ pi_ast i = None
        /\ (sv_position v <> None <-> returns (Lexer.tokenize s))).
Proof.
  pose proof (parseFormulaFromString_terminates s) as T.
  unfold validateFormulaSyntax, getParseInfo.
  unfold parseFormulaFromString in *.
  destruct (Lexer.tokenize s) as [ts|e|] eqn:L; simpl in *.
  - destruct (tokenize_lexerTokens _ _ L) as ((OK & _ & _) & _).
    pose proof L as L'. unfold Lexer.tokenize, Lexer.tokenizeAll in L'.
    apply tokenizeLoop_tokens in L'; [|simpl; lia].
    destruct L' as (_ & _ & _ & (body & eof & -> & He & Hb) & _).
    destruct (Parser.parse (Parser.new (body ++ [eof]))) as [t|e|] eqn:P.
    + eexists _, _. split; [reflexivity|]. split; [reflexivity|]. simpl.
      split; [reflexivity|]. split; [split; [now eexists | reflexivity]|].
      split; [|discriminate]. intros _.
      repeat (split; [reflexivity|]). exists t, eof.
      rewrite filter_body by assumption. now repeat split.
    + assert (S : isSyntaxError e).
      { apply (parseFormula_throws s). unfold parseFormula, parseFormulaFromString.
        now rewrite L; simpl; rewrite P. }
      destruct e; try contradiction.
      * (* the parser raises no lexical error; the case is kept by the type *)
        eexists _, _. split; [reflexivity|]. split; [reflexivity|]. simpl.
        split; [reflexivity|].
        split; [split; [discriminate | intros [x H]; discriminate]|].
        split; [discriminate|]. intros _. repeat (split; [reflexivity|]).
        exfalso.
        assert (EA : errorAt (body ++ [eof]) (UnexpectedCharacter c position)).
        { assert (G0 : goodParser (body ++ [eof]) (Parser.new (body ++ [eof])))
            by (split; [reflexivity|constructor]).
          destruct (tokenize_lexerTokens _ _ L) as (LT & _).
          unfold Parser.parse in P.
          destruct (parser_locates
                      (Parser.fuelFor (Parser.tokens (Parser.new (body ++ [eof])))))
            as (IE & _).
          destruct (IE _ _ LT G0) as [HT HR].
          apply obind_Throw in P as [P|([t p'] & E3 & E4)]; [now apply HT|].
          destruct (Parser.currentToken p') as [tok|]; [|discriminate].
          destruct (tok_type tok); discriminate. }
        destruct EA as (m & tok & H & _). discriminate.
      * eexists _, _. split; [reflexivity|]. split; [reflexivity|]. simpl.
        split; [reflexivity|].
        split; [split; [discriminate | intros [x H]; discriminate]|].
        split; [discriminate|]. intros _. repeat (split; [reflexivity|]).
        split; [intros _; now eexists | discriminate].
    + now elim T.
  - assert (S : exists c pos, e = UnexpectedCharacter c pos).
    { unfold Lexer.tokenize, Lexer.tokenizeAll in L.
      apply tokenizeLoop_throws in L as (pos & c & -> & _). now exists c, pos. }
    destruct S as (c & pos & ->).
    eexists _, _. split; [reflexivity|]. split; [reflexivity|]. simpl.
    split; [reflexivity|].
    split; [split; [discriminate | intros [x H]; discriminate]|].
    split; [discriminate|]. intros _. repeat (split; [reflexivity|]).
    split; [intros H; now elim H | intros [x H]; discriminate].
  - now elim T.
Qed.

(** ** Double negations at the head of a string *)

Lemma canonicalDoubleNeg_tildes r :
  canonicalDoubleNeg (c_tilde :: c_tilde :: r) = canonicalDoubleNeg r.
Proof. reflexivity. Qed.

Lemma canonicalDoubleNeg_fixed f :
  JsString.startsWith f [c_tilde; c_tilde] = false -> canonicalDoubleNeg f = f.
Proof.
  destruct f as [|c1 [|c2 r]]; try reflexivity. intros H. simpl.
  destruct (c1 =? c_tilde)%N eqn:E1; [|reflexivity].
  destruct (c2 =? c_tilde)%N eqn:E2; [|reflexivity].
  apply N.eqb_eq in E1, E2. subst.
  assert (T : JsString.startsWith (c_tilde :: c_tilde :: r) [c_tilde; c_tilde]
              = true) by (apply startsWith_iff; now exists r).
  congruence.
Qed.

Lemma startsWith_tildes f :
  JsString.startsWith f [c_tilde; c_tilde] = true ->
  exists r, f = c_tilde :: c_tilde :: r.
Proof. intros H. apply startsWith_iff in H as [r ->]. now exists r. Qed.

Lemma canonicalDoubleNeg_spec n :
  forall f,
    length f <= n ->
    exists k,
      f = repeat c_tilde (2 * k) ++ canonicalDoubleNeg f
      /\ JsString.startsWith (canonicalDoubleNeg f) [c_tilde; c_tilde] = false.
Proof.
  induction n as [|n IH]; intros f Hn.
  - destruct f; [|simpl in Hn; lia]. now exists 0.
  - destruct (JsString.startsWith f [c_tilde; c_tilde]) eqn:S.
    + apply startsWith_tildes in S as [r ->].
      rewrite canonicalDoubleNeg_tildes.
      destruct (IH r) as (k & E & H); [simpl in Hn; lia|].
      exists (S k). split; [|exact H].
      replace (2 * S k) with (S (S (2 * k))) by lia.
      change (repeat c_tilde (S (S (2 * k))))
        with (c_tilde :: c_tilde :: repeat c_tilde (2 * k)).
      simpl app. do 2 f_equal. exact E.
    + exists 0. rewrite (canonicalDoubleNeg_fixed f S). now split.
Qed.

(** X12.  [canonicalDoubleNeg] removes an even number of tildes from the
    head of a string, as many as it can: what it returns does not begin
    with two tildes, a second call changes nothing, and a string that
    does not begin with two tildes is returned as it is. *)
Theorem X12_canonicalDoubleNeg_strips (f : jsstring) :
  (exists k, f = repeat c_tilde (2 * k) ++ canonicalDoubleNeg f)
  /\ JsString.startsWith (canonicalDoubleNeg f) [c_tilde; c_tilde] = false
  /\ canonicalDoubleNeg (canonicalDoubleNeg f) = canonicalDoubleNeg f
  /\ (canonicalDoubleNeg f = f
      <-> JsString.startsWith f [c_tilde; c_tilde] = false).
Proof.
  destruct (canonicalDoubleNeg_spec (length f) f (le_n _)) as (k & E & H).
  split; [now exists k|]. split; [exact H|].
  split; [now apply canonicalDoubleNeg_fixed|].
  split; [intros X; now rewrite <- X | apply canonicalDoubleNeg_fixed].
Qed.

(** ** The successors of a state *)

Lemma set_of_list_In l x : In x (set_of_list l) <-> In x l.
Proof.
  unfold set_of_list.
  assert (G : forall acc, In x (fold_left (fun s y => set_add y s) l acc)
                          <-> In x acc \/ In x l).
  { induction l as [|a l IH]; intros acc; simpl; [tauto|].
    rewrite IH, set_add_In. intuition congruence. }
  rewrite G. simpl. tauto.
Qed.

Lemma didWeDeriveNewFormula_single this c n f :
  formulas n = [f] ->
  didWeDeriveNewFormula this c n = true ->
  ~ In (canonicalDoubleNeg f) (knownFormulas this).
Proof.
  unfold didWeDeriveNewFormula. intros -> H. simpl in H.
  rewrite orb_false_r in H. apply negb_true_iff in H.
  intros I. apply set_of_list_In, set_has_In in I. congruence.
Qed.

Lemma knownFormulas_step this s f :
  In s (steps this) -> In f (formulas s) ->
  In (canonicalDoubleNeg f) (knownFormulas this).
Proof.
  intros Hs Hf. unfold knownFormulas. apply in_or_app. left.
  apply in_flat_map. exists s. split; [exact Hs|]. now apply in_map.
Qed.

Lemma withStep_Ret c i rule n c' :
  withStep (nth_error (steps c) i) rule c = (Ret n, c') ->
  exists s, In s (steps c) /\ rule s c = (Ret n, c').
Proof.
  destruct (nth_error (steps c) i) as [s|] eqn:N; simpl; [|discriminate].
  intros H. exists s. split; [now apply nth_error_In in N | exact H].
Qed.

Lemma binary_shape c s1 s2 o org rt n c' :
  In s1 (steps c) -> In s2 (steps c) ->
  In org [js "AlphaRule"; js "BetaRule"; js "EquivalenceRule"] ->
  (A <~ lift (getUniqueFormula s1) ;;
   B <~ lift (getUniqueFormula s2) ;;
   let newFormula := [c_lparen] ++ A ++ [c_space; o; c_space] ++ B ++ [c_rparen] in
   let newStep := mkStep org rt [s1; s2] [newFormula] in
   pushStep newStep ;;; mret newStep) c = (Ret n, c') ->
  ruleShape c n c'.
Proof.
  intros I1 I2 Ho. unfold mbind, lift, pushStep, mret.
  destruct (getUniqueFormula s1) as [A| |]; try discriminate.
  destruct (getUniqueFormula s2) as [B| |]; try discriminate.
  intros H. injection H as <- <-. split; [reflexivity|].
  split; [simpl; repeat constructor; assumption|]. split.
  - simpl. simpl in Ho. intuition.
  - eexists. split; [reflexivity|]. simpl. intros X.
    destruct Ho as [<-|[<-|[<-|[]]]]; discriminate.
Qed.

Lemma alphaRule_shape c s1 s2 rt n c' :
  In s1 (steps c) -> In s2 (steps c) ->
  alphaRule s1 s2 rt c = (Ret n, c') -> ruleShape c n c'.
Proof.
  intros I1 I2. unfold alphaRule, mbind, lift, pushStep, mret.
  destruct (getUniqueFormula s1) as [A| |]; try discriminate.
  destruct (getUniqueFormula s2) as [B| |]; try discriminate.
  destruct (JsString.eqb rt (js "and"));
    [|destruct (JsString.eqb rt (js "implies")); [|discriminate]];
    intros H; injection H as <- <-; (split; [reflexivity|]);
    (split; [simpl; repeat constructor; assumption|]);
    (split; [simpl; now left|]);
    eexists; (split; [reflexivity|]); simpl; discriminate.
Qed.

Lemma contrapositionRule_shape c s n c' :
  In s (steps c) ->
  contrapositionRule s c = (Ret n, c') -> ruleShape c n c'.
Proof.
  intros I1. unfold contrapositionRule, mbind, lift, pushStep, mret.
  destruct (getUniqueFormula s) as [f| |]; try discriminate.
  destruct (parseFormula f) as [pf| |]; try discriminate.
  destruct (negb (isImplication (ast pf))); try discriminate.
  destruct (getImplicationParts (ast pf)) as [[a b]|]; try discriminate.
  intros H. injection H as <- <-. split; [reflexivity|].
  split; [simpl; repeat constructor; assumption|].
  split; [simpl; tauto|].
  eexists. split; [reflexivity|]. simpl. discriminate.
Qed.

Lemma doubleNegation_formula f mode :
  canonicalDoubleNeg
    (if JsString.eqb mode (js "introduction") then
       if JsString.startsWith f [c_tilde; c_tilde] then f
       else [c_tilde; c_tilde] ++ f
     else
       if JsString.startsWith f [c_tilde; c_tilde] then JsString.slice f 2
       else f)
  = canonicalDoubleNeg f.
Proof.
  destruct (JsString.eqb mode (js "introduction")).
  - destruct (JsString.startsWith f [c_tilde; c_tilde]); reflexivity.
  - destruct (JsString.startsWith f [c_tilde; c_tilde]) eqn:S; [|reflexivity].
    apply startsWith_tildes in S as [r ->]. reflexivity.
Qed.

Lemma doubleNegationRule_shape c s mode n c' :
  In s (steps c) ->
  doubleNegationRule s mode c = (Ret n, c') -> ruleShape c n c'.
Proof.
  intros I1. unfold doubleNegationRule, mbind, lift, pushStep, mret.
  destruct (getUniqueFormula s) as [f| |] eqn:U; try discriminate.
  apply getUniqueFormula_Ret in U.
  intros H. injection H as <- <-. split; [reflexivity|].
  split; [simpl; repeat constructor; assumption|].
  split; [simpl; tauto|].
  - eexists. split; [reflexivity|]. intros _. exists s, f.
    split; [exact I1|]. split; [exact U|].
    exact (doubleNegation_formula f mode).
Qed.

Lemma combos_shape c rule n c' :
  (exists i j, In rule (binaryCombos i j)) \/ (exists i, In rule (unaryCombos i)) ->
  rule c c = (Ret n, c') -> ruleShape c n c'.
Proof.
  intros [(i & j & Hin)|(i & Hin)] E.
  - destruct Hin as [<-|[<-|[<-|[<-|[]]]]];
      apply withStep_Ret in E as (s1 & I1 & E);
      apply withStep_Ret in E as (s2 & I2 & E).
    + now apply alphaRule_shape with s1 s2 (js "and").
    + now apply alphaRule_shape with s1 s2 (js "implies").
    + apply (binary_shape c s1 s2 c_or (js "BetaRule") (js "or")); auto.
      simpl. tauto.
    + apply (binary_shape c s1 s2 c_iff (js "EquivalenceRule") (js "equiv"));
        auto. simpl. tauto.
  - destruct Hin as [<-|[<-|[<-|[]]]];
      apply withStep_Ret in E as (s & I1 & E).
    + now apply contrapositionRule_shape with s.
    + now apply doubleNegationRule_shape with s (js "introduction").
    + now apply doubleNegationRule_shape with s (js "elimination").
Qed.

Lemma knownFormulas_clone s : knownFormulas (cloneSystem s) = knownFormulas s.
Proof. unfold knownFormulas. now rewrite cloneSystem_steps. Qed.

Lemma attempt_successor this rule l :
  (exists i j, In rule (binaryCombos i j)) \/ (exists i, In rule (unaryCombos i)) ->
  attempt this rule = Ret l -> Forall (successorOf this) l.
Proof.
  intros Hr. unfold attempt.
  destruct (rule (cloneSystem this) (cloneSystem this)) as [[n|e|] c'] eqn:R;
    intros E; try discriminate; injection E as <-; [|constructor].
  destruct (didWeDeriveNewFormula this c' n) eqn:D; [|constructor].
  constructor; [|constructor].
  destruct (combos_shape _ _ _ _ Hr R) as (-> & Hfrom & Ho & f & Hf & Hdn).
  exists n, f. split; [reflexivity|]. split; [exact Hf|].
  pose proof (didWeDeriveNewFormula_single _ _ _ _ Hf D) as New.
  split; [exact New|]. split.
  - destruct Ho as [O|[O|[O|[O|[O|[]]]]]]; simpl; auto.
    exfalso. destruct (Hdn (eq_sym O)) as (s & f0 & Is & Fs & Ec).
    apply New. rewrite Ec, <- knownFormulas_clone.
    apply knownFormulas_step with s; [exact Is|]. rewrite Fs. now left.
  - rewrite cloneSystem_steps in Hfrom. exact Hfrom.
Qed.

Lemma expandOneLevel_successors s l :
  expandOneLevel s = Ret l -> Forall (successorOf s) l.
Proof.
  unfold expandOneLevel.
  destruct (MAX_STEPS <=? length (steps s)).
  { intros E. injection E as <-. constructor. }
  intros E. apply obind_Ret in E as (binary & E1 & E2).
  apply obind_Ret in E2 as (unary & E2 & E3). injection E3 as <-.
  apply Forall_app. split.
  - revert E1. apply oflat_map_Forall. intros i ys _.
    apply oflat_map_Forall. intros j zs _.
    apply oflat_map_Forall. intros rule ws Hr.
    apply attempt_successor. left. now exists i, j.
  - revert E2. apply oflat_map_Forall. intros i ys _.
    apply oflat_map_Forall. intros rule ws Hr.
    apply attempt_successor. right. now exists i.
Qed.

(** X13.  Every successor [expandOneLevel] returns is a copy of the state
    with one step more: the steps of the state, then the new step; the
    same facts; no missing fact and no skipped step.  The new step holds
    one formula, which without its leading double negations is none of
    the formulas the state knows; its antecedents are steps of the state.
    No successor comes from a double-negation rule, and a state at the
    step ceiling has none. *)
Theorem X13_successors_add_one_new_formula (s : GentzenSystem)
        (l : list GentzenSystem) :
  expandOneLevel s = Ret l ->
  forall c, In c l ->
    length (steps s) < MAX_STEPS
    /\ exists newStep f,
         steps c = steps s ++ [newStep] /\ facts c = facts s
         /\ missingFacts c = [] /\ skippedSteps c = []
         /\ formulas newStep = [f]
         /\ ~ In (canonicalDoubleNeg f) (knownFormulas s)
         /\ In (origin newStep)
               [js "AlphaRule"; js "BetaRule"; js "EquivalenceRule";
                js "ContrapositionRule"]
         /\ Forall (fun a => In a (steps s)) (from newStep).
Proof.
  intros E c Hc. split.
  - destruct (MAX_STEPS <=? length (steps s)) eqn:B.
    + apply Nat.leb_le in B. rewrite (expandOneLevel_ceiling s B) in E.
      injection E as <-. destruct Hc.
    + apply Nat.leb_gt in B. exact B.
  - pose proof (expandOneLevel_successors s l E) as F.
    apply (proj1 (Forall_forall _ _) F) in Hc.
    destruct Hc as (n & f & -> & Hf & New & Ho & Hfrom).
    exists n, f.
    split; [unfold pushed; cbn [steps]; now rewrite cloneSystem_steps|].
    repeat (split; [first [reflexivity | assumption]|]).
    exact Hfrom.
Qed.

Lemma X13_successors_add_one_new_formula_witness :
  exists l c,
    expandOneLevel (mkSystem [fact "A"] [js "B"] [] []) = Ret l
    /\ In c l
    /\ length (steps (mkSystem [fact "A"] [js "B"] [] [])) < MAX_STEPS.
Proof.
  eexists. eexists. split; [vm_compute; reflexivity|].
  split; [left; reflexivity|].
  exact (proj1 (X13_successors_add_one_new_formula
                  (mkSystem [fact "A"] [js "B"] [] []) _
                  ltac:(vm_compute; reflexivity) _ (or_introl eq_refl))).
Defined.

(** ** The signature of a state *)

Lemma leb_refl a : JsString.leb a a = true.
Proof.
  induction a as [|c a IH]; [reflexivity|]. simpl.
  now rewrite N.ltb_irrefl.
Qed.

Lemma leb_total a b : JsString.leb a b = true \/ JsString.leb b a = true.
Proof.
  revert b. induction a as [|c a IH]; intros [|d b]; simpl; auto.
  destruct (N.ltb_spec c d), (N.ltb_spec d c); auto; lia.
Qed.

Lemma leb_antisym a b :
  JsString.leb a b = true -> JsString.leb b a = true -> a = b.
Proof.
  revert b. induction a as [|c a IH]; intros [|d b]; simpl;
    try reflexivity; try discriminate.
  destruct (N.ltb_spec c d), (N.ltb_spec d c); try discriminate; try lia.
  intros H1 H2. assert (c = d) by lia. subst. f_equal. now apply IH.
Qed.

Lemma leb_trans a b c :
  JsString.leb a b = true -> JsString.leb b c = true -> JsString.leb a c = true.
Proof.
  revert b c. induction a as [|x a IH]; intros [|y b] [|z c]; simpl;
    try reflexivity; try discriminate.
  destruct (N.ltb_spec x y), (N.ltb_spec y x), (N.ltb_spec y z),
    (N.ltb_spec z y), (N.ltb_spec x z), (N.ltb_spec z x);
    try discriminate; try reflexivity; try lia.
  apply IH.
Qed.

Lemma sortInsert_In x l y : In y (sortInsert x l) <-> y = x \/ In y l.
Proof.
  induction l as [|a l IH]; simpl; [intuition|].
  destruct (JsString.leb x a); simpl; [intuition|]. rewrite IH. intuition.
Qed.

Lemma sortInsert_sorted x l :
  StronglySorted lebP l -> StronglySorted lebP (sortInsert x l).
Proof.
  induction 1 as [|a l S IH F]; simpl.
  - constructor; constructor.
  - destruct (JsString.leb x a) eqn:L.
    + constructor; [now constructor|]. constructor; [exact L|].
      revert F. apply Forall_impl. intros b. now apply leb_trans.
    + constructor; [exact IH|]. apply Forall_forall. intros y Hy.
      apply sortInsert_In in Hy as [->|Hy].
      * destruct (leb_total a x) as [T|T]; [exact T | congruence].
      * exact (proj1 (Forall_forall _ _) F y Hy).
Qed.

Lemma sortInsert_NoDup x l :
  ~ In x l -> NoDup l -> NoDup (sortInsert x l).
Proof.
  induction l as [|a l IH]; simpl; intros Hx N.
  - constructor; [intros []|constructor].
  - destruct (JsString.leb x a); [now constructor|].
    inversion N as [|? ? Ha N']; subst. constructor.
    + rewrite sortInsert_In. intros [->|H]; [apply Hx; now left | now apply Ha].
    + apply IH; [intros H; apply Hx; now right | exact N'].
Qed.

Lemma sortStrings_In l y : In y (sortStrings l) <-> In y l.
Proof.
  induction l as [|a l IH]; simpl; [tauto|].
  rewrite sortInsert_In, IH. intuition.
Qed.

Lemma sortStrings_sorted l : StronglySorted lebP (sortStrings l).
Proof.
  induction l as [|a l IH]; simpl; [constructor | now apply sortInsert_sorted].
Qed.

Lemma sortStrings_NoDup l : NoDup l -> NoDup (sortStrings l).
Proof.
  induction 1 as [|a l Ha N IH]; simpl; [constructor|].
  apply sortInsert_NoDup; [now rewrite sortStrings_In | exact IH].
Qed.

Lemma set_of_list_NoDup l : NoDup (set_of_list l).
Proof.
  unfold set_of_list.
  assert (G : forall acc, NoDup acc ->
                          NoDup (fold_left (fun s y => set_add y s) l acc)).
  { induction l as [|a l IH]; intros acc N; simpl; [exact N|].
    apply IH. now apply set_add_NoDup. }
  apply G. constructor.
Qed.

(** Two sorted lists without repetition that hold the same strings. *)
Lemma sorted_same l1 :
  forall l2,
    StronglySorted lebP l1 -> StronglySorted lebP l2 ->
    NoDup l1 -> NoDup l2 ->
    (forall x, In x l1 <-> In x l2) -> l1 = l2.
Proof.
  induction l1 as [|a l1 IH]; intros [|b l2] S1 S2 N1 N2 E.
  - reflexivity.
  - destruct (proj2 (E b) (or_introl eq_refl)).
  - destruct (proj1 (E a) (or_introl eq_refl)).
  - inversion S1 as [|? ? S1' F1]; inversion S2 as [|? ? S2' F2]; subst.
    inversion N1 as [|? ? Ha N1']; inversion N2 as [|? ? Hb N2']; subst.
    assert (a = b).
    { destruct (proj1 (E a) (or_introl eq_refl)) as [->|Ia]; [reflexivity|].
      destruct (proj2 (E b) (or_introl eq_refl)) as [->|Ib]; [reflexivity|].
      apply leb_antisym.
      - exact (proj1 (Forall_forall _ _) F1 b Ib).
      - exact (proj1 (Forall_forall _ _) F2 a Ia). }
    subst b. f_equal. apply IH; auto.
    intros x. split; intros Hx.
    + destruct (proj1 (E x) (or_intror Hx)) as [->|H]; [now elim Ha | exact H].
    + destruct (proj2 (E x) (or_intror Hx)) as [->|H]; [now elim Hb | exact H].
Qed.

Lemma signature_same s1 s2 :
  (forall f, In f (knownFormulas s1) <-> In f (knownFormulas s2)) ->
  getSystemSignature s1 = getSystemSignature s2.
Proof.
  intros E. unfold getSystemSignature. cbv zeta. f_equal.
  apply sorted_same; try apply sortStrings_sorted;
    try (apply sortStrings_NoDup, set_of_list_NoDup).
  intros x. now rewrite !sortStrings_In, !set_of_list_In.
Qed.

(** X14.  [getSystemSignature] depends on nothing but the set of the
    formulas of the steps and of the facts, each without its leading
    double negations: neither their order, nor how often one occurs, nor
    which of them is a fact and which a step.  A copy made by
    [cloneSystem] has the signature of the original.  The signature does
    not determine that set: a state that knows [A | B] and a state that
    knows [A] and [B] have the same one. *)
Theorem X14_signature_is_a_set_of_formulas :
  (forall s1 s2,
      (forall f, In f (knownFormulas s1) <-> In f (knownFormulas s2)) ->
      getSystemSignature s1 = getSystemSignature s2)
  /\ (forall s, getSystemSignature (cloneSystem s) = getSystemSignature s)
  /\ (exists s1 s2,
         getSystemSignature s1 = getSystemSignature s2
         /\ ~ (forall f, In f (knownFormulas s1) <-> In f (knownFormulas s2))).
Proof.
  split; [exact signature_same|]. split.
  - intros s. apply signature_same. intros f.
    now rewrite knownFormulas_clone.
  - exists (mkSystem [] [js "A | B"] [] []),
           (mkSystem [] [js "A"; js "B"] [] []).
    split; [vm_compute; reflexivity|].
    intros H. destruct (proj2 (H (js "A")) (or_introl eq_refl)) as [X|[]].
    discriminate X.
Qed.

Lemma X14_signature_is_a_set_of_formulas_witness :
  getSystemSignature (mkSystem [fact "B"; fact "~~A"] [js "A"] [] [])
  = getSystemSignature (mkSystem [fact "A"] [js "~~~~B"; js "A"] [] []).
Proof.
  apply (proj1 X14_signature_is_a_set_of_formulas).
  intros f. vm_compute. tauto.
Defined.

(** ** The result of a search *)

Lemma successor_grownBy this n s c :
  grownBy this n s -> (exists l, expandOneLevel s = Ret l /\ In c l) ->
  grownBy this (n + 1) c.
Proof.
  intros (R & F & added & S & L) (l & E & Hin). split; [|split].
  - apply reachable_step with s; [exact R|]. now exists l.
  - pose proof (expandOneLevel_successors s l E) as Su.
    apply (proj1 (Forall_forall _ _) Su) in Hin.
    destruct Hin as (nw & f & -> & _). exact F.
  - pose proof (expandOneLevel_successors s l E) as Su.
    apply (proj1 (Forall_forall _ _) Su) in Hin.
    destruct Hin as (nw & f & -> & _). exists (added ++ [nw]). split.
    + unfold pushed; cbn [steps]. rewrite cloneSystem_steps, S.
      now rewrite app_assoc.
    + rewrite length_app. simpl. lia.
Qed.

Section SearchShape.

Variable this : GentzenSystem.
Variable target : jsstring.
Variable maxDepth : nat.

Lemma scanChildren_shape d p s children :
  d + 1 <= maxDepth ->
  p = map step_ (seq 1 d) ->
  grownBy this d s ->
  (forall c, In c children -> exists l, expandOneLevel s = Ret l /\ In c l) ->
  forall visited queue,
    Forall (entryOK this target maxDepth) queue ->
    match scanChildren target d p children visited queue with
    | Ret (inl r) => foundAt this target maxDepth r
    | Ret (inr (_, queue')) => Forall (entryOK this target maxDepth) queue'
    | _ => True
    end.
Proof.
  intros Hd Hp G. induction children as [|child rest IH];
    intros Hc visited queue Q; simpl; [exact Q|].
  assert (Gc : grownBy this (d + 1) child).
  { apply successor_grownBy with s; [exact G|]. apply Hc. now left. }
  assert (Hr : forall c, In c rest ->
                         exists l, expandOneLevel s = Ret l /\ In c l).
  { intros c I. apply Hc. now right. }
  destruct (isProved child target) as [[|]| |] eqn:P; simpl; try exact I.
  - exists d, child. rewrite Hp. auto.
  - destruct (negb (set_has visited (getSystemSignature child))).
    + apply (IH Hr). apply Forall_app. split; [exact Q|].
      constructor; [|constructor]. split; [exact Hd|]. split.
      * simpl. rewrite Hp. replace (d + 1) with (S d) by lia.
        rewrite seq_S, map_app. reflexivity.
      * split; [exact P | exact Gc].
    + apply (IH Hr). exact Q.
Qed.

Lemma searchLoop_shape fuel :
  forall queue visited iterations r,
    Forall (entryOK this target maxDepth) queue ->
    searchLoop fuel target maxDepth queue visited iterations = Ret r ->
    r = initialResult \/ foundAt this target maxDepth r.
Proof.
  induction fuel as [|fuel IH]; intros queue visited iterations r Q E;
    [discriminate|].
  rewrite searchLoop_S in E. destruct queue as [|entry queue'].
  { injection E as <-. now left. }
  destruct ((MAX_ITERATIONS <? iterations + 1)
            || (MAX_QUEUE_SIZE <? length (entry :: queue'))).
  { injection E as <-. now left. }
  inversion Q as [|? ? (Hd & Hp & P & G) Q']; subst.
  rewrite P in E. cbn [obind] in E.
  destruct (maxDepth <=? entryDepth entry) eqn:B.
  { now apply IH in E. }
  apply Nat.leb_gt in B.
  destruct (expandOneLevel (entrySystem entry)) as [children| |] eqn:X;
    cbn [obind] in E; try discriminate.
  pose proof (scanChildren_shape (entryDepth entry) (entryPath entry)
                (entrySystem entry) children ltac:(lia) Hp G
                ltac:(intros c I; now exists children) visited queue' Q') as Sc.
  destruct (scanChildren target (entryDepth entry) (entryPath entry) children
                         visited queue') as [[res|[v' q']]| |];
    cbn [obind] in E; try discriminate.
  - injection E as <-. now right.
  - now apply IH in E.
Qed.

End SearchShape.

(** X15.  What a search returns tells where the proof was found and no
    more.  A result with [proven] false has an empty path and depth 0.  A
    result with [proven] true either has an empty path and depth 0, the
    target being proved in the initial state, or has a depth [d] between 1
    and the depth bound and the path [step_1, ..., step_(d-1), final_step],
    and then the target is proved in a state reachable from the initial
    one that has its facts and [d] steps more.  [skippedSteps] of a result
    is empty, and the length of its path is its depth. *)
Theorem X15_search_result_shape (this this' : GentzenSystem)
        (target : jsstring) (maxDepth : nat) (r : SearchResult) :
  searchForProof target maxDepth this = (Ret r, this') ->
  resultSkippedSteps r = []
  /\ length (path r) = depth r
  /\ depth r <= maxDepth
  /\ (proven r = false -> path r = [] /\ depth r = 0)
  /\ (proven r = true ->
      (isProved this target = Ret true /\ path r = [] /\ depth r = 0)
      \/ (isProved this target = Ret false
          /\ 1 <= depth r
          /\ path r = map step_ (seq 1 (depth r - 1)) ++ [final_step]
          /\ exists s, grownBy this (depth r) s
                       /\ isProved s target = Ret true)).
Proof.
  intros E.
  apply searchForProof_cases in E
    as [(P & -> & _)|[(P & m & _ & -> & _)|(P & _ & E & _)]].
  - cbn. repeat (split; [first [reflexivity | lia | discriminate]|]).
    intros _. left. auto.
  - cbn. repeat (split; [first [reflexivity | lia | auto]|]). discriminate.
  - apply (searchLoop_shape this target maxDepth) in E.
    + destruct E as [->|(d & s & -> & Hd & G & Ps)].
      * cbn. repeat (split; [first [reflexivity | lia | auto]|]). discriminate.
      * cbn [resultSkippedSteps path depth proven].
        split; [reflexivity|]. split.
        { rewrite length_app, length_map, length_seq. reflexivity. }
        split; [exact Hd|]. split; [discriminate|]. intros _. right.
        split; [exact P|]. split; [lia|]. split.
        { now replace (d + 1 - 1) with d by lia. }
        now exists s.
    + constructor; [|constructor]. split; [simpl; lia|].
      split; [reflexivity|]. split; [exact P|]. split; [apply reachable_refl|].
      split; [reflexivity|]. exists []. split; [now rewrite app_nil_r|].
      reflexivity.
Qed.

Lemma X15_search_result_shape_witness :
  resultSkippedSteps (mkResult true [step_ 1; final_step] [] [] 2) = []
  /\ depth (mkResult true [step_ 1; final_step] [] [] 2) <= 3.
Proof.
  destruct (X15_search_result_shape
              (mkSystem [fact "A"; fact "B"] [] [] [])
              (mkSystem [fact "A"; fact "B"] [] [] [])
              (js "(A & B) | A") 3
              (mkResult true [step_ 1; final_step] [] [] 2)
              ltac:(vm_compute; reflexivity)) as (H1 & _ & H2 & _).
  split; [exact H1 | exact H2].
Defined.

(** ** What a search reads and what it leaves *)

Lemma fold_set_add_In l x :
  forall acc,
    In x (fold_left (fun s y => set_add y s) l acc) <-> In x acc \/ In x l.
Proof.
  induction l as [|a l IH]; intros acc; simpl; [tauto|].
  rewrite IH, set_add_In. intuition congruence.
Qed.

Lemma set_add_known x s : In x s -> set_add x s = s.
Proof.
  intros H. unfold set_add. apply set_has_In in H. unfold set_has in H.
  now rewrite H.
Qed.

Lemma fold_set_add_known l :
  forall acc, (forall x, In x l -> In x acc) ->
              fold_left (fun s y => set_add y s) l acc = acc.
Proof.
  induction l as [|a l IH]; intros acc H; simpl; [reflexivity|].
  rewrite set_add_known by (apply H; now left).
  apply IH. intros x Hx. apply H. now right.
Qed.

Lemma tracked_twice this missing :
  tracked (tracked this missing) missing = tracked this missing.
Proof.
  unfold tracked. cbn [steps facts missingFacts skippedSteps]. f_equal.
  apply fold_set_add_known. intros x Hx. apply fold_set_add_In. now right.
Qed.

Lemma isProved_core s1 s2 target :
  steps s1 = steps s2 -> facts s1 = facts s2 ->
  isProved s1 target = isProved s2 target.
Proof. intros S F. unfold isProved. now rewrite S, F. Qed.

Lemma isAtomResolvable_core s1 s2 atom :
  steps s1 = steps s2 -> facts s1 = facts s2 ->
  isAtomResolvable s1 atom = isAtomResolvable s2 atom.
Proof.
  intros S F. unfold isAtomResolvable, isFactAvailable. now rewrite S, F.
Qed.

Lemma canResolveFormula_core s1 s2 formula :
  steps s1 = steps s2 -> facts s1 = facts s2 ->
  canResolveFormula s1 formula = canResolveFormula s2 formula.
Proof.
  intros S F. unfold canResolveFormula, extractMissingFactsFromFormula.
  destruct (parseFormula formula) as [pf| |]; try reflexivity. cbn [obind].
  rewrite (filter_ext _ (fun atom => negb (isAtomResolvable s2 atom)));
    [reflexivity|].
  intros a. now rewrite (isAtomResolvable_core s1 s2 a S F).
Qed.

Lemma knownFormulas_core s1 s2 :
  steps s1 = steps s2 -> facts s1 = facts s2 ->
  knownFormulas s1 = knownFormulas s2.
Proof. intros S F. unfold knownFormulas. now rewrite S, F. Qed.

Lemma cloneSystem_core s1 s2 :
  steps s1 = steps s2 -> facts s1 = facts s2 ->
  cloneSystem s1 = cloneSystem s2.
Proof. intros S F. unfold cloneSystem. now rewrite S, F. Qed.

Lemma expandOneLevel_core s1 s2 :
  steps s1 = steps s2 -> facts s1 = facts s2 ->
  expandOneLevel s1 = expandOneLevel s2.
Proof.
  intros S F. unfold expandOneLevel. rewrite S.
  assert (A : forall rule, attempt s1 rule = attempt s2 rule).
  { intros rule. unfold attempt, didWeDeriveNewFormula.
    now rewrite (cloneSystem_core s1 s2 S F), (knownFormulas_core s1 s2 S F). }
  assert (G : forall l, oflat_map (attempt s1) l = oflat_map (attempt s2) l).
  { induction l as [|a l IH]; simpl; [reflexivity|]. now rewrite A, IH. }
  assert (G2 : forall (f g : nat -> Outcome (list GentzenSystem)) l,
             (forall i, f i = g i) -> oflat_map f l = oflat_map g l).
  { intros f g l H. induction l as [|a l IH]; simpl; [reflexivity|].
    now rewrite H, IH. }
  rewrite (G2 _ (fun i => oflat_map (attempt s2) (unaryCombos i)) _
              (fun i => G _)).
  rewrite (G2 _ (fun i => oflat_map (fun j =>
                   oflat_map (attempt s2) (binaryCombos i j))
                   (seq 0 (length (steps s2)))) _
              (fun i => G2 _ _ _ (fun j => G _))).
  reflexivity.
Qed.

Lemma searchLoop_core fuel target maxDepth s1 s2 d p queue visited iterations :
  steps s1 = steps s2 -> facts s1 = facts s2 ->
  searchLoop fuel target maxDepth (mkEntry s1 d p :: queue) visited iterations
  = searchLoop fuel target maxDepth (mkEntry s2 d p :: queue) visited iterations.
Proof.
  intros S F. destruct fuel as [|fuel]; [reflexivity|].
  rewrite !searchLoop_S. cbn [entrySystem entryDepth entryPath length].
  now rewrite (isProved_core s1 s2 target S F), (expandOneLevel_core s1 s2 S F).
Qed.

Lemma searchForProof_core target maxDepth s1 s2 :
  steps s1 = steps s2 -> facts s1 = facts s2 ->
  fst (searchForProof target maxDepth s1)
  = fst (searchForProof target maxDepth s2).
Proof.
  intros S F. rewrite !searchForProof_unfold.
  rewrite (isProved_core s1 s2 target S F),
    (canResolveFormula_core s1 s2 target S F).
  destruct (isProved s2 target) as [[|]| |]; try reflexivity.
  destruct (canResolveFormula s2 target) as [[[|] m]| |]; try reflexivity.
  cbn [fst].
  rewrite (signature_same s1 s2)
    by (intros f; now rewrite (knownFormulas_core s1 s2 S F)).
  apply searchLoop_core; assumption.
Qed.

Lemma searchForProof_state target maxDepth this o this' :
  searchForProof target maxDepth this = (o, this') ->
  this' = this
  \/ exists missing,
       o = Ret (mkResult false [] missing [] 0)
       /\ isProved this target = Ret false
       /\ canResolveFormula this target = Ret (false, missing)
       /\ this' = tracked this missing.
Proof.
  rewrite searchForProof_unfold. intros E.
  destruct (isProved this target) as [[|]|e|] eqn:P;
    try (apply pair_equal_spec in E as [_ E]; now left).
  destruct (canResolveFormula this target) as [[[|] m]|e|] eqn:C;
    try (apply pair_equal_spec in E as [_ E]; now left).
  apply pair_equal_spec in E as [E1 E2]. right. exists m. auto.
Qed.

(** X16.  A search reads the steps and the facts of the state and nothing
    else, and writes nothing but [missingFacts].  Two states with the same
    steps and facts give the same outcome.  Whatever the outcome, the
    steps, the facts and the skipped steps are afterwards what they were,
    no name leaves [missingFacts], and the names that enter it are those
    of [missingFacts] of the result: no step found on the way is kept.
    A second search of the same target has the outcome of the first and
    changes nothing. *)
Theorem X16_search_frame :
  (forall this1 this2 target maxDepth,
      steps this1 = steps this2 -> facts this1 = facts this2 ->
      fst (searchForProof target maxDepth this1)
      = fst (searchForProof target maxDepth this2))
  /\ (forall this target maxDepth o this',
         searchForProof target maxDepth this = (o, this') ->
         steps this' = steps this /\ facts this' = facts this
         /\ skippedSteps this' = skippedSteps this
         /\ (forall x, In x (missingFacts this')
                       <-> In x (missingFacts this)
                           \/ exists r, o = Ret r /\ In x (resultMissingFacts r))
         /\ searchForProof target maxDepth this' = (o, this')).
Proof.
  split; [exact (fun a b c d => searchForProof_core c d a b)|].
  intros this target maxDepth o this' E.
  destruct (searchForProof_state _ _ _ _ _ E)
    as [->|(m & -> & P & C & ->)].
  - repeat (split; [reflexivity|]). split; [|exact E].
    intros x. split; [now left|]. intros [H|(r & -> & H)]; [exact H|].
    rewrite searchForProof_unfold in E.
    destruct (isProved this target) as [[|]|e|] eqn:P.
    + apply pair_equal_spec in E as [E _]. injection E as <-. destruct H.
    + destruct (canResolveFormula this target) as [[[|] m]|e|] eqn:C.
      * apply pair_equal_spec in E as [E _].
        apply searchLoop_missing in E. rewrite E in H. destruct H.
      * apply pair_equal_spec in E as [E E2]. injection E as <-.
        cbn [resultMissingFacts] in H. rewrite <- E2.
        unfold tracked. cbn [missingFacts]. apply fold_set_add_In. now right.
      * apply pair_equal_spec in E as [E _]. discriminate E.
      * apply pair_equal_spec in E as [E _]. discriminate E.
    + apply pair_equal_spec in E as [E _]. discriminate E.
    + apply pair_equal_spec in E as [E _]. discriminate E.
  - repeat (split; [reflexivity|]). split.
    + intros x. unfold tracked. cbn [missingFacts]. rewrite fold_set_add_In.
      split.
      * intros [H|H]; [now left|]. right. eexists. split; [reflexivity|].
        exact H.
      * intros [H|(r & R & H)]; [now left|]. injection R as <-. now right.
    + rewrite searchForProof_unfold.
      rewrite (isProved_core (tracked this m) this target eq_refl eq_refl), P.
      rewrite (canResolveFormula_core (tracked this m) this target
                 eq_refl eq_refl), C.
      now rewrite tracked_twice.
Qed.

Lemma X16_search_frame_witness :
  fst (searchForProof (js "A & B") 5
         (mkSystem [fact "A"; fact "B"] [js "C"] [js "Q"] []))
  = fst (searchForProof (js "A & B") 5
           (mkSystem [fact "A"; fact "B"] [js "C"] [] []))
  /\ searchForProof (js "A & Q") 5
       (mkSystem [fact "A"] [] [js "Q"] [])
     = (Ret (mkResult false [] [js "Q"] [] 0),
        mkSystem [fact "A"] [] [js "Q"] []).
Proof.
  split.
  - apply (proj1 X16_search_frame); reflexivity.
  - apply (proj2 X16_search_frame (mkSystem [fact "A"] [] [] [])
                 (js "A & Q") 5).
    vm_compute. reflexivity.
Defined.

(** ** The targets of a scenario *)

Lemma evaluateTargets_cons target rest results this :
  evaluateTargets (target :: rest) results this
  = match searchForProof target 5 this with
    | (Ret result, this') =>
        evaluateTargets rest
          (mkResults
             (if proven result then provenTargets results + 1
              else provenTargets results)
             (targets results
              ++ [mkTargetResult target (proven result)
                                 (resultMissingFacts result) (path result)]))
          this'
    | (Throw e, this') => (Throw e, this')
    | (Diverge, this') => (Diverge, this')
    end.
Proof. reflexivity. Qed.

Lemma searchForProof_keeps target maxDepth this o this' :
  searchForProof target maxDepth this = (o, this') ->
  steps this' = steps this /\ facts this' = facts this.
Proof.
  intros E. destruct (searchForProof_state _ _ _ _ _ E)
    as [->|(m & _ & _ & _ & ->)]; split; reflexivity.
Qed.

Lemma targetAlone_core s1 s2 target :
  steps s1 = steps s2 -> facts s1 = facts s2 ->
  targetAlone s1 target = targetAlone s2 target.
Proof.
  intros S F. unfold targetAlone.
  now rewrite (searchForProof_core target 5 s1 s2 S F).
Qed.

Lemma evaluateTargets_spec this targetList :
  forall results cur,
    steps cur = steps this -> facts cur = facts this ->
    match evaluateTargets targetList results cur with
    | (Ret results', this') =>
        steps this' = steps this /\ facts this' = facts this
        /\ exists new,
             targets results' = targets results ++ new
             /\ map (targetAlone this) targetList = map Ret new
             /\ provenTargets results'
                = provenTargets results + length (filter t_proven new)
    | (Throw e, this') =>
        steps this' = steps this /\ facts this' = facts this
        /\ exists before target after,
             targetList = before ++ target :: after
             /\ Forall (fun t => returns (targetAlone this t)) before
             /\ targetAlone this target = Throw e
    | (Diverge, _) => False
    end.
Proof.
  induction targetList as [|target rest IH]; intros results cur S F.
  - cbn. split; [exact S|]. split; [exact F|]. exists [].
    split; [now rewrite app_nil_r|]. split; [reflexivity|]. cbn. lia.
  - rewrite evaluateTargets_cons.
    pose proof (targetAlone_core cur this target S F) as A.
    unfold targetAlone at 1 in A.
    destruct (searchForProof target 5 cur) as [o cur'] eqn:E.
    destruct (searchForProof_keeps _ _ _ _ _ E) as [S' F'].
    rewrite S in S'. rewrite F in F'. cbn [fst] in A.
    destruct o as [result|e|]; cbn [obind] in A.
    + specialize (IH (mkResults
             (if proven result then provenTargets results + 1
              else provenTargets results)
             (targets results
              ++ [mkTargetResult target (proven result)
                                 (resultMissingFacts result) (path result)]))
            cur' S' F').
      destruct (evaluateTargets rest _ cur') as [[results'|e|] this'].
      * destruct IH as (S2 & F2 & new & T & M & C).
        split; [exact S2|]. split; [exact F2|].
        cbn [targets provenTargets] in T, C.
        exists (mkTargetResult target (proven result)
                               (resultMissingFacts result) (path result)
                  :: new).
        split; [now rewrite T, <- app_assoc|]. split.
        { cbn [map]. now rewrite <- A, M. }
        rewrite C. cbn [filter t_proven]. destruct (proven result); cbn; lia.
      * destruct IH as (S2 & F2 & before & t & after & -> & B & T).
        split; [exact S2|]. split; [exact F2|].
        exists (target :: before), t, after. split; [reflexivity|].
        split; [|exact T]. constructor; [|exact B].
        eexists. symmetry. exact A.
      * exact IH.
    + split; [exact S'|]. split; [exact F'|].
      exists [], target, rest. split; [reflexivity|].
      split; [constructor | now symmetry].
    + apply (searchForProof_terminates target 5 cur). now rewrite E.
Qed.

Lemma evaluateTargets_returns this targetList results :
  Forall (fun t => returns (targetAlone this t)) targetList ->
  returns (fst (evaluateTargets targetList results this)).
Proof.
  intros A.
  pose proof (evaluateTargets_spec this targetList results this
                eq_refl eq_refl) as H.
  destruct (evaluateTargets targetList results this) as [[r|e|] this'].
  - now exists r.
  - destruct H as (_ & _ & before & t & after & -> & _ & T).
    apply Forall_app in A as [_ A]. inversion A as [|? ? [x X] _]; subst.
    rewrite T in X. discriminate.
  - destruct H.
Qed.

(** X17.  [evaluateTargets] gives every target the entry it would have
    if it were the only one, searched to depth 5 in the state the
    evaluation starts from: the entries do not depend on the order of the
    targets nor on the searches made before.  It appends them to
    [results.targets] in the order of the targets and adds to
    [provenTargets] the number of those that are proven.  The steps and
    the facts of the state are left as they were.  The evaluation throws
    when the search of a target throws, with the error of the first such
    target; it returns when every target can be searched on its own. *)
Theorem X17_targets_are_independent :
  (forall this targetList results results' this',
      evaluateTargets targetList results this = (Ret results', this') ->
      steps this' = steps this /\ facts this' = facts this
      /\ exists new,
           targets results' = targets results ++ new
           /\ map (targetAlone this) targetList = map Ret new
           /\ provenTargets results'
              = provenTargets results + length (filter t_proven new))
  /\ (forall this targetList results e this',
         evaluateTargets targetList results this = (Throw e, this') ->
         steps this' = steps this /\ facts this' = facts this
         /\ exists before target after,
              targetList = before ++ target :: after
              /\ Forall (fun t => returns (targetAlone this t)) before
              /\ targetAlone this target = Throw e)
  /\ (forall this targetList results,
         Forall (fun t => returns (targetAlone this t)) targetList ->
         returns (fst (evaluateTargets targetList results this))).
Proof.
  split; [|split].
  - intros this targetList results results' this' E.
    pose proof (evaluateTargets_spec this targetList results this
                  eq_refl eq_refl) as H.
    now rewrite E in H.
  - intros this targetList results e this' E.
    pose proof (evaluateTargets_spec this targetList results this
                  eq_refl eq_refl) as H.
    now rewrite E in H.
  - intros this targetList results. apply evaluateTargets_returns.
Qed.

Lemma X17_targets_are_independent_witness :
  exists new,
    map (targetAlone (mkSystem [fact "A"; fact "B"] [js "C"] [] []))
        [js "Q & A"; js "B & A"; js "C"]
    = map Ret new
    /\ 0 + length (filter t_proven new) = 2.
Proof.
  destruct (proj1 X17_targets_are_independent
              (mkSystem [fact "A"; fact "B"] [js "C"] [] [])
              [js "Q & A"; js "B & A"; js "C"] (mkResults 0 []) _ _
              ltac:(vm_compute; reflexivity))
    as (_ & _ & new & T & M & C).
  exists new. split; [exact M|]. symmetry. exact C.
Defined.

(** ** The facts of a scenario *)

Lemma isAtomResolvable_plain this a :
  JsString.startsWith a [c_tilde] = false ->
  (isAtomResolvable this a = true
   <-> available this a \/ available this (c_tilde :: a)).
Proof.
  intros S. unfold isAtomResolvable. rewrite S.
  destruct (isFactAvailable this a) eqn:A.
  - apply isFactAvailable_spec in A. tauto.
  - apply isFactAvailable_false in A. rewrite isFactAvailable_spec. tauto.
Qed.

Lemma tilde_not_plain k :
  JsString.startsWith (c_tilde :: k) [c_tilde] = true.
Proof. apply startsWith_iff. now exists k. Qed.

Lemma addResolvedFacts_spec factMap :
  forall this,
    exists this',
      addResolvedFacts factMap this = (Ret tt, this')
      /\ steps this' = steps this
      /\ missingFacts this' = missingFacts this
      /\ skippedSteps this' = skippedSteps this
      /\ forall f,
           In f (facts this')
           <-> In f (facts this)
               \/ In (f, true) factMap
               \/ exists k, f = c_tilde :: k /\ In (k, false) factMap
                            /\ JsString.startsWith k [c_tilde] = false.
Proof.
  induction factMap as [|[factName isResolved] rest IH]; intros this.
  - exists this. cbn. repeat (split; [reflexivity|]). intros f.
    split; [now left|]. intros [H|[[]|(k & _ & [] & _)]]. exact H.
  - cbn [addResolvedFacts]. unfold mbind.
    destruct isResolved.
    + unfold addFact at 1.
      destruct (IH (mkSystem (steps this) (set_add factName (facts this))
                             (missingFacts this) (skippedSteps this)))
        as (this' & E & S & M & K & F).
      exists this'. rewrite E. cbn [steps facts missingFacts skippedSteps] in *.
      repeat (split; [assumption || reflexivity|]).
      intros f. rewrite F, set_add_In. cbn [In]. split.
      * intros [[->|H]|[H|(k & H)]]; auto.
        right. right. exists k. tauto.
      * intros [H|[[H|H]|(k & Hk & [H|H] & T)]]; auto.
        -- injection H as <-. auto.
        -- discriminate H.
        -- right. right. exists k. auto.
    + destruct (JsString.startsWith factName [c_tilde]) eqn:T; cbn [negb].
      * unfold mret at 1. destruct (IH this) as (this' & E & S & M & K & F).
        exists this'. rewrite E. split; [reflexivity|].
        split; [exact S|]. split; [exact M|]. split; [exact K|].
        intros f. rewrite F. cbn [In]. split.
        -- intros [H|[H|(k & Hk & H & Tk)]]; auto.
           right. right. exists k. auto.
        -- intros [H|[[H|H]|(k & Hk & [H|H] & Tk)]]; auto.
           ++ discriminate H.
           ++ injection H as <-. congruence.
           ++ right. right. exists k. auto.
      * unfold addFact at 1.
        destruct (IH (mkSystem (steps this)
                               (set_add (c_tilde :: factName) (facts this))
                               (missingFacts this) (skippedSteps this)))
          as (this' & E & S & M & K & F).
        exists this'. rewrite E.
        cbn [steps facts missingFacts skippedSteps] in *.
        repeat (split; [assumption || reflexivity|]).
        intros f. rewrite F, set_add_In. cbn [In]. split.
        -- intros [[->|H]|[H|(k & Hk & H & Tk)]]; auto.
           ++ right. right. exists factName. auto.
           ++ right. right. exists k. auto.
        -- intros [H|[[H|H]|(k & Hk & [H|H] & Tk)]]; auto.
           ++ discriminate H.
           ++ injection H as <-. left. left. exact Hk.
           ++ right. right. exists k. auto.
Qed.

(** X18.  The loop that turns the resolved facts into facts of the system
    always returns, and touches nothing but [facts].  Afterwards a string
    is a fact exactly when it was one before, or is a name resolved to
    true, or is the tilde followed by a name resolved to false that does
    not itself begin with a tilde.  So every name of the map that does not
    begin with a tilde is a resolvable atom, whatever its resolver
    answered; and from a system without facts and steps, an atom that does
    not begin with a tilde is resolvable exactly when it is a name of the
    map or the map resolves its negation to true. *)
Theorem X18_resolved_facts (factMap : list (jsstring * bool))
        (this : GentzenSystem) :
  exists this',
    addResolvedFacts factMap this = (Ret tt, this')
    /\ steps this' = steps this
    /\ missingFacts this' = missingFacts this
    /\ skippedSteps this' = skippedSteps this
    /\ (forall f,
           In f (facts this')
           <-> In f (facts this)
               \/ In (f, true) factMap
               \/ exists k, f = c_tilde :: k /\ In (k, false) factMap
                            /\ JsString.startsWith k [c_tilde] = false)
    /\ (forall k v,
           In (k, v) factMap -> JsString.startsWith k [c_tilde] = false ->
           isAtomResolvable this' k = true)
    /\ (steps this = [] -> facts this = [] ->
        forall a,
          JsString.startsWith a [c_tilde] = false ->
          (isAtomResolvable this' a = true
           <-> In a (map fst factMap) \/ In (c_tilde :: a, true) factMap)).
Proof.
  destruct (addResolvedFacts_spec factMap this) as (this' & E & S & M & K & F).
  exists this'. repeat (split; [assumption|]). split.
  - intros k v I T. apply isAtomResolvable_plain; [exact T|].
    destruct v.
    + left. left. apply F. auto.
    + right. left. apply F. right. right. exists k. auto.
  - intros S0 F0 a T. rewrite (isAtomResolvable_plain this' a T).
    unfold available. rewrite S, S0, !F, F0. cbn [In]. split.
    + intros [[[[]|[H|(k & -> & _)]]|(s & [] & _)]
             |[[[]|[H|(k & Hk & H & _)]]|(s & [] & _)]].
      * left. apply in_map_iff. now exists (a, true).
      * now rewrite tilde_not_plain in T.
      * now right.
      * injection Hk as <-. left. apply in_map_iff. now exists (a, false).
    + intros [H|H].
      * apply in_map_iff in H as ([k [|]] & <- & H); cbn [fst].
        -- left. left. auto.
        -- right. left. right. right. exists k. auto.
      * right. left. auto.
Qed.

Lemma X18_resolved_facts_witness :
  exists this',
    addResolvedFacts [(js "X", true); (js "Y", false)] emptySystem
    = (Ret tt, this')
    /\ isAtomResolvable this' (js "Y") = true.
Proof.
  destruct (X18_resolved_facts [(js "X", true); (js "Y", false)] emptySystem)
    as (this' & E & _ & _ & _ & _ & R & _).
  exists this'. split; [exact E|].
  apply (R (js "Y") false); [right; left; reflexivity | reflexivity].
Defined.

(** ** What is proved in a state *)

Lemma oexists_true {A} (f : A -> Outcome bool) l :
  oexists f l = Ret true -> exists x, In x l /\ f x = Ret true.
Proof.
  induction l as [|x l IH]; simpl; [discriminate|].
  destruct (f x) as [[|]| |] eqn:E; simpl; try discriminate.
  - intros _. exists x. auto.
  - intros H. destruct (IH H) as (y & Hy & Ey). exists y. auto.
Qed.

Lemma oexists_false {A} (f : A -> Outcome bool) l :
  oexists f l = Ret false -> forall x, In x l -> f x = Ret false.
Proof.
  induction l as [|x l IH]; simpl; [intros _ y []|].
  destruct (f x) as [[|]| |] eqn:E; simpl; try discriminate.
  intros H y [<-|Hy]; [exact E | now apply IH].
Qed.

Lemma oexists_found {A} (f : A -> Outcome bool) l x :
  (forall y, In y l -> returns (f y)) -> In x l -> f x = Ret true ->
  oexists f l = Ret true.
Proof.
  intros R I E. destruct (oexists_returns f l R) as [[|] H]; [exact H|].
  rewrite (oexists_false f l H x I) in E. discriminate.
Qed.

Lemma same_true g n t :
  normalizeFormula t = Ret n ->
  (normalized <- normalizeFormula g ;; Ret (JsString.eqb normalized n))
  = Ret true ->
  sameFormula g t.
Proof.
  intros T E. apply obind_Ret in E as (m & G & E). injection E as E.
  apply JsString_eqb_eq in E. subst m. now exists n.
Qed.

Lemma same_false g n t :
  normalizeFormula t = Ret n ->
  (normalized <- normalizeFormula g ;; Ret (JsString.eqb normalized n))
  = Ret false ->
  parses g /\ ~ sameFormula g t.
Proof.
  intros T E. apply obind_Ret in E as (m & G & E). injection E as E.
  apply JsString_eqb_neq in E. split.
  - unfold parses. unfold normalizeFormula in G.
    apply obind_Ret in G as (pf & P & _). now exists pf.
  - intros (k & G' & T'). congruence.
Qed.

Lemma same_intro g n t :
  normalizeFormula t = Ret n -> sameFormula g t ->
  (normalized <- normalizeFormula g ;; Ret (JsString.eqb normalized n))
  = Ret true.
Proof.
  intros T (k & G & T'). rewrite G. cbn [obind].
  assert (k = n) by congruence. subst. now rewrite JsString_eqb_refl.
Qed.

Lemma normalizeFormula_parses t n : normalizeFormula t = Ret n -> parses t.
Proof.
  unfold normalizeFormula. intros G. apply obind_Ret in G as (pf & P & _).
  now exists pf.
Qed.

Lemma parses_normalizeFormula t : parses t -> returns (normalizeFormula t).
Proof. intros [pf P]. unfold normalizeFormula. rewrite P. now eexists. Qed.

Lemma isProved_true s t :
  isProved s t = Ret true -> exists g, available s g /\ sameFormula g t.
Proof.
  unfold isProved. intros E. apply obind_Ret in E as (n & T & E).
  apply obind_Ret in E as ([|] & F & E).
  - apply oexists_true in F as (g & Hg & Eg). exists g. split; [now left|].
    now apply same_true with n.
  - apply oexists_true in E as (st & Hst & E).
    apply oexists_true in E as (g & Hg & Eg). exists g. split.
    + right. now exists st.
    + now apply same_true with n.
Qed.

Lemma isProved_false s t :
  isProved s t = Ret false ->
  parses t /\ forall g, available s g -> parses g /\ ~ sameFormula g t.
Proof.
  unfold isProved. intros E. apply obind_Ret in E as (n & T & E).
  split; [now apply normalizeFormula_parses with n|].
  apply obind_Ret in E as ([|] & F & E); [discriminate|].
  intros g [Hg|(st & Hst & Hg)].
  - apply same_false with n; [exact T|].
    exact (oexists_false _ _ F g Hg).
  - apply same_false with n; [exact T|].
    pose proof (oexists_false _ _ E st Hst) as Est. cbv beta in Est.
    exact (oexists_false _ _ Est g Hg).
Qed.

Lemma isProved_complete s t g :
  parseableState s -> available s g -> sameFormula g t ->
  isProved s t = Ret true.
Proof.
  intros Ps A Sm.
  assert (T : returns (normalizeFormula t))
    by (destruct Sm as (n & _ & T); now exists n).
  destruct (isProved_returns s t Ps T) as [[|] E]; [exact E|].
  destruct (isProved_false s t E) as [_ H].
  destruct (H g A) as [_ N]. now elim N.
Qed.

Lemma astToString_inj t1 t2 :
  wfAST t1 = true -> wfAST t2 = true ->
  astToString t1 = astToString t2 -> t1 = t2.
Proof.
  intros W1 W2 E.
  pose proof (parseFormulaFromString_render t1 W1) as R1.
  pose proof (parseFormulaFromString_render t2 W2) as R2.
  rewrite E in R1. congruence.
Qed.

Lemma sameFormula_ast f g :
  sameFormula f g
  <-> exists pf pg, parseFormula f = Ret pf /\ parseFormula g = Ret pg
                    /\ ast pf = ast pg.
Proof.
  unfold sameFormula, normalizeFormula. split.
  - intros (n & F & G).
    apply obind_Ret in F as (pf & Pf & F). apply obind_Ret in G as (pg & Pg & G).
    exists pf, pg. split; [exact Pf|]. split; [exact Pg|].
    injection F as F. injection G as G. unfold pf_toString in *.
    apply astToString_inj; [exact (parseFormula_wf f pf Pf)
                           | exact (parseFormula_wf g pg Pg) | congruence].
  - intros (pf & pg & Pf & Pg & E). exists (pf_toString pf).
    rewrite Pf, Pg. unfold pf_toString. cbn [obind]. rewrite E. now split.
Qed.

(** X19.  In a state all of whose formulas parse, [isProved] answers true
    exactly when a fact or the formula of a step has the normal form of
    the target; in any state an answer true is given for that reason only,
    and an answer false means that the target and every fact and step
    formula parse and none has its normal form.  Two strings have the same
    normal form exactly when they parse to the same tree once double
    negations are removed. *)
Theorem X19_proved_is_same_normal_form :
  (forall s t, isProved s t = Ret true ->
               exists g, available s g /\ sameFormula g t)
  /\ (forall s t, isProved s t = Ret false ->
                  parses t
                  /\ forall g, available s g -> parses g /\ ~ sameFormula g t)
  /\ (forall s t g, parseableState s -> available s g -> sameFormula g t ->
                    isProved s t = Ret true)
  /\ (forall f g,
         sameFormula f g
         <-> exists pf pg, parseFormula f = Ret pf /\ parseFormula g = Ret pg
                           /\ ast pf = ast pg).
Proof.
  split; [exact isProved_true|]. split; [exact isProved_false|].
  split; [exact isProved_complete | exact sameFormula_ast].
Qed.

Lemma X19_proved_is_same_normal_form_witness :
  isProved (mkSystem [fact "A"; fact "~~(B -> A)"] [js "C"] [] [])
           (js "( B IMPLIES A )")
  = Ret true.
Proof.
  apply (proj1 (proj2 (proj2 X19_proved_is_same_normal_form))
               (mkSystem [fact "A"; fact "~~(B -> A)"] [js "C"] [] [])
               (js "( B IMPLIES A )") (js "~~(B -> A)")).
  - split.
    + constructor; [|constructor]. eexists. vm_compute. reflexivity.
    + constructor; [|constructor; [|constructor]];
        (constructor; [|constructor]); eexists; vm_compute; reflexivity.
  - right. exists (fact "~~(B -> A)"). split; [right; left; reflexivity|].
    left. reflexivity.
  - eexists. split; vm_compute; reflexivity.
Defined.

(** ** The steps that hold a formula *)

Lemma ofilter_spec {A} (f : A -> Outcome bool) l r :
  ofilter f l = Ret r ->
  r = filter (fun x => match f x with Ret true => true | _ => false end) l
  /\ forall x, In x l -> returns (f x).
Proof.
  revert r. induction l as [|x l IH]; intros r; simpl.
  - intros E. injection E as <-. split; [reflexivity|]. intros y [].
  - destruct (f x) as [b| |] eqn:Fx; simpl; try discriminate.
    destruct (ofilter f l) as [rest| |]; simpl; try discriminate.
    intros E. injection E as <-. destruct (IH rest eq_refl) as [-> R]. split.
    + now destruct b.
    + intros y [<-|Hy]; [now exists b | now apply R].
Qed.

Lemma findStepsContaining_spec s t l :
  findStepsContaining s t = Ret l ->
  parses t
  /\ (exists keep, l = filter keep (steps s))
  /\ (forall st, In st l
                 <-> In st (steps s)
                     /\ exists g, In g (formulas st) /\ sameFormula g t).
Proof.
  unfold findStepsContaining. intros E. apply obind_Ret in E as (n & T & E).
  apply ofilter_spec in E as [-> R].
  split; [now apply normalizeFormula_parses with n|].
  split; [now eexists|].
  intros st. rewrite filter_In. split.
  - intros [I K]. split; [exact I|].
    destruct (oexists _ (formulas st)) as [[|]| |] eqn:X; try discriminate.
    apply oexists_true in X as (g & Hg & Eg). exists g. split; [exact Hg|].
    now apply same_true with n.
  - intros [I (g & Hg & Sm)]. split; [exact I|].
    destruct (R st I) as [[|] X]; rewrite X; [reflexivity|].
    pose proof (oexists_false _ _ X g Hg) as Y. cbv beta in Y.
    destruct (same_false g n t T Y) as [_ N]. now elim N.
Qed.

(** X20.  [findStepsContaining] returns, in their order, the steps that
    hold a formula with the normal form of the one asked for, and no
    other.  When it and [isProved] both answer, the formula is proved
    exactly when a fact has its normal form or a step is found. *)
Theorem X20_findStepsContaining (s : GentzenSystem) (t : jsstring)
        (l : list Step) :
  findStepsContaining s t = Ret l ->
  (exists keep, l = filter keep (steps s))
  /\ (forall st, In st l
                 <-> In st (steps s)
                     /\ exists g, In g (formulas st) /\ sameFormula g t)
  /\ (forall b, isProved s t = Ret b ->
                (b = true
                 <-> (exists g, In g (facts s) /\ sameFormula g t) \/ l <> [])).
Proof.
  intros E. destruct (findStepsContaining_spec s t l E) as (_ & K & M).
  split; [exact K|]. split; [exact M|].
  intros [|] P.
  - split; [|reflexivity]. intros _.
    apply isProved_true in P as (g & [Hg|(st & Hst & Hg)] & Sm).
    + left. now exists g.
    + right. intros ->. apply (proj2 (M st)). split; [exact Hst|]. now exists g.
  - split; [discriminate|]. apply isProved_false in P as [_ N].
    intros [(g & Hg & Sm)|Hl].
    + destruct (N g (or_introl Hg)) as [_ X]. now elim X.
    + destruct l as [|st l']; [now elim Hl|].
      destruct (proj1 (M st) (or_introl eq_refl)) as (Hst & g & Hg & Sm).
      destruct (N g (or_intror (ex_intro _ st (conj Hst Hg)))) as [_ X].
      now elim X.
Qed.

Lemma X20_findStepsContaining_witness :
  exists keep,
    [fact "~~(B -> A)"]
    = filter keep (steps (mkSystem [fact "A"; fact "~~(B -> A)"] [] [] [])).
Proof.
  exact (proj1 (X20_findStepsContaining
                  (mkSystem [fact "A"; fact "~~(B -> A)"] [] [] [])
                  (js "B IMPLIES A") [fact "~~(B -> A)"]
                  ltac:(vm_compute; reflexivity))).
Defined.

(** ** What a rule leaves *)

Lemma rule_pushes c n c' :
  (exists s1 s2 rt, alphaRule s1 s2 rt c = (Ret n, c'))
  \/ (exists s1 s2, betaRule s1 s2 c = (Ret n, c'))
  \/ (exists s1 s2, equivalenceRule s1 s2 c = (Ret n, c'))
  \/ (exists s, contrapositionRule s c = (Ret n, c'))
  \/ (exists s mode, doubleNegationRule s mode c = (Ret n, c')) ->
  c' = pushed c n /\ exists f, formulas n = [f].
Proof.
  unfold alphaRule, betaRule, equivalenceRule, contrapositionRule,
    doubleNegationRule, mbind, lift, pushStep, mret.
  intros [(s1 & s2 & rt & E)|[(s1 & s2 & E)|[(s1 & s2 & E)|[(s & E)
         |(s & mode & E)]]]].
  - destruct (getUniqueFormula s1) as [A| |]; try discriminate.
    destruct (getUniqueFormula s2) as [B| |]; try discriminate.
    destruct (JsString.eqb rt (js "and"));
      [|destruct (JsString.eqb rt (js "implies")); [|discriminate]];
      injection E as <- <-; (split; [reflexivity | now eexists]).
  - destruct (getUniqueFormula s1) as [A| |]; try discriminate.
    destruct (getUniqueFormula s2) as [B| |]; try discriminate.
    injection E as <- <-. split; [reflexivity | now eexists].
  - destruct (getUniqueFormula s1) as [A| |]; try discriminate.
    destruct (getUniqueFormula s2) as [B| |]; try discriminate.
    injection E as <- <-. split; [reflexivity | now eexists].
  - destruct (getUniqueFormula s) as [f| |]; try discriminate.
    destruct (parseFormula f) as [pf| |]; try discriminate.
    destruct (negb (isImplication (ast pf))); try discriminate.
    destruct (getImplicationParts (ast pf)) as [[a b]|]; try discriminate.
    injection E as <- <-. split; [reflexivity | now eexists].
  - destruct (getUniqueFormula s) as [f| |]; try discriminate.
    injection E as <- <-. split; [reflexivity | now eexists].
Qed.

Lemma rule_concludes c n c' :
  parseableState c' ->
  c' = pushed c n /\ (exists f, formulas n = [f]) ->
  concludes c n c'.
Proof.
  intros P' [-> (f & F)]. split; [reflexivity|]. split; [exact P'|].
  exists f. split; [exact F|].
  assert (Pf : parses f).
  { destruct P' as [_ S]. unfold pushed in S. cbn [steps] in S.
    apply Forall_app in S as [_ S]. apply Forall_inv in S. rewrite F in S.
    now apply Forall_inv in S. }
  apply isProved_complete with f; [exact P'| |].
  - right. exists n. split.
    + unfold pushed. cbn [steps]. apply in_or_app. right. now left.
    + rewrite F. now left.
  - destruct (parses_normalizeFormula f Pf) as [k K]. now exists k.
Qed.

(** X21.  What a rule derives is proved in the state it leaves.  When one
    of the five rules returns a step, in a state whose formulas parse and
    on steps whose formulas parse, the state it leaves is the old one with
    that step at the end, its formulas parse again, and [isProved] answers
    true for the formula of the new step. *)
Theorem X21_rules_conclude (c c' : GentzenSystem) (n : Step) :
  parseableState c ->
  (forall s1 s2 rt,
      Forall parses (formulas s1) -> Forall parses (formulas s2) ->
      alphaRule s1 s2 rt c = (Ret n, c') -> concludes c n c')
  /\ (forall s1 s2,
         Forall parses (formulas s1) -> Forall parses (formulas s2) ->
         betaRule s1 s2 c = (Ret n, c') -> concludes c n c')
  /\ (forall s1 s2,
         Forall parses (formulas s1) -> Forall parses (formulas s2) ->
         equivalenceRule s1 s2 c = (Ret n, c') -> concludes c n c')
  /\ (forall s, contrapositionRule s c = (Ret n, c') -> concludes c n c')
  /\ (forall s mode,
         Forall parses (formulas s) ->
         doubleNegationRule s mode c = (Ret n, c') -> concludes c n c').
Proof.
  intros Pc. split; [|split; [|split; [|split]]].
  - intros s1 s2 rt P1 P2 E. apply rule_concludes.
    + now apply (alphaRule_parseable s1 s2 rt c n c').
    + apply rule_pushes. left. now exists s1, s2, rt.
  - intros s1 s2 P1 P2 E. apply rule_concludes.
    + now apply (betaRule_parseable s1 s2 c n c').
    + apply rule_pushes. right. left. now exists s1, s2.
  - intros s1 s2 P1 P2 E. apply rule_concludes.
    + now apply (equivalenceRule_parseable s1 s2 c n c').
    + apply rule_pushes. right. right. left. now exists s1, s2.
  - intros s E. apply rule_concludes.
    + now apply (contrapositionRule_parseable s c n c').
    + apply rule_pushes. right. right. right. left. now exists s.
  - intros s mode P1 E. apply rule_concludes.
    + now apply (doubleNegationRule_parseable s mode c n c').
    + apply rule_pushes. right. right. right. right. now exists s, mode.
Qed.

Lemma X21_rules_conclude_witness :
  exists n c',
    contrapositionRule (fact "A -> B")
      (mkSystem [fact "A"; fact "A -> B"] [] [] []) = (Ret n, c')
    /\ concludes (mkSystem [fact "A"; fact "A -> B"] [] [] []) n c'.
Proof.
  eexists. eexists. split; [vm_compute; reflexivity|].
  refine (proj1 (proj2 (proj2 (proj2
            (X21_rules_conclude (mkSystem [fact "A"; fact "A -> B"] [] [] [])
               _ _ _)))) (fact "A -> B") _).
  - split; [constructor|].
    constructor; [|constructor; [|constructor]];
      (constructor; [|constructor]); eexists; vm_compute; reflexivity.
  - vm_compute. reflexivity.
Defined.

(** ** The atoms a formula needs *)

Lemma collectAtoms_Forall (P : jsstring -> Prop) t :
  (forall name, In (AtomNode name) (preorder t) -> P name) ->
  forall atoms, Forall P atoms -> Forall P (collectAtoms t atoms).
Proof.
  intros H atoms F. apply Forall_forall. intros a Ha.
  apply collectAtoms_In in Ha as [Ha|Ha].
  - exact (proj1 (Forall_forall _ _) F a Ha).
  - now apply H.
Qed.

Lemma wfAST_atoms t :
  wfAST t = true ->
  forall name, In (AtomNode name) (preorder t) -> lexerName name = true.
Proof.
  induction t as [n|o t IH|o l IHl r IHr]; simpl; intros W name.
  - intros [H|[]]. now injection H as <-.
  - apply andb_true_iff in W as [_ W]. intros [H|H]; [discriminate|].
    now apply IH.
  - apply andb_true_iff in W as [W Wr]. apply andb_true_iff in W as [_ Wl].
    intros [H|H]; [discriminate|]. apply in_app_or in H as [H|H].
    + now apply IHl.
    + now apply IHr.
Qed.

Lemma atomName_plain a :
  isAtomName a = true ->
  JsString.startsWith a [c_tilde] = false /\ stripLeadingTildes a = a.
Proof.
  destruct a as [|c a]; [discriminate|]. intros H.
  apply andb_true_iff in H as [L _].
  assert (N : (c =? c_tilde)%N = false).
  { apply N.eqb_neq. intros ->. discriminate L. }
  split.
  - destruct (JsString.startsWith (c :: a) [c_tilde]) eqn:S; [|reflexivity].
    apply startsWith_iff in S as [r S]. injection S as -> _.
    now rewrite N.eqb_refl in N.
  - unfold stripLeadingTildes. cbn [JsString.dropWhile]. now rewrite N.
Qed.

Lemma isAtomResolvable_name this a :
  isAtomName a = true ->
  isAtomResolvable this a
  = isFactAvailable this a || isFactAvailable this (c_tilde :: a).
Proof.
  intros H. destruct (atomName_plain a H) as [S _].
  unfold isAtomResolvable. rewrite S. now destruct (isFactAvailable this a).
Qed.

Lemma parsed_atoms_named formula pf :
  parseFormula formula = Ret pf ->
  Forall (fun a => isAtomName a = true) (getAtoms (ast pf)).
Proof.
  intros P. apply parseFormula_wf in P. unfold getAtoms.
  apply collectAtoms_Forall; [|constructor].
  intros name H. apply lexerName_atomName. now apply wfAST_atoms with (ast pf).
Qed.

(** X22.  [canResolveFormula] looks at the atoms of the formula and at
    nothing else of it.  When it returns, [missing] lists, in the order of
    [extractFormulaAtoms] and each once, the atoms such that neither the
    atom nor the atom after a tilde is a fact or a step formula; they are
    names, no tilde is ever stripped from them; and [canResolve] is true
    exactly when the list is empty.  It returns whenever the formula
    parses. *)
Theorem X22_canResolveFormula_by_atoms (this : GentzenSystem)
        (formula : jsstring) :
  (forall canResolve missing,
      canResolveFormula this formula = Ret (canResolve, missing) ->
      exists atoms,
        extractFormulaAtoms formula = Ret atoms
        /\ missing
           = filter (fun a => negb (isFactAvailable this a
                                    || isFactAvailable this (c_tilde :: a)))
                    atoms
        /\ (canResolve = true <-> missing = [])
        /\ NoDup missing
        /\ Forall (fun a => isAtomName a = true) missing
        /\ (forall a, In a missing
                      <-> In a atoms /\ ~ available this a
                          /\ ~ available this (c_tilde :: a)))
  /\ (parses formula -> returns (canResolveFormula this formula)).
Proof.
  unfold canResolveFormula, extractMissingFactsFromFormula, extractFormulaAtoms.
  split.
  - intros canResolve missing E. apply obind_Ret in E as (pf & P & E).
    rewrite P. cbn [obind]. exists (getAtoms (ast pf)).
    split; [reflexivity|].
    pose proof (parsed_atoms_named formula pf P) as Nm.
    assert (M : map stripLeadingTildes
                    (filter (fun atom => negb (isAtomResolvable this atom))
                            (getAtoms (ast pf)))
                = filter (fun a => negb (isFactAvailable this a
                                         || isFactAvailable this (c_tilde :: a)))
                         (getAtoms (ast pf))).
    { rewrite (filter_ext_in _
                 (fun a => negb (isFactAvailable this a
                                 || isFactAvailable this (c_tilde :: a)))).
      - rewrite <- (map_id (filter _ _)) at 2. apply map_ext_in.
        intros a Ha. apply filter_In in Ha as [Ha _].
        apply (proj1 (Forall_forall _ _) Nm) in Ha.
        now destruct (atomName_plain a Ha).
      - intros a Ha. apply (proj1 (Forall_forall _ _) Nm) in Ha.
        now rewrite isAtomResolvable_name. }
    rewrite M in E. injection E as <- <-.
    split; [reflexivity|]. split.
    { clear M.
      destruct (filter _ (getAtoms (ast pf))) as [|x l]; split; intros X;
        first [reflexivity | discriminate X]. }
    split.
    { apply NoDup_filter. apply collectAtoms_NoDup. constructor. }
    split.
    { apply Forall_forall. intros a Ha. apply filter_In in Ha as [Ha _].
      exact (proj1 (Forall_forall _ _) Nm a Ha). }
    intros a. rewrite filter_In, negb_true_iff, orb_false_iff.
    now rewrite !isFactAvailable_false.
  - intros [pf P]. rewrite P. cbn [obind]. now eexists.
Qed.

Lemma X22_canResolveFormula_by_atoms_witness :
  returns (canResolveFormula (mkSystem [fact "A"] [js "~R"] [] [])
                             (js "A & (Q | ~R) & Q")).
Proof.
  apply (proj2 (X22_canResolveFormula_by_atoms
                  (mkSystem [fact "A"] [js "~R"] [] [])
                  (js "A & (Q | ~R) & Q"))).
  eexists. vm_compute. reflexivity.
Defined.

(** ** The atoms a scenario refers to *)

Lemma addAtomsOf_app l1 l2 acc :
  addAtomsOf (l1 ++ l2) acc = (r <- addAtomsOf l1 acc ;; addAtomsOf l2 r).
Proof.
  revert acc. induction l1 as [|f l1 IH]; intros acc; simpl; [reflexivity|].
  destruct (addFormulaAtomsToSet f acc) as [a| |]; simpl; [apply IH| |];
    reflexivity.
Qed.

Lemma addAtomsOfSteps_flat stepList acc :
  addAtomsOfSteps stepList acc
  = addAtomsOf (flat_map (fun step => match sc_from step with
                                      | Some from => from
                                      | None => []
                                      end) stepList) acc.
Proof.
  revert acc. induction stepList as [|st l IH]; intros acc; simpl;
    [reflexivity|].
  rewrite addAtomsOf_app. destruct (sc_from st) as [from|]; simpl.
  - destruct (addAtomsOf from acc) as [a| |]; simpl; [apply IH| |];
      reflexivity.
  - apply IH.
Qed.

Lemma collectReferencedAtoms_flat scenario :
  collectReferencedAtoms scenario
  = addAtomsOf (referencedFormulas scenario)
               (set_of_list (sc_propositions scenario)).
Proof.
  unfold collectReferencedAtoms, referencedFormulas. cbv zeta.
  now rewrite addAtomsOf_app, addAtomsOfSteps_flat.
Qed.

Lemma fold_set_add_NoDup l :
  forall acc, NoDup acc -> NoDup (fold_left (fun s y => set_add y s) l acc).
Proof.
  induction l as [|a l IH]; intros acc N; simpl; [exact N|].
  apply IH. now apply set_add_NoDup.
Qed.

Lemma addAtomsOf_Ret l :
  forall acc r,
    addAtomsOf l acc = Ret r ->
    Forall parses l
    /\ (NoDup acc -> NoDup r)
    /\ forall a, In a r
                 <-> In a acc
                     \/ exists f atoms, In f l
                                        /\ extractFormulaAtoms f = Ret atoms
                                        /\ In a atoms.
Proof.
  induction l as [|f l IH]; intros acc r; simpl.
  - intros E. injection E as <-. split; [constructor|]. split; [auto|].
    intros a. split; [now left|]. intros [H|(f & atoms & [] & _)]. exact H.
  - intros E. apply obind_Ret in E as (acc' & A & E).
    unfold addFormulaAtomsToSet in A. apply obind_Ret in A as (pf & P & A).
    injection A as <-. destruct (IH _ _ E) as (Pl & N & M).
    split; [constructor; [now exists pf | exact Pl]|]. split.
    + intros Na. apply N. now apply fold_set_add_NoDup.
    + intros a. rewrite M, fold_set_add_In. unfold extractFormulaAtoms. split.
      * intros [[H|H]|(g & atoms & Hg & Eg & Ha)].
        -- now left.
        -- right. exists f, (getAtoms (ast pf)). rewrite P. auto.
        -- right. exists g, atoms. auto.
      * intros [H|(g & atoms & [<-|Hg] & Eg & Ha)].
        -- left. now left.
        -- rewrite P in Eg. injection Eg as <-. left. now right.
        -- right. exists g, atoms. auto.
Qed.

Lemma addAtomsOf_returns l :
  Forall parses l -> forall acc, returns (addAtomsOf l acc).
Proof.
  induction 1 as [|f l [pf P] _ IH]; intros acc; simpl; [now eexists|].
  unfold addFormulaAtomsToSet. rewrite P. cbn [obind]. apply IH.
Qed.

Lemma addAtomsOf_throws l :
  forall acc e, addAtomsOf l acc = Throw e -> isSyntaxError e.
Proof.
  induction l as [|f l IH]; intros acc e; simpl; [discriminate|].
  intros E. apply obind_Throw in E as [E|(acc' & _ & E)]; [|now apply IH in E].
  unfold addFormulaAtomsToSet in E.
  apply obind_Throw in E as [E|(pf & _ & E)]; [|discriminate].
  now apply parseFormula_throws in E.
Qed.

Lemma addAtomsOf_terminates l :
  forall acc, terminates (addAtomsOf l acc).
Proof.
  induction l as [|f l IH]; intros acc; simpl; [discriminate|].
  apply obind_terminates; [|intros a _; apply IH].
  unfold addFormulaAtomsToSet.
  apply obind_terminates; [apply parseFormula_terminates|].
  intros a _. discriminate.
Qed.

(** X23.  [collectReferencedAtoms] returns exactly when every formula of
    a [from] array and every target parses, and throws a syntax error
    otherwise.  What it returns holds each name once: the propositions of
    the scenario as they are written, and the atoms of those formulas. *)
Theorem X23_referenced_atoms (scenario : Scenario) :
  (returns (collectReferencedAtoms scenario)
   <-> Forall parses (referencedFormulas scenario))
  /\ (forall e, collectReferencedAtoms scenario = Throw e -> isSyntaxError e)
  /\ terminates (collectReferencedAtoms scenario)
  /\ (forall r,
         collectReferencedAtoms scenario = Ret r ->
         NoDup r
         /\ forall a,
              In a r
              <-> In a (sc_propositions scenario)
                  \/ exists f atoms,
                       In f (referencedFormulas scenario)
                       /\ extractFormulaAtoms f = Ret atoms /\ In a atoms).
Proof.
  rewrite collectReferencedAtoms_flat. split; [|split; [|split]].
  - split.
    + intros [r E]. now apply addAtomsOf_Ret in E.
    + intros H. now apply addAtomsOf_returns.
  - intros e. apply addAtomsOf_throws.
  - apply addAtomsOf_terminates.
  - intros r E. apply addAtomsOf_Ret in E as (_ & N & M). split.
    + apply N, set_of_list_NoDup.
    + intros a. now rewrite M, set_of_list_In.
Qed.

(** ** The steps of a scenario *)

Lemma sameTest_terminates n g :
  terminates (normalized <- normalizeFormula g ;;
              Ret (JsString.eqb normalized n)).
Proof.
  apply obind_terminates; [apply normalizeFormula_terminates|].
  intros a _. discriminate.
Qed.

Lemma sameTest_throws n g e :
  (normalized <- normalizeFormula g ;; Ret (JsString.eqb normalized n))
  = Throw e ->
  isSyntaxError e.
Proof.
  intros E. apply obind_Throw in E as [E|(a & _ & E)]; [|discriminate].
  now apply normalizeFormula_throws in E.
Qed.

Lemma sameTest_returns n g :
  parses g ->
  returns (normalized <- normalizeFormula g ;;
           Ret (JsString.eqb normalized n)).
Proof.
  intros P. destruct (parses_normalizeFormula g P) as [k K]. rewrite K.
  now eexists.
Qed.

Lemma ofilter_terminates {A} (f : A -> Outcome bool) l :
  (forall x, In x l -> terminates (f x)) -> terminates (ofilter f l).
Proof.
  induction l as [|x l IH]; intros H; simpl; [discriminate|].
  apply obind_terminates; [apply H; now left|]. intros b _.
  apply obind_terminates; [apply IH; intros y Hy; apply H; now right|].
  intros r _. discriminate.
Qed.

Lemma ofilter_returns {A} (f : A -> Outcome bool) l :
  (forall x, In x l -> returns (f x)) -> returns (ofilter f l).
Proof.
  induction l as [|x l IH]; intros H; simpl; [now eexists|].
  apply obind_returns; [apply H; now left|]. intros b _.
  apply obind_returns; [apply IH; intros y Hy; apply H; now right|].
  intros r _. now eexists.
Qed.

Lemma ofilter_throws {A} (P : Error -> Prop) (f : A -> Outcome bool) l e :
  (forall x e, In x l -> f x = Throw e -> P e) ->
  ofilter f l = Throw e -> P e.
Proof.
  induction l as [|x l IH]; intros H; simpl; [discriminate|]. intros E.
  apply obind_Throw in E as [E|(b & _ & E)];
    [apply (H x e); [now left | exact E]|].
  apply obind_Throw in E as [E|(r & _ & E)]; [|discriminate].
  apply IH; [|exact E]. intros y e0 Hy. apply H. now right.
Qed.

Lemma findStepsContaining_terminates this formula :
  terminates (findStepsContaining this formula).
Proof.
  unfold findStepsContaining.
  apply obind_terminates; [apply normalizeFormula_terminates|]. intros n _.
  apply ofilter_terminates. intros st _. apply oexists_terminates.
  intros g _. apply sameTest_terminates.
Qed.

Lemma findStepsContaining_throws this formula e :
  findStepsContaining this formula = Throw e -> isSyntaxError e.
Proof.
  unfold findStepsContaining. intros E.
  apply obind_Throw in E as [E|(n & _ & E)];
    [now apply normalizeFormula_throws in E|].
  revert E. apply ofilter_throws. intros st e0 _.
  apply oexists_throws. intros g. apply sameTest_throws.
Qed.

Lemma findStepsContaining_returns this formula :
  parseableState this -> parses formula ->
  returns (findStepsContaining this formula).
Proof.
  intros [_ S] P. unfold findStepsContaining.
  apply obind_returns; [now apply parses_normalizeFormula|]. intros n _.
  apply ofilter_returns. intros st Hst. apply oexists_returns.
  intros g Hg. apply sameTest_returns.
  pose proof (proj1 (Forall_forall _ _) S st Hst) as Ps.
  exact (proj1 (Forall_forall _ _) Ps g Hg).
Qed.

Lemma canResolveFormula_throws this formula e :
  canResolveFormula this formula = Throw e -> isSyntaxError e.
Proof.
  unfold canResolveFormula, extractMissingFactsFromFormula. intros E.
  apply obind_Throw in E as [E|(pf & _ & E)]; [|discriminate].
  now apply parseFormula_throws in E.
Qed.

Lemma canResolveFormula_returns this formula :
  parses formula -> returns (canResolveFormula this formula).
Proof.
  intros [pf P]. unfold canResolveFormula, extractMissingFactsFromFormula.
  rewrite P. now eexists.
Qed.

Lemma resolveFrom_terminates this from :
  forall missingFacts stepObjects,
    terminates (resolveFrom this from missingFacts stepObjects).
Proof.
  induction from as [|formula rest IH]; intros m o; simpl; [discriminate|].
  destruct (existsb _ (facts this)); [apply IH|].
  apply obind_terminates; [apply findStepsContaining_terminates|].
  intros [|first l] _; [|apply IH].
  apply obind_terminates; [apply canResolveFormula_terminates|].
  intros [[|] missing] _; simpl; apply IH.
Qed.

Lemma resolveFrom_throws this from :
  forall missingFacts stepObjects e,
    resolveFrom this from missingFacts stepObjects = Throw e ->
    isSyntaxError e.
Proof.
  induction from as [|formula rest IH]; intros m o e; simpl; [discriminate|].
  destruct (existsb _ (facts this)); [apply IH|]. intros E.
  apply obind_Throw in E as [E|([|first l] & _ & E)];
    [now apply findStepsContaining_throws in E | | now apply IH in E].
  apply obind_Throw in E as [E|([[|] missing] & _ & E)];
    [now apply canResolveFormula_throws in E | |]; simpl in E;
    now apply IH in E.
Qed.

Lemma resolveFrom_returns this from :
  parseableState this -> Forall parses from ->
  forall missingFacts stepObjects,
    returns (resolveFrom this from missingFacts stepObjects).
Proof.
  intros Ps. induction 1 as [|formula rest P _ IH]; intros m o; simpl;
    [now eexists|].
  destruct (existsb _ (facts this)); [apply IH|].
  apply obind_returns; [now apply findStepsContaining_returns|].
  intros [|first l] _; [|apply IH].
  apply obind_returns; [now apply canResolveFormula_returns|].
  intros [[|] missing] _; simpl; apply IH.
Qed.

Lemma resolveFrom_objects this from :
  parseableState this ->
  forall missingFacts stepObjects missingFacts' stepObjects',
    resolveFrom this from missingFacts stepObjects
    = Ret (missingFacts', stepObjects') ->
    Forall (fun st => Forall parses (formulas st)) stepObjects ->
    Forall (fun st => Forall parses (formulas st)) stepObjects'.
Proof.
  intros [F S].
  induction from as [|formula rest IH]; intros m o m' o'; simpl.
  - intros E. now injection E as <- <-.
  - destruct (existsb _ (facts this)) eqn:X.
    + intros E Ho. apply (IH _ _ _ _ E). apply Forall_app. split; [exact Ho|].
      constructor; [|constructor]. cbn [formulas factRef].
      constructor; [|constructor].
      apply existsb_exists in X as (g & Hg & Eg).
      apply JsString_eqb_eq in Eg. subst g.
      exact (proj1 (Forall_forall _ _) F formula Hg).
    + intros E Ho. apply obind_Ret in E as ([|first l] & Fd & E).
      * apply obind_Ret in E as ([[|] missing] & _ & E); simpl in E;
          now apply (IH _ _ _ _ E).
      * apply (IH _ _ _ _ E). apply Forall_app. split; [exact Ho|].
        constructor; [|constructor].
        apply findStepsContaining_spec in Fd as (_ & _ & M).
        destruct (proj1 (M first) (or_introl eq_refl)) as [Hf _].
        exact (proj1 (Forall_forall _ _) S first Hf).
Qed.

Lemma rule_throws_same c e c' :
  (exists s1 s2 rt, alphaRule s1 s2 rt c = (Throw e, c'))
  \/ (exists s1 s2, betaRule s1 s2 c = (Throw e, c'))
  \/ (exists s1 s2, equivalenceRule s1 s2 c = (Throw e, c'))
  \/ (exists s, contrapositionRule s c = (Throw e, c'))
  \/ (exists s mode, doubleNegationRule s mode c = (Throw e, c')) ->
  c' = c.
Proof.
  unfold alphaRule, betaRule, equivalenceRule, contrapositionRule,
    doubleNegationRule, mbind, lift, pushStep, mret.
  intros [(s1 & s2 & rt & E)|[(s1 & s2 & E)|[(s1 & s2 & E)|[(s & E)
         |(s & mode & E)]]]].
  - destruct (getUniqueFormula s1); try (now injection E).
    destruct (getUniqueFormula s2); try (now injection E).
    destruct (JsString.eqb rt (js "and")); [discriminate|].
    destruct (JsString.eqb rt (js "implies")); [discriminate|].
    now injection E.
  - destruct (getUniqueFormula s1); try (now injection E).
    destruct (getUniqueFormula s2); now injection E.
  - destruct (getUniqueFormula s1); try (now injection E).
    destruct (getUniqueFormula s2); now injection E.
  - destruct (getUniqueFormula s); try (now injection E).
    destruct (parseFormula a) as [pf| |]; try (now injection E).
    destruct (negb (isImplication (ast pf))); [now injection E|].
    destruct (getImplicationParts (ast pf)) as [[x y]|];
      [discriminate | now injection E].
  - destruct (getUniqueFormula s); now injection E.
Qed.

Lemma tryRule_spec m this o this' :
  terminates (fst (m this)) ->
  (forall e c', m this = (Throw e, c') -> c' = this) ->
  (forall n c', m this = (Ret n, c') ->
                c' = pushed this n /\ exists f, formulas n = [f]) ->
  tryRule m this = (o, this') ->
  o = Ret tt
  /\ (this' = this
      \/ exists n f, m this = (Ret n, this') /\ this' = pushed this n
                     /\ formulas n = [f]).
Proof.
  intros T Th Rt. unfold tryRule.
  destruct (m this) as [[n|e|] c'] eqn:E; intros H.
  - injection H as <- <-. split; [reflexivity|]. right.
    destruct (Rt n c' eq_refl) as [-> (f & F)]. now exists n, f.
  - injection H as <- <-. split; [reflexivity|]. left.
    now apply (Th e).
  - now elim T.
Qed.

Lemma applyRule_spec rule subtype stepObjects this o this' :
  applyRule rule subtype stepObjects this = (o, this') ->
  o = Ret tt
  /\ (this' = this \/ exists n f, this' = pushed this n /\ formulas n = [f])
  /\ (parseableState this ->
      Forall (fun st => Forall parses (formulas st)) stepObjects ->
      parseableState this').
Proof.
  assert (Same : forall o this', mret tt this = (o, this') ->
             o = Ret tt
             /\ (this' = this
                 \/ exists n f, this' = pushed this n /\ formulas n = [f])
             /\ (parseableState this ->
                 Forall (fun st => Forall parses (formulas st)) stepObjects ->
                 parseableState this')).
  { intros o0 c0 H. injection H as <- <-. auto. }
  assert (Fin : forall m,
             terminates (fst (m this)) ->
             (forall e c', m this = (Throw e, c') -> c' = this) ->
             (forall n c', m this = (Ret n, c') ->
                           c' = pushed this n /\ exists f, formulas n = [f]) ->
             (forall n c', m this = (Ret n, c') -> parseableState this ->
                           Forall (fun st => Forall parses (formulas st))
                                  stepObjects ->
                           parseableState c') ->
             tryRule m this = (o, this') ->
             o = Ret tt
             /\ (this' = this
                 \/ exists n f, this' = pushed this n /\ formulas n = [f])
             /\ (parseableState this ->
                 Forall (fun st => Forall parses (formulas st)) stepObjects ->
                 parseableState this')).
  { intros m T Th Rt Pp H.
    destruct (tryRule_spec m this o this' T Th Rt H)
      as [Eo [Et|(n & f & E & Et & F)]].
    - split; [exact Eo|]. split; [now left|]. intros Ps _. now rewrite Et.
    - split; [exact Eo|]. split; [right; now exists n, f|].
      intros Ps Fo. now apply (Pp n). }
  unfold applyRule.
  destruct (JsString.eqb rule (js "alpha")).
  { destruct stepObjects as [|s0 [|s1 [|s2 l]]]; try apply Same.
    apply Fin.
    - apply alphaRule_terminates.
    - intros e c' E. apply (rule_throws_same this e c'). left. eauto.
    - intros n c' E. apply (rule_pushes this n c'). left. eauto.
    - intros n c' E Ps Fo.
      apply (alphaRule_parseable s0 s1 (orElse subtype (js "and")) this n c');
        auto.
      + now apply Forall_inv in Fo.
      + apply Forall_inv_tail in Fo. now apply Forall_inv in Fo. }
  destruct (JsString.eqb rule (js "beta")).
  { destruct stepObjects as [|s0 [|s1 [|s2 l]]]; try apply Same.
    apply Fin.
    - apply betaRule_terminates.
    - intros e c' E. apply (rule_throws_same this e c'). right. left. eauto.
    - intros n c' E. apply (rule_pushes this n c'). right. left. eauto.
    - intros n c' E Ps Fo.
      apply (betaRule_parseable s0 s1 this n c'); auto.
      + now apply Forall_inv in Fo.
      + apply Forall_inv_tail in Fo. now apply Forall_inv in Fo. }
  destruct (JsString.eqb rule (js "contraposition")).
  { destruct stepObjects as [|s0 [|s1 l]]; try apply Same.
    apply Fin.
    - apply contrapositionRule_terminates.
    - intros e c' E. apply (rule_throws_same this e c').
      right. right. right. left. eauto.
    - intros n c' E. apply (rule_pushes this n c').
      right. right. right. left. eauto.
    - intros n c' E Ps Fo.
      now apply (contrapositionRule_parseable s0 this n c'). }
  destruct (JsString.eqb rule (js "doubleNegation")).
  { destruct stepObjects as [|s0 [|s1 l]]; try apply Same.
    apply Fin.
    - apply doubleNegationRule_terminates.
    - intros e c' E. apply (rule_throws_same this e c').
      right. right. right. right. eauto.
    - intros n c' E. apply (rule_pushes this n c').
      right. right. right. right. eauto.
    - intros n c' E Ps Fo.
      apply (doubleNegationRule_parseable s0
               (orElse subtype (js "introduction")) this n c'); auto.
      now apply Forall_inv in Fo. }
  destruct (JsString.eqb rule (js "equivalence")).
  { destruct stepObjects as [|s0 [|s1 [|s2 l]]]; try apply Same.
    apply Fin.
    - apply equivalenceRule_terminates.
    - intros e c' E. apply (rule_throws_same this e c').
      right. right. left. eauto.
    - intros n c' E. apply (rule_pushes this n c').
      right. right. left. eauto.
    - intros n c' E Ps Fo.
      apply (equivalenceRule_parseable s0 s1 this n c'); auto.
      + now apply Forall_inv in Fo.
      + apply Forall_inv_tail in Fo. now apply Forall_inv in Fo. }
  apply Same.
Qed.

Lemma grew_refl this : grew this this [] [].
Proof.
  split; [now rewrite app_nil_r|]. split; [reflexivity|].
  split; [now rewrite app_nil_r|]. intros x. split; [now left|].
  intros [H|(s & [] & _)]. exact H.
Qed.

Lemma grew_trans a b c ad1 sk1 ad2 sk2 :
  grew a b ad1 sk1 -> grew b c ad2 sk2 -> grew a c (ad1 ++ ad2) (sk1 ++ sk2).
Proof.
  intros (S1 & F1 & K1 & M1) (S2 & F2 & K2 & M2).
  split; [now rewrite S2, S1, app_assoc|]. split; [congruence|].
  split; [now rewrite K2, K1, app_assoc|].
  intros x. rewrite M2, M1. split.
  - intros [[H|(s & Hs & Hx)]|(s & Hs & Hx)]; [now left | |];
      right; exists s; (split; [apply in_or_app; auto | exact Hx]).
  - intros [H|(s & Hs & Hx)]; [left; now left|].
    apply in_app_or in Hs as [Hs|Hs]; [left; right | right]; now exists s.
Qed.

Lemma loadStep_unfold index step this from :
  sc_from step = Some from ->
  loadStep index step this
  = match resolveFrom this from [] [] with
    | Ret (missing, stepObjects) =>
        if 0 <? length missing then
          (Ret tt,
           tracked (mkSystem (steps this) (facts this) (missingFacts this)
                      (skippedSteps this
                       ++ [mkSkipped (index + 1) (sc_rule step) from
                                     missing]))
                   missing)
        else if negb (length stepObjects =? length from) then (Ret tt, this)
        else applyRule (sc_rule step) (sc_subtype step) stepObjects this
    | Throw e => (Throw e, this)
    | Diverge => (Diverge, this)
    end.
Proof.
  intros F. unfold loadStep. rewrite F. unfold mbind at 1.
  destruct (resolveFrom this from [] []) as [[m o]| |]; try reflexivity.
  destruct (0 <? length m);
    [|destruct (negb (length o =? length from)); reflexivity].
  unfold mbind, pushSkipped. now rewrite trackAll_spec.
Qed.

Lemma loadStep_spec index step this o this' :
  loadStep index step this = (o, this') ->
  (o = Ret tt \/ exists e, o = Throw e /\ isSyntaxError e)
  /\ (exists added sk,
         grew this this' added sk
         /\ length added + length sk <= 1
         /\ Forall (fun n => exists f, formulas n = [f]) added
         /\ Forall (skippedOf index [step]) sk)
  /\ (parseableState this ->
      (forall from, sc_from step = Some from -> Forall parses from) ->
      o = Ret tt /\ parseableState this').
Proof.
  destruct (sc_from step) as [from|] eqn:F.
  2:{ unfold loadStep. rewrite F. intros H. injection H as <- <-.
      split; [now left|]. split; [|auto].
      exists [], []. split; [apply grew_refl|]. split; [simpl; lia|].
      split; constructor. }
  rewrite (loadStep_unfold index step this from F).
  pose proof (resolveFrom_terminates this from [] []) as T.
  destruct (resolveFrom this from [] []) as [[m objs]|e|] eqn:R;
    [| |now elim T].
  - destruct (0 <? length m) eqn:L.
    + intros H. injection H as <- <-. apply Nat.ltb_lt in L.
      split; [now left|]. split.
      * exists [], [mkSkipped (index + 1) (sc_rule step) from m].
        split.
        { split; [cbn; now rewrite app_nil_r|]. split; [reflexivity|].
          split; [reflexivity|]. intros x. unfold tracked.
          cbn [missingFacts]. rewrite fold_set_add_In. split.
          - intros [H|H]; [now left|]. right. eexists. split; [now left|].
            exact H.
          - intros [H|(s & [<-|[]] & H)]; [now left | now right]. }
        split; [simpl; lia|]. split; [constructor|].
        constructor; [|constructor]. split.
        { cbn. intros ->. simpl in L. lia. }
        exists 0, step. cbn. split; [lia|]. auto.
      * intros [Pf Ps] _. split; [reflexivity|]. split; assumption.
    + destruct (negb (length objs =? length from)).
      * intros H. injection H as <- <-. split; [now left|]. split; [|auto].
        exists [], []. split; [apply grew_refl|]. split; [simpl; lia|].
        split; constructor.
      * intros H. apply applyRule_spec in H as (-> & C & Pp).
        split; [now left|]. split.
        { destruct C as [->|(n & f & -> & Fn)].
          - exists [], []. split; [apply grew_refl|]. split; [simpl; lia|].
            split; constructor.
          - exists [n], []. split.
            + split; [reflexivity|]. split; [reflexivity|].
              split; [cbn; now rewrite app_nil_r|]. intros x.
              split; [now left|]. intros [H|(s & [] & _)]. exact H.
            + split; [simpl; lia|]. split; [|constructor].
              constructor; [now exists f | constructor]. }
        intros Ps Hf. split; [reflexivity|]. apply Pp; [exact Ps|].
        apply (resolveFrom_objects this from Ps _ _ _ _ R). constructor.
  - intros H. injection H as <- <-. split.
    + right. exists e. split; [reflexivity|].
      now apply resolveFrom_throws in R.
    + split.
      * exists [], []. split; [apply grew_refl|]. split; [simpl; lia|].
        split; constructor.
      * intros Ps Hf.
        destruct (resolveFrom_returns this from Ps (Hf from eq_refl) [] [])
          as [x X].
        rewrite X in R. discriminate.
Qed.

Lemma loadSteps_spec stepList :
  forall index this o this',
    loadSteps index stepList this = (o, this') ->
    (o = Ret tt \/ exists e, o = Throw e /\ isSyntaxError e)
    /\ (exists added sk,
           grew this this' added sk
           /\ length added + length sk <= length stepList
           /\ Forall (fun n => exists f, formulas n = [f]) added
           /\ Forall (skippedOf index stepList) sk)
    /\ (parseableState this -> fromParse stepList ->
        o = Ret tt /\ parseableState this').
Proof.
  induction stepList as [|step rest IH]; intros index this o this'.
  - intros H. injection H as <- <-. split; [now left|]. split; [|auto].
    exists [], []. split; [apply grew_refl|]. split; [simpl; lia|].
    split; constructor.
  - cbn [loadSteps]. unfold mbind at 1.
    destruct (loadStep index step this) as [o1 this1] eqn:L1.
    destruct (loadStep_spec index step this o1 this1 L1)
      as (O1 & (ad1 & sk1 & G1 & N1 & A1 & K1) & P1).
    assert (K1' : Forall (skippedOf index (step :: rest)) sk1).
    { revert K1. apply Forall_impl.
      intros s (Hm & k & st & Hi & Hn & Hs). split; [exact Hm|].
      exists k, st. split; [exact Hi|]. split; [|exact Hs].
      destruct k as [|k]; [exact Hn|]. now destruct k. }
    destruct o1 as [[]|e|].
    + intros H. destruct (IH (index + 1) this1 o this' H)
        as (O2 & (ad2 & sk2 & G2 & N2 & A2 & K2) & P2).
      split; [exact O2|]. split.
      * exists (ad1 ++ ad2), (sk1 ++ sk2).
        split; [now apply grew_trans with this1|].
        split; [rewrite !length_app; simpl; lia|].
        split; [apply Forall_app; now split|].
        apply Forall_app. split; [exact K1'|].
        revert K2. apply Forall_impl.
        intros s (Hm & k & st & Hi & Hn & Hs). split; [exact Hm|].
        exists (S k), st. split; [lia|]. split; [exact Hn | exact Hs].
      * intros Ps Fp. inversion Fp as [|? ? Fs Fr]; subst.
        destruct (P1 Ps Fs) as [_ Ps1]. now apply P2.
    + intros H. injection H as <- <-. split; [exact O1|]. split.
      * exists ad1, sk1. split; [exact G1|]. split; [simpl; lia|]. now split.
      * intros Ps Fp. inversion Fp as [|? ? Fs Fr]; subst.
        destruct (P1 Ps Fs) as [X _]. discriminate X.
    + destruct O1 as [X|(e & X & _)]; discriminate X.
Qed.

(** X24.  Each step of a scenario leaves at most one trace: a step
    appended by its rule, or a record in [skippedSteps] when a formula of
    its [from] needs a fact that is missing, whose names then enter
    [missingFacts]; a step whose rule fails, whose rule is unknown or
    whose formulas are not all found leaves none.  The facts are never
    touched.  The loop throws nothing but a syntax error of a formula it
    has to parse, and when the formulas of the state and of the [from]
    arrays all parse it returns and leaves a state whose formulas all
    parse. *)
Theorem X24_scenario_steps (index : nat) (stepList : list ScenarioStep)
        (this this' : GentzenSystem) (o : Outcome unit) :
  loadSteps index stepList this = (o, this') ->
  (o = Ret tt \/ exists e, o = Throw e /\ isSyntaxError e)
  /\ (exists added sk,
         grew this this' added sk
         /\ length added + length sk <= length stepList
         /\ Forall (fun n => exists f, formulas n = [f]) added
         /\ Forall (skippedOf index stepList) sk)
  /\ (parseableState this -> fromParse stepList ->
      o = Ret tt /\ parseableState this').
Proof. apply loadSteps_spec. Qed.

Lemma X24_scenario_steps_witness :
  exists added sk,
    grew (mkSystem [fact "P"] [js "A"] [] [])
         (mkSystem
            [fact "P";
             mkStep (js "AlphaRule") (js "and") [factRef (js "A"); fact "P"]
                    [js "(A ∧ P)"]]
            [js "A"] [js "Q"]
            [mkSkipped 2 (js "beta") [js "A"; js "Q"] [js "Q"]])
         added sk
    /\ length added + length sk <= 3.
Proof.
  destruct (X24_scenario_steps 0
              [mkScenarioStep (js "alpha") None (Some [js "A"; js "P"]);
               mkScenarioStep (js "beta") None (Some [js "A"; js "Q"]);
               mkScenarioStep (js "contraposition") None (Some [js "(A & P)"])]
              (mkSystem [fact "P"] [js "A"] [] []) _ _
              ltac:(vm_compute; reflexivity))
    as (_ & (added & sk & G & L & _) & _).
  exists added, sk. split; [exact G | exact L].
Defined.

(** ** A scenario, loaded and evaluated *)

Lemma addPropositions_spec ps :
  forall this,
    addPropositions ps this
    = (Ret tt, mkSystem (steps this ++ map propositionStep ps) (facts this)
                        (missingFacts this) (skippedSteps this)).
Proof.
  induction ps as [|p ps IH]; intros this; cbn [addPropositions map].
  - rewrite app_nil_r. now destruct this.
  - cbv beta iota zeta delta [mbind addProposition pushStep mret].
    rewrite IH. cbn [steps facts missingFacts skippedSteps].
    now rewrite <- app_assoc.
Qed.

Lemma parses_not f : parses f -> parses (c_tilde :: f).
Proof.
  intros P. apply parses_iff in P as (ks & L & K). apply parses_iff.
  exists (opKind NOT :: ks). split.
  - now apply (proj1 (Lexes_tilde f ks)).
  - now apply (proj1 (FlatK_not ks)).
Qed.

Lemma targets_return this targetList :
  parseableState this -> Forall parses targetList ->
  Forall (fun t => returns (targetAlone this t)) targetList.
Proof.
  intros Ps. apply Forall_impl. intros t Pt. unfold targetAlone.
  destruct (searchForProof_returns t 5 this Ps Pt) as [r R]. rewrite R.
  now eexists.
Qed.

Lemma loaded_state scenario factMap :
  exists s1,
    addResolvedFacts factMap emptySystem = (Ret tt, s1)
    /\ steps s1 = [] /\ missingFacts s1 = [] /\ skippedSteps s1 = []
    /\ (forall f,
           In f (facts s1)
           <-> In (f, true) factMap
               \/ exists k, f = c_tilde :: k /\ In (k, false) factMap
                            /\ JsString.startsWith k [c_tilde] = false)
    /\ (addResolvedFacts factMap ;;;
        addPropositions (sc_propositions scenario) ;;;
        loadSteps 0 (sc_steps scenario)) emptySystem
       = loadSteps 0 (sc_steps scenario)
           (mkSystem (map propositionStep (sc_propositions scenario))
                     (facts s1) [] []).
Proof.
  destruct (addResolvedFacts_spec factMap emptySystem)
    as (s1 & E & S & M & K & F).
  exists s1. split; [exact E|]. cbn in S, M, K.
  split; [exact S|]. split; [exact M|]. split; [exact K|]. split.
  - intros f. rewrite F. cbn. tauto.
  - unfold mbind at 1. rewrite E. unfold mbind at 1.
    rewrite addPropositions_spec. now rewrite S, M, K.
Qed.

(** X25.  What a loaded scenario is.  When [loadGentzenScenario] returns,
    every target and every formula of a [from] array parses; the facts of
    the system are the names resolved to true and the negations of the
    names resolved to false; its steps are the propositions, in order,
    then at most one step or one skipped record for each step of the
    scenario.  If moreover the propositions and the names of the fact map
    parse, every formula of the system parses and [evaluateTargets]
    returns on its targets.  Loading throws nothing but a syntax error. *)
Theorem X25_loaded_scenario (scenario : Scenario)
        (factMap : list (jsstring * bool)) :
  (forall ld,
      loadGentzenScenario scenario factMap = Ret ld ->
      ld_targets ld = sc_targets scenario
      /\ ld_propositions ld = sc_propositions scenario
      /\ collectReferencedAtoms scenario = Ret (ld_referencedAtoms ld)
      /\ Forall parses (referencedFormulas scenario)
      /\ (forall f,
             In f (facts (ld_system ld))
             <-> In (f, true) factMap
                 \/ exists k, f = c_tilde :: k /\ In (k, false) factMap
                              /\ JsString.startsWith k [c_tilde] = false)
      /\ (exists added,
             steps (ld_system ld)
             = map propositionStep (sc_propositions scenario) ++ added
             /\ length added + length (skippedSteps (ld_system ld))
                <= length (sc_steps scenario))
      /\ (Forall parses (sc_propositions scenario) ->
          Forall (fun kv => parses (fst kv)) factMap ->
          parseableState (ld_system ld)
          /\ forall results,
               returns (fst (evaluateTargets (ld_targets ld) results
                                             (ld_system ld)))))
  /\ (forall e, loadGentzenScenario scenario factMap = Throw e ->
                isSyntaxError e)
  /\ terminates (loadGentzenScenario scenario factMap).
Proof.
  destruct (loaded_state scenario factMap) as (s1 & E1 & S1 & M1 & K1 & F1 & L).
  unfold loadGentzenScenario. rewrite L.
  set (s2 := mkSystem (map propositionStep (sc_propositions scenario))
                      (facts s1) [] []).
  destruct (loadSteps 0 (sc_steps scenario) s2) as [o s3] eqn:E3.
  destruct (loadSteps_spec _ _ _ _ _ E3)
    as (O3 & (added & sk & (G1 & G2 & G3 & G4) & Len & _ & _) & P3).
  split; [|split].
  - intros ld H. apply obind_Ret in H as (atoms & A & H).
    destruct o as [[]|e|]; try discriminate. injection H as <-.
    cbn [ld_targets ld_propositions ld_referencedAtoms ld_system].
    split; [reflexivity|]. split; [reflexivity|]. split; [exact A|].
    assert (Pr : Forall parses (referencedFormulas scenario)).
    { rewrite collectReferencedAtoms_flat in A.
      now apply addAtomsOf_Ret in A. }
    split; [exact Pr|]. split; [intros f; now rewrite G2|]. split.
    { exists added. split; [exact G1|]. rewrite G3. cbn. lia. }
    intros Pp Pf.
    assert (Ps2 : parseableState s2).
    { split; cbn [facts steps s2].
      - apply Forall_forall. intros f Hf.
        apply F1 in Hf as [Hf|(k & -> & Hk & _)].
        + exact (proj1 (Forall_forall _ _) Pf (f, true) Hf).
        + apply parses_not.
          exact (proj1 (Forall_forall _ _) Pf (k, false) Hk).
      - apply Forall_forall. intros st Hst.
        apply in_map_iff in Hst as (p & <- & Hp). cbn.
        constructor; [|constructor].
        exact (proj1 (Forall_forall _ _) Pp p Hp). }
    assert (Fp : fromParse (sc_steps scenario)).
    { unfold referencedFormulas in Pr. apply Forall_app in Pr as [Pr _].
      apply Forall_forall. intros st Hst from Hf.
      apply Forall_forall. intros g Hg.
      apply (proj1 (Forall_forall _ _) Pr). apply in_flat_map.
      exists st. split; [exact Hst|]. now rewrite Hf. }
    destruct (P3 Ps2 Fp) as [_ Ps3]. split; [exact Ps3|].
    intros results. apply evaluateTargets_returns.
    apply targets_return; [exact Ps3|].
    unfold referencedFormulas in Pr. now apply Forall_app in Pr as [_ Pr].
  - intros e H. apply obind_Throw in H as [H|(atoms & _ & H)].
    + rewrite collectReferencedAtoms_flat in H.
      now apply addAtomsOf_throws in H.
    + destruct O3 as [->|(e0 & -> & Se)]; [discriminate|].
      now injection H as <-.
  - apply obind_terminates.
    + rewrite collectReferencedAtoms_flat. apply addAtomsOf_terminates.
    + intros atoms _. destruct O3 as [->|(e0 & -> & Se)]; discriminate.
Qed.

Lemma X25_loaded_scenario_witness :
  exists ld,
    loadGentzenScenario
      (mkScenario [js "P"]
         [mkScenarioStep (js "alpha") None (Some [js "A"; js "P"])]
         [js "A & P"; js "B"])
      [(js "A", true); (js "B", false)]
    = Ret ld
    /\ parseableState (ld_system ld).
Proof.
  destruct (proj1 (X25_loaded_scenario
                     (mkScenario [js "P"]
                        [mkScenarioStep (js "alpha") None
                                        (Some [js "A"; js "P"])]
                        [js "A & P"; js "B"])
                     [(js "A", true); (js "B", false)])
                  _ ltac:(vm_compute; reflexivity))
    as (_ & _ & _ & _ & _ & _ & H).
  eexists. split; [vm_compute; reflexivity|].
  apply H.
  - constructor; [|constructor]. eexists. vm_compute. reflexivity.
  - constructor; [|constructor; [|constructor]];
      eexists; vm_compute; reflexivity.
Defined.

(** ** The strings the parser accepts *)

Lemma parses_fromString s : parses s <-> returns (parseFormulaFromString s).
Proof.
  unfold parses, parseFormula. split.
  - intros [pf E]. apply obind_Ret in E as (t & E & _). now exists t.
  - intros [t E]. rewrite E. now eexists.
Qed.

(** X26.  The parser accepts a string exactly when the lexer reads it to
    the end and the tokens before the end token are an operand followed by
    any number of binary operators with an operand each, where an operand
    is a name, a negation sign before an operand, or such a sequence
    between parentheses.  Precedence and associativity decide the tree
    that is built, never whether a string is accepted. *)
Theorem X26_accepted_language (s : jsstring) :
  returns (parseFormulaFromString s)
  <-> exists ts eof,
        Lexer.tokenize s = Ret (ts ++ [eof])
        /\ tok_type eof = EOF
        /\ FlatK (map kindOf ts).
Proof.
  rewrite <- parses_fromString, parses_iff. split.
  - intros (ks & L & K). apply Lexes_tokenize in L as (ts & eof & E & M & He).
    exists ts, eof. split; [exact E|]. split; [exact He|]. now rewrite M.
  - intros (ts & eof & E & He & K).
    exists (map kindOf ts). split; [|exact K].
    apply tokenize_Lexes in E as (ks & eof' & L & M & He').
    rewrite map_app in M. cbn [map] in M.
    apply app_inj_tail in M as [<- _]. exact L.
Qed.

(** ** Parentheses, as the validator counts them *)

Lemma parenLoop_skip pre :
  forallb notParen pre = true ->
  forall rest d, (0 <= d)%Z -> parenLoop (pre ++ rest) d = parenLoop rest d.
Proof.
  induction pre as [|c pre IH]; intros H rest d Hd; [reflexivity|].
  cbn [forallb] in H. apply andb_true_iff in H as [Hc H].
  unfold notParen in Hc. apply andb_true_iff in Hc as [H1 H2].
  apply negb_true_iff in H1, H2. cbn [app parenLoop]. rewrite H1, H2.
  destruct (Z.ltb_spec d 0); [lia|]. now apply IH.
Qed.

Lemma whitespace_notParen c : JsString.isWhitespace c = true -> notParen c = true.
Proof.
  intros H. unfold notParen.
  destruct (N.eqb_spec c c_lparen) as [->|_]; [discriminate H|].
  destruct (N.eqb_spec c c_rparen) as [->|_]; [discriminate H|]. reflexivity.
Qed.

Lemma identChar_notParen c : JsString.isIdentChar c = true -> notParen c = true.
Proof.
  intros H. unfold notParen.
  destruct (N.eqb_spec c c_lparen) as [->|_]; [discriminate H|].
  destruct (N.eqb_spec c c_rparen) as [->|_]; [discriminate H|]. reflexivity.
Qed.

Lemma forallb_impl {A} (f g : A -> bool) l :
  (forall x, f x = true -> g x = true) ->
  forallb f l = true -> forallb g l = true.
Proof.
  intros H. rewrite !forallb_forall. intros F x Hx. apply H. now apply F.
Qed.

Lemma operators_notParen op c :
  In (op, c) Lexer.OPERATOR_MAPPINGS -> forallb notParen op = true.
Proof.
  intros H.
  assert (A : forallb (fun oc => forallb notParen (fst oc))
                      Lexer.OPERATOR_MAPPINGS = true) by (vm_compute; reflexivity).
  rewrite forallb_forall in A. exact (A (op, c) H).
Qed.

Lemma dropWhile_split f s :
  exists pre, s = pre ++ JsString.dropWhile f s /\ forallb f pre = true.
Proof.
  exists (JsString.takeWhile f s). split.
  - symmetry. apply takeWhile_dropWhile.
  - apply takeWhile_forallb.
Qed.

Lemma stepOf_eof_parens r d :
  (0 <= d)%Z -> stepOf r = StepEOF -> parenLoop r d = (d, false).
Proof.
  intros Hd. unfold stepOf.
  destruct (dropWhile_split JsString.isWhitespace r) as (ws & E & W).
  apply (forallb_impl _ notParen _ whitespace_notParen) in W.
  destruct (JsString.dropWhile JsString.isWhitespace r) as [|c r0].
  - intros _. rewrite E. now rewrite parenLoop_skip.
  - destruct (c =? c_lparen)%N; [discriminate|].
    destruct (c =? c_rparen)%N; [discriminate|].
    destruct (existsb _ _).
    + destruct (find _ _) as [[op cn]|]; discriminate.
    + destruct (JsString.isLetter c); discriminate.
Qed.

Lemma stepOf_parens r k r' d :
  (0 <= d)%Z -> stepOf r = StepTok k r' ->
  parenLoop r d
  = if (bump k d <? 0)%Z then (bump k d, true) else parenLoop r' (bump k d).
Proof.
  intros Hd. unfold stepOf.
  destruct (dropWhile_split JsString.isWhitespace r) as (ws & E & W).
  apply (forallb_impl _ notParen _ whitespace_notParen) in W.
  destruct (JsString.dropWhile JsString.isWhitespace r) as [|c r0];
    [discriminate|].
  rewrite E, (parenLoop_skip ws W _ d Hd).
  destruct (N.eqb_spec c c_lparen) as [->|N1].
  { intros H. injection H as <- <-. reflexivity. }
  destruct (N.eqb_spec c c_rparen) as [->|N2].
  { intros H. injection H as <- <-. reflexivity. }
  assert (B : forall ty v, ty <> LPAREN -> ty <> RPAREN ->
                           bump (ty, v) d = d).
  { intros ty v H1 H2. unfold bump. cbn [fst]. now destruct ty. }
  destruct (existsb _ Lexer.OPERATOR_MAPPINGS).
  - destruct (find _ _) as [[op cn]|] eqn:F; [|discriminate].
    intros H. injection H as <- <-.
    rewrite B by discriminate. destruct (Z.ltb_spec d 0); [lia|].
    apply find_some in F as [Hin Hs]. cbn [fst] in Hs.
    apply (proj1 (In_sortByLengthDesc _ _)) in Hin.
    apply operators_notParen in Hin.
    apply startsWith_iff in Hs as [rest Hs]. rewrite Hs.
    rewrite skipn_app, skipn_all, Nat.sub_diag. cbn [skipn app].
    now apply parenLoop_skip.
  - destruct (JsString.isLetter c); [|discriminate].
    intros H. injection H as <- <-.
    rewrite B by discriminate. destruct (Z.ltb_spec d 0); [lia|].
    rewrite <- (takeWhile_dropWhile JsString.isIdentChar (c :: r0)) at 1.
    apply parenLoop_skip; [|exact Hd].
    apply (forallb_impl JsString.isIdentChar); [apply identChar_notParen|].
    apply takeWhile_forallb.
Qed.

Lemma Lexes_parens r ks :
  Lexes r ks -> forall d, (0 <= d)%Z -> parenLoop r d = tokenLoop ks d.
Proof.
  induction 1 as [r S|r k r' ks S L IH]; intros d Hd.
  - now apply stepOf_eof_parens.
  - rewrite (stepOf_parens r k r' d Hd S). cbn [tokenLoop].
    destruct (Z.ltb_spec (bump k d) 0); [reflexivity|]. now apply IH.
Qed.

Lemma tokenLoop_app a b d r :
  tokenLoop a d = (r, false) -> tokenLoop (a ++ b) d = tokenLoop b r.
Proof.
  revert d. induction a as [|k a IH]; intros d; cbn [tokenLoop app].
  - intros H. now injection H as <-.
  - destruct (bump k d <? 0)%Z; [discriminate|]. apply IH.
Qed.

Lemma flat_balanced m :
  (forall n, length n <= m -> NegK n ->
             forall d, (0 <= d)%Z -> tokenLoop n d = (d, false))
  /\ (forall tl, length tl <= m -> TailK tl ->
                 forall d, (0 <= d)%Z -> tokenLoop tl d = (d, false)).
Proof.
  induction m as [|m [IHn IHt]]; split.
  - intros n Hm Hn. apply NegK_nonempty in Hn. lia.
  - intros tl Hm Ht. destruct Ht as [|o n tl' Ho Hn Ht]; [reflexivity|].
    simpl in Hm. lia.
  - intros n Hm Hn d Hd. destruct Hn as [name|n' Hn'|v n' tl' Hn' Ht'];
      simpl in Hm.
    + cbn. destruct (Z.ltb_spec d 0); [lia | reflexivity].
    + cbn [tokenLoop]. unfold bump, opKind. cbn [fst].
      destruct (Z.ltb_spec d 0); [lia|]. apply IHn; [lia | exact Hn' | exact Hd].
    + rewrite !length_app in Hm. simpl in Hm.
      cbn [tokenLoop]. unfold bump at 1 2 3. cbn [fst].
      destruct (Z.ltb_spec (d + 1) 0); [lia|].
      rewrite (tokenLoop_app (n' ++ tl') _ (d + 1) (d + 1)).
      * cbn. replace (d + 1 - 1)%Z with d by lia.
        destruct (Z.ltb_spec d 0); [lia | reflexivity].
      * rewrite (tokenLoop_app n' tl' (d + 1) (d + 1)).
        -- apply IHt; [lia | exact Ht' | lia].
        -- apply IHn; [lia | exact Hn' | lia].
  - intros tl Hm Ht d Hd. destruct Ht as [|o n tl' Ho Hn Ht]; [reflexivity|].
    simpl in Hm. rewrite length_app in Hm.
    cbn [tokenLoop]. unfold bump, opKind. cbn [fst].
    destruct (Z.ltb_spec d 0); [lia|].
    rewrite (tokenLoop_app n tl' d d).
    + apply IHt; [lia | exact Ht | exact Hd].
    + apply IHn; [lia | exact Hn | exact Hd].
Qed.

Lemma FlatK_balanced ks : FlatK ks -> tokenLoop ks 0%Z = (0%Z, false).
Proof.
  intros (n & tl & -> & Hn & Ht).
  rewrite (tokenLoop_app n tl 0%Z 0%Z).
  - apply (proj2 (flat_balanced (length tl))); [lia | exact Ht | lia].
  - apply (proj1 (flat_balanced (length n))); [lia | exact Hn | lia].
Qed.

Lemma parses_balanced formula :
  parses formula -> parenLoop formula 0%Z = (0%Z, false).
Proof.
  intros P. apply parses_iff in P as (ks & L & K).
  rewrite (Lexes_parens formula ks L 0%Z) by lia. now apply FlatK_balanced.
Qed.

Lemma excess_cons c s :
  excess (c :: s)
  = (if (c =? c_lparen)%N then excess s - 1
     else if (c =? c_rparen)%N then excess s + 1 else excess s)%Z.
Proof.
  cbn [excess]. destruct (N.eqb_spec c c_lparen) as [->|N1].
  - change (c_lparen =? c_rparen)%N with false. cbv iota. lia.
  - destruct (c =? c_rparen)%N; cbv iota; lia.
Qed.

Lemma parenLoop_excess s :
  forall d, (0 <= d)%Z ->
    match parenLoop s d with
    | (c, false) =>
        c = (d - excess s)%Z
        /\ forall k, (excess (firstn k s) <= d)%Z
    | (c, true) =>
        c = (-1)%Z /\ exists k, (d < excess (firstn k s))%Z
    end.
Proof.
  induction s as [|c s IH]; intros d Hd.
  - cbn. split; [lia|]. intros k. rewrite firstn_nil. cbn. lia.
  - cbn [parenLoop]. rewrite excess_cons.
    assert (F : forall k, excess (firstn (S k) (c :: s))
                          = (if (c =? c_lparen)%N then excess (firstn k s) - 1
                             else if (c =? c_rparen)%N
                                  then excess (firstn k s) + 1
                                  else excess (firstn k s))%Z).
    { intros k. cbn [firstn]. apply excess_cons. }
    destruct (N.eqb_spec c c_lparen) as [->|N1].
    + change (c_lparen =? c_rparen)%N with false. cbv iota.
      change (c_lparen =? c_lparen)%N with true in F. cbv iota in F.
      destruct (Z.ltb_spec (d + 1) 0); [lia|].
      specialize (IH (d + 1)%Z ltac:(lia)).
      destruct (parenLoop s (d + 1)) as [r [|]].
      * destruct IH as [-> (k & X)]. split; [reflexivity|].
        exists (S k). rewrite F. lia.
      * destruct IH as [-> X]. split; [lia|]. intros [|k]; [cbn; lia|].
        rewrite F. specialize (X k). lia.
    + destruct (N.eqb_spec c c_rparen) as [->|N2].
      * change (c_rparen =? c_lparen)%N with false in F.
        change (c_rparen =? c_rparen)%N with true in F. cbv iota in F.
        destruct (Z.ltb_spec (d - 1) 0).
        -- split; [lia|]. exists 1. rewrite F, firstn_O. cbn. lia.
        -- specialize (IH (d - 1)%Z ltac:(lia)).
           destruct (parenLoop s (d - 1)) as [r [|]].
           ++ destruct IH as [-> (k & X)]. split; [reflexivity|].
              exists (S k). rewrite F. lia.
           ++ destruct IH as [-> X]. split; [lia|].
              intros [|k]; [cbn; lia|]. rewrite F. specialize (X k). lia.
      * destruct (N.eqb_spec c c_lparen) as [Y|_]; [now elim N1|].
        destruct (N.eqb_spec c c_rparen) as [Y|_]; [now elim N2|].
        destruct (Z.ltb_spec d 0); [lia|]. specialize (IH d Hd).
        destruct (parenLoop s d) as [r [|]].
        -- destruct IH as [-> (k & X)]. split; [reflexivity|].
           exists (S k). rewrite F. lia.
        -- destruct IH as [-> X]. split; [lia|].
           intros [|k]; [cbn; lia|]. rewrite F. specialize (X k). lia.
Qed.

(** X27.  The parenthesis check of the validator and the parser.  For a
    formula the check pushes no error, one, or the same error twice: none
    exactly when no prefix of the formula has more closing than opening
    parentheses and the whole has as many of each; two exactly when some
    prefix has more closing ones.  A formula that parses gets no error;
    the converse fails, and a formula that parses can get the warning
    that it may need parentheses. *)
Theorem X27_parentheses_check :
  (forall formula,
      (fst (checkFormula formula) = []
       <-> (forall k, (excess (firstn k formula) <= 0)%Z)
           /\ excess formula = 0%Z)
      /\ (fst (checkFormula formula)
          = [HasUnbalancedParentheses formula;
             HasUnbalancedParentheses formula]
          <-> exists k, (0 < excess (firstn k formula))%Z)
      /\ (fst (checkFormula formula) = []
          \/ fst (checkFormula formula) = [HasUnbalancedParentheses formula]
          \/ fst (checkFormula formula)
             = [HasUnbalancedParentheses formula;
                HasUnbalancedParentheses formula]))
  /\ (forall formula, parses formula -> fst (checkFormula formula) = [])
  /\ (exists formula, fst (checkFormula formula) = [] /\ ~ parses formula)
  /\ (exists formula,
         parses formula
         /\ snd (checkFormula formula) = [MayNeedParentheses formula]).
Proof.
  split; [|split; [|split]].
  - intros formula. unfold checkFormula.
    pose proof (parenLoop_excess formula 0%Z ltac:(lia)) as X.
    destruct (parenLoop formula 0) as [c [|]]; cbn [fst app].
    + destruct X as [-> (k & X)]. cbn. split; [|split].
      * split; [discriminate|]. intros [A _]. specialize (A k). lia.
      * split; [intros _; now exists k | reflexivity].
      * right. right. reflexivity.
    + destruct X as [-> X]. destruct (Z.eqb_spec (0 - excess formula) 0).
      * cbn. split; [|split].
        -- split; [|reflexivity]. intros _. split; [exact X | lia].
        -- split; [discriminate|]. intros [k Hk]. specialize (X k). lia.
        -- now left.
      * cbn. split; [|split].
        -- split; [discriminate|]. intros [_ A]. lia.
        -- split; [discriminate|]. intros [k Hk]. specialize (X k). lia.
        -- right. now left.
  - intros formula P. unfold checkFormula.
    now rewrite (parses_balanced formula P).
  - exists (js "()"). split; [reflexivity|]. intros [pf P].
    vm_compute in P. discriminate P.
  - exists (js "A AND B"). split; [|reflexivity].
    eexists. vm_compute. reflexivity.
Qed.

Lemma X27_parentheses_check_witness :
  fst (checkFormula (js "~(A -> (B | C)) <-> D")) = [].
Proof.
  apply (proj1 (proj2 X27_parentheses_check)).
  eexists. vm_compute. reflexivity.
Defined.

(** ** Sample runs *)

Example tokenize_positions :
  Lexer.tokenize (js " (A <-> ~B1) IMPLIES x_2 ")
  = Ret [ mkToken LPAREN (VString (js "(")) 0;
          mkToken IDENTIFIER (VString (js "A")) 1;
          mkToken OPERATOR (VOperator IFF) 3;
          mkToken OPERATOR (VOperator NOT) 7;
          mkToken IDENTIFIER (VString (js "B1")) 8;
          mkToken RPAREN (VString (js ")")) 10;
          mkToken OPERATOR (VOperator IMPLIES) 12;
          mkToken IDENTIFIER (VString (js "x_2")) 20;
          mkToken EOF VNull 23 ].
Proof. vm_compute. reflexivity. Qed.

Example parse_aliases :
  normalizeFormula (js "~~A AND (B | !C) => D <-> E")
  = Ret (js "(((A ∧ (B ∨ ~C)) → D) ↔ E)").
Proof. vm_compute. reflexivity. Qed.

Example parse_unbalanced :
  parseFormulaFromString (js "(A ∧ B")
  = Throw (ParseError (Message (js "Expected ')' after expression")) 6
                      (Some (mkToken EOF VNull 6))).
Proof. vm_compute. reflexivity. Qed.

Example search_one_round :
  fst (searchForProof (js "B & A") 5 (mkSystem [fact "A"; fact "B"] [] [] []))
  = Ret (mkResult true [final_step] [] [] 1).
Proof. vm_compute. reflexivity. Qed.

Example search_not_found_within_depth :
  fst (searchForProof (js "A -> (B -> A)") 1
         (mkSystem [fact "A"; fact "B"] [] [] []))
  = Ret initialResult.
Proof. vm_compute. reflexivity. Qed.

Example search_alias_state :
  let this := mkSystem [fact "A"; fact "C"; fact "B OR (A => C)"] [js "~B"]
                       [] [] in
  fst (searchForProof (js "~~(B | (A -> C))") 2 this)
  = Ret (mkResult true [] [] [] 0)
  /\ fst (searchForProof (js "C & A") 5 this)
     = Ret (mkResult true [final_step] [] [] 1).
Proof. vm_compute. split; reflexivity. Qed.

Example search_malformed_fact :
  searchForProof (js "A") 5 (mkSystem [] [js "is-admin"; js "A"] [] [])
  = (Throw (UnexpectedCharacter 45%N 2),
     mkSystem [] [js "is-admin"; js "A"] [] []).
Proof. vm_compute. reflexivity. Qed.

Example scenario_order :
  let this0 := mkSystem [] [js "CustomerIsVIP"; js "PaymentProcessed"] [] [] in
  let factRef (f : string) := mkStep (js "FactRef") (js "factRef") [] [js f] in
  let '(_, this1) := addProposition (js "ProcessOrder") this0 in
  let '(_, this2) :=
    alphaRule (factRef "CustomerIsVIP"%string)
              (factRef "PaymentProcessed"%string) (js "and")
              this1 in
  map formulas (steps this2)
  = [[js "ProcessOrder"]; [js "(CustomerIsVIP ∧ PaymentProcessed)"]]
  /\ fst (searchForProof (js "(CustomerIsVIP ∧ PaymentProcessed)") 5 this2)
     = Ret (mkResult true [] [] [] 0).
Proof. vm_compute. split; reflexivity. Qed.

Example load_sample :
  loadGentzenScenario
    (mkScenario [js "P"]
       [mkScenarioStep (js "alpha") None (Some [js "A"; js "P"]);
        mkScenarioStep (js "beta") None (Some [js "A"; js "Q"]);
        mkScenarioStep (js "contraposition") None (Some [js "(A & P)"])]
       [js "A & P"])
    [(js "A", true); (js "B", false)]
  = Ret (mkLoaded
           (mkSystem
              [fact "P";
               mkStep (js "AlphaRule") (js "and") [factRef (js "A"); fact "P"]
                      [js "(A ∧ P)"]]
              [js "A"; js "~B"] [js "Q"]
              [mkSkipped 2 (js "beta") [js "A"; js "Q"] [js "Q"]])
           [js "A & P"] [js "P"; js "A"; js "Q"] [js "P"]).
Proof. vm_compute. reflexivity. Qed.
